(** * text-summarizer: extractive summarisation (Tokenizer, TextRank, Summarizer)

    A shallow embedding of [src/tokenizer.ts], [src/textrank.ts] and
    [src/summarizer.ts].

    - A JavaScript [number] is an IEEE-754 binary64 value: [spec_float] with
      precision 53 and maximal exponent 1024, with the operations of
      [SpecFloat] (round to nearest, ties to even).
    - A JavaScript string is a [string]; a character is one code unit in the
      range 0..255 (the Latin-1 part of UTF-16), which is where the character
      classes of the regular expressions of the sources live.
    - Arrays are lists; the keyed [Map] whose iteration order is observed is
      an association list in insertion order.
    - [STOPWORDS] (module [stopwords.ts]) and the implementation-approximated
      [Math.log] and [Math.pow] are parameters. *)

From Stdlib Require Import ZArith List Bool Ascii String Lia Arith PeanoNat.
From Stdlib Require Import Sorted Permutation SpecFloat.
Import ListNotations.

Set Implicit Arguments.

(* ================================================================== *)
(** * JavaScript numbers *)
(* ================================================================== *)

Module Number.

Local Open Scope Z_scope.

Definition prec : Z := 53.
Definition emax : Z := 1024.

Definition number := spec_float.

Definition add : number -> number -> number := SFadd prec emax.
Definition sub : number -> number -> number := SFsub prec emax.
Definition mul : number -> number -> number := SFmul prec emax.
Definition div : number -> number -> number := SFdiv prec emax.
Definition Math_sqrt : number -> number := SFsqrt prec emax.

Definition ltb : number -> number -> bool := SFltb.
Definition leb : number -> number -> bool := SFleb.
(** [x === y] on numbers. *)
Definition eqb : number -> number -> bool := SFeqb.

(** The number denoted by an integer (exact below 2^53). *)
Definition of_Z (z : Z) : number := binary_normalize prec emax z 0 false.
Definition of_nat (n : nat) : number := of_Z (Z.of_nat n).

(** The number denoted by the decimal literal [n/d]: the binary64 value
    nearest to the quotient, as a literal such as [0.85] is read. *)
Definition decimal (n d : Z) : number := div (of_Z n) (of_Z d).

Definition zero : number := S754_zero false.
Definition one : number := Eval vm_compute in of_Z 1.
Definition two : number := Eval vm_compute in of_Z 2.
Definition ten : number := Eval vm_compute in of_Z 10.

Definition is_nan (x : number) : bool :=
  match x with S754_nan => true | _ => false end.

Definition is_zero (x : number) : bool :=
  match x with S754_zero _ => true | _ => false end.

(** ToBoolean on a number: [0], [-0] and [NaN] are falsy. *)
Definition truthy (x : number) : bool := negb (is_zero x || is_nan x).

(** The values of the type [number] are the binary64 data. *)
Definition isNumber (x : number) : Prop := valid_binary prec emax x = true.

(** [x || 0] where [x] may be [undefined]. *)
Definition or_zero (x : option number) : number :=
  match x with
  | Some v => if truthy v then v else zero
  | None => zero
  end.

(** [Math.max(a, b)] and [Math.min(a, b)]: [NaN] if either is [NaN];
    [+0] is larger than [-0]. *)
Definition Math_max (a b : number) : number :=
  match SFcompare a b with
  | None => S754_nan
  | Some Lt => b
  | Some Gt => a
  | Some Eq =>
      match a, b with
      | S754_zero true, S754_zero false => b
      | _, _ => a
      end
  end.

Definition Math_min (a b : number) : number :=
  match SFcompare a b with
  | None => S754_nan
  | Some Lt => a
  | Some Gt => b
  | Some Eq =>
      match a, b with
      | S754_zero false, S754_zero true => b
      | _, _ => a
      end
  end.

(** [Math.floor]: the largest integer not above [x]; zeros, infinities and
    [NaN] are returned as they are, and a negative fraction above -1 gives -1. *)
Definition Math_floor (x : number) : number :=
  match x with
  | S754_finite s m e =>
      if 0 <=? e then x
      else
        let q := Z.shiftr (Zpos m) (- e) in
        if s then
          if Z.shiftl q (- e) =? Zpos m then of_Z (- q) else of_Z (- (q + 1))
        else of_Z q
  | _ => x
  end.

(** ToIntegerOrInfinity. *)
Inductive integerOrInfinity : Type :=
| Int (z : Z)
| PosInf
| NegInf.

Definition toIntegerOrInfinity (x : number) : integerOrInfinity :=
  match x with
  | S754_nan => Int 0
  | S754_zero _ => Int 0
  | S754_infinity false => PosInf
  | S754_infinity true => NegInf
  | S754_finite s m e =>
      let t := if 0 <=? e then Z.shiftl (Zpos m) e else Z.shiftr (Zpos m) (- e) in
      Int (if s then - t else t)
  end.

(** [array.slice(0, end)] keeps the elements before the position [final]; a
    negative [end] counts from the end of the array. *)
Definition sliceFinal (len : nat) (end_ : number) : nat :=
  let len := Z.of_nat len in
  Z.to_nat
    match toIntegerOrInfinity end_ with
    | NegInf => 0
    | PosInf => len
    | Int z => if z <? 0 then Z.max (len + z) 0 else Z.min z len
    end.

Definition slice0 (A : Type) (l : list A) (end_ : number) : list A :=
  firstn (sliceFinal (List.length l) end_) l.

End Number.

(* ================================================================== *)
(** * JavaScript strings and the regular expressions of the sources *)
(* ================================================================== *)

Module JsString.

Local Open Scope string_scope.
Local Open Scope nat_scope.

Definition code (c : ascii) : nat := nat_of_ascii c.

(** [\s], also the set that [trim] strips: WhiteSpace and LineTerminator. *)
Definition isWhiteSpace (c : ascii) : bool :=
  let n := code c in
  (n =? 9) || (n =? 10) || (n =? 11) || (n =? 12) || (n =? 13) || (n =? 32) || (n =? 160).

(** [[A-Z]], [[a-z]], [[0-9]] and [\w]. *)
Definition isUpperAZ (c : ascii) : bool := (65 <=? code c) && (code c <=? 90).
Definition isLowerAZ (c : ascii) : bool := (97 <=? code c) && (code c <=? 122).
Definition isDigit (c : ascii) : bool := (48 <=? code c) && (code c <=? 57).
Definition isWordChar (c : ascii) : bool :=
  isUpperAZ c || isLowerAZ c || isDigit c || (code c =? 95).

(** [[aeiou]] *)
Definition isVowel (c : ascii) : bool :=
  match c with
  | "a" | "e" | "i" | "o" | "u" => true
  | _ => false
  end%char.

Fixpoint revAppend (s acc : string) : string :=
  match s with
  | EmptyString => acc
  | String c s' => revAppend s' (String c acc)
  end.

Definition reverse (s : string) : string := revAppend s EmptyString.

Fixpoint existsChar (p : ascii -> bool) (s : string) : bool :=
  match s with
  | EmptyString => false
  | String c s' => p c || existsChar p s'
  end.

Fixpoint mapChars (f : ascii -> ascii) (s : string) : string :=
  match s with
  | EmptyString => EmptyString
  | String c s' => String (f c) (mapChars f s')
  end.

(** [s.includes(c)] for a one-character argument. *)
Definition includes (s : string) (c : ascii) : bool := existsChar (Ascii.eqb c) s.

(** [s.endsWith(suffix)] *)
Definition endsWith (s suffix : string) : bool :=
  prefix (reverse suffix) (reverse s).

(** [s.slice(0, -k)] *)
Definition dropLast (k : nat) (s : string) : string :=
  substring 0 (String.length s - k) s.

Fixpoint trimStart (s : string) : string :=
  match s with
  | EmptyString => EmptyString
  | String c s' => if isWhiteSpace c then trimStart s' else s
  end.

Definition trimEnd (s : string) : string := reverse (trimStart (reverse s)).

Definition trim (s : string) : string := trimEnd (trimStart s).

Definition nonEmpty (s : string) : bool := negb (String.length s =? 0).

(** [parts.join(sep)] *)
Fixpoint join (sep : string) (parts : list string) : string :=
  match parts with
  | [] => EmptyString
  | [p] => p
  | p :: rest => p ++ sep ++ join sep rest
  end.

(** The longest prefix of characters in a class, and what follows it. *)
Fixpoint span (p : ascii -> bool) (s : string) : string * string :=
  match s with
  | EmptyString => (EmptyString, EmptyString)
  | String c s' =>
      if p c then let (a, b) := span p s' in (String c a, b) else (EmptyString, s)
  end.

(** ** [split] and global [replace]

    Both scan the subject from left to right.  [matchAt prev s] tells whether
    the pattern matches at the current position, where [s] is the rest of the
    subject and [prev] the character before it (for a lookbehind); the
    patterns of the sources never match the empty string.  After a match the
    scan resumes behind it ([skip] counts the characters still to pass). *)
Section Scan.

Variable matchAt : option ascii -> string -> option nat.

Fixpoint splitGo (prev : option ascii) (piece : string) (skip : nat)
         (s : string) : list string :=
  match s with
  | EmptyString => [reverse piece]
  | String c s' =>
      match skip with
      | S k => splitGo (Some c) piece k s'
      | O =>
          match matchAt prev s with
          | Some (S k) => reverse piece :: splitGo (Some c) EmptyString k s'
          | _ => splitGo (Some c) (String c piece) 0 s'
          end
      end
  end.

Definition split (s : string) : list string := splitGo None EmptyString 0 s.

Variable replacement : string -> string.

Fixpoint replaceGo (prev : option ascii) (skip : nat) (s : string) : string :=
  match s with
  | EmptyString => EmptyString
  | String c s' =>
      match skip with
      | S k => replaceGo (Some c) k s'
      | O =>
          match matchAt prev s with
          | Some (S k) => replacement (substring 0 (S k) s) ++ replaceGo (Some c) k s'
          | _ => String c (replaceGo (Some c) 0 s')
          end
      end
  end.

Definition replaceAll (s : string) : string := replaceGo None 0 s.

End Scan.

(** A pattern that is a run [c+] of a character class (greedy). *)
Definition matchRun (p : ascii -> bool) (_ : option ascii) (s : string) : option nat :=
  match String.length (fst (span p s)) with
  | O => None
  | n => Some n
  end.

(** A literal pattern. *)
Definition matchLiteral (lit : string) (_ : option ascii) (s : string) : option nat :=
  if prefix lit s then Some (String.length lit) else None.

(** [toLowerCase] on the code units 0..255: A-Z, and the capital letters
    U+00C0..U+00DE without the multiplication sign U+00D7. *)
Definition toLowerChar (c : ascii) : ascii :=
  let n := code c in
  if ((65 <=? n) && (n <=? 90)) || ((192 <=? n) && (n <=? 222) && negb (n =? 215))
  then ascii_of_nat (n + 32) else c.

Definition toLowerCase (s : string) : string := mapChars toLowerChar s.

End JsString.

(* ================================================================== *)
(** * Tokenizer ([src/tokenizer.ts]) *)
(* ================================================================== *)

Module Tokenizer.

Import JsString.
Local Open Scope string_scope.
Local Open Scope nat_scope.

(** ** splitSentences *)

(** [/([A-Z][a-z]+\.)(\s[A-Z])/]: the length of the match at this position. *)
Definition matchAbbreviation (_ : option ascii) (s : string) : option nat :=
  match s with
  | String c s1 =>
      if isUpperAZ c then
        let (lows, rest) := span isLowerAZ s1 in
        match lows, rest with
        | String _ _, String "." (String w (String u _)) =>
            if isWhiteSpace w && isUpperAZ u
            then Some (String.length lows + 4) else None
        | _, _ => None
        end
      else None
  | EmptyString => None
  end.

(** ['$1_PERIOD_$2']: group 2 is the last two characters of the match,
    group 1 (which ends in the period) all before them. *)
Definition protectPeriod (m : string) : string :=
  let n := String.length m in
  substring 0 (n - 2) m ++ "_PERIOD_" ++ substring (n - 2) 2 m.

Definition isTerminator (c : ascii) : bool :=
  match c with
  | "." | "!" | "?" => true
  | _ => false
  end%char.

Definition doubleQuote : ascii := ascii_of_nat 34.

(** The boundary pattern of [splitSentences]: a run of white space behind
    one of [.], [!], [?] (lookbehind) and before a capital letter, a double
    quote or the end of the text (lookahead). *)
Definition matchBoundary (prev : option ascii) (s : string) : option nat :=
  match prev with
  | Some p =>
      if isTerminator p then
        let (ws, rest) := span isWhiteSpace s in
        match ws, rest with
        | EmptyString, _ => None
        | _, EmptyString => Some (String.length ws)
        | _, String c _ =>
            if isUpperAZ c || Ascii.eqb c doubleQuote
            then Some (String.length ws) else None
        end
      else None
  | None => None
  end.

Definition splitSentences (text : string) : list string :=
  let preprocessed := replaceAll matchAbbreviation protectPeriod text in
  filter nonEmpty
    (map (fun s => trim (replaceAll (matchLiteral "_PERIOD_") (fun _ => ".") s))
         (split matchBoundary preprocessed)).

(** ** stemWord *)

(** The suffix rules, each [if (...) return ...] of the source in turn. *)
Definition stemSuffix (word : string) : string :=
  let len := String.length word in
  if len <=? 2 then word else
  match
    (if endsWith word "ing" && (5 <? len)
     then let stem := dropLast 3 word in
          if existsChar isVowel stem then Some stem else None
     else None)
  with
  | Some r => r
  | None =>
  match
    (if endsWith word "ed" && (4 <? len)
     then let stem := dropLast 2 word in
          if existsChar isVowel stem then Some stem else None
     else None)
  with
  | Some r => r
  | None =>
  if endsWith word "ly" && (4 <? len) then dropLast 2 word else
  if endsWith word "ies" && (4 <? len) then dropLast 3 word ++ "y" else
  if endsWith word "es" && (3 <? len) then dropLast 2 word else
  if endsWith word "s" && negb (endsWith word "ss") && (3 <? len)
  then dropLast 1 word else
  word
  end end.

(** [stemWord] calls itself on the parts of a hyphenated word; [fuel] bounds
    the depth of these calls ([None] when it is used up). *)
Fixpoint stemWordFuel (fuel : nat) (word : string) : option string :=
  match fuel with
  | O => None
  | S fuel' =>
      if includes word "-" then
        let parts := split (matchLiteral "-") word in
        let stemmed := map (stemWordFuel fuel') parts in
        if forallb (fun o => match o with Some _ => true | None => false end) stemmed
        then Some (join "-" (map (fun o => match o with Some p => p | None => EmptyString end) stemmed))
        else None
      else Some (stemSuffix word)
  end.

(** The parts of a hyphenated word hold no hyphen, so depth two is enough
    (lemma [stemWordFuel_enough]). *)
Definition stemWord (word : string) : string :=
  match stemWordFuel 2 word with
  | Some r => r
  | None => word
  end.

(** ** tokenizeWords *)

Definition lowerAZ (c : ascii) : ascii :=
  if isUpperAZ c then ascii_of_nat (code c + 32) else c.

(** Matches the lower-case literal [lit] without regard to case and returns
    the rest of the subject. *)
Fixpoint matchIgnoreCase (lit s : string) : option string :=
  match lit, s with
  | EmptyString, _ => Some s
  | String p lit', String c s' =>
      if Ascii.eqb (lowerAZ c) p then matchIgnoreCase lit' s' else None
  | String _ _, EmptyString => None
  end.

(** [/lit\b/i] for a literal that ends in a letter: the match must not be
    followed by a word character. *)
Definition matchContraction (lit : string) (_ : option ascii) (s : string) : option nat :=
  match matchIgnoreCase lit s with
  | Some EmptyString => Some (String.length lit)
  | Some (String c _) => if isWordChar c then None else Some (String.length lit)
  | None => None
  end.

Definition expandContractions (sentence : string) : string :=
  let s1 := replaceAll (matchContraction "n't") (fun _ => " not") sentence in
  let s2 := replaceAll (matchContraction "'ll") (fun _ => " will") s1 in
  let s3 := replaceAll (matchContraction "'re") (fun _ => " are") s2 in
  let s4 := replaceAll (matchContraction "'ve") (fun _ => " have") s3 in
  let s5 := replaceAll (matchContraction "'m") (fun _ => " am") s4 in
  replaceAll (matchContraction "'s") (fun _ => EmptyString) s5.

(** [/[^\w\s-]/g] replaced by a space. *)
Definition stripPunctuation (c : ascii) : ascii :=
  if isWordChar c || isWhiteSpace c || Ascii.eqb c "-" then c else " "%char.

Section Stopwords.

(** The set [STOPWORDS] of [stopwords.ts], given by its members. *)
Variable STOPWORDS : list string.

Definition STOPWORDS_has (w : string) : bool := existsb (String.eqb w) STOPWORDS.

Definition tokenizeWords (sentence : string) (removeStopwords : bool) : list string :=
  let expanded := expandContractions sentence in
  let words :=
    filter nonEmpty
      (map trim
         (split (matchRun isWhiteSpace)
            (mapChars stripPunctuation (toLowerCase expanded)))) in
  let stemmedWords := map stemWord words in
  if removeStopwords
  then filter (fun word => negb (STOPWORDS_has word)) stemmedWords
  else stemmedWords.

End Stopwords.

End Tokenizer.

(* ================================================================== *)
(** * Arrays *)
(* ================================================================== *)

Module JsArray.

Section Sort.

Variable A : Type.

(** [before a b]: the comparator does not ask for [b] in front of [a]
    (its value on [(a, b)] is not positive). *)
Variable before : A -> A -> bool.

Fixpoint insert (x : A) (l : list A) : list A :=
  match l with
  | [] => [x]
  | y :: l' => if before x y then x :: l else y :: insert x l'
  end.

(** [array.sort(comparator)], a stable sort: elements that compare equal
    keep their order. *)
Definition sort (l : list A) : list A := fold_right insert [] l.

End Sort.

(** A [Map] as the list of its entries in insertion order. *)
Section KeyedMap.

Variables K V : Type.
Variable keyEqb : K -> K -> bool.

Fixpoint get (m : list (K * V)) (k : K) : option V :=
  match m with
  | [] => None
  | (k', v) :: m' => if keyEqb k k' then Some v else get m' k
  end.

Fixpoint set (m : list (K * V)) (k : K) (v : V) : list (K * V) :=
  match m with
  | [] => [(k, v)]
  | (k', v') :: m' => if keyEqb k k' then (k', v) :: m' else (k', v') :: set m' k v
  end.

End KeyedMap.

(** [a] may stand before [b] for the comparison function [before]. *)
Definition ordered (A : Type) (before : A -> A -> bool) (a b : A) : Prop :=
  before a b = true.

(** The length of an array is an integer below 2^32. *)
Definition MAX_LENGTH : Z := 2 ^ 32 - 1.

Definition isArray (A : Type) (l : list A) : Prop :=
  (Z.of_nat (List.length l) <= MAX_LENGTH)%Z.

End JsArray.

(* ================================================================== *)
(** * TextRank ([src/textrank.ts]) *)
(* ================================================================== *)

Module TextRank.

Import Number.
Local Open Scope nat_scope.

(** [new Set(words)]: the distinct words, in order of first occurrence. *)
Definition has (set : list string) (w : string) : bool := existsb (String.eqb w) set.

Fixpoint addAll (set words : list string) : list string :=
  match words with
  | [] => set
  | w :: rest => if has set w then addAll set rest else addAll (set ++ [w]) rest
  end.

Definition newSet (words : list string) : list string := addAll [] words.

Definition DAMPING : number := Eval vm_compute in decimal 85 100.
Definition MAX_ITERATIONS : nat := 50.
Definition CONVERGENCE_THRESHOLD : number := Eval vm_compute in decimal 1 10000.

Section Rank.

Variable STOPWORDS : list string.

(** [Math.pow], which the language leaves implementation-approximated. *)
Variable Math_pow : number -> number -> number.

Definition calculateSimilarity (sentence1 sentence2 : string) : number :=
  let words1 := newSet (Tokenizer.tokenizeWords STOPWORDS sentence1 true) in
  let words2 := newSet (Tokenizer.tokenizeWords STOPWORDS sentence2 true) in
  if (List.length words1 =? 0) || (List.length words2 =? 0) then zero
  else
    let intersection := newSet (filter (has words2) words1) in
    div (of_nat (List.length intersection))
        (mul (Math_sqrt (of_nat (List.length words1))) (Math_sqrt (of_nat (List.length words2)))).

Definition buildSimilarityMatrix (sentences : list string) : list (list number) :=
  let n := List.length sentences in
  map (fun i =>
         map (fun j =>
                if i =? j then zero
                else calculateSimilarity (nth i sentences EmptyString)
                                         (nth j sentences EmptyString))
             (seq 0 n))
      (seq 0 n).

Definition normalizeRow (n : nat) (row : list number) : list number :=
  let sum := fold_left add row zero in
  if eqb sum zero then map (fun _ => div one (of_nat n)) row
  else map (fun val => div val sum) row.

(** [matrix[j][i]]; reading outside an array gives [undefined], which is
    [NaN] in arithmetic. *)
Definition entry (matrix : list (list number)) (j i : nat) : number :=
  nth i (nth j matrix []) S754_nan.

(** One round of the loop: the new score of sentence [i]. *)
Definition newScore (n : nat) (normalizedMatrix : list (list number))
           (scores : list number) (i : nat) : number :=
  let acc :=
    fold_left
      (fun acc j =>
         if i =? j then acc
         else add acc (mul (mul DAMPING (entry normalizedMatrix j i))
                           (nth j scores S754_nan)))
      (seq 0 n) zero in
  add acc (div (sub one DAMPING) (of_nat n)).

Definition updateScores (n : nat) (normalizedMatrix : list (list number))
           (scores : list number) : list number :=
  map (newScore n normalizedMatrix scores) (seq 0 n).

Definition distance (scores newScores : list number) : number :=
  Math_sqrt
    (fold_left
       (fun sum p => add sum (Math_pow (sub (fst p) (snd p)) two))
       (combine scores newScores) zero).

(** The [while] loop; [remaining] is [MAX_ITERATIONS - iteration]. *)
Fixpoint iterate (n : nat) (normalizedMatrix : list (list number))
         (remaining : nat) (scores : list number) : list number :=
  match remaining with
  | O => scores
  | S remaining' =>
      let newScores := updateScores n normalizedMatrix scores in
      let diff := distance scores newScores in
      if ltb diff CONVERGENCE_THRESHOLD then newScores
      else iterate n normalizedMatrix remaining' newScores
  end.

Definition rankSentences (sentences : list string) : list number :=
  let n := List.length sentences in
  if n =? 0 then []
  else if n =? 1 then [one]
  else
    let similarityMatrix := buildSimilarityMatrix sentences in
    let normalizedMatrix := map (normalizeRow n) similarityMatrix in
    let scores := repeat (div one (of_nat n)) n in
    iterate n normalizedMatrix MAX_ITERATIONS scores.

End Rank.

End TextRank.

(* ================================================================== *)
(** * Summarizer ([src/summarizer.ts]) *)
(* ================================================================== *)

Module Summarizer.

Import Number JsString.
Local Open Scope string_scope.
Local Open Scope nat_scope.

(** [interface SentenceWithMetadata]; the field [length] of the source is
    [wordCount] here. *)
Record SentenceWithMetadata : Type := {
  index : nat;
  text : string;
  paragraph : nat;
  wordCount : nat;
  position : number
}.

(** The [options] argument; an absent option is [false]. *)
Record Options : Type := {
  deduplicateSimilar : bool;
  favorPositionScore : bool
}.

Definition newline : ascii := ascii_of_nat 10.
Definition isNewline (c : ascii) : bool := Ascii.eqb c newline.
Definition blankLine : string := String newline (String newline EmptyString).

Definition lit_0_1 : number := Eval vm_compute in decimal 1 10.
Definition lit_0_2 : number := Eval vm_compute in decimal 2 10.
Definition lit_0_3 : number := Eval vm_compute in decimal 3 10.
Definition lit_0_4 : number := Eval vm_compute in decimal 4 10.
Definition lit_0_5 : number := Eval vm_compute in decimal 5 10.
Definition lit_0_6 : number := Eval vm_compute in decimal 6 10.
Definition lit_0_8 : number := Eval vm_compute in decimal 8 10.
Definition lit_1_1 : number := Eval vm_compute in decimal 11 10.
Definition lit_1_2 : number := Eval vm_compute in decimal 12 10.

(** ** Position score (lines 150-159 of [summarize]) *)

Definition basePositionScore (localIdx paragraphSentCount : nat) : number :=
  if paragraphSentCount <=? 1 then one
  else if localIdx =? 0 then one
  else if localIdx =? paragraphSentCount - 1 then lit_0_8
  else sub lit_0_5 (mul lit_0_4 (div (of_nat localIdx) (of_nat paragraphSentCount))).

Definition paragraphMultiplier (paragraphIdx paragraphCount : nat) (score : number) : number :=
  if paragraphIdx =? 0 then mul score lit_1_2
  else if paragraphIdx =? paragraphCount - 1 then mul score lit_1_1
  else score.

Definition clamp01 (score : number) : number := Math_max zero (Math_min one score).

Definition positionScore (paragraphIdx paragraphCount localIdx paragraphSentCount : nat) : number :=
  clamp01 (paragraphMultiplier paragraphIdx paragraphCount
             (basePositionScore localIdx paragraphSentCount)).

Section Summarize.

Variable STOPWORDS : list string.

(** [Math.log] and [Math.pow], which the language leaves
    implementation-approximated. *)
Variable Math_log : number -> number.
Variable Math_pow : number -> number -> number.

Local Abbreviation tokenizeWords := (Tokenizer.tokenizeWords STOPWORDS).
Local Abbreviation calculateSimilarity := (TextRank.calculateSimilarity STOPWORDS).
Local Abbreviation rankSentences := (TextRank.rankSentences STOPWORDS Math_pow).

(** ** calculateTfIdf *)

Definition increment (m : list (string * number)) (word : string) : list (string * number) :=
  JsArray.set String.eqb m word (add (or_zero (JsArray.get String.eqb m word)) one).

Definition countSentence (maps : list (string * number) * list (string * number))
           (sentence : string) : list (string * number) * list (string * number) :=
  let (wordFrequency, documentFrequency) := maps in
  let words := tokenizeWords sentence true in
  let uniqueWords := TextRank.newSet words in
  (fold_left increment words wordFrequency,
   fold_left increment uniqueWords documentFrequency).

Definition calculateTfIdf (sentences : list string) : list (string * number) :=
  let totalDocs := of_nat (List.length sentences) in
  let (wordFrequency, documentFrequency) := fold_left countSentence sentences ([], []) in
  fold_left
    (fun tfIdfScores entry =>
       let (word, freq) := (entry : string * number) in
       let df := match JsArray.get String.eqb documentFrequency word with
                 | Some v => if truthy v then v else one
                 | None => one
                 end in
       let idf := Math_log (div totalDocs df) in
       JsArray.set String.eqb tfIdfScores word (mul freq idf))
    wordFrequency [].

(** ** scoreSentences *)

Definition finalScore (tfIdfScores : list (string * number))
           (textRankScores : list number) (idx : nat)
           (sentence : SentenceWithMetadata) : number :=
  let words := tokenizeWords (text sentence) true in
  let tfIdfScore :=
    div (fold_left (fun sum word => add sum (or_zero (JsArray.get String.eqb tfIdfScores word)))
                   words zero)
        (Math_max one (of_nat (List.length words))) in
  let textRankScore := nth idx textRankScores S754_nan in
  let positionScore := position sentence in
  let lengthScore := Math_min one (div (of_nat (wordCount sentence)) ten) in
  add (add (add (mul lit_0_4 tfIdfScore) (mul lit_0_3 textRankScore))
           (mul lit_0_2 positionScore))
      (mul lit_0_1 lengthScore).

Fixpoint scoreFrom (tfIdfScores : list (string * number)) (textRankScores : list number)
         (idx : nat) (sentences : list SentenceWithMetadata)
         (scores : list (nat * number)) : list (nat * number) :=
  match sentences with
  | [] => scores
  | sentence :: rest =>
      scoreFrom tfIdfScores textRankScores (S idx) rest
        (JsArray.set Nat.eqb scores (index sentence)
           (finalScore tfIdfScores textRankScores idx sentence))
  end.

Definition scoreSentences (sentences : list SentenceWithMetadata)
           (tfIdfScores : list (string * number)) : list (nat * number) :=
  let textRankScores := rankSentences (map text sentences) in
  scoreFrom tfIdfScores textRankScores 0 sentences [].

(** ** deduplicateSentences *)

Definition deduplicateSentences (candidates : list SentenceWithMetadata)
           (similarityThreshold : number) : list SentenceWithMetadata :=
  fold_left
    (fun result candidate =>
       let isDuplicate :=
         existsb (fun selected =>
                    ltb similarityThreshold
                        (calculateSimilarity (text candidate) (text selected)))
                 result in
       if isDuplicate then result else (result ++ [candidate])%list)
    candidates [].

(** ** summarize *)

Definition paragraphsOf (text : string) : list string :=
  filter nonEmpty (map trim (split (matchRun isNewline) text)).

(** The inner [forEach]: the sentences of one paragraph, from local index
    [localIdx] and global index [globalIndex] on. *)
Fixpoint addSentences (favor : bool) (paragraphCount paragraphIdx paragraphSentCount : nat)
         (localIdx globalIndex : nat) (sentences : list string) : list SentenceWithMetadata :=
  match sentences with
  | [] => []
  | sentenceText :: rest =>
      {| index := globalIndex;
         text := sentenceText;
         paragraph := paragraphIdx;
         wordCount := List.length (tokenizeWords sentenceText false);
         position := if favor
                     then positionScore paragraphIdx paragraphCount localIdx paragraphSentCount
                     else lit_0_5 |}
      :: addSentences favor paragraphCount paragraphIdx paragraphSentCount
                      (S localIdx) (S globalIndex) rest
  end.

(** The outer [forEach] over the paragraphs. *)
Fixpoint addParagraphs (favor : bool) (paragraphCount paragraphIdx globalIndex : nat)
         (paragraphs : list string) : list SentenceWithMetadata :=
  match paragraphs with
  | [] => []
  | paragraph :: rest =>
      let sentences := Tokenizer.splitSentences paragraph in
      (addSentences favor paragraphCount paragraphIdx (List.length sentences) 0 globalIndex sentences
       ++ addParagraphs favor paragraphCount (S paragraphIdx)
                        (globalIndex + List.length sentences) rest)%list
  end.

Definition sentencesWithMetadata (options : Options) (text : string) : list SentenceWithMetadata :=
  let paragraphs := paragraphsOf text in
  addParagraphs (favorPositionScore options) (List.length paragraphs) 0 0 paragraphs.

(** [summaryRatio: number = 0.3] *)
Definition ratioOrDefault (summaryRatio : option number) : number :=
  match summaryRatio with
  | Some r => r
  | None => lit_0_3
  end.

Definition sentenceCount (total : nat) (summaryRatio : option number)
           (maxSentences : option number) : number :=
  let byRatio := Math_max one (Math_floor (mul (of_nat total) (ratioOrDefault summaryRatio))) in
  match maxSentences with
  | Some m => if truthy m then Math_min m (of_nat total) else byRatio
  | None => byRatio
  end.

(** The comparator [(a, b) => b.score - a.score]. *)
Definition byScoreDescending (a b : SentenceWithMetadata * number) : bool :=
  negb (ltb zero (sub (snd b) (snd a))).

(** The comparator [(a, b) => a.index - b.index]. *)
Definition byIndexAscending (a b : SentenceWithMetadata) : bool :=
  index a <=? index b.

(** [topSentences]: the ranking by score, cut at [end_]. *)
Definition topSentences (sentenceScores : list (nat * number)) (end_ : number)
           (sentences : list SentenceWithMetadata) : list SentenceWithMetadata :=
  map fst
      (slice0
         (JsArray.sort byScoreDescending
            (map (fun s => (s, or_zero (JsArray.get Nat.eqb sentenceScores (index s))))
                 sentences))
         end_).

(** The sentences chosen for the summary, sorted by index (up to line 193). *)
Definition selectSentences (options : Options) (summaryRatio maxSentences : option number)
           (sentences : list SentenceWithMetadata) : list SentenceWithMetadata :=
  let tfIdfScores := calculateTfIdf (map text sentences) in
  let sentenceScores := scoreSentences sentences tfIdfScores in
  let count := sentenceCount (List.length sentences) summaryRatio maxSentences in
  let top :=
    topSentences sentenceScores
                 (if deduplicateSimilar options then mul count two else count)
                 sentences in
  let selectedSentences :=
    if deduplicateSimilar options
    then slice0 (deduplicateSentences top lit_0_6) count
    else top in
  JsArray.sort byIndexAscending selectedSentences.

(** [sentencesByParagraph]: the groups in the order in which their
    paragraph was first met.  [ensureGroup] is the [if (!has) set] of the
    loop body; the lookup behind it carries a non-null assertion. *)
Definition ensureGroup (groups : list (nat * list SentenceWithMetadata))
           (sentence : SentenceWithMetadata) : list (nat * list SentenceWithMetadata) :=
  match JsArray.get Nat.eqb groups (paragraph sentence) with
  | Some _ => groups
  | None => JsArray.set Nat.eqb groups (paragraph sentence) []
  end.

Definition groupAdd (groups : list (nat * list SentenceWithMetadata))
           (sentence : SentenceWithMetadata) : list (nat * list SentenceWithMetadata) :=
  let groups' := ensureGroup groups sentence in
  match JsArray.get Nat.eqb groups' (paragraph sentence) with
  | Some members => JsArray.set Nat.eqb groups' (paragraph sentence) (members ++ [sentence])%list
  | None => groups'
  end.

Definition groupByParagraph (selected : list SentenceWithMetadata)
  : list (nat * list SentenceWithMetadata) :=
  fold_left groupAdd selected [].

Definition paragraphSummary (sentences : list SentenceWithMetadata) : string :=
  join " " (map text (JsArray.sort byIndexAscending sentences)).

Definition assemble (selected : list SentenceWithMetadata) : string :=
  join blankLine
    (filter nonEmpty (map (fun g => paragraphSummary (snd g)) (groupByParagraph selected))).

Definition summarize (text : string) (summaryRatio maxSentences : option number)
           (options : Options) : string :=
  if String.length text =? 0 then EmptyString
  else if List.length (paragraphsOf text) =? 0 then EmptyString
  else
    let sentences := sentencesWithMetadata options text in
    if List.length sentences <=? 1 then text
    else assemble (selectSentences options summaryRatio maxSentences sentences).

End Summarize.

End Summarizer.


(* ================================================================== *)
(** * The rule cascade of the specification *)
(* ================================================================== *)

Module StemSpec.

Import JsString.
Local Open Scope string_scope.
Local Open Scope nat_scope.

(** The suffix rules as the specification lists them (rules 2 to 7): each
    gives the stem when it applies. *)
Definition Rule : Type := string -> option string.

Definition rule_ing : Rule := fun word =>
  if endsWith word "ing" && (5 <? String.length word)
     && existsChar isVowel (dropLast 3 word)
  then Some (dropLast 3 word) else None.

Definition rule_ed : Rule := fun word =>
  if endsWith word "ed" && (4 <? String.length word)
     && existsChar isVowel (dropLast 2 word)
  then Some (dropLast 2 word) else None.

Definition rule_ly : Rule := fun word =>
  if endsWith word "ly" && (4 <? String.length word)
  then Some (dropLast 2 word) else None.

Definition rule_ies : Rule := fun word =>
  if endsWith word "ies" && (4 <? String.length word)
  then Some (dropLast 3 word ++ "y") else None.

Definition rule_es : Rule := fun word =>
  if endsWith word "es" && (3 <? String.length word)
  then Some (dropLast 2 word) else None.

Definition rule_s : Rule := fun word =>
  if endsWith word "s" && negb (endsWith word "ss") && (3 <? String.length word)
  then Some (dropLast 1 word) else None.

Definition suffixRules : list Rule :=
  [rule_ing; rule_ed; rule_ly; rule_ies; rule_es; rule_s].

(** Strict priority order, first match wins, the word unchanged if no rule
    applies. *)
Fixpoint firstMatch (rules : list Rule) (word : string) : string :=
  match rules with
  | [] => word
  | r :: rest =>
      match r word with
      | Some stem => stem
      | None => firstMatch rest word
      end
  end.

End StemSpec.

(* ================================================================== *)
(** * Document order *)
(* ================================================================== *)

Module DocumentOrder.

Import Summarizer.

(** [a] comes before [b] in the document: a smaller global index, in the
    same or an earlier paragraph. *)
Definition inOrder (a b : SentenceWithMetadata) : Prop :=
  index a < index b /\ paragraph a <= paragraph b.

(** The sentences of one group of the output belong to the paragraph that
    is the key of the group, and there is at least one. *)
Definition groupOf (sentences : list SentenceWithMetadata)
           (g : nat * list SentenceWithMetadata) : Prop :=
  snd g <> [] /\
  Forall (fun s => In s sentences /\ paragraph s = fst g) (snd g).

(** What the groups hold after the sentences [done] were added. *)
Definition grouped (groups : list (nat * list SentenceWithMetadata))
           (done : list SentenceWithMetadata) : Prop :=
  List.concat (map snd groups) = done
  /\ StronglySorted lt (map fst groups)
  /\ Forall (fun g => snd g <> [] /\ Forall (fun s => paragraph s = fst g) (snd g)) groups.

(** A text of white space only. *)
Definition isBlank (text : string) : bool :=
  negb (JsString.existsChar (fun c => negb (JsString.isWhiteSpace c)) text).

(** The text of the output for given groups: sentences joined by a space,
    paragraphs by a blank line. *)
Definition render (groups : list (nat * list SentenceWithMetadata)) : string :=
  JsString.join blankLine
    (map (fun g => JsString.join " " (map text (snd g))) groups).

End DocumentOrder.

(* ================================================================== *)
(** * Rounding to binary64 *)
(* ================================================================== *)

Module Rounding.

Import Number.
Local Open Scope Z_scope.

(** The exponent of the format at a given magnitude. *)
Definition fexp : Z -> Z := SpecFloat.fexp prec emax.

(** A mantissa and exponent in the normal form of the format. *)
Definition canonical (m : positive) (e : Z) : Prop :=
  fexp (Zpos (digits2_pos m) + e) = e.

(** Some bit that was shifted out was set. *)
Definition inexact (mrs : shr_record) : bool := shr_r mrs || shr_s mrs.

(** How [binary_round_aux] ends: the rounded mantissa [m2] at exponent [E]
    is put in normal form, and gives zero, a number or an infinity. *)
Inductive rounds_to (s : bool) (m2 E : Z) : spec_float -> Prop :=
| rounds_zero : m2 = 0 -> rounds_to s m2 E (S754_zero s)
| rounds_finite m3 e3 :
    canonical m3 e3 -> E <= e3 -> Zpos m3 * 2 ^ (e3 - E) = m2 -> e3 <= emax - prec ->
    rounds_to s m2 E (S754_finite s m3 e3)
| rounds_infinity m3 e3 :
    canonical m3 e3 -> E <= e3 -> Zpos m3 * 2 ^ (e3 - E) = m2 -> emax - prec < e3 ->
    rounds_to s m2 E (S754_infinity s).

(** The last steps of [binary_round_aux]: the rounded mantissa is put in
    normal form. *)
Definition finish (s : bool) (m2 E : Z) : spec_float :=
  let r := shr_fexp prec emax m2 E loc_Exact in
  match shr_m (fst r) with
  | Z0 => S754_zero s
  | Zpos m => if snd r <=? emax - prec then S754_finite s m (snd r) else S754_infinity s
  | Zneg _ => S754_nan
  end.

(** The value of a number as a multiple of 2^-2200; every mantissa and
    exponent met while rounding is such a multiple. *)
Definition units (x : number) : Z :=
  match x with
  | S754_finite _ m e => Zpos m * 2 ^ (e + 2200)
  | _ => 0
  end.

(** A number of the format that is zero or positive and finite. *)
Definition good (x : number) : bool :=
  valid_binary prec emax x &&
  match x with
  | S754_zero _ => true
  | S754_finite false _ _ => true
  | _ => false
  end.

(** The number [j * 2^k], for bounds in the proofs. *)
Definition dyadic (j : positive) (k : Z) : number := binary_round prec emax false j k.

(** A number that is zero, negative or minus infinity. *)
Definition nonpositive (x : number) : bool :=
  match x with
  | S754_zero _ => true
  | S754_finite true _ _ => true
  | S754_infinity true => true
  | _ => false
  end.

(** A number that is zero or positive, possibly plus infinity. *)
Definition nonnegative (x : number) : Prop :=
  good x = true \/ x = S754_infinity false.

(** A number between 0 and 1. *)
Definition unit_interval (x : number) : Prop :=
  good x = true /\ units x <= 2 ^ 2200.

(** A number between 0 and 2^e. *)
Definition within (e : Z) (x : number) : Prop :=
  good x = true /\ units x <= 2 ^ (e + 2200).

End Rounding.

(* ================================================================== *)
(** * Token sets *)
(* ================================================================== *)

Module TokenSets.

Import TextRank.

(** The token set of a sentence as [calculateSimilarity] builds it: stop
    words removed, duplicates collapsed. *)
Definition tokenSet (STOPWORDS : list string) (sentence : string) : list string :=
  newSet (Tokenizer.tokenizeWords STOPWORDS sentence true).

(** The members of [words1] that are in [words2]. *)
Definition common (words1 words2 : list string) : list string :=
  newSet (filter (has words2) words1).

(** The quotient of [calculateSimilarity] for an intersection of [i] words
    and sets of [a] and [b] words. *)
Definition cosine (i a b : nat) : Number.number :=
  Number.div (Number.of_nat i)
    (Number.mul (Number.Math_sqrt (Number.of_nat a)) (Number.Math_sqrt (Number.of_nat b))).

End TokenSets.

(* ================================================================== *)
(** * Character classes and positions *)
(* ================================================================== *)

Module Alphabet.

Import JsString.

(** Every character of the string is in the class. *)
Definition allChars (p : ascii -> bool) (s : string) : bool :=
  negb (existsChar (fun c => negb (p c)) s).

(** The characters of a token: [a-z], [0-9], the underscore and the hyphen. *)
Definition isTokenChar (c : ascii) : bool :=
  isLowerAZ c || isDigit c || (code c =? 95) || Ascii.eqb c "-".

(** The first and the last character of a text. *)
Definition firstChar (s : string) : option ascii :=
  match s with
  | EmptyString => None
  | String c _ => Some c
  end.

Definition lastChar (s : string) : option ascii := firstChar (reverse s).

(** A text without white space at either end. *)
Definition isTrimmed (s : string) : bool :=
  match firstChar s, lastChar s with
  | Some a, Some b => negb (isWhiteSpace a) && negb (isWhiteSpace b)
  | _, _ => true
  end.

(** The character before the position is not in the class [p]. *)
Definition behind (p : ascii -> bool) (prev : option ascii) : Prop :=
  match prev with
  | Some c => p c = false
  | None => True
  end.

End Alphabet.

(* ================================================================== *)
(** * Subsequences *)
(* ================================================================== *)

Module Sequences.

(** [l1] is [l2] with some elements left out. *)
Inductive subsequence (A : Type) : list A -> list A -> Prop :=
| subsequence_nil : subsequence [] []
| subsequence_skip (x : A) (l1 l2 : list A) :
    subsequence l1 l2 -> subsequence l1 (x :: l2)
| subsequence_keep (x : A) (l1 l2 : list A) :
    subsequence l1 l2 -> subsequence (x :: l1) (x :: l2).

End Sequences.

(* ================================================================== *)
(** * Word counts *)
(* ================================================================== *)

Module TfIdfSpec.

Import Number.

(** The number of times [w] occurs in [words]. *)
Definition occurrences (w : string) (words : list string) : nat :=
  List.length (filter (String.eqb w) words).

(** The number of documents that hold [w]. *)
Definition documentsWith (w : string) (documents : list (list string)) : nat :=
  List.length (filter (fun d => TextRank.has d w) documents).

(** A map that holds the count [c w] under every key [w] whose count is
    not 0, and nothing else. *)
Definition counted (m : list (string * number)) (c : string -> nat) : Prop :=
  forall w, JsArray.get String.eqb m w = if c w =? 0 then None else Some (of_nat (c w)).

End TfIdfSpec.

(* ================================================================== *)
(** * Scores on a line *)
(* ================================================================== *)

Module Ranking.

Import Number Summarizer.
Local Open Scope Z_scope.

(** The score that the ranking reads for a sentence:
    [sentenceScores.get(s.index) || 0]. *)
Definition scoreOf (sentenceScores : list (nat * number)) (s : SentenceWithMetadata)
  : number :=
  or_zero (JsArray.get Nat.eqb sentenceScores (index s)).

(** A bound beyond every finite value, in multiples of 2^-2200. *)
Definition beyond : Z := 2 ^ 4000.

(** The place of a number on the line of the integers: its value as a
    multiple of 2^-2200, the infinities beyond every finite value. *)
Definition place (x : number) : Z :=
  match x with
  | S754_finite s m e => cond_Zopp s (Zpos m * 2 ^ (e + 2200))
  | S754_infinity s => cond_Zopp s beyond
  | _ => 0
  end.

(** A number that is not [NaN]. *)
Definition comparable (x : number) : Prop :=
  isNumber x /\ is_nan x = false.

End Ranking.

(* ================================================================== *)
(** * The ranking of the specification *)
(* ================================================================== *)

Module RankSpec.

Import Number TextRank.
Local Open Scope nat_scope.

Section Spec.

Variable STOPWORDS : list string.
Variable Math_pow : number -> number -> number.

(** The sentences to rank; sentence [i] is the one at position [i]. *)
Variable sentences : list string.

(** The similarity of the sentences [j] and [k] in the matrix, which has 0
    on its diagonal. *)
Definition similarity (j k : nat) : number :=
  if j =? k then zero
  else calculateSimilarity STOPWORDS (nth j sentences EmptyString)
                           (nth k sentences EmptyString).

(** The sum of row [j] of the matrix, added up from the left. *)
Definition rowSum (j : nat) : number :=
  fold_left (fun sum k => add sum (similarity j k)) (seq 0 (List.length sentences)) zero.

(** The entry of row [j] and column [i] of the normalized matrix: the
    similarity over the sum of its row, and [1/N] in a row whose sum is 0. *)
Definition weight (j i : nat) : number :=
  if eqb (rowSum j) zero then div one (of_nat (List.length sentences))
  else div (similarity j i) (rowSum j).

(** One round for sentence [i]: the sum over the other sentences [j] of
    [damping * weight j i * score j], then the restart term
    [(1 - damping) / N]. *)
Definition nextScore (score : nat -> number) (i : nat) : number :=
  add (fold_left
         (fun sum j =>
            if i =? j then sum
            else add sum (mul (mul DAMPING (weight j i)) (score j)))
         (seq 0 (List.length sentences)) zero)
      (div (sub one DAMPING) (of_nat (List.length sentences))).

(** The score of sentence [i] after a number of rounds, from [1/N]. *)
Fixpoint scoreAfter (rounds : nat) : nat -> number :=
  match rounds with
  | O => fun _ => div one (of_nat (List.length sentences))
  | S r => nextScore (scoreAfter r)
  end.

(** The Euclidean distance between the scores after [r] and after [r + 1]
    rounds. *)
Definition change (r : nat) : number :=
  Math_sqrt
    (fold_left
       (fun sum i => add sum (Math_pow (sub (scoreAfter r i) (scoreAfter (S r) i)) two))
       (seq 0 (List.length sentences)) zero).

(** Round [r + 1] moved the scores by less than the threshold. *)
Definition settled (r : nat) : bool := ltb (change r) CONVERGENCE_THRESHOLD.

End Spec.

End RankSpec.

(* ================================================================== *)
(** * Sample inputs *)
(* ================================================================== *)

Module Samples.

Import Number JsString Summarizer.
Local Open Scope string_scope.

(** A few members of a stop word list, a logarithm and a power to run the
    functions on: the results below do not depend on them. *)
Definition someStopwords : list string := ["the"; "a"; "is"; "of"; "and"; "at"; "in"].
Definition someLog (x : number) : number := x.
Definition somePow (x y : number) : number := mul x x.

Definition plain : Options := {| deduplicateSimilar := false; favorPositionScore := false |}.
Definition favoring : Options := {| deduplicateSimilar := false; favorPositionScore := true |}.

Definition twoParagraphs : string :=
  "Cats purr loudly. Dogs bark at cats. Birds sing songs."
  ++ blankLine ++ "Fish swim in water. Cats chase fish.".

End Samples.

(* ================================================================== *)
(** * Facts about strings *)
(* ================================================================== *)

Module StringFacts.

Import JsString.
Local Open Scope string_scope.
Local Open Scope nat_scope.

Lemma append_nil_r (s : string) : s ++ EmptyString = s.
Proof. induction s as [|c s IH]; simpl; [reflexivity | now rewrite IH]. Qed.

Lemma append_assoc (a b c : string) : (a ++ b) ++ c = a ++ (b ++ c).
Proof. induction a as [|x a IH]; simpl; [reflexivity | now rewrite IH]. Qed.

Lemma length_append (a b : string) :
  String.length (a ++ b) = String.length a + String.length b.
Proof. induction a as [|x a IH]; simpl; [reflexivity | now rewrite IH]. Qed.

Lemma revAppend_spec (s acc : string) : revAppend s acc = reverse s ++ acc.
Proof.
  unfold reverse. revert acc.
  induction s as [|c s IH]; intro acc; simpl; [reflexivity|].
  rewrite (IH (String c acc)), (IH (String c EmptyString)), append_assoc.
  reflexivity.
Qed.

Lemma reverse_cons (c : ascii) (s : string) :
  reverse (String c s) = reverse s ++ String c EmptyString.
Proof. unfold reverse at 1. simpl. apply revAppend_spec. Qed.

Lemma reverse_append (a b : string) : reverse (a ++ b) = reverse b ++ reverse a.
Proof.
  induction a as [|c a IH]; simpl.
  - now rewrite append_nil_r.
  - now rewrite !reverse_cons, IH, append_assoc.
Qed.

Lemma length_reverse (s : string) : String.length (reverse s) = String.length s.
Proof.
  induction s as [|c s IH]; [reflexivity|].
  rewrite reverse_cons, length_append, IH. simpl. lia.
Qed.

Lemma prefix_append (p s : string) : prefix p (p ++ s) = true.
Proof.
  induction p as [|c p IH]; simpl; [now destruct s|].
  destruct (ascii_dec c c) as [_|ne]; [exact IH | now elim ne].
Qed.

Lemma endsWith_append (s suffix : string) : endsWith (s ++ suffix) suffix = true.
Proof. unfold endsWith. rewrite reverse_append. apply prefix_append. Qed.

Lemma substring_append (a b : string) : substring 0 (String.length a) (a ++ b) = a.
Proof.
  induction a as [|c a IH]; simpl; [now destruct b | now rewrite IH].
Qed.

Lemma dropLast_append (s suffix : string) :
  dropLast (String.length suffix) (s ++ suffix) = s.
Proof.
  unfold dropLast. rewrite length_append.
  replace (String.length s + String.length suffix - String.length suffix)
    with (String.length s) by lia.
  apply substring_append.
Qed.

Lemma existsChar_append (p : ascii -> bool) (a b : string) :
  existsChar p (a ++ b) = existsChar p a || existsChar p b.
Proof.
  induction a as [|c a IH]; simpl; [reflexivity|].
  now rewrite IH, orb_assoc.
Qed.

Lemma existsChar_reverse (p : ascii -> bool) (s : string) :
  existsChar p (reverse s) = existsChar p s.
Proof.
  induction s as [|c s IH]; [reflexivity|].
  rewrite reverse_cons, existsChar_append, IH. simpl.
  rewrite orb_false_r. apply orb_comm.
Qed.

(** The pieces of [split] on a literal character do not hold it. *)
Lemma splitGo_literal_free (c : ascii) (s piece : string) (prev : option ascii) :
  existsChar (Ascii.eqb c) piece = false ->
  Forall (fun part => existsChar (Ascii.eqb c) part = false)
         (splitGo (matchLiteral (String c EmptyString)) prev piece 0 s).
Proof.
  revert piece prev.
  induction s as [|x s IH]; intros piece prev Hpiece; simpl.
  - constructor; [|constructor]. now rewrite existsChar_reverse.
  - unfold matchLiteral at 1. simpl.
    destruct (ascii_dec c x) as [->|ne]; simpl.
    + destruct s; simpl.
      * constructor; [now rewrite existsChar_reverse|].
        constructor; [reflexivity | constructor].
      * constructor; [now rewrite existsChar_reverse|].
        apply (IH EmptyString). reflexivity.
    + apply IH. simpl. rewrite Hpiece.
      destruct (Ascii.eqb_spec c x); [contradiction | reflexivity].
Qed.

Lemma split_literal_free (c : ascii) (s : string) :
  Forall (fun part => includes part c = false)
         (split (matchLiteral (String c EmptyString)) s).
Proof. apply splitGo_literal_free. reflexivity. Qed.

End StringFacts.

(* ================================================================== *)
(** * Tokenizer: sentence splitting and stemming *)
(* ================================================================== *)

Module TokenizerFacts.

Import JsString Tokenizer StemSpec StringFacts.
Local Open Scope string_scope.
Local Open Scope nat_scope.

(** ** splitSentences *)

(** C1. The replacement text ['$1_PERIOD_$2'] keeps the period of group 1 and
    puts the marker behind it; restoring the marker to a period then leaves
    two periods.  On the text [Dr. Smith went home.] the only sentence
    returned is [Dr.. Smith went home.], which is not a segment of the text. *)
Theorem splitSentences_doubles_period :
  splitSentences "Dr. Smith went home." = ["Dr.. Smith went home."].
Proof. vm_compute. reflexivity. Qed.

(** The marker itself is not private: a text that holds it is altered too. *)
Lemma splitSentences_rewrites_marker :
  splitSentences "a_PERIOD_b" = ["a.b"].
Proof. vm_compute. reflexivity. Qed.

(** A text without the abbreviation pattern is split at its boundaries and
    its sentences are returned as they are. *)
Lemma splitSentences_plain :
  splitSentences "He slept!  Then he woke? yes. " = ["He slept!"; "Then he woke? yes."].
Proof. vm_compute. reflexivity. Qed.

(** ** stemWord *)

(** The parts of a hyphenated word are stemmed by the suffix rules alone, so
    the recursion of [stemWord] ends after one level: any fuel from two on
    gives the same result. *)
Lemma stemWordFuel_step (fuel : nat) (word : string) :
  stemWordFuel (S fuel) word =
  if includes word "-" then
    let stemmed := map (stemWordFuel fuel) (split (matchLiteral "-") word) in
    if forallb (fun o => match o with Some _ => true | None => false end) stemmed
    then Some (join "-" (map (fun o => match o with Some p => p | None => EmptyString end)
                             stemmed))
    else None
  else Some (stemSuffix word).
Proof. reflexivity. Qed.

Lemma stemWordFuel_plain (fuel : nat) (word : string) :
  includes word "-" = false ->
  stemWordFuel (S fuel) word = Some (stemSuffix word).
Proof. intro H. now rewrite stemWordFuel_step, H. Qed.

Lemma map_stemWordFuel_parts (fuel : nat) (parts : list string) :
  Forall (fun part => includes part "-" = false) parts ->
  map (stemWordFuel (S fuel)) parts = map (fun part => Some (stemSuffix part)) parts.
Proof.
  induction 1 as [|part parts Hpart _ IH]; [reflexivity|].
  cbn [map]. rewrite IH. f_equal. now apply stemWordFuel_plain.
Qed.

Lemma forallb_map_Some (A B : Type) (f : A -> B) (l : list A) :
  forallb (fun o : option B => match o with Some _ => true | None => false end)
          (map (fun x => Some (f x)) l) = true.
Proof. induction l; simpl; auto. Qed.

Lemma stemWordFuel_hyphen (fuel : nat) (word : string) :
  includes word "-" = true ->
  stemWordFuel (S (S fuel)) word =
  Some (join "-" (map stemSuffix (split (matchLiteral "-") word))).
Proof.
  intro H. rewrite stemWordFuel_step, H. cbv zeta.
  rewrite (map_stemWordFuel_parts fuel (split_literal_free "-" word)).
  rewrite forallb_map_Some, map_map. reflexivity.
Qed.

Lemma stemWordFuel_enough (fuel : nat) (word : string) :
  2 <= fuel -> stemWordFuel fuel word = Some (stemWord word).
Proof.
  intro Hfuel. destruct fuel as [|[|fuel]]; try lia.
  unfold stemWord.
  destruct (includes word "-") eqn:H.
  - now rewrite (stemWordFuel_hyphen fuel word H), (stemWordFuel_hyphen 0 word H).
  - now rewrite (stemWordFuel_plain (S fuel) word H), (stemWordFuel_plain 1 word H).
Qed.

Lemma stemWord_plain (word : string) :
  includes word "-" = false -> stemWord word = stemSuffix word.
Proof. intro H. unfold stemWord. now rewrite (stemWordFuel_plain 1 word H). Qed.

Lemma stemWord_hyphen (word : string) :
  includes word "-" = true ->
  stemWord word = join "-" (map stemWord (split (matchLiteral "-") word)).
Proof.
  intro H. unfold stemWord at 1. rewrite (stemWordFuel_hyphen 0 word H).
  f_equal. apply map_ext_Forall.
  eapply Forall_impl; [|apply (split_literal_free "-" word)].
  intros part Hpart. cbv beta in Hpart. now rewrite stemWord_plain.
Qed.

(** The sequence of [if (...) return] statements is the first match in the
    list of suffix rules; the early return for words of at most two
    characters changes nothing, as every rule asks for more than three. *)
Lemma stemSuffix_firstMatch (word : string) :
  stemSuffix word = firstMatch suffixRules word.
Proof.
  unfold stemSuffix, suffixRules, firstMatch,
    rule_ing, rule_ed, rule_ly, rule_ies, rule_es, rule_s.
  destruct (String.length word <=? 2) eqn:Hshort.
  - apply Nat.leb_le in Hshort.
    assert (H5 : (5 <? String.length word) = false) by (apply Nat.ltb_ge; lia).
    assert (H4 : (4 <? String.length word) = false) by (apply Nat.ltb_ge; lia).
    assert (H3 : (3 <? String.length word) = false) by (apply Nat.ltb_ge; lia).
    rewrite H5, H4, H3, !andb_false_r. reflexivity.
  - destruct (endsWith word "ing" && (5 <? String.length word)); simpl;
      [destruct (existsChar isVowel (dropLast 3 word)); [reflexivity|]|];
      (destruct (endsWith word "ed" && (4 <? String.length word)); simpl;
       [destruct (existsChar isVowel (dropLast 2 word)); [reflexivity|]|]);
      (destruct (endsWith word "ly" && (4 <? String.length word)); [reflexivity|]);
      (destruct (endsWith word "ies" && (4 <? String.length word)); [reflexivity|]);
      (destruct (endsWith word "es" && (3 <? String.length word)); [reflexivity|]);
      (destruct (endsWith word "s" && negb (endsWith word "ss") && (3 <? String.length word));
       reflexivity).
Qed.

(** C5, as amended.  [stemWord] first stems the parts of a hyphenated word;
    on a word without a hyphen it is the first match of the suffix rules in
    their priority order, so that a word [stem ++ "ing"] without a hyphen, of
    more than five characters, whose stem holds a vowel, is stemmed to [stem];
    and [stemWord "running" = "runn"]. *)
Theorem stemWord_priority_ing :
  (forall word, includes word "-" = true ->
     stemWord word = join "-" (map stemWord (split (matchLiteral "-") word)))
  /\ (forall word, includes word "-" = false ->
        stemWord word = firstMatch suffixRules word)
  /\ (forall stem, includes (stem ++ "ing") "-" = false ->
        5 < String.length (stem ++ "ing") ->
        existsChar isVowel stem = true ->
        stemWord (stem ++ "ing") = stem)
  /\ stemWord "running" = "runn".
Proof.
  split; [exact stemWord_hyphen|].
  split; [intros word H; now rewrite stemWord_plain, stemSuffix_firstMatch|].
  split; [|vm_compute; reflexivity].
  intros stem Hfree Hlen Hvowel.
  rewrite (stemWord_plain _ Hfree), stemSuffix_firstMatch.
  unfold suffixRules, firstMatch, rule_ing.
  rewrite endsWith_append.
  rewrite (dropLast_append stem "ing" : dropLast 3 (stem ++ "ing") = stem), Hvowel.
  apply Nat.ltb_lt in Hlen. rewrite Hlen. reflexivity.
Qed.

Lemma stemWord_priority_ing_witness :
  includes ("runn" ++ "ing") "-" = false
  /\ 5 < String.length ("runn" ++ "ing")
  /\ existsChar isVowel "runn" = true
  /\ stemWord ("runn" ++ "ing") = "runn".
Proof.
  split; [reflexivity|]. split; [simpl; lia|]. split; [reflexivity|].
  apply (proj1 (proj2 (proj2 stemWord_priority_ing)) "runn");
    [reflexivity | simpl; lia | reflexivity].
Defined.

(** The hyphen rule comes before the suffix rules: [well-being] ends in
    [ing], has more than five characters and a vowel in [well-be], and is
    returned whole, its last part [being] being too short for the rule. *)
Lemma stemWord_hyphenated_ing :
  endsWith "well-being" "ing" = true
  /\ 5 < String.length "well-being"
  /\ existsChar isVowel (dropLast 3 "well-being") = true
  /\ stemWord "well-being" = "well-being"
  /\ stemWord "well-being" <> dropLast 3 "well-being".
Proof.
  split; [reflexivity|]. split; [simpl; lia|]. split; [reflexivity|].
  split; [vm_compute; reflexivity|].
  vm_compute. discriminate.
Qed.

End TokenizerFacts.

(* ================================================================== *)
(** * Facts about arrays: sort, slice, keyed maps *)
(* ================================================================== *)

Module ArrayFacts.

Import Number JsArray.
Local Open Scope nat_scope.

Section SortFacts.

Variable A : Type.
Variable before : A -> A -> bool.

Lemma insert_perm (x : A) (l : list A) : Permutation (insert before x l) (x :: l).
Proof.
  induction l as [|y l IH]; simpl; [reflexivity|].
  destruct (before x y); [reflexivity|].
  rewrite IH. apply perm_swap.
Qed.

Lemma sort_perm (l : list A) : Permutation (sort before l) l.
Proof.
  induction l as [|x l IH]; simpl; [reflexivity|].
  rewrite insert_perm. now constructor.
Qed.

Lemma sort_length (l : list A) : List.length (sort before l) = List.length l.
Proof. apply Permutation_length, sort_perm. Qed.

Lemma sort_In (l : list A) (x : A) : In x (sort before l) <-> In x l.
Proof.
  split; apply Permutation_in; [apply sort_perm | symmetry; apply sort_perm].
Qed.

Lemma sort_NoDup (l : list A) : NoDup l -> NoDup (sort before l).
Proof. apply Permutation_NoDup. symmetry. apply sort_perm. Qed.


(** A list that is in order already is left as it is. *)
Lemma sort_ordered (l : list A) : StronglySorted (ordered before) l -> sort before l = l.
Proof.
  induction 1 as [|x l Hl IH Hx]; [reflexivity|].
  simpl. rewrite IH. destruct l as [|y l]; [reflexivity|].
  simpl. inversion Hx as [|? ? Hxy _]; subst. now rewrite Hxy.
Qed.

Hypothesis before_total : forall a b, before a b = true \/ before b a = true.
Hypothesis before_trans :
  forall a b c, before a b = true -> before b c = true -> before a c = true.

Lemma insert_sorted (x : A) (l : list A) :
  StronglySorted (ordered before) l -> StronglySorted (ordered before) (insert before x l).
Proof.
  induction 1 as [|y l Hl IH Hy]; simpl.
  - repeat constructor.
  - destruct (before x y) eqn:Hxy.
    + constructor; [now constructor|].
      constructor; [exact Hxy|].
      eapply Forall_impl; [|exact Hy].
      intros z Hz. now apply before_trans with y.
    + constructor; [exact IH|].
      assert (Hyx : before y x = true)
        by (destruct (before_total x y) as [H|H]; [congruence | exact H]).
      eapply Permutation_Forall; [symmetry; apply insert_perm|].
      now constructor.
Qed.

Lemma sort_sorted (l : list A) : StronglySorted (ordered before) (sort before l).
Proof.
  induction l as [|x l IH]; simpl; [constructor | now apply insert_sorted].
Qed.

End SortFacts.

Lemma StronglySorted_app (A : Type) (R : A -> A -> Prop) (l1 l2 : list A) :
  StronglySorted R l1 -> StronglySorted R l2 ->
  (forall a b, In a l1 -> In b l2 -> R a b) ->
  StronglySorted R (l1 ++ l2).
Proof.
  intros H1 H2 H12. induction H1 as [|x l1 Hl1 IH Hx]; simpl; [exact H2|].
  constructor.
  - apply IH. intros a b Ha Hb. apply H12; [now right | exact Hb].
  - apply Forall_app. split; [exact Hx|].
    apply Forall_forall. intros b Hb. apply H12; [now left | exact Hb].
Qed.

Lemma StronglySorted_impl (A : Type) (R R' : A -> A -> Prop) (l : list A) :
  (forall a b, In a l -> In b l -> R a b -> R' a b) ->
  StronglySorted R l -> StronglySorted R' l.
Proof.
  intros Himpl H. induction H as [|x l Hl IH Hx]; constructor.
  - apply IH. intros a b Ha Hb. apply Himpl; now right.
  - rewrite Forall_forall in *. intros b Hb.
    apply Himpl; [now left | now right | now apply Hx].
Qed.

(** ** slice *)

Lemma slice0_length (A : Type) (l : list A) (end_ : number) :
  List.length (slice0 l end_) = sliceFinal (List.length l) end_.
Proof.
  unfold slice0. rewrite length_firstn. apply Nat.min_l.
  unfold sliceFinal. destruct (toIntegerOrInfinity end_) as [z| |]; [|lia|lia].
  destruct (z <? 0)%Z eqn:Hz; lia.
Qed.

Lemma sliceFinal_le (len : nat) (end_ : number) : sliceFinal len end_ <= len.
Proof.
  unfold sliceFinal. destruct (toIntegerOrInfinity end_) as [z| |]; [|lia|lia].
  destruct (z <? 0)%Z eqn:Hz; lia.
Qed.

Lemma firstn_incl (A : Type) (n : nat) (l : list A) : incl (firstn n l) l.
Proof.
  revert n. induction l as [|x l IH]; intros [|n] y; simpl; try tauto.
  intros [->|H]; [now left | right; exact (IH n y H)].
Qed.

Lemma firstn_NoDup (A : Type) (n : nat) (l : list A) : NoDup l -> NoDup (firstn n l).
Proof.
  intro H. revert n. induction H as [|x l Hx Hl IH]; intros [|n]; simpl; try constructor.
  - intro Hin. apply Hx. exact (@firstn_incl _ n l x Hin).
  - apply IH.
Qed.

Lemma slice0_incl (A : Type) (l : list A) (end_ : number) : incl (slice0 l end_) l.
Proof. apply firstn_incl. Qed.

Lemma slice0_NoDup (A : Type) (l : list A) (end_ : number) :
  NoDup l -> NoDup (slice0 l end_).
Proof. apply firstn_NoDup. Qed.

(** ** Maps keyed by numbers *)

Lemma isArray_below (A : Type) (l : list A) (b : Z) :
  (32 <= b)%Z -> isArray l -> (Z.of_nat (List.length l) < 2 ^ b)%Z.
Proof.
  unfold isArray, MAX_LENGTH. intros Hb Hl.
  assert (2 ^ 32 <= 2 ^ b)%Z by (apply Z.pow_le_mono_r; lia). lia.
Qed.

Section MapFacts.

Variable V : Type.
Implicit Types (m : list (nat * V)) (k : nat) (v : V).

Lemma get_absent m k :
  Forall (fun key => key < k) (map fst m) -> get Nat.eqb m k = None.
Proof.
  induction m as [|[k' v'] m IH]; simpl; [reflexivity|].
  intro H. inversion H as [|? ? Hk' Hm]; subst. simpl in Hk'.
  destruct (Nat.eqb_spec k k'); [lia | now apply IH].
Qed.

Lemma set_absent m k v :
  Forall (fun key => key < k) (map fst m) -> set Nat.eqb m k v = m ++ [(k, v)].
Proof.
  induction m as [|[k' v'] m IH]; simpl; [reflexivity|].
  intro H. inversion H as [|? ? Hk' Hm]; subst. simpl in Hk'.
  destruct (Nat.eqb_spec k k'); [lia | now rewrite IH].
Qed.

Lemma get_last m k v :
  Forall (fun key => key < k) (map fst m) -> get Nat.eqb (m ++ [(k, v)]) k = Some v.
Proof.
  induction m as [|[k' v'] m IH]; simpl; [now rewrite Nat.eqb_refl|].
  intro H. inversion H as [|? ? Hk' Hm]; subst. simpl in Hk'.
  destruct (Nat.eqb_spec k k'); [lia | now apply IH].
Qed.

Lemma set_last m k v v' :
  Forall (fun key => key < k) (map fst m) ->
  set Nat.eqb (m ++ [(k, v)]) k v' = m ++ [(k, v')].
Proof.
  induction m as [|[k0 v0] m IH]; simpl; [now rewrite Nat.eqb_refl|].
  intro H. inversion H as [|? ? Hk0 Hm]; subst. simpl in Hk0.
  destruct (Nat.eqb_spec k k0); [lia | now rewrite IH].
Qed.

Lemma get_set_same m k v : get Nat.eqb (set Nat.eqb m k v) k = Some v.
Proof.
  induction m as [|[k' v'] m IH]; simpl; [now rewrite Nat.eqb_refl|].
  destruct (Nat.eqb_spec k k') as [->|ne]; simpl.
  - now rewrite Nat.eqb_refl.
  - destruct (Nat.eqb_spec k k'); [contradiction | exact IH].
Qed.

End MapFacts.

End ArrayFacts.

(* ================================================================== *)
(** * Facts about rounding *)
(* ================================================================== *)

Module RoundingFacts.

Import Number Rounding.
Local Open Scope Z_scope.
Local Unset Implicit Arguments.

Local Abbreviation W := 2200 (only parsing).

Lemma digits2_size p : digits2_pos p = Pos.size p.
Proof. induction p; simpl; congruence. Qed.

Lemma digits_log2 p : Zpos (digits2_pos p) = Z.log2 (Zpos p) + 1.
Proof.
  rewrite digits2_size. destruct p; simpl; try reflexivity; now rewrite Pos.add_1_r.
Qed.

Lemma digits_bounds p : 2 ^ (Zpos (digits2_pos p) - 1) <= Zpos p < 2 ^ Zpos (digits2_pos p).
Proof.
  rewrite digits_log2. replace (Z.log2 (Zpos p) + 1 - 1) with (Z.log2 (Zpos p)) by lia.
  apply Z.log2_spec. lia.
Qed.

Lemma digits_unique p d : 2 ^ (d - 1) <= Zpos p < 2 ^ d -> Zpos (digits2_pos p) = d.
Proof.
  intros [H1 H2]. rewrite digits_log2.
  assert (0 < d).
  { destruct (Z.le_gt_cases d 0) as [Hd|Hd]; [|exact Hd].
    exfalso. destruct (Z.eq_dec d 0) as [->|]; [simpl in H2; lia|].
    rewrite (Z.pow_neg_r 2 d) in H2 by lia. lia. }
  rewrite (Z.log2_unique (Zpos p) (d - 1)); [lia | lia |].
  now replace (Z.succ (d - 1)) with d by lia.
Qed.

(** iteration *)
Lemma iter_pos_nat (A : Type) (f : A -> A) p x :
  iter_pos f p x = Nat.iter (Pos.to_nat p) f x.
Proof.
  revert x. induction p as [p IH|p IH|]; intro x.
  - change (iter_pos f p~1 x) with (iter_pos f p (iter_pos f p (f x))).
    rewrite !IH, Pos2Nat.inj_xI.
    replace (S (2 * Pos.to_nat p))%nat with (Pos.to_nat p + (Pos.to_nat p + 1))%nat by lia.
    rewrite !Nat.iter_add. reflexivity.
  - change (iter_pos f p~0 x) with (iter_pos f p (iter_pos f p x)).
    rewrite !IH, Pos2Nat.inj_xO.
    replace (2 * Pos.to_nat p)%nat with (Pos.to_nat p + Pos.to_nat p)%nat by lia.
    now rewrite Nat.iter_add.
  - reflexivity.
Qed.

Lemma shr_1_m mrs : 0 <= shr_m mrs -> shr_m (shr_1 mrs) = shr_m mrs / 2.
Proof.
  destruct mrs as [m r s]. simpl. intro Hm.
  destruct m as [|[p|p|]|p]; simpl; try reflexivity; try lia.
  - rewrite <- Z.div2_div. reflexivity.
  - rewrite <- Z.div2_div. reflexivity.
Qed.

Lemma shr_1_inexact mrs : 0 <= shr_m mrs ->
  inexact (shr_1 mrs) = inexact mrs || Z.odd (shr_m mrs).
Proof.
  destruct mrs as [m r s]. unfold inexact. simpl. intro Hm.
  destruct m as [|[p|p|]|p]; simpl; try lia; destruct r, s; reflexivity.
Qed.

Lemma shr_iter_m n mrs : 0 <= shr_m mrs ->
  shr_m (Nat.iter n shr_1 mrs) = shr_m mrs / 2 ^ Z.of_nat n.
Proof.
  intro Hm. induction n as [|n IH].
  - simpl. now rewrite Z.div_1_r.
  - rewrite Nat.iter_succ, shr_1_m; rewrite IH.
    + rewrite Nat2Z.inj_succ, Z.pow_succ_r by lia.
      rewrite Z.div_div by lia. f_equal. lia.
    + apply Z.div_pos; lia.
Qed.

Lemma shr_iter_inexact n mrs : 0 <= shr_m mrs ->
  inexact (Nat.iter n shr_1 mrs) = true ->
  inexact mrs = true \/ shr_m mrs mod 2 ^ Z.of_nat n <> 0.
Proof.
  intro Hm. induction n as [|n IH]; simpl Nat.iter.
  - now left.
  - rewrite shr_1_inexact by (rewrite shr_iter_m by exact Hm; apply Z.div_pos; lia).
    rewrite orb_true_iff. intros [H|H].
    + destruct (IH H) as [H'|H']; [now left | right].
      rewrite Nat2Z.inj_succ, Z.pow_succ_r by lia.
      intro H0. apply H'. 
      rewrite Z.mul_comm in H0. rewrite Z.rem_mul_r in H0 by lia.
      assert (0 <= shr_m mrs mod 2 ^ Z.of_nat n < 2 ^ Z.of_nat n) by (apply Z.mod_pos_bound; lia).
      assert (0 <= (shr_m mrs / 2 ^ Z.of_nat n) mod 2 < 2) by (apply Z.mod_pos_bound; lia).
      nia.
    + right. rewrite shr_iter_m in H by exact Hm.
      rewrite Nat2Z.inj_succ, Z.pow_succ_r by lia.
      intro H0. rewrite Z.mul_comm in H0. rewrite Z.rem_mul_r in H0 by lia.
      assert (0 <= shr_m mrs mod 2 ^ Z.of_nat n < 2 ^ Z.of_nat n) by (apply Z.mod_pos_bound; lia).
      assert (0 <= (shr_m mrs / 2 ^ Z.of_nat n) mod 2 < 2) by (apply Z.mod_pos_bound; lia).
      rewrite Zmod_odd, H in *. nia.
Qed.

Lemma fexp_eq e : fexp e = Z.max (e - 53) (-1074).
Proof. reflexivity. Qed.

Lemma canonical_iff m e : canonical_mantissa prec emax m e = true <-> canonical m e.
Proof. unfold canonical_mantissa, canonical. apply Z.eqb_eq. Qed.

Lemma Zdigits2_bounds m : 0 < m -> 2 ^ (Zdigits2 m - 1) <= m < 2 ^ Zdigits2 m.
Proof. destruct m as [|p|p]; try lia. intros _. apply digits_bounds. Qed.

Lemma Zdigits2_unique m d : 0 < m -> 2 ^ (d - 1) <= m < 2 ^ d -> Zdigits2 m = d.
Proof. destruct m as [|p|p]; try lia. intros _. apply digits_unique. Qed.

Lemma Zdigits2_pos m : 0 < m -> 0 < Zdigits2 m.
Proof. destruct m; simpl; lia. Qed.

Lemma Zdigits2_div m k : 0 < m -> 0 <= k < Zdigits2 m ->
  0 < m / 2 ^ k /\ Zdigits2 (m / 2 ^ k) = Zdigits2 m - k.
Proof.
  intros Hm Hk. destruct (Zdigits2_bounds m Hm) as [H1 H2].
  set (d := Zdigits2 m) in *.
  assert (Hp : 0 < 2 ^ k) by (apply Z.pow_pos_nonneg; lia).
  assert (Hlow : 2 ^ (d - k - 1) <= m / 2 ^ k).
  { apply Z.div_le_lower_bound; [exact Hp|].
    rewrite <- Z.pow_add_r by lia. now replace (k + (d - k - 1)) with (d - 1) by lia. }
  assert (Hup : m / 2 ^ k < 2 ^ (d - k)).
  { apply Z.div_lt_upper_bound; [exact Hp|].
    rewrite <- Z.pow_add_r by lia. now replace (k + (d - k)) with d by lia. }
  assert (0 < 2 ^ (d - k - 1)) by (apply Z.pow_pos_nonneg; lia).
  split; [lia|]. apply Zdigits2_unique; [lia|].
  split; [|exact Hup]. now replace (d - k - 1) with (d - k - 1) by lia.
Qed.

Lemma Zdigits2_div_zero m k : 0 <= m -> Zdigits2 m <= k -> m / 2 ^ k = 0.
Proof.
  intros Hm Hk. destruct (Z.eq_dec m 0) as [->|Hne].
  - apply Z.div_0_l. apply Z.pow_nonzero; [lia|]. simpl in Hk. lia.
  - destruct (Zdigits2_bounds m ltac:(lia)) as [_ H2].
    apply Z.div_small. split; [lia|].
    eapply Z.lt_le_trans; [exact H2|]. apply Z.pow_le_mono_r; lia.
Qed.

Lemma Zdigits2_succ m : 0 < m ->
  (Zdigits2 (m + 1) = Zdigits2 m) \/ (m + 1 = 2 ^ Zdigits2 m /\ Zdigits2 (m + 1) = Zdigits2 m + 1).
Proof.
  intro Hm. destruct (Zdigits2_bounds m Hm) as [H1 H2].
  pose proof (Zdigits2_pos m Hm) as Hd.
  destruct (Z.eq_dec (m + 1) (2 ^ Zdigits2 m)) as [Heq|Hne].
  - right. split; [exact Heq|]. apply Zdigits2_unique; [lia|].
    replace (Zdigits2 m + 1 - 1) with (Zdigits2 m) by lia.
    rewrite Z.pow_add_r by lia. simpl (2 ^ 1). lia.
  - left. apply Zdigits2_unique; [lia|]. lia.
Qed.

Lemma shr_record_of_loc_m m l : shr_m (shr_record_of_loc m l) = m.
Proof. destruct l as [|[]]; reflexivity. Qed.

Lemma shr_record_of_loc_inexact m l :
  inexact (shr_record_of_loc m l) = true -> l <> loc_Exact.
Proof. destruct l as [|[]]; simpl; intro H; discriminate. Qed.

Lemma loc_of_shr_record_exact mrs :
  inexact mrs = false -> loc_of_shr_record mrs = loc_Exact.
Proof. destruct mrs as [m [] []]; simpl; intro H; try discriminate; reflexivity. Qed.

Lemma round_nearest_even_cases m l :
  round_nearest_even m l = m \/ (round_nearest_even m l = m + 1 /\ l <> loc_Exact).
Proof.
  destruct l as [|[]]; simpl; auto.
  - destruct (Z.even m); [now left | right; split; [reflexivity | discriminate]].
  - right; split; [reflexivity | discriminate].
Qed.

Lemma shr_fexp_keep m e l :
  fexp (Zdigits2 m + e) - e <= 0 -> shr_fexp prec emax m e l = (shr_record_of_loc m l, e).
Proof.
  intro H. unfold shr_fexp, shr. fold (fexp (Zdigits2 m + e)).
  destruct (fexp (Zdigits2 m + e) - e); try reflexivity. lia.
Qed.

Lemma shr_fexp_shift m e l :
  0 <= m -> 0 <= fexp (Zdigits2 m + e) - e ->
  let k := fexp (Zdigits2 m + e) - e in
  snd (shr_fexp prec emax m e l) = e + k
  /\ shr_m (fst (shr_fexp prec emax m e l)) = m / 2 ^ k
  /\ (inexact (fst (shr_fexp prec emax m e l)) = true -> l <> loc_Exact \/ m mod 2 ^ k <> 0).
Proof.
  intros Hm Hk k.
  destruct (Z.eq_dec k 0) as [H0|H0].
  - rewrite shr_fexp_keep by (subst k; lia). simpl. rewrite H0, Z.add_0_r.
    rewrite shr_record_of_loc_m, Z.div_1_r.
    repeat split. intro H. left. now apply shr_record_of_loc_inexact in H.
  - unfold shr_fexp, shr. fold (fexp (Zdigits2 m + e)). fold k.
    destruct k as [|p|p] eqn:Ek; try lia. simpl fst. simpl snd.
    rewrite iter_pos_nat.
    assert (Hz : Z.of_nat (Pos.to_nat p) = Zpos p) by apply positive_nat_Z.
    rewrite shr_iter_m, shr_record_of_loc_m, Hz by (now rewrite shr_record_of_loc_m).
    repeat split. intro H.
    apply shr_iter_inexact in H; [|now rewrite shr_record_of_loc_m].
    rewrite shr_record_of_loc_m, Hz in H.
    destruct H as [H|H]; [left; now apply shr_record_of_loc_inexact in H | now right].
Qed.

Lemma finish_keep s m e :
  fexp (Zdigits2 m + e) - e <= 0 ->
  finish s m e =
  match m with
  | Z0 => S754_zero s
  | Zpos p => if e <=? emax - prec then S754_finite s p e else S754_infinity s
  | Zneg _ => S754_nan
  end.
Proof. intro H. unfold finish. rewrite shr_fexp_keep by exact H. reflexivity. Qed.

Lemma rounds_to_keep s p e :
  canonical p e -> rounds_to s (Zpos p) e (finish s (Zpos p) e).
Proof.
  intro Hc. rewrite finish_keep by (unfold canonical in Hc; simpl Zdigits2; lia).
  destruct (e <=? emax - prec) eqn:He.
  - apply Z.leb_le in He. apply rounds_finite; try assumption; try lia.
    rewrite Z.sub_diag. simpl. lia.
  - apply Z.leb_gt in He. apply rounds_infinity with (m3 := p) (e3 := e); try assumption; try lia.
    rewrite Z.sub_diag. simpl. lia.
Qed.

Lemma finish_spec s m1 m2 E :
  0 <= m1 -> (m2 = m1 \/ m2 = m1 + 1) ->
  (0 < m1 -> fexp (Zdigits2 m1 + E) = E) ->
  (m1 = 0 -> E = -1074) ->
  rounds_to s m2 E (finish s m2 E).
Proof.
  intros Hm1 Hm2 Hcan Hzero.
  destruct (Z.eq_dec m2 0) as [->|Hne].
  - unfold finish.
    destruct (Z_le_gt_dec (fexp (Zdigits2 0 + E) - E) 0) as [Hk|Hk].
    + rewrite shr_fexp_keep by exact Hk. simpl. now constructor.
    + assert (Hk' : 0 <= fexp (Zdigits2 0 + E) - E) by lia.
      destruct (shr_fexp_shift 0 E loc_Exact (Z.le_refl 0) Hk') as (_ & Hm & _).
      cbv zeta. rewrite Hm. rewrite Z.div_0_l by (apply Z.pow_nonzero; lia). now constructor.
  - assert (Hpos : 0 < m2) by lia.
    destruct (Z.eq_dec m1 0) as [Hz|Hnz].
    + (* everything was shifted out, rounded up to the least subnormal *)
      assert (m2 = 1) by lia. subst m2. rewrite (Hzero Hz).
      apply (rounds_to_keep s 1 (-1074)). reflexivity.
    + assert (H1 : 0 < m1) by lia. specialize (Hcan H1).
      destruct Hm2 as [-> | ->].
      * destruct m1 as [|p|p]; try lia. apply rounds_to_keep. exact Hcan.
      * destruct (Zdigits2_succ m1 H1) as [Hd|[Hpow Hd]].
        -- remember (m1 + 1) as m2 eqn:Em2. destruct m2 as [|p|p]; try lia.
           apply rounds_to_keep. unfold canonical.
           change (Zpos (digits2_pos p)) with (Zdigits2 (Zpos p)). now rewrite Hd.
        -- pose proof (Zdigits2_pos m1 H1) as Hd1.
           destruct (Z.eq_dec (fexp (Zdigits2 (m1 + 1) + E)) E) as [Hk|Hk].
           ++ remember (m1 + 1) as m2 eqn:Em2. destruct m2 as [|p|p]; try lia.
              apply rounds_to_keep. exact Hk.
           ++ assert (Hk1 : fexp (Zdigits2 (m1 + 1) + E) - E = 1)
                by (rewrite Hd, fexp_eq in *; lia).
              unfold finish.
              assert (Hk2 : 0 <= fexp (Zdigits2 (m1 + 1) + E) - E) by lia.
              assert (Hm2 : 0 <= m1 + 1) by lia.
              destruct (shr_fexp_shift (m1 + 1) E loc_Exact Hm2 Hk2)
                as (He & Hm & _).
              rewrite Hk1 in He, Hm. cbv zeta.
              set (e'' := snd (shr_fexp prec emax (m1 + 1) E loc_Exact)) in *.
              assert (Hdiv : (m1 + 1) / 2 ^ 1 = 2 ^ (Zdigits2 m1 - 1)).
              { rewrite Hpow.
                replace (Zdigits2 m1) with (Zdigits2 m1 - 1 + 1) at 1 by lia.
                rewrite Z.pow_add_r by lia. apply Z.div_mul. simpl. lia. }
              rewrite Hm, Hdiv.
              assert (Hp : 0 < 2 ^ (Zdigits2 m1 - 1)) by (apply Z.pow_pos_nonneg; lia).
              remember (2 ^ (Zdigits2 m1 - 1)) as m3 eqn:Em3.
              destruct m3 as [|p|p]; try lia.
              assert (Hdp : Zpos (digits2_pos p) = Zdigits2 m1).
              { apply digits_unique. rewrite Em3. split; [lia|].
                apply Z.pow_lt_mono_r; lia. }
              assert (Hcan3 : canonical p e'').
              { unfold canonical. rewrite Hdp, He.
                rewrite Hd in Hk1. replace (Zdigits2 m1 + (E + 1)) with (Zdigits2 m1 + 1 + E) by lia.
                lia. }
              assert (Hval : Zpos p * 2 ^ (e'' - E) = m1 + 1).
              { rewrite He. replace (E + 1 - E) with 1 by lia. rewrite Hpow, Em3.
                replace (Zdigits2 m1) with (Zdigits2 m1 - 1 + 1) at 2 by lia.
                rewrite Z.pow_add_r by lia. reflexivity. }
              destruct (e'' <=? emax - prec) eqn:Hov.
              ** apply Z.leb_le in Hov. apply rounds_finite; try assumption; lia.
              ** apply Z.leb_gt in Hov.
                 apply rounds_infinity with (m3 := p) (e3 := e''); try assumption; lia.
Qed.

Lemma binary_round_aux_finish s m0 e0 l :
  binary_round_aux prec emax s m0 e0 l =
  finish s (round_nearest_even (shr_m (fst (shr_fexp prec emax m0 e0 l)))
                               (loc_of_shr_record (fst (shr_fexp prec emax m0 e0 l))))
         (snd (shr_fexp prec emax m0 e0 l)).
Proof.
  unfold binary_round_aux, finish.
  destruct (shr_fexp prec emax m0 e0 l) as [mrs' e']. cbn [fst snd].
  destruct (shr_fexp prec emax _ e' loc_Exact) as [mrs'' e'']. reflexivity.
Qed.

Theorem binary_round_aux_spec s m0 e0 l :
  0 <= m0 ->
  let E := fexp (Zdigits2 m0 + e0) in
  e0 <= E ->
  let m1 := m0 / 2 ^ (E - e0) in
  exists m2,
    (m2 = m1 \/ (m2 = m1 + 1 /\ (l <> loc_Exact \/ m0 mod 2 ^ (E - e0) <> 0)))
    /\ rounds_to s m2 E (binary_round_aux prec emax s m0 e0 l).
Proof.
  intros Hm0 E HE m1.
  assert (Hk0 : 0 <= fexp (Zdigits2 m0 + e0) - e0) by (fold E; lia).
  destruct (shr_fexp_shift m0 e0 l Hm0 Hk0) as (He & Hm & Hin).
  fold E in He, Hm, Hin. fold m1 in Hm.
  rewrite binary_round_aux_finish.
  replace (e0 + (E - e0)) with E in He by lia. rewrite He, Hm.
  set (mrs' := fst (shr_fexp prec emax m0 e0 l)) in *.
  exists (round_nearest_even m1 (loc_of_shr_record mrs')).
  assert (Hm1 : 0 <= m1) by (apply Z.div_pos; [lia | apply Z.pow_pos_nonneg; lia]).
  destruct (round_nearest_even_cases m1 (loc_of_shr_record mrs')) as [Hr|[Hr Hl]].
  - split; [now left|]. rewrite Hr.
    apply finish_spec with (m1 := m1); auto.
    + intro Hpos. subst m1.
      destruct (Z.eq_dec m0 0) as [->|]; [rewrite Z.div_0_l in Hpos; [lia | apply Z.pow_nonzero; lia]|].
      destruct (Z_lt_ge_dec (E - e0) (Zdigits2 m0)) as [Hlt|Hge].
      * destruct (Zdigits2_div m0 (E - e0) ltac:(lia) ltac:(lia)) as [_ Hd].
        rewrite Hd. now replace (Zdigits2 m0 - (E - e0) + E) with (Zdigits2 m0 + e0) by lia.
      * rewrite Zdigits2_div_zero in Hpos by lia. lia.
    + intro Hz. subst m1 E.
      destruct (Z.eq_dec m0 0) as [->|]; [simpl Zdigits2 in *; rewrite fexp_eq in *; lia|].
      destruct (Z_lt_ge_dec (fexp (Zdigits2 m0 + e0) - e0) (Zdigits2 m0)) as [Hlt|Hge].
      * destruct (Zdigits2_div m0 (fexp (Zdigits2 m0 + e0) - e0) ltac:(lia) ltac:(lia)) as [Hp _]. lia.
      * rewrite fexp_eq in *. lia.
  - split.
    + right. split; [exact Hr|]. apply Hin.
      destruct (inexact mrs') eqn:Hi; [reflexivity|].
      elim Hl. now apply loc_of_shr_record_exact.
    + rewrite Hr. apply finish_spec with (m1 := m1); auto.
      * intro Hpos. subst m1.
        destruct (Z.eq_dec m0 0) as [->|]; [rewrite Z.div_0_l in Hpos; [lia | apply Z.pow_nonzero; lia]|].
        destruct (Z_lt_ge_dec (E - e0) (Zdigits2 m0)) as [Hlt|Hge].
        -- destruct (Zdigits2_div m0 (E - e0) ltac:(lia) ltac:(lia)) as [_ Hd].
           rewrite Hd. now replace (Zdigits2 m0 - (E - e0) + E) with (Zdigits2 m0 + e0) by lia.
        -- rewrite Zdigits2_div_zero in Hpos by lia. lia.
      * intro Hz. subst m1 E.
        destruct (Z.eq_dec m0 0) as [->|]; [simpl Zdigits2 in *; rewrite fexp_eq in *; lia|].
        destruct (Z_lt_ge_dec (fexp (Zdigits2 m0 + e0) - e0) (Zdigits2 m0)) as [Hlt|Hge].
        -- destruct (Zdigits2_div m0 (fexp (Zdigits2 m0 + e0) - e0) ltac:(lia) ltac:(lia)) as [Hp _]. lia.
        -- rewrite fexp_eq in *. lia.
Qed.

Lemma canonical_range m e :
  canonical m e ->
  -1074 <= e /\ Zpos (digits2_pos m) <= 53 /\ (Zpos (digits2_pos m) = 53 \/ e = -1074).
Proof. unfold canonical. rewrite fexp_eq. lia. Qed.

Lemma pow2_pos k : 0 <= k -> 0 < 2 ^ k.
Proof. intro. apply Z.pow_pos_nonneg; lia. Qed.

Lemma pow2_split a b : 0 <= a -> 0 <= b -> 2 ^ (a + b) = 2 ^ a * 2 ^ b.
Proof. intros. apply Z.pow_add_r; lia. Qed.

Lemma canonical_order m1 e1 m2 e2 w :
  canonical m1 e1 -> canonical m2 e2 -> 1074 <= w ->
  (Zpos m1 * 2 ^ (e1 + w) <= Zpos m2 * 2 ^ (e2 + w)
   <-> (e1 < e2 \/ (e1 = e2 /\ (m1 <= m2)%positive))).
Proof.
  intros H1 H2 Hw.
  destruct (canonical_range m1 e1 H1) as (He1 & Hd1 & Hn1).
  destruct (canonical_range m2 e2 H2) as (He2 & Hd2 & Hn2).
  pose proof (digits_bounds m1) as [Hl1 Hu1].
  pose proof (digits_bounds m2) as [Hl2 Hu2].
  assert (Hu1' : Zpos m1 < 2 ^ 53)
    by (eapply Z.lt_le_trans; [exact Hu1 | apply Z.pow_le_mono_r; lia]).
  assert (Hu2' : Zpos m2 < 2 ^ 53)
    by (eapply Z.lt_le_trans; [exact Hu2 | apply Z.pow_le_mono_r; lia]).
  destruct (Z.lt_trichotomy e1 e2) as [Hlt|[Heq|Hgt]].
  - split; [intros _; now left|]. intros _.
    assert (Hd : Zpos (digits2_pos m2) = 53) by lia.
    rewrite Hd in Hl2. simpl (53 - 1) in Hl2.
    replace (e2 + w) with ((e2 - e1 - 1) + 1 + (e1 + w)) by lia.
    rewrite (pow2_split (e2 - e1 - 1 + 1) (e1 + w)), (pow2_split (e2 - e1 - 1) 1) by lia.
    pose proof (pow2_pos (e1 + w) ltac:(lia)) as HA.
    pose proof (pow2_pos (e2 - e1 - 1) ltac:(lia)) as HB.
    change (2 ^ 1) with 2. change (2 ^ 53) with (2 * 2 ^ 52) in Hu1'.
    set (A := 2 ^ (e1 + w)) in *. set (B := 2 ^ (e2 - e1 - 1)) in *.
    assert (Hm : Zpos m1 <= Zpos m2 * (B * 2)) by nia.
    rewrite Z.mul_assoc. apply Z.mul_le_mono_nonneg_r; lia.
  - subst e2. pose proof (pow2_pos (e1 + w) ltac:(lia)) as HA.
    split.
    + intro H. right. split; [reflexivity|].
      apply Z.mul_le_mono_pos_r in H; [exact H | assumption].
    + intros [?|[_ H]]; [lia|]. apply Z.mul_le_mono_nonneg_r; [lia | exact H].
  - split; [|intros [?|[? _]]; lia]. intro H. exfalso.
    assert (Hd : Zpos (digits2_pos m1) = 53) by lia.
    rewrite Hd in Hl1. simpl (53 - 1) in Hl1.
    replace (e1 + w) with ((e1 - e2 - 1) + 1 + (e2 + w)) in H by lia.
    rewrite (pow2_split (e1 - e2 - 1 + 1) (e2 + w)), (pow2_split (e1 - e2 - 1) 1) in H by lia.
    pose proof (pow2_pos (e2 + w) ltac:(lia)) as HA.
    pose proof (pow2_pos (e1 - e2 - 1) ltac:(lia)) as HB.
    change (2 ^ 1) with 2 in H. change (2 ^ 53) with (2 * 2 ^ 52) in Hu2'.
    set (A := 2 ^ (e2 + w)) in *. set (B := 2 ^ (e1 - e2 - 1)) in *.
    assert (Hm : Zpos m2 < Zpos m1 * (B * 2)) by nia.
    rewrite Z.mul_assoc in H. apply Z.mul_le_mono_pos_r in H; lia.
Qed.

Lemma good_finite_inv s m e :
  good (S754_finite s m e) = true -> s = false /\ canonical m e /\ e <= emax - prec.
Proof.
  unfold good, valid_binary, bounded. rewrite !andb_true_iff.
  intros [[Hc He] Hs]. apply canonical_iff in Hc. apply Z.leb_le in He.
  destruct s; [discriminate | auto].
Qed.

Lemma good_finite m e :
  canonical m e -> e <= emax - prec -> good (S754_finite false m e) = true.
Proof.
  intros Hc He. unfold good, valid_binary, bounded.
  apply canonical_iff in Hc. rewrite Hc. apply Z.leb_le in He. now rewrite He.
Qed.

Lemma good_cases x :
  good x = true ->
  (exists s, x = S754_zero s) \/
  (exists m e, x = S754_finite false m e /\ canonical m e /\ e <= emax - prec).
Proof.
  destruct x as [s|s| |s m e]; intro H; try discriminate.
  - left. now exists s.
  - right. destruct (good_finite_inv s m e H) as (-> & Hc & He). now exists m, e.
Qed.

Lemma units_nonneg x : 0 <= units x.
Proof.
  destruct x; cbn [units]; try lia.
Qed.

Lemma units_finite_pos s m e : -W <= e -> 0 < units (S754_finite s m e).
Proof. intro. cbn [units]. apply Z.mul_pos_pos; [lia | apply pow2_pos; lia]. Qed.

Lemma good_units_zero x : good x = true -> units x = 0 -> exists s, x = S754_zero s.
Proof.
  intros Hg Hu. destruct (good_cases x Hg) as [H|(m & e & -> & Hc & He)]; [exact H|].
  destruct (canonical_range m e Hc) as (He1 & _).
  pose proof (units_finite_pos false m e ltac:(lia)). lia.
Qed.

Lemma compare_units x y :
  good x = true -> good y = true ->
  SFcompare x y = Some (units x ?= units y).
Proof.
  intros Hx Hy.
  destruct (good_cases x Hx) as [[sx ->]|(mx & ex & -> & Hcx & Hex)];
    destruct (good_cases y Hy) as [[sy ->]|(my & ey & -> & Hcy & Hey)].
  - reflexivity.
  - destruct (canonical_range my ey Hcy) as (He & _).
    pose proof (units_finite_pos false my ey ltac:(lia)) as Hp.
    simpl SFcompare. change (units (S754_zero sx)) with 0.
    destruct (Z.compare_spec 0 (units (S754_finite false my ey))); try lia. reflexivity.
  - destruct (canonical_range mx ex Hcx) as (He & _).
    pose proof (units_finite_pos false mx ex ltac:(lia)) as Hp.
    simpl SFcompare. change (units (S754_zero sy)) with 0.
    destruct (Z.compare_spec (units (S754_finite false mx ex)) 0); try lia. reflexivity.
  - simpl SFcompare. f_equal.
    pose proof (canonical_order mx ex my ey W Hcx Hcy ltac:(lia)) as Hxy.
    pose proof (canonical_order my ey mx ex W Hcy Hcx ltac:(lia)) as Hyx.
    cbn [units].
    destruct (Z.compare_spec ex ey) as [Heq|Hlt|Hgt].
    + subst ey. rewrite Pos.compare_cont_spec. cbn [Pos.switch_Eq].
      destruct (Pos.compare_spec mx my) as [Hm|Hm|Hm];
        destruct (Z.compare_spec (Zpos mx * 2 ^ (ex + W)) (Zpos my * 2 ^ (ex + W)));
        try reflexivity; subst; try lia.
    + destruct (Z.compare_spec (Zpos mx * 2 ^ (ex + W)) (Zpos my * 2 ^ (ey + W)));
        try reflexivity; lia.
    + destruct (Z.compare_spec (Zpos mx * 2 ^ (ex + W)) (Zpos my * 2 ^ (ey + W)));
        try reflexivity; lia.
Qed.

Lemma leb_units x y : good x = true -> good y = true ->
  SFleb x y = (units x <=? units y).
Proof.
  intros Hx Hy. unfold SFleb. rewrite (compare_units x y Hx Hy).
  destruct (Z.compare_spec (units x) (units y)); symmetry;
    [apply Z.leb_le | apply Z.leb_le | apply Z.leb_gt]; lia.
Qed.

Lemma ltb_units x y : good x = true -> good y = true ->
  SFltb x y = (units x <? units y).
Proof.
  intros Hx Hy. unfold SFltb. rewrite (compare_units x y Hx Hy).
  destruct (Z.compare_spec (units x) (units y)); symmetry;
    [apply Z.ltb_ge | apply Z.ltb_lt | apply Z.ltb_ge]; lia.
Qed.

Lemma eqb_units x y : good x = true -> good y = true ->
  SFeqb x y = (units x =? units y).
Proof.
  intros Hx Hy. unfold SFeqb. rewrite (compare_units x y Hx Hy).
  destruct (Z.compare_spec (units x) (units y)); symmetry;
    [apply Z.eqb_eq | apply Z.eqb_neq | apply Z.eqb_neq]; lia.
Qed.

Lemma canonical_lt_pow m e : canonical m e -> Zpos m < 2 ^ 53.
Proof.
  intro H. destruct (canonical_range m e H) as (_ & Hd & _).
  pose proof (digits_bounds m) as [_ Hu].
  eapply Z.lt_le_trans; [exact Hu | apply Z.pow_le_mono_r; lia].
Qed.

Lemma canonical_normal m e : canonical m e -> -1074 < e -> 2 ^ 52 <= Zpos m.
Proof.
  intros H He. destruct (canonical_range m e H) as (_ & _ & Hd).
  pose proof (digits_bounds m) as [Hl _].
  assert (Hd' : Zpos (digits2_pos m) = 53) by lia.
  now rewrite Hd' in Hl.
Qed.

Section RoundSandwich.

Variables (m0 e0 : Z) (l : location).
Hypothesis Hm0 : 0 <= m0.
Hypothesis He0 : - W <= e0.
Let E := fexp (Zdigits2 m0 + e0).
Hypothesis HE : e0 <= E.
Let k := E - e0.
Let m1 := m0 / 2 ^ k.
Let x0 := m0 * 2 ^ (e0 + W).

Lemma grid_split : 2 ^ (E + W) = 2 ^ k * 2 ^ (e0 + W).
Proof. unfold k. rewrite <- pow2_split by lia. f_equal. lia. Qed.

Lemma floor_le : m1 * 2 ^ (E + W) <= x0.
Proof.
  rewrite grid_split. unfold x0, m1.
  pose proof (pow2_pos (e0 + W) ltac:(lia)) as HA.
  pose proof (pow2_pos k ltac:(unfold k; lia)) as HB.
  pose proof (Z.mul_div_le m0 (2 ^ k) HB) as H.
  rewrite Z.mul_assoc. apply Z.mul_le_mono_nonneg_r; lia.
Qed.

Lemma floor_lt : m0 mod 2 ^ k <> 0 -> m1 * 2 ^ (E + W) < x0.
Proof.
  intro Hmod. rewrite grid_split. unfold x0, m1.
  pose proof (pow2_pos (e0 + W) ltac:(lia)) as HA.
  pose proof (pow2_pos k ltac:(unfold k; lia)) as HB.
  pose proof (Z.div_mod m0 (2 ^ k) ltac:(lia)) as Hdm.
  pose proof (Z.mod_pos_bound m0 (2 ^ k) HB) as Hb.
  rewrite Z.mul_assoc. apply Z.mul_lt_mono_pos_r; lia.
Qed.

(** when the exponent of rounding is above the least one, the input has
    more than 53 digits and the floor keeps 53 of them *)
Lemma normal_floor : -1074 < E -> 0 < m0 /\ 2 ^ 52 <= m1 /\ 2 ^ (E + 52 + W) <= x0.
Proof.
  intro Hn.
  assert (HEm : E = Z.max (Zdigits2 m0 + e0 - 53) (-1074)) by (unfold E; apply fexp_eq).
  assert (Hpos : 0 < m0).
  { destruct (Z.eq_dec m0 0) as [H0|]; [|lia].
    rewrite H0 in HEm. simpl Zdigits2 in HEm. lia. }
  assert (HEd : E = Zdigits2 m0 + e0 - 53) by lia.
  assert (Hk : k = Zdigits2 m0 - 53) by (unfold k; lia).
  pose proof (Zdigits2_pos m0 Hpos) as Hd.
  assert (Hk0 : 0 <= k < Zdigits2 m0) by (unfold k in *; lia).
  destruct (Zdigits2_div m0 k Hpos Hk0) as [Hm1 Hd1].
  fold m1 in Hm1, Hd1.
  destruct (Zdigits2_bounds m1 Hm1) as [Hl1 _].
  rewrite Hd1, Hk in Hl1. replace (Zdigits2 m0 - (Zdigits2 m0 - 53) - 1) with 52 in Hl1 by lia.
  split; [exact Hpos|]. split; [exact Hl1|].
  eapply Z.le_trans; [|apply floor_le].
  replace (E + 52 + W) with (52 + (E + W)) by lia.
  rewrite pow2_split by lia.
  apply Z.mul_le_mono_nonneg_r; [|exact Hl1].
  apply Z.pow_nonneg; lia.
Qed.

Variables lo hi : spec_float.
Hypothesis Hlo : good lo = true.
Hypothesis Hhi : good hi = true.
Hypothesis Hlow : units lo <= x0.
Hypothesis Hupp : x0 <= units hi.
Hypothesis Hstrict : l <> loc_Exact -> x0 < units hi.

Lemma lower_floor : units lo <= m1 * 2 ^ (E + W).
Proof.
  destruct (good_cases lo Hlo) as [[s ->]|(ml & el & -> & Hc & Hel)].
  - cbn [units].
    apply Z.mul_nonneg_nonneg;
      [apply Z.div_pos; [lia | apply pow2_pos; unfold k; lia] | apply Z.pow_nonneg; lia].
  - destruct (canonical_range ml el Hc) as (Hel1 & _).
    cbn [units] in *.
    destruct (Z_le_gt_dec E el) as [Hge|Hlt].
    + assert (Hsplit : 2 ^ (el + W) = 2 ^ (el - E) * 2 ^ (E + W))
        by (rewrite <- pow2_split by lia; f_equal; lia).
      pose proof Hlow as Hlow'.
      rewrite Hsplit, Z.mul_assoc in Hlow' |- *.
      apply Z.mul_le_mono_nonneg_r; [apply Z.pow_nonneg; lia|].
      unfold m1. apply Z.div_le_lower_bound; [apply pow2_pos; unfold k; lia|].
      rewrite grid_split in Hlow'. unfold x0 in Hlow'.
      rewrite !Z.mul_assoc in Hlow'.
      apply Z.mul_le_mono_pos_r in Hlow'; [lia | apply pow2_pos; lia].
    + destruct (normal_floor ltac:(lia)) as (_ & Hm1 & _).
      pose proof (canonical_lt_pow ml el Hc) as Hml.
      replace (E + W) with ((E - el - 1) + 1 + (el + W)) by lia.
      rewrite (pow2_split (E - el - 1 + 1) (el + W)), (pow2_split (E - el - 1) 1) by lia.
      pose proof (pow2_pos (el + W) ltac:(lia)) as HA.
      pose proof (pow2_pos (E - el - 1) ltac:(lia)) as HB.
      change (2 ^ 1) with 2. change (2 ^ 53) with (2 * 2 ^ 52) in Hml.
      set (A := 2 ^ (el + W)) in *. set (B := 2 ^ (E - el - 1)) in *.
      assert (Hm : Zpos ml <= m1 * (B * 2)) by nia.
      rewrite Z.mul_assoc. apply Z.mul_le_mono_nonneg_r; lia.
Qed.

Lemma upper_ceil :
  (l <> loc_Exact \/ m0 mod 2 ^ k <> 0) -> (m1 + 1) * 2 ^ (E + W) <= units hi.
Proof.
  intro Hin.
  assert (Hlt : m1 * 2 ^ (E + W) < units hi).
  { destruct Hin as [Hl|Hmod].
    - specialize (Hstrict Hl). pose proof floor_le. lia.
    - pose proof (floor_lt Hmod). lia. }
  assert (Hm1 : 0 <= m1)
    by (apply Z.div_pos; [lia | apply pow2_pos; unfold k; lia]).
  destruct (good_cases hi Hhi) as [[s ->]|(mh & eh & -> & Hc & Heh)].
  - cbn [units] in *. pose proof (pow2_pos (E + W) ltac:(lia)). nia.
  - destruct (canonical_range mh eh Hc) as (Heh1 & _).
    cbn [units] in *.
    destruct (Z_le_gt_dec E eh) as [Hge|Hgt].
    + assert (Hsplit : 2 ^ (eh + W) = 2 ^ (eh - E) * 2 ^ (E + W))
        by (rewrite <- pow2_split by lia; f_equal; lia).
      rewrite Hsplit, Z.mul_assoc in Hlt |- *.
      pose proof (pow2_pos (E + W) ltac:(lia)) as HA.
      apply Z.mul_lt_mono_pos_r in Hlt; [|exact HA].
      apply Z.mul_le_mono_nonneg_r; lia.
    + exfalso.
      destruct (normal_floor ltac:(lia)) as (_ & _ & Hx0).
      pose proof (canonical_lt_pow mh eh Hc) as Hmh.
      assert (Zpos mh * 2 ^ (eh + W) < 2 ^ (E + 52 + W)); [|lia].
      replace (E + 52 + W) with (53 + ((E - eh - 1) + (eh + W))) by lia.
      rewrite (pow2_split 53), (pow2_split (E - eh - 1)) by (lia).
      pose proof (pow2_pos (eh + W) ltac:(lia)) as HA.
      pose proof (pow2_pos (E - eh - 1) ltac:(lia)) as HB.
      set (A := 2 ^ (eh + W)) in *. set (B := 2 ^ (E - eh - 1)) in *.
      assert (A <= B * A) by nia.
      apply Z.lt_le_trans with (2 ^ 53 * A); [apply Z.mul_lt_mono_pos_r; lia|].
      apply Z.mul_le_mono_nonneg_l; lia.
Qed.

Theorem round_sandwich :
  good (binary_round_aux prec emax false m0 e0 l) = true
  /\ units lo <= units (binary_round_aux prec emax false m0 e0 l) <= units hi.
Proof.
  destruct (binary_round_aux_spec false m0 e0 l Hm0 HE) as (m2 & Hm2 & Hr).
  fold E in Hr, Hm2. fold k in Hm2. fold m1 in Hm2.
  assert (HV : units lo <= m2 * 2 ^ (E + W) <= units hi).
  { pose proof (pow2_pos (E + W) ltac:(lia)) as HA.
    destruct Hm2 as [->|[-> Hin]].
    - split; [apply lower_floor | pose proof floor_le; lia].
    - split; [pose proof lower_floor; nia | now apply upper_ceil]. }
  assert (Hval : forall m3 e3, E <= e3 -> Zpos m3 * 2 ^ (e3 - E) = m2 ->
                   Zpos m3 * 2 ^ (e3 + W) = m2 * 2 ^ (E + W)).
  { intros m3 e3 He3 <-. replace (e3 + W) with ((e3 - E) + (E + W)) by lia.
    rewrite pow2_split by lia. ring. }
  inversion Hr as [Hz|m3 e3 Hc He3 Hm3 Hb|m3 e3 Hc He3 Hm3 Hb].
  - subst m2. cbn [units]. split; [reflexivity | lia].
  - split; [now apply good_finite|]. cbn [units]. now rewrite (Hval m3 e3 He3 Hm3).
  - exfalso. specialize (Hval m3 e3 He3 Hm3).
    destruct (good_cases hi Hhi) as [[s Hs]|(mh & eh & Hh & Hch & Heh)];
      rewrite ?Hs, ?Hh in HV; cbn [units] in HV.
    + pose proof (pow2_pos (e3 + W) ltac:(lia)). nia.
    + destruct (canonical_range m3 e3 Hc) as (Hge & _).
      assert (Hle : Zpos m3 * 2 ^ (e3 + W) <= Zpos mh * 2 ^ (eh + W)) by lia.
      apply (canonical_order m3 e3 mh eh W Hc Hch ltac:(lia)) in Hle.
      unfold emax, prec in *. lia.
Qed.

End RoundSandwich.

(* ---------------- exact results ---------------- *)

Lemma round_exact m0 e0 :
  0 <= m0 -> - W <= e0 ->
  let E := fexp (Zdigits2 m0 + e0) in
  e0 <= E -> m0 mod 2 ^ (E - e0) = 0 ->
  m0 * 2 ^ (e0 + W) < 2 ^ (1024 + W) ->
  good (binary_round_aux prec emax false m0 e0 loc_Exact) = true
  /\ units (binary_round_aux prec emax false m0 e0 loc_Exact) = m0 * 2 ^ (e0 + W).
Proof.
  intros Hm0 He0 E HE Hmod Hmax.
  destruct (binary_round_aux_spec false m0 e0 loc_Exact Hm0 HE) as (m2 & Hm2 & Hr).
  fold E in Hm2, Hr.
  assert (Hm2' : m2 = m0 / 2 ^ (E - e0)).
  { destruct Hm2 as [H|[_ [H|H]]]; [exact H | now elim H | contradiction]. }
  assert (Hx : m2 * 2 ^ (E + W) = m0 * 2 ^ (e0 + W)).
  { rewrite Hm2'.
    replace (E + W) with ((E - e0) + (e0 + W)) by lia.
    rewrite pow2_split by lia. rewrite Z.mul_assoc. f_equal.
    pose proof (Z.div_mod m0 (2 ^ (E - e0)) ltac:(pose proof (pow2_pos (E - e0)); lia)).
    lia. }
  assert (Hval : forall m3 e3, E <= e3 -> Zpos m3 * 2 ^ (e3 - E) = m2 ->
                   Zpos m3 * 2 ^ (e3 + W) = m2 * 2 ^ (E + W)).
  { intros m3 e3 He3 <-. replace (e3 + W) with ((e3 - E) + (E + W)) by lia.
    rewrite pow2_split by lia. ring. }
  inversion Hr as [Hz|m3 e3 Hc He3 Hm3 Hb|m3 e3 Hc He3 Hm3 Hb].
  - cbn [units]. split; [reflexivity|]. rewrite <- Hx, Hz. reflexivity.
  - split; [now apply good_finite|]. cbn [units]. now rewrite (Hval m3 e3 He3 Hm3).
  - exfalso. specialize (Hval m3 e3 He3 Hm3).
    destruct (canonical_range m3 e3 Hc) as (Hge & _).
    pose proof (canonical_normal m3 e3 Hc ltac:(unfold emax, prec in *; lia)) as Hn.
    assert (2 ^ (1024 + W) <= Zpos m3 * 2 ^ (e3 + W)); [|lia].
    replace (1024 + W) with (52 + ((972 + W))) by lia.
    rewrite (pow2_split 52) by lia.
    apply Z.mul_le_mono_nonneg; try lia.
    apply Z.pow_le_mono_r; unfold emax, prec in *; lia.
Qed.

(* ---------------- binary_round: alignment first ---------------- *)

Lemma iter_xO m d : Zpos (Pos.iter xO m d) = Zpos m * 2 ^ Zpos d.
Proof.
  induction d as [|d IH] using Pos.peano_ind.
  - simpl. lia.
  - rewrite Pos.iter_succ, Pos2Z.inj_succ, Z.pow_succ_r by lia.
    rewrite Pos2Z.inj_xO, IH. ring.
Qed.

Lemma digits_shift m d : Zdigits2 (Zpos m * 2 ^ d) = Zdigits2 (Zpos m) + d \/ d < 0.
Proof.
  destruct (Z_lt_ge_dec d 0) as [H|H]; [now right | left].
  pose proof (digits_bounds m) as [Hl Hu].
  pose proof (pow2_pos d ltac:(lia)) as Hp.
  apply Zdigits2_unique; [nia|].
  simpl Zdigits2. split.
  - replace (Zpos (digits2_pos m) + d - 1) with ((Zpos (digits2_pos m) - 1) + d) by lia.
    rewrite pow2_split by lia. apply Z.mul_le_mono_nonneg_r; lia.
  - rewrite pow2_split by lia. apply Z.mul_lt_mono_pos_r; lia.
Qed.

Lemma shl_align_spec mx ex ex' :
  let '(mz, ez) := shl_align mx ex ex' in
  ez <= ex /\ ez <= Z.max ex' ex /\ (ex' <= ex -> ez = ex') /\ (ex <= ex' -> ez = ex)
  /\ Zpos mz = Zpos mx * 2 ^ (ex - ez).
Proof.
  unfold shl_align. destruct (ex' - ex) as [|d|d] eqn:Hd.
  - replace (ex - ex) with 0 by lia. simpl (2 ^ 0). repeat split; lia.
  - replace (ex - ex) with 0 by lia. simpl (2 ^ 0). repeat split; lia.
  - rewrite iter_xO. replace (ex - ex') with (Zpos d) by lia. repeat split; lia.
Qed.

Lemma binary_round_sandwich mx ex lo hi :
  - W <= ex ->
  good lo = true -> good hi = true ->
  units lo <= Zpos mx * 2 ^ (ex + W) <= units hi ->
  good (binary_round prec emax false mx ex) = true
  /\ units lo <= units (binary_round prec emax false mx ex) <= units hi.
Proof.
  intros Hex Hlo Hhi Hb. unfold binary_round.
  pose proof (shl_align_spec mx ex (SpecFloat.fexp prec emax (Zpos (digits2_pos mx) + ex))) as Ha.
  destruct (shl_align mx ex _) as [mz ez].
  destruct Ha as (H1 & H2 & H3 & H4 & H5).
  change (SpecFloat.fexp prec emax) with fexp in *.
  assert (Hfe : -1074 <= fexp (Zpos (digits2_pos mx) + ex)) by (rewrite fexp_eq; lia).
  assert (Hez : - W <= ez) by lia.
  assert (Hval : Zpos mz * 2 ^ (ez + W) = Zpos mx * 2 ^ (ex + W)).
  { rewrite H5. replace (ex + W) with ((ex - ez) + (ez + W)) by lia.
    rewrite (pow2_split (ex - ez) (ez + W)) by lia. ring. }
  assert (Hdig : Zdigits2 (Zpos mz) + ez = Zpos (digits2_pos mx) + ex).
  { rewrite H5. destruct (digits_shift mx (ex - ez)) as [H|H]; [|lia].
    rewrite H. simpl Zdigits2. lia. }
  apply round_sandwich; try assumption; try lia.
  - rewrite Hdig. lia.
  - intro H. now elim H.
Qed.

Lemma binary_round_exact mx ex :
  - W <= ex ->
  (Zpos (digits2_pos mx) <= 53) -> -1074 <= ex ->
  Zpos mx * 2 ^ (ex + W) < 2 ^ (1024 + W) ->
  good (binary_round prec emax false mx ex) = true
  /\ units (binary_round prec emax false mx ex) = Zpos mx * 2 ^ (ex + W).
Proof.
  intros Hex Hd Hmin Hmax. unfold binary_round.
  pose proof (shl_align_spec mx ex (SpecFloat.fexp prec emax (Zpos (digits2_pos mx) + ex))) as Ha.
  destruct (shl_align mx ex _) as [mz ez].
  destruct Ha as (H1 & H2 & H3 & H4 & H5).
  change (SpecFloat.fexp prec emax) with fexp in *.
  assert (Hfe : fexp (Zpos (digits2_pos mx) + ex) <= ex) by (rewrite fexp_eq; lia).
  assert (Hfe' : -1074 <= fexp (Zpos (digits2_pos mx) + ex)) by (rewrite fexp_eq; lia).
  assert (Hez : ez = fexp (Zpos (digits2_pos mx) + ex)) by lia.
  assert (Hval : Zpos mz * 2 ^ (ez + W) = Zpos mx * 2 ^ (ex + W)).
  { rewrite H5. replace (ex + W) with ((ex - ez) + (ez + W)) by lia.
    rewrite (pow2_split (ex - ez) (ez + W)) by lia. ring. }
  assert (Hdig : Zdigits2 (Zpos mz) + ez = Zpos (digits2_pos mx) + ex).
  { rewrite H5. destruct (digits_shift mx (ex - ez)) as [H|H]; [|lia].
    rewrite H. simpl Zdigits2. lia. }
  rewrite <- Hval.
  apply round_exact; try lia.
  - rewrite Hdig. lia.
  - rewrite Hdig, <- Hez, Z.sub_diag. apply Z.mod_1_r.
Qed.

(* ---------------- of_Z ---------------- *)

Lemma of_Z_exact z :
  0 <= z < 2 ^ 53 -> good (of_Z z) = true /\ units (of_Z z) = z * 2 ^ W.
Proof.
  intros [H0 H53]. unfold of_Z, binary_normalize.
  destruct z as [|p|p]; try lia.
  - split; reflexivity.
  - assert (Hd : Zpos (digits2_pos p) <= 53).
    { pose proof (digits_bounds p) as [Hl _].
      destruct (Z_le_gt_dec (Zpos (digits2_pos p)) 53) as [H|H]; [exact H|].
      exfalso. assert (2 ^ 53 <= 2 ^ (Zpos (digits2_pos p) - 1)) by (apply Z.pow_le_mono_r; lia).
      lia. }
    assert (Hmax : Zpos p * 2 ^ (0 + W) < 2 ^ (1024 + W)).
    { apply Z.lt_trans with (2 ^ 53 * 2 ^ (0 + W)).
      - apply Z.mul_lt_mono_pos_r; [apply pow2_pos; lia | exact H53].
      - rewrite <- pow2_split by lia. apply Z.pow_lt_mono_r; lia. }
    apply (binary_round_exact p 0); [lia | exact Hd | lia | exact Hmax].
Qed.

(* ---------------- addition ---------------- *)

Lemma good_zero s : good (S754_zero s) = true.
Proof. reflexivity. Qed.

Lemma SFadd_finite mx ex my ey :
  SFadd prec emax (S754_finite false mx ex) (S754_finite false my ey)
  = binary_round prec emax false
      (fst (shl_align mx ex (Z.min ex ey)) + fst (shl_align my ey (Z.min ex ey)))
      (Z.min ex ey).
Proof. reflexivity. Qed.

Lemma add_sandwich a b lo hi :
  good a = true -> good b = true -> good lo = true -> good hi = true ->
  units lo <= units a + units b <= units hi ->
  good (SFadd prec emax a b) = true
  /\ units lo <= units (SFadd prec emax a b) <= units hi.
Proof.
  intros Ha Hb Hlo Hhi Hbound.
  destruct (good_cases a Ha) as [[sa ->]|(ma & ea & -> & Hca & Hea)];
    destruct (good_cases b Hb) as [[sb ->]|(mb & eb & -> & Hcb & Heb)].
  - assert (Hz : exists s, SFadd prec emax (S754_zero sa) (S754_zero sb) = S754_zero s)
      by (destruct sa, sb; simpl; eauto).
    destruct Hz as [s ->]. split; [reflexivity|]. cbn [units] in *. lia.
  - change (SFadd prec emax (S754_zero sa) (S754_finite false mb eb))
      with (S754_finite false mb eb).
    split; [exact Hb|]. cbn [units] in *. lia.
  - change (SFadd prec emax (S754_finite false ma ea) (S754_zero sb))
      with (S754_finite false ma ea).
    split; [exact Ha|]. cbn [units] in *. lia.
  - destruct (canonical_range ma ea Hca) as (Hea1 & _).
    destruct (canonical_range mb eb Hcb) as (Heb1 & _).
    rewrite SFadd_finite.
    pose proof (shl_align_spec ma ea (Z.min ea eb)) as Hsa.
    pose proof (shl_align_spec mb eb (Z.min ea eb)) as Hsb.
    destruct (shl_align ma ea (Z.min ea eb)) as [mza eza].
    destruct (shl_align mb eb (Z.min ea eb)) as [mzb ezb].
    destruct Hsa as (_ & _ & Ha3 & _ & Ha5).
    destruct Hsb as (_ & _ & Hb3 & _ & Hb5).
    rewrite (Ha3 ltac:(lia)) in Ha5. rewrite (Hb3 ltac:(lia)) in Hb5.
    cbn [fst].
    apply binary_round_sandwich; try assumption; try lia.
    rewrite Pos2Z.inj_add, Ha5, Hb5. cbn [units] in Hbound.
    set (ez := Z.min ea eb) in *.
    assert (Hsa : 2 ^ (ea + W) = 2 ^ (ea - ez) * 2 ^ (ez + W))
      by (rewrite <- pow2_split by lia; f_equal; lia).
    assert (Hsb : 2 ^ (eb + W) = 2 ^ (eb - ez) * 2 ^ (ez + W))
      by (rewrite <- pow2_split by lia; f_equal; lia).
    rewrite Hsa, Hsb in Hbound. lia.
Qed.

(* ---------------- multiplication ---------------- *)

Lemma digits_mul_ge mx my :
  Zpos (digits2_pos mx) + Zpos (digits2_pos my) - 1 <= Zdigits2 (Zpos mx * Zpos my).
Proof.
  pose proof (digits_bounds mx) as [Hlx _].
  pose proof (digits_bounds my) as [Hly _].
  assert (Hp : 0 < Zpos mx * Zpos my) by lia.
  destruct (Zdigits2_bounds _ Hp) as [_ Hu].
  destruct (Z_le_gt_dec (Zpos (digits2_pos mx) + Zpos (digits2_pos my) - 1)
                        (Zdigits2 (Zpos mx * Zpos my))) as [H|H]; [exact H|].
  exfalso.
  assert (H2 : 2 ^ Zdigits2 (Zpos mx * Zpos my)
               <= 2 ^ ((Zpos (digits2_pos mx) - 1) + (Zpos (digits2_pos my) - 1))).
  { apply Z.pow_le_mono_r; lia. }
  rewrite pow2_split in H2 by lia.
  assert (2 ^ (Zpos (digits2_pos mx) - 1) * 2 ^ (Zpos (digits2_pos my) - 1)
          <= Zpos mx * Zpos my).
  { apply Z.mul_le_mono_nonneg; try lia; apply Z.pow_nonneg; lia. }
  lia.
Qed.

Lemma SFmul_finite mx ex my ey :
  SFmul prec emax (S754_finite false mx ex) (S754_finite false my ey)
  = binary_round_aux prec emax false (Zpos mx * Zpos my) (ex + ey) loc_Exact.
Proof. reflexivity. Qed.

Lemma mul_sandwich a b lo hi :
  good a = true -> good b = true -> good lo = true -> good hi = true ->
  units lo * 2 ^ W <= units a * units b <= units hi * 2 ^ W ->
  good (SFmul prec emax a b) = true
  /\ units lo <= units (SFmul prec emax a b) <= units hi.
Proof.
  intros Ha Hb Hlo Hhi Hbound.
  pose proof (units_nonneg lo) as Hlo0. pose proof (units_nonneg hi) as Hhi0.
  assert (HW : 0 < 2 ^ W) by (apply pow2_pos; lia).
  destruct (good_cases a Ha) as [[sa ->]|(ma & ea & -> & Hca & Hea)];
    destruct (good_cases b Hb) as [[sb ->]|(mb & eb & -> & Hcb & Heb)];
    try (cbn [SFmul units] in *; split; [reflexivity | nia]).
  destruct (canonical_range ma ea Hca) as (Hea1 & Hda & Hna).
  destruct (canonical_range mb eb Hcb) as (Heb1 & Hdb & Hnb).
  rewrite SFmul_finite.
  pose proof (digits_mul_ge ma mb) as Hdig.
  pose proof (Zdigits2_pos (Zpos ma) ltac:(lia)) as Hpa. simpl Zdigits2 in Hpa.
  pose proof (Zdigits2_pos (Zpos mb) ltac:(lia)) as Hpb. simpl Zdigits2 in Hpb.
  assert (Hx : Zpos ma * Zpos mb * 2 ^ (ea + eb + W) * 2 ^ W
               = units (S754_finite false ma ea) * units (S754_finite false mb eb)).
  { cbn [units].
    transitivity (Zpos ma * Zpos mb * (2 ^ (ea + eb + W) * 2 ^ W)); [ring|].
    transitivity (Zpos ma * Zpos mb * (2 ^ (ea + W) * 2 ^ (eb + W))); [|ring].
    f_equal. rewrite <- !Z.pow_add_r by lia. f_equal. lia. }
  rewrite <- Hx in Hbound. destruct Hbound as [Hl Hu].
  apply Z.mul_le_mono_pos_r in Hl; [|exact HW].
  apply Z.mul_le_mono_pos_r in Hu; [|exact HW].
  assert (HE : ea + eb <= fexp (Zdigits2 (Zpos ma * Zpos mb) + (ea + eb)))
    by (rewrite fexp_eq; lia).
  apply (round_sandwich (Zpos ma * Zpos mb) (ea + eb) loc_Exact
           ltac:(lia) ltac:(lia) HE lo hi Hlo Hhi Hl Hu).
  intro H. now elim H.
Qed.

(* ---------------- division ---------------- *)

Lemma new_location_zero nb : new_location nb 0 = loc_Exact.
Proof. unfold new_location. destruct (Z.even nb); reflexivity. Qed.

Lemma SFdiv_core_eq m1 e1 m2 e2 :
  SFdiv_core_binary prec emax m1 e1 m2 e2 =
  let e' := Z.min (fexp (Zdigits2 m1 + e1 - (Zdigits2 m2 + e2))) (e1 - e2) in
  let s := e1 - e2 - e' in
  let m' := match s with Zpos _ => Z.shiftl m1 s | Z0 => m1 | Zneg _ => 0 end in
  (fst (Z.div_eucl m' m2), e', new_location m2 (snd (Z.div_eucl m' m2))).
Proof.
  unfold SFdiv_core_binary. cbv zeta.
  destruct (Z.div_eucl _ m2) as [q r]. reflexivity.
Qed.

Lemma SFdiv_finite mx ex my ey :
  SFdiv prec emax (S754_finite false mx ex) (S754_finite false my ey)
  = binary_round_aux prec emax false
      (fst (fst (SFdiv_core_binary prec emax (Zpos mx) ex (Zpos my) ey)))
      (snd (fst (SFdiv_core_binary prec emax (Zpos mx) ex (Zpos my) ey)))
      (snd (SFdiv_core_binary prec emax (Zpos mx) ex (Zpos my) ey)).
Proof.
  cbn [SFdiv xorb].
  destruct (SFdiv_core_binary prec emax (Zpos mx) ex (Zpos my) ey) as [[q e'] l].
  reflexivity.
Qed.

Lemma div_core_spec mx ex my ey :
  canonical mx ex -> canonical my ey ->
  let e' := Z.min (fexp (Zpos (digits2_pos mx) + ex - (Zpos (digits2_pos my) + ey))) (ex - ey) in
  exists q r l,
    SFdiv_core_binary prec emax (Zpos mx) ex (Zpos my) ey = (q, e', l)
    /\ Zpos mx * 2 ^ (ex - ey - e') = Zpos my * q + r
    /\ 0 <= r < Zpos my /\ 0 <= q
    /\ (l <> loc_Exact -> r <> 0)
    /\ (-1074 < e' -> 2 ^ 52 <= q)
    /\ e' <= fexp (Zdigits2 q + e').
Proof.
  intros Hcx Hcy e'.
  rewrite SFdiv_core_eq. simpl Zdigits2. fold e'. cbv zeta.
  remember (ex - ey - e') as s eqn:Es.
  assert (Hs : 0 <= s) by (subst s; unfold e'; lia).
  remember (match s with Zpos _ => Z.shiftl (Zpos mx) s | Z0 => Zpos mx | Zneg _ => 0 end)
    as m' eqn:Em'.
  assert (Hm' : m' = Zpos mx * 2 ^ s).
  { subst m'. clear Es. destruct s as [|p|p].
    - change (2 ^ 0) with 1. now rewrite Z.mul_1_r.
    - apply Z.shiftl_mul_pow2. lia.
    - lia. }
  pose proof (Z_div_mod m' (Zpos my) ltac:(lia)) as Hdiv.
  destruct (Z.div_eucl m' (Zpos my)) as [q r]. destruct Hdiv as [Hdiv Hr].
  cbn [fst snd].
  assert (Hq : 0 <= q).
  { pose proof (pow2_pos s Hs). assert (0 <= m') by (rewrite Hm'; lia). nia. }
  assert (Hnormal : -1074 < e' -> 2 ^ 52 <= q).
  { intro Hn.
    pose proof (digits_bounds mx) as [Hlx _].
    pose proof (digits_bounds my) as [_ Huy].
    set (dx := Zpos (digits2_pos mx)) in *. set (dy := Zpos (digits2_pos my)) in *.
    assert (Hs53 : 53 - dx + dy <= s).
    { subst s. unfold e' in *. rewrite fexp_eq in *. fold dx dy in Hn |- *. lia. }
    assert (Hdx : 0 < dx) by (unfold dx; lia).
    assert (Hdy : 0 < dy) by (unfold dy; lia).
    assert (Hbig : 2 ^ 52 * Zpos my <= m').
    { rewrite Hm'.
      apply Z.le_trans with (2 ^ 52 * 2 ^ dy).
      - apply Z.mul_le_mono_nonneg_l; lia.
      - rewrite <- pow2_split by lia.
        apply Z.le_trans with (2 ^ (dx - 1) * 2 ^ s).
        + rewrite <- pow2_split by lia. apply Z.pow_le_mono_r; lia.
        + apply Z.mul_le_mono_nonneg_r; [apply Z.pow_nonneg; lia | exact Hlx]. }
    nia. }
  exists q, r, (new_location (Zpos my) r).
  split; [reflexivity|].
  split; [rewrite <- Hm'; exact Hdiv|].
  split; [lia|]. split; [exact Hq|].
  split; [intros Hl Hr0; subst r; now rewrite new_location_zero in Hl|].
  split; [exact Hnormal|].
  destruct (Z_le_gt_dec e' (-1074)) as [Hle|Hgt].
    + rewrite fexp_eq. lia.
    + specialize (Hnormal ltac:(lia)).
      assert (Hd : 53 <= Zdigits2 q).
      { destruct (Zdigits2_bounds q ltac:(lia)) as [_ Hu].
        destruct (Z_le_gt_dec 53 (Zdigits2 q)) as [H|H]; [exact H|]. exfalso.
        assert (2 ^ Zdigits2 q <= 2 ^ 52) by (apply Z.pow_le_mono_r; lia). lia. }
      rewrite fexp_eq. lia.
Qed.

Lemma div_sandwich a b lo hi :
  good a = true -> good b = true -> 0 < units b ->
  good lo = true -> good hi = true ->
  units lo * units b <= units a * 2 ^ W <= units hi * units b ->
  good (SFdiv prec emax a b) = true
  /\ units lo <= units (SFdiv prec emax a b) <= units hi.
Proof.
  intros Ha Hb Hb0 Hlo Hhi Hbound.
  pose proof (units_nonneg lo) as Hlo0. pose proof (units_nonneg hi) as Hhi0.
  destruct (good_cases b Hb) as [[sb ->]|(mb & eb & -> & Hcb & Heb)];
    [cbn [units] in Hb0; lia|].
  destruct (good_cases a Ha) as [[sa ->]|(ma & ea & -> & Hca & Hea)].
  - cbn [SFdiv]. split; [reflexivity|]. cbn [units] in *. nia.
  - destruct (canonical_range ma ea Hca) as (Hea1 & _).
    destruct (canonical_range mb eb Hcb) as (Heb1 & _).
    rewrite SFdiv_finite.
    destruct (div_core_spec ma ea mb eb Hca Hcb)
      as (q & r & l & Hcore & Hdiv & Hr & Hq & Hl & Hnormal & HE).
    rewrite Hcore. cbn [fst snd].
    set (e' := Z.min (fexp (Zpos (digits2_pos ma) + ea - (Zpos (digits2_pos mb) + eb))) (ea - eb)) in *.
    assert (He' : -2045 <= e' <= ea - eb).
    { unfold e'. rewrite fexp_eq. unfold emax, prec in *. lia. }
    (* the exact quotient, scaled *)
    set (T := 2 ^ (e' + W) * 2 ^ (eb + W)).
    assert (HT : 0 < T) by (apply Z.mul_pos_pos; apply pow2_pos; lia).
    assert (Hua : units (S754_finite false ma ea) * 2 ^ W = (Zpos mb * q + r) * T).
    { cbn [units]. rewrite <- Hdiv. unfold T.
      transitivity (Zpos ma * (2 ^ (ea + W) * 2 ^ W)); [ring|].
      transitivity (Zpos ma * (2 ^ (ea - eb - e') * (2 ^ (e' + W) * 2 ^ (eb + W)))); [|ring].
      f_equal. rewrite <- !Z.pow_add_r by lia. f_equal. lia. }
    assert (Hub : q * 2 ^ (e' + W) * units (S754_finite false mb eb) = Zpos mb * q * T).
    { cbn [units]. unfold T. ring. }
    rewrite Hua in Hbound. destruct Hbound as [Hl1 Hu1].
    assert (Hupper : q * 2 ^ (e' + W) <= units hi).
    { apply Z.mul_le_mono_pos_r with (p := units (S754_finite false mb eb)); [exact Hb0|].
      rewrite Hub. eapply Z.le_trans; [|exact Hu1].
      apply Z.mul_le_mono_nonneg_r; lia. }
    assert (Hstrict : l <> loc_Exact -> q * 2 ^ (e' + W) < units hi).
    { intro Hne. specialize (Hl Hne).
      apply Z.mul_lt_mono_pos_r with (p := units (S754_finite false mb eb)); [exact Hb0|].
      rewrite Hub. eapply Z.lt_le_trans; [|exact Hu1].
      apply Z.mul_lt_mono_pos_r; lia. }
    assert (Hlower : units lo <= q * 2 ^ (e' + W)).
    { destruct (good_cases lo Hlo) as [[s ->]|(ml & el & -> & Hcl & Hel)].
      - cbn [units]. pose proof (pow2_pos (e' + W) ltac:(lia)). nia.
      - destruct (canonical_range ml el Hcl) as (Hel1 & _).
        destruct (Z_le_gt_dec e' el) as [Hge|Hlt].
        + assert (Hsplit : units (S754_finite false ml el)
                           = Zpos ml * 2 ^ (el - e') * 2 ^ (e' + W)).
          { cbn [units]. rewrite <- Z.mul_assoc. f_equal.
            rewrite <- pow2_split by lia. f_equal. lia. }
          rewrite Hsplit in Hl1 |- *.
          apply Z.mul_le_mono_nonneg_r; [apply Z.pow_nonneg; lia|].
          set (L := Zpos ml * 2 ^ (el - e')) in *.
          assert (HL : L * Zpos mb * T <= (Zpos mb * q + r) * T).
          { eapply Z.le_trans; [|exact Hl1]. cbn [units]. unfold T.
            apply Z.eq_le_incl. ring. }
          apply Z.mul_le_mono_pos_r in HL; [|exact HT].
          assert (0 <= L) by (unfold L; pose proof (pow2_pos (el - e') ltac:(lia)); lia).
          nia.
        + specialize (Hnormal ltac:(lia)).
          pose proof (canonical_lt_pow ml el Hcl) as Hml.
          cbn [units].
          replace (e' + W) with ((e' - el - 1) + 1 + (el + W)) by lia.
          rewrite (pow2_split (e' - el - 1 + 1) (el + W)), (pow2_split (e' - el - 1) 1) by lia.
          pose proof (pow2_pos (el + W) ltac:(lia)) as HA.
          pose proof (pow2_pos (e' - el - 1) ltac:(lia)) as HB.
          change (2 ^ 1) with 2. change (2 ^ 53) with (2 * 2 ^ 52) in Hml.
          set (A := 2 ^ (el + W)) in *. set (B := 2 ^ (e' - el - 1)) in *.
          assert (Hm : Zpos ml <= q * (B * 2)) by nia.
          rewrite Z.mul_assoc. apply Z.mul_le_mono_nonneg_r; lia. }
    apply (round_sandwich q e' l Hq ltac:(lia) HE lo hi Hlo Hhi Hlower Hupper Hstrict).
Qed.

(* ---------------- square root ---------------- *)

Lemma SFsqrt_core_eq m e :
  SFsqrt_core_binary prec emax m e =
  let e' := Z.min (fexp (Z.div2 (Zdigits2 m + e + 1))) (Z.div2 e) in
  let s := e - 2 * e' in
  let m' := match s with Zpos _ => Z.shiftl m s | Z0 => m | Zneg _ => 0 end in
  (fst (Z.sqrtrem m'), e',
   if snd (Z.sqrtrem m') =? 0 then loc_Exact
   else loc_Inexact (if snd (Z.sqrtrem m') <=? fst (Z.sqrtrem m') then Lt else Gt)).
Proof.
  unfold SFsqrt_core_binary. cbv zeta.
  destruct (Z.sqrtrem _) as [q r]. reflexivity.
Qed.

Lemma SFsqrt_finite mx ex :
  SFsqrt prec emax (S754_finite false mx ex)
  = binary_round_aux prec emax false
      (fst (fst (SFsqrt_core_binary prec emax (Zpos mx) ex)))
      (snd (fst (SFsqrt_core_binary prec emax (Zpos mx) ex)))
      (snd (SFsqrt_core_binary prec emax (Zpos mx) ex)).
Proof.
  cbn [SFsqrt].
  destruct (SFsqrt_core_binary prec emax (Zpos mx) ex) as [[q e'] l].
  reflexivity.
Qed.

Lemma sqrt_core_spec mx ex :
  canonical mx ex ->
  let e' := Z.min (fexp (Z.div2 (Zpos (digits2_pos mx) + ex + 1))) (Z.div2 ex) in
  exists q r l,
    SFsqrt_core_binary prec emax (Zpos mx) ex = (q, e', l)
    /\ Zpos mx * 2 ^ (ex - 2 * e') = q * q + r
    /\ 0 <= r <= 2 * q /\ 0 <= q
    /\ (l <> loc_Exact -> r <> 0)
    /\ (-1074 < e' -> 2 ^ 52 <= q)
    /\ e' <= fexp (Zdigits2 q + e')
    /\ -1074 <= e' /\ 2 * e' <= ex.
Proof.
  intros Hcx e'.
  destruct (canonical_range mx ex Hcx) as (Hex & Hdx & _).
  rewrite SFsqrt_core_eq. simpl Zdigits2. fold e'. cbv zeta.
  assert (He2 : 2 * Z.div2 ex <= ex).
  { rewrite Z.div2_div. pose proof (Z.mul_div_le ex 2 ltac:(lia)). lia. }
  assert (He2' : -537 <= Z.div2 ex).
  { rewrite Z.div2_div. apply Z.div_le_lower_bound; lia. }
  assert (Hrange : -1074 <= e' /\ 2 * e' <= ex).
  { unfold e'. rewrite fexp_eq. lia. }
  remember (ex - 2 * e') as s eqn:Es.
  assert (Hs : 0 <= s) by lia.
  remember (match s with Zpos _ => Z.shiftl (Zpos mx) s | Z0 => Zpos mx | Zneg _ => 0 end)
    as m' eqn:Em'.
  assert (Hm' : m' = Zpos mx * 2 ^ s).
  { subst m'. clear Es. destruct s as [|p|p].
    - change (2 ^ 0) with 1. now rewrite Z.mul_1_r.
    - apply Z.shiftl_mul_pow2. lia.
    - lia. }
  assert (Hm0 : 0 <= m') by (rewrite Hm'; pose proof (pow2_pos s Hs); lia).
  pose proof (Z.sqrtrem_spec m' Hm0) as Hsq.
  destruct (Z.sqrtrem m') as [q r]. destruct Hsq as [Hsq Hr].
  cbn [fst snd].
  assert (Hq : 0 <= q) by lia.
  assert (Hnormal : -1074 < e' -> 2 ^ 52 <= q).
  { intro Hn.
    pose proof (digits_bounds mx) as [Hlx _].
    set (dx := Zpos (digits2_pos mx)) in *.
    assert (Hdx0 : 0 < dx) by (unfold dx; lia).
    assert (Hh : 2 * Z.div2 (dx + ex + 1) <= dx + ex + 1).
    { rewrite Z.div2_div. pose proof (Z.mul_div_le (dx + ex + 1) 2 ltac:(lia)). lia. }
    assert (Hs104 : 105 - dx <= s).
    { subst s. unfold e' in *. rewrite fexp_eq in *. lia. }
    assert (Hbig : 2 ^ 104 <= m').
    { rewrite Hm'.
      apply Z.le_trans with (2 ^ (dx - 1) * 2 ^ s).
      - rewrite <- pow2_split by lia. apply Z.pow_le_mono_r; lia.
      - apply Z.mul_le_mono_nonneg_r; [apply Z.pow_nonneg; lia | exact Hlx]. }
    change (2 ^ 104) with (2 ^ 52 * 2 ^ 52) in Hbig.
    assert (H52 : 0 < 2 ^ 52) by (apply pow2_pos; lia).
    nia. }
  exists q, r,
    (if r =? 0 then loc_Exact else loc_Inexact (if r <=? q then Lt else Gt)).
  split; [reflexivity|].
  split; [rewrite <- Hm'; exact Hsq|].
  split; [lia|]. split; [exact Hq|].
  split; [intros Hl Hr0; subst r; now elim Hl|].
  split; [exact Hnormal|].
  split; [|exact Hrange].
  destruct (Z_le_gt_dec e' (-1074)) as [Hle|Hgt].
  - rewrite fexp_eq. lia.
  - specialize (Hnormal ltac:(lia)).
    assert (Hd : 53 <= Zdigits2 q).
    { destruct (Zdigits2_bounds q ltac:(lia)) as [_ Hu].
      destruct (Z_le_gt_dec 53 (Zdigits2 q)) as [H|H]; [exact H|]. exfalso.
      assert (2 ^ Zdigits2 q <= 2 ^ 52) by (apply Z.pow_le_mono_r; lia). lia. }
    rewrite fexp_eq. lia.
Qed.

Lemma square_le_inv x y : 0 <= x -> 0 <= y -> x * x <= y * y -> x <= y.
Proof. intros. nia. Qed.

Lemma square_lt_inv x y : 0 <= x -> 0 <= y -> x * x < y * y -> x < y.
Proof. intros. nia. Qed.

Lemma sqrt_sandwich a lo hi :
  good a = true -> good lo = true -> good hi = true ->
  units lo * units lo <= units a * 2 ^ W <= units hi * units hi ->
  good (SFsqrt prec emax a) = true
  /\ units lo <= units (SFsqrt prec emax a) <= units hi.
Proof.
  intros Ha Hlo Hhi Hbound.
  pose proof (units_nonneg lo) as Hlo0. pose proof (units_nonneg hi) as Hhi0.
  destruct (good_cases a Ha) as [[sa ->]|(ma & ea & -> & Hca & Hea)].
  - cbn [SFsqrt]. split; [reflexivity|]. cbn [units] in *. nia.
  - destruct (canonical_range ma ea Hca) as (Hea1 & _).
    rewrite SFsqrt_finite.
    destruct (sqrt_core_spec ma ea Hca)
      as (q & r & l & Hcore & Hsq & Hr & Hq & Hl & Hnormal & HE & He'1 & He'2).
    rewrite Hcore. cbn [fst snd].
    set (e' := Z.min (fexp (Z.div2 (Zpos (digits2_pos ma) + ea + 1))) (Z.div2 ea)) in *.
    set (T := 2 ^ (e' + W)).
    assert (HT : 0 < T) by (apply pow2_pos; lia).
    assert (Hua : units (S754_finite false ma ea) * 2 ^ W = (q * q + r) * (T * T)).
    { cbn [units]. rewrite <- Hsq. unfold T.
      transitivity (Zpos ma * (2 ^ (ea + W) * 2 ^ W)); [ring|].
      transitivity (Zpos ma * (2 ^ (ea - 2 * e') * (2 ^ (e' + W) * 2 ^ (e' + W)))); [|ring].
      f_equal. rewrite <- !Z.pow_add_r by lia. f_equal. lia. }
    rewrite Hua in Hbound. destruct Hbound as [Hl1 Hu1].
    assert (Hupper : q * T <= units hi).
    { apply square_le_inv; [nia | exact Hhi0|].
      eapply Z.le_trans; [|exact Hu1]. nia. }
    assert (Hstrict : l <> loc_Exact -> q * T < units hi).
    { intro Hne. specialize (Hl Hne).
      apply square_lt_inv; [nia | exact Hhi0|].
      eapply Z.lt_le_trans; [|exact Hu1]. nia. }
    assert (Hlower : units lo <= q * T).
    { destruct (good_cases lo Hlo) as [[s ->]|(ml & el & -> & Hcl & Hel)].
      - cbn [units]. nia.
      - destruct (canonical_range ml el Hcl) as (Hel1 & _).
        destruct (Z_le_gt_dec e' el) as [Hge|Hlt].
        + assert (Hsplit : units (S754_finite false ml el)
                           = Zpos ml * 2 ^ (el - e') * T).
          { cbn [units]. unfold T. rewrite <- Z.mul_assoc. f_equal.
            rewrite <- pow2_split by lia. f_equal. lia. }
          rewrite Hsplit in Hl1 |- *.
          apply Z.mul_le_mono_nonneg_r; [lia|].
          set (L := Zpos ml * 2 ^ (el - e')) in *.
          assert (HL0 : 0 <= L) by (unfold L; pose proof (pow2_pos (el - e') ltac:(lia)); lia).
          assert (HL : (L * L) * (T * T) <= (q * q + r) * (T * T)).
          { eapply Z.le_trans; [|exact Hl1]. apply Z.eq_le_incl. ring. }
          apply Z.mul_le_mono_pos_r in HL; [|nia].
          nia.
        + specialize (Hnormal ltac:(lia)).
          pose proof (canonical_lt_pow ml el Hcl) as Hml.
          cbn [units]. unfold T.
          replace (e' + W) with ((e' - el - 1) + 1 + (el + W)) by lia.
          rewrite (pow2_split (e' - el - 1 + 1) (el + W)), (pow2_split (e' - el - 1) 1) by lia.
          pose proof (pow2_pos (el + W) ltac:(lia)) as HA.
          pose proof (pow2_pos (e' - el - 1) ltac:(lia)) as HB.
          change (2 ^ 1) with 2. change (2 ^ 53) with (2 * 2 ^ 52) in Hml.
          set (A := 2 ^ (el + W)) in *. set (B := 2 ^ (e' - el - 1)) in *.
          assert (Hm : Zpos ml <= q * (B * 2)) by nia.
          rewrite Z.mul_assoc. apply Z.mul_le_mono_nonneg_r; lia. }
    apply (round_sandwich q e' l Hq ltac:(lia) HE lo hi Hlo Hhi Hlower Hupper Hstrict).
Qed.

(* ---------------- subtraction of a smaller number ---------------- *)

Lemma SFsub_finite mx ex my ey :
  SFsub prec emax (S754_finite false mx ex) (S754_finite false my ey)
  = binary_normalize prec emax
      (Zpos (fst (shl_align mx ex (Z.min ex ey))) - Zpos (fst (shl_align my ey (Z.min ex ey))))
      (Z.min ex ey) false.
Proof. reflexivity. Qed.

Lemma sub_sandwich a b lo hi :
  good a = true -> good b = true -> good lo = true -> good hi = true ->
  units b <= units a ->
  units lo <= units a - units b <= units hi ->
  good (SFsub prec emax a b) = true
  /\ units lo <= units (SFsub prec emax a b) <= units hi.
Proof.
  intros Ha Hb Hlo Hhi Hle Hbound.
  destruct (good_cases a Ha) as [[sa ->]|(ma & ea & -> & Hca & Hea)];
    destruct (good_cases b Hb) as [[sb ->]|(mb & eb & -> & Hcb & Heb)].
  - assert (Hz : exists s, SFsub prec emax (S754_zero sa) (S754_zero sb) = S754_zero s)
      by (destruct sa, sb; simpl; eauto).
    destruct Hz as [s ->]. split; [reflexivity|]. cbn [units] in *. lia.
  - destruct (canonical_range mb eb Hcb) as (Heb1 & _).
    pose proof (units_finite_pos false mb eb ltac:(lia)). cbn [units] in *. lia.
  - change (SFsub prec emax (S754_finite false ma ea) (S754_zero sb))
      with (S754_finite false ma ea).
    split; [exact Ha|]. cbn [units] in *. lia.
  - destruct (canonical_range ma ea Hca) as (Hea1 & _).
    destruct (canonical_range mb eb Hcb) as (Heb1 & _).
    rewrite SFsub_finite.
    pose proof (shl_align_spec ma ea (Z.min ea eb)) as Hsa.
    pose proof (shl_align_spec mb eb (Z.min ea eb)) as Hsb.
    destruct (shl_align ma ea (Z.min ea eb)) as [mza eza].
    destruct (shl_align mb eb (Z.min ea eb)) as [mzb ezb].
    destruct Hsa as (_ & _ & Ha3 & _ & Ha5).
    destruct Hsb as (_ & _ & Hb3 & _ & Hb5).
    rewrite (Ha3 ltac:(lia)) in Ha5. rewrite (Hb3 ltac:(lia)) in Hb5.
    cbn [fst]. cbn [units] in Hbound, Hle.
    set (ez := Z.min ea eb) in *.
    assert (Hsa : 2 ^ (ea + W) = 2 ^ (ea - ez) * 2 ^ (ez + W))
      by (rewrite <- pow2_split by lia; f_equal; lia).
    assert (Hsb : 2 ^ (eb + W) = 2 ^ (eb - ez) * 2 ^ (ez + W))
      by (rewrite <- pow2_split by lia; f_equal; lia).
    rewrite Hsa, Hsb in Hbound, Hle.
    rewrite !Z.mul_assoc in Hbound, Hle. rewrite <- Ha5, <- Hb5 in Hbound, Hle.
    pose proof (pow2_pos (ez + W) ltac:(lia)) as HA.
    destruct (Zpos mza - Zpos mzb) as [|p|p] eqn:Hd.
    + cbn [binary_normalize]. split; [reflexivity|]. cbn [units].
      assert (Zpos mza = Zpos mzb) by lia. nia.
    + cbn [binary_normalize].
      apply binary_round_sandwich; try assumption; try lia; rewrite <- Hd; lia.
    + exfalso. assert (Zpos mza < Zpos mzb) by lia. nia.
Qed.

Lemma of_nat_exact n :
  Z.of_nat n < 2 ^ 53 ->
  good (of_nat n) = true /\ units (of_nat n) = Z.of_nat n * 2 ^ W.
Proof. intro H. apply of_Z_exact. lia. Qed.

Lemma units_one : units one = 2 ^ W.
Proof. vm_compute. reflexivity. Qed.

Lemma good_one : good one = true.
Proof. reflexivity. Qed.

Lemma pos_lt_pow_digits j : Zpos j < 2 ^ 53 -> Zpos (digits2_pos j) <= 53.
Proof.
  intro H. pose proof (digits_bounds j) as [Hl _].
  destruct (Z_le_gt_dec (Zpos (digits2_pos j)) 53) as [Hd|Hd]; [exact Hd|].
  exfalso. assert (2 ^ 53 <= 2 ^ (Zpos (digits2_pos j) - 1)) by (apply Z.pow_le_mono_r; lia).
  lia.
Qed.

Lemma dyadic_good j k :
  Zpos j < 2 ^ 53 -> -1074 <= k -> Zpos j * 2 ^ (k + W) < 2 ^ (1024 + W) ->
  good (dyadic j k) = true /\ units (dyadic j k) = Zpos j * 2 ^ (k + W).
Proof.
  intros Hj Hk Hmax. apply binary_round_exact; try lia.
  now apply pos_lt_pow_digits.
Qed.

(** A power of two within the range of the format. *)
Lemma pow2_good k :
  -1074 <= k <= 1023 ->
  good (dyadic 1 k) = true /\ units (dyadic 1 k) = 2 ^ (k + W).
Proof.
  intro Hk. destruct (dyadic_good 1 k) as [H1 H2]; try lia.
  - rewrite Z.mul_1_l. apply Z.pow_lt_mono_r; lia.
  - split; [exact H1|]. rewrite H2. lia.
Qed.

Lemma units_div_pow m e :
  - W <= e ->
  (Zpos m * 2 ^ (e + W)) / 2 ^ W
  = if 0 <=? e then Z.shiftl (Zpos m) e else Z.shiftr (Zpos m) (- e).
Proof.
  intros Hw. destruct (Z.leb_spec 0 e) as [He|He].
  - rewrite Z.shiftl_mul_pow2 by lia.
    rewrite (pow2_split e W) by lia. rewrite Z.mul_assoc. apply Z.div_mul.
    apply Z.pow_nonzero; lia.
  - rewrite Z.shiftr_div_pow2 by lia.
    assert (Hs : 2 ^ W = 2 ^ (e + W) * 2 ^ (- e)).
    { rewrite <- (pow2_split (e + W) (- e)) by lia. f_equal. lia. }
    rewrite Hs.
    rewrite (Z.mul_comm (Zpos m)).
    rewrite Z.div_mul_cancel_l; [reflexivity | | ]; apply Z.pow_nonzero; lia.
Qed.

Lemma toInteger_good x :
  good x = true -> toIntegerOrInfinity x = Int (units x / 2 ^ W).
Proof.
  intro Hg. destruct (good_cases x Hg) as [[s ->]|(m & e & -> & Hc & He)].
  - reflexivity.
  - destruct (canonical_range m e Hc) as (He1 & _).
    cbn [toIntegerOrInfinity units]. rewrite units_div_pow by lia. reflexivity.
Qed.

Lemma units_floor_nonneg x : 0 <= units x / 2 ^ W.
Proof. apply Z.div_pos; [apply units_nonneg | apply pow2_pos; lia]. Qed.

Lemma Math_floor_good x :
  good x = true ->
  good (Math_floor x) = true /\ units (Math_floor x) = units x / 2 ^ W * 2 ^ W.
Proof.
  intro Hg. destruct (good_cases x Hg) as [[s ->]|(m & e & -> & Hc & He)].
  - split; [reflexivity|]. cbn [Math_floor units]. reflexivity.
  - destruct (canonical_range m e Hc) as (He1 & _).
    pose proof (units_div_pow m e ltac:(lia)) as Hd.
    cbn [Math_floor]. cbn [units]. rewrite Hd.
    destruct (Z.leb_spec 0 e) as [He0|He0].
    + split; [exact Hg|]. cbn [units].
      rewrite Z.shiftl_mul_pow2 by lia. rewrite (pow2_split e W) by lia. ring.
    + apply of_Z_exact. rewrite Z.shiftr_div_pow2 by lia.
      pose proof (canonical_lt_pow m e Hc) as Hm.
      assert (0 < 2 ^ (- e)) by (apply pow2_pos; lia).
      split; [apply Z.div_pos; lia|].
      eapply Z.le_lt_trans; [|exact Hm].
      apply Z.div_le_upper_bound; [lia|]. nia.
Qed.

Lemma Math_max_good a b :
  good a = true -> good b = true ->
  good (Math_max a b) = true /\ units (Math_max a b) = Z.max (units a) (units b).
Proof.
  intros Ha Hb. unfold Math_max. rewrite (compare_units a b Ha Hb).
  destruct (Z.compare_spec (units a) (units b)) as [H|H|H].
  - assert (Hr : good a = true /\ units a = Z.max (units a) (units b)) by (split; [exact Ha | lia]).
    destruct a as [[|]| | |]; try exact Hr.
    destruct b as [[|]| | |]; exact Hr.
  - split; [exact Hb | lia].
  - split; [exact Ha | lia].
Qed.

Lemma Math_min_good a b :
  good a = true -> good b = true ->
  good (Math_min a b) = true /\ units (Math_min a b) = Z.min (units a) (units b).
Proof.
  intros Ha Hb. unfold Math_min. rewrite (compare_units a b Ha Hb).
  destruct (Z.compare_spec (units a) (units b)) as [H|H|H].
  - assert (Hr : good a = true /\ units a = Z.min (units a) (units b)) by (split; [exact Ha | lia]).
    destruct a as [[|]| | |]; try exact Hr.
    destruct b as [[|]| | |]; exact Hr.
  - split; [exact Ha | lia].
  - split; [exact Hb | lia].
Qed.

Lemma truthy_units x : good x = true -> truthy x = (0 <? units x).
Proof.
  intro Hg. destruct (good_cases x Hg) as [[s ->]|(m & e & -> & Hc & He)].
  - reflexivity.
  - destruct (canonical_range m e Hc) as (He1 & _).
    pose proof (units_finite_pos false m e ltac:(lia)).
    cbn [truthy is_zero is_nan orb negb]. symmetry. apply Z.ltb_lt. exact H.
Qed.

Lemma sliceFinal_good len c :
  good c = true ->
  sliceFinal len c = Z.to_nat (Z.min (units c / 2 ^ W) (Z.of_nat len)).
Proof.
  intro Hg. unfold sliceFinal. rewrite (toInteger_good c Hg).
  pose proof (units_floor_nonneg c).
  destruct (Z.ltb_spec (units c / 2 ^ W) 0); [lia | reflexivity].
Qed.

(** An integer-valued count cuts a list at that many elements. *)
Lemma sliceFinal_count len c k :
  good c = true -> units c = Z.of_nat k * 2 ^ W ->
  sliceFinal len c = Nat.min k len.
Proof.
  intros Hg Hu. rewrite (sliceFinal_good len c Hg), Hu.
  rewrite Z.div_mul by (apply Z.pow_nonzero; lia). lia.
Qed.

Lemma mul_comm x y : SFmul prec emax x y = SFmul prec emax y x.
Proof.
  destruct x as [sx|sx| |sx mx ex], y as [sy|sy| |sy my ey]; cbn [SFmul];
    rewrite ?(xorb_comm sx sy); try reflexivity.
  rewrite (Pos.mul_comm mx my), (Z.add_comm ex ey). reflexivity.
Qed.

End RoundingFacts.

(* ================================================================== *)
(** * Summarizer: segmentation, selection and assembly *)
(* ================================================================== *)

Module SummarizerFacts.

Import Number JsString JsArray Summarizer DocumentOrder StringFacts ArrayFacts.
Local Open Scope nat_scope.

Section Facts.

Variable STOPWORDS : list string.
Variable Math_log : number -> number.
Variable Math_pow : number -> number -> number.

Local Abbreviation sentencesWithMetadata := (sentencesWithMetadata STOPWORDS).
Local Abbreviation selectSentences := (selectSentences STOPWORDS Math_log Math_pow).
Local Abbreviation summarize := (summarize STOPWORDS Math_log Math_pow).

(** ** Segmentation: indices count up, paragraphs never go back *)

Lemma splitSentences_nonEmpty (paragraph : string) :
  Forall (fun t => nonEmpty t = true) (Tokenizer.splitSentences paragraph).
Proof.
  unfold Tokenizer.splitSentences. apply Forall_forall.
  intros t Ht. now apply filter_In in Ht.
Qed.

Lemma addSentences_bounds favor pc pIdx cnt localIdx g sentences :
  Forall (fun s => g <= index s /\ paragraph s = pIdx)
         (addSentences STOPWORDS favor pc pIdx cnt localIdx g sentences).
Proof.
  revert localIdx g. induction sentences as [|t rest IH]; intros localIdx g; simpl.
  - constructor.
  - constructor; [simpl; lia|].
    eapply Forall_impl; [|apply IH]. simpl. intros s [H1 H2]. lia.
Qed.

Lemma addSentences_texts favor pc pIdx cnt localIdx g sentences :
  map text (addSentences STOPWORDS favor pc pIdx cnt localIdx g sentences) = sentences.
Proof.
  revert localIdx g. induction sentences as [|t rest IH]; intros localIdx g; simpl;
    [reflexivity | now rewrite IH].
Qed.

Lemma addSentences_length favor pc pIdx cnt localIdx g sentences :
  List.length (addSentences STOPWORDS favor pc pIdx cnt localIdx g sentences)
  = List.length sentences.
Proof. rewrite <- (length_map text), addSentences_texts. reflexivity. Qed.

Lemma addSentences_below favor pc pIdx cnt localIdx g sentences :
  Forall (fun s => index s < g + List.length sentences)
         (addSentences STOPWORDS favor pc pIdx cnt localIdx g sentences).
Proof.
  revert localIdx g. induction sentences as [|t rest IH]; intros localIdx g; simpl.
  - constructor.
  - constructor; [simpl; lia|].
    eapply Forall_impl; [|apply IH]. simpl. intros s H. lia.
Qed.

Lemma addSentences_sorted favor pc pIdx cnt localIdx g sentences :
  StronglySorted inOrder
    (addSentences STOPWORDS favor pc pIdx cnt localIdx g sentences).
Proof.
  revert localIdx g. induction sentences as [|t rest IH]; intros localIdx g; simpl.
  - constructor.
  - constructor; [apply IH|].
    eapply Forall_impl; [|apply addSentences_bounds].
    intros s [H1 H2]. unfold inOrder. simpl. lia.
Qed.

Lemma addParagraphs_bounds favor pc pIdx g paragraphs :
  Forall (fun s => g <= index s /\ pIdx <= paragraph s)
         (addParagraphs STOPWORDS favor pc pIdx g paragraphs).
Proof.
  revert pIdx g. induction paragraphs as [|p rest IH]; intros pIdx g; simpl.
  - constructor.
  - apply Forall_app. split.
    + eapply Forall_impl; [|apply addSentences_bounds]. simpl. intros s [H1 H2]. lia.
    + eapply Forall_impl; [|apply IH]. simpl. intros s [H1 H2]. lia.
Qed.

Lemma addParagraphs_sorted favor pc pIdx g paragraphs :
  StronglySorted inOrder (addParagraphs STOPWORDS favor pc pIdx g paragraphs).
Proof.
  revert pIdx g. induction paragraphs as [|p rest IH]; intros pIdx g; simpl.
  - constructor.
  - apply StronglySorted_app; [apply addSentences_sorted | apply IH|].
    intros a b Ha Hb.
    pose proof (addSentences_below favor pc pIdx
                  (List.length (Tokenizer.splitSentences p)) 0 g
                  (Tokenizer.splitSentences p)) as Hlt.
    pose proof (addSentences_bounds favor pc pIdx
                  (List.length (Tokenizer.splitSentences p)) 0 g
                  (Tokenizer.splitSentences p)) as Hpar.
    pose proof (addParagraphs_bounds favor pc (S pIdx)
                  (g + List.length (Tokenizer.splitSentences p)) rest) as Hge.
    rewrite Forall_forall in Hlt, Hpar, Hge.
    specialize (Hlt a Ha). specialize (Hpar a Ha). specialize (Hge b Hb).
    unfold inOrder. lia.
Qed.

Lemma addParagraphs_nonEmpty favor pc pIdx g paragraphs :
  Forall (fun s => nonEmpty (text s) = true)
         (addParagraphs STOPWORDS favor pc pIdx g paragraphs).
Proof.
  revert pIdx g. induction paragraphs as [|p rest IH]; intros pIdx g; simpl.
  - constructor.
  - apply Forall_app. split; [|apply IH].
    rewrite <- Forall_map with (f := text) (P := fun t => nonEmpty t = true).
    rewrite addSentences_texts. apply splitSentences_nonEmpty.
Qed.

Lemma sentences_sorted options text :
  StronglySorted inOrder (sentencesWithMetadata options text).
Proof. apply addParagraphs_sorted. Qed.

Lemma sentences_nonEmpty options text :
  Forall (fun s => nonEmpty (Summarizer.text s) = true) (sentencesWithMetadata options text).
Proof. apply addParagraphs_nonEmpty. Qed.

(** ** Selection: a choice of sentences, put back in document order *)

Lemma sorted_NoDup (S : list SentenceWithMetadata) :
  StronglySorted inOrder S -> NoDup S.
Proof.
  induction 1 as [|x l Hl IH Hx]; constructor; [|exact IH].
  intro Hin. rewrite Forall_forall in Hx. specialize (Hx x Hin).
  unfold inOrder in Hx. lia.
Qed.

Lemma sorted_cases (S : list SentenceWithMetadata) (a b : SentenceWithMetadata) :
  StronglySorted inOrder S -> In a S -> In b S ->
  a = b \/ inOrder a b \/ inOrder b a.
Proof.
  induction 1 as [|x l Hl IH Hx]; [contradiction|].
  rewrite Forall_forall in Hx.
  intros [->|Ha] [->|Hb]; auto.
Qed.

Lemma deduplicate_from (threshold : number) (candidates result : list SentenceWithMetadata) :
  NoDup (result ++ candidates) ->
  let kept :=
    fold_left
      (fun result candidate =>
         if existsb (fun selected =>
                       ltb threshold
                           (TextRank.calculateSimilarity STOPWORDS (text candidate)
                                                         (text selected)))
                    result
         then result else result ++ [candidate])
      candidates result in
  NoDup kept /\ incl kept (result ++ candidates) /\ incl result kept.
Proof.
  revert result. induction candidates as [|c rest IH]; intros result Hnd; simpl.
  - rewrite app_nil_r in *. repeat split; [exact Hnd | apply incl_refl | apply incl_refl].
  - match goal with |- context [if ?t then _ else _] => destruct t end.
    + destruct (IH result (NoDup_remove_1 _ _ _ Hnd)) as (H1 & H2 & H3).
      repeat split; [exact H1 | | exact H3].
      intros x Hx. specialize (H2 x Hx).
      rewrite in_app_iff in *. simpl. tauto.
    + assert (Hnd' : NoDup ((result ++ [c]) ++ rest))
        by (now rewrite <- app_assoc).
      destruct (IH (result ++ [c]) Hnd') as (H1 & H2 & H3).
      repeat split; [exact H1 | |].
      * intros x Hx. specialize (H2 x Hx). now rewrite <- app_assoc in H2.
      * intros x Hx. apply H3. apply in_app_iff. now left.
Qed.

Lemma deduplicate_chosen (candidates : list SentenceWithMetadata) (threshold : number) :
  NoDup candidates ->
  NoDup (deduplicateSentences STOPWORDS candidates threshold)
  /\ incl (deduplicateSentences STOPWORDS candidates threshold) candidates.
Proof.
  intro H. destruct (deduplicate_from threshold candidates [] H) as (H1 & H2 & _).
  split; assumption.
Qed.

(** The first candidate is never a duplicate. *)
Lemma deduplicate_first (c : SentenceWithMetadata) (rest : list SentenceWithMetadata)
      (threshold : number) :
  NoDup (c :: rest) ->
  In c (deduplicateSentences STOPWORDS (c :: rest) threshold).
Proof.
  intro H. unfold deduplicateSentences. simpl.
  destruct (deduplicate_from threshold rest [c] H) as (_ & _ & H3).
  apply H3. now left.
Qed.

Lemma slice0_map (A B : Type) (f : A -> B) (l : list A) (end_ : number) :
  map f (slice0 l end_) = slice0 (map f l) end_.
Proof. unfold slice0. now rewrite length_map, firstn_map. Qed.

Lemma ranking_perm (scores : list (nat * number)) (sentences : list SentenceWithMetadata) :
  Permutation
    (map fst (sort byScoreDescending
                (map (fun s => (s, or_zero (get Nat.eqb scores (index s)))) sentences)))
    sentences.
Proof.
  rewrite sort_perm, map_map. simpl. now rewrite map_id.
Qed.

Lemma topSentences_chosen scores end_ sentences :
  NoDup sentences ->
  NoDup (topSentences scores end_ sentences)
  /\ incl (topSentences scores end_ sentences) sentences.
Proof.
  intro H. unfold topSentences. rewrite slice0_map. split.
  - apply slice0_NoDup. eapply Permutation_NoDup; [symmetry; apply ranking_perm | exact H].
  - intros x Hx. apply slice0_incl in Hx.
    eapply Permutation_in; [apply ranking_perm | exact Hx].
Qed.

Lemma topSentences_length scores end_ sentences :
  List.length (topSentences scores end_ sentences)
  = sliceFinal (List.length sentences) end_.
Proof.
  unfold topSentences. now rewrite length_map, slice0_length, sort_length, length_map.
Qed.

Lemma selectSentences_chosen options summaryRatio maxSentences sentences :
  NoDup sentences ->
  NoDup (selectSentences options summaryRatio maxSentences sentences)
  /\ incl (selectSentences options summaryRatio maxSentences sentences) sentences.
Proof.
  intro H. unfold Summarizer.selectSentences.
  match goal with
  | |- context [sort byIndexAscending ?l] => set (selected := l)
  end.
  assert (Hsel : NoDup selected /\ incl selected sentences).
  { subst selected. destruct (deduplicateSimilar options).
    - match goal with
      | |- context [deduplicateSentences _ ?top _] =>
          destruct (topSentences_chosen
                      (scoreSentences STOPWORDS Math_pow sentences
                         (calculateTfIdf STOPWORDS Math_log (map text sentences)))
                      (mul (sentenceCount (List.length sentences) summaryRatio maxSentences)
                           two) H) as [Ht1 Ht2]
      end.
      destruct (deduplicate_chosen lit_0_6 Ht1) as [Hd1 Hd2].
      split; [now apply slice0_NoDup|].
      intros x Hx. apply Ht2, Hd2. apply slice0_incl in Hx. exact Hx.
    - apply (topSentences_chosen _ _ H). }
  destruct Hsel as [H1 H2]. split; [now apply sort_NoDup|].
  intros x Hx. apply H2. now apply sort_In in Hx.
Qed.

Lemma byIndexAscending_total a b :
  byIndexAscending a b = true \/ byIndexAscending b a = true.
Proof. unfold byIndexAscending. rewrite !Nat.leb_le. lia. Qed.

Lemma byIndexAscending_trans a b c :
  byIndexAscending a b = true -> byIndexAscending b c = true ->
  byIndexAscending a c = true.
Proof. unfold byIndexAscending. rewrite !Nat.leb_le. lia. Qed.

(** A choice among sentences in document order, sorted by index, is in
    document order. *)
Lemma sorted_by_index_inOrder (sentences chosen : list SentenceWithMetadata) :
  StronglySorted inOrder sentences ->
  NoDup chosen -> incl chosen sentences ->
  StronglySorted (ordered byIndexAscending) chosen ->
  StronglySorted inOrder chosen.
Proof.
  intros HS Hnd Hincl Hsorted.
  induction Hsorted as [|x l Hl IH Hx]; constructor.
  - apply IH; [now inversion Hnd | intros y Hy; apply Hincl; now right].
  - rewrite Forall_forall in *. intros y Hy. specialize (Hx y Hy).
    unfold ordered, byIndexAscending in Hx. apply Nat.leb_le in Hx.
    destruct (sorted_cases x y HS (Hincl x (or_introl eq_refl)) (Hincl y (or_intror Hy)))
      as [->|[H|H]].
    + inversion Hnd; contradiction.
    + exact H.
    + unfold inOrder in H. lia.
Qed.

Lemma selectSentences_inOrder options summaryRatio maxSentences sentences :
  StronglySorted inOrder sentences ->
  StronglySorted inOrder (selectSentences options summaryRatio maxSentences sentences).
Proof.
  intro HS.
  destruct (selectSentences_chosen options summaryRatio maxSentences (sorted_NoDup HS))
    as [H1 H2].
  apply (sorted_by_index_inOrder HS H1 H2).
  apply sort_sorted; [apply byIndexAscending_total | apply byIndexAscending_trans].
Qed.

(** ** Grouping by paragraph *)

Lemma StronglySorted_app_inv (A : Type) (R : A -> A -> Prop) (l1 l2 : list A) :
  StronglySorted R (l1 ++ l2) ->
  StronglySorted R l1 /\ StronglySorted R l2
  /\ (forall a b, In a l1 -> In b l2 -> R a b).
Proof.
  induction l1 as [|x l1 IH]; simpl; intro H.
  - repeat split; [constructor | exact H | contradiction].
  - apply StronglySorted_inv in H. destruct H as [H Hx].
    destruct (IH H) as (H1 & H2 & H12).
    apply Forall_app in Hx. destruct Hx as [Hx1 Hx2].
    repeat split; [now constructor | exact H2|].
    intros a b [->|Ha] Hb; [|now apply H12].
    rewrite Forall_forall in Hx2. now apply Hx2.
Qed.

Lemma StronglySorted_concat (A : Type) (R : A -> A -> Prop) (ls : list (list A)) :
  StronglySorted R (List.concat ls) -> Forall (StronglySorted R) ls.
Proof.
  induction ls as [|l ls IH]; simpl; intro H; constructor;
    apply StronglySorted_app_inv in H; destruct H as (H1 & H2 & _); auto.
Qed.

Lemma snoc_cases (A : Type) (l : list A) :
  l = [] \/ exists l' x, l = l' ++ [x].
Proof.
  induction l as [|x l _] using rev_ind; [now left | right; now exists l, x].
Qed.

Lemma groupAdd_new groups (s : SentenceWithMetadata) :
  Forall (fun key => key < paragraph s) (map fst groups) ->
  groupAdd groups s = groups ++ [(paragraph s, [s])].
Proof.
  intro H. unfold groupAdd, ensureGroup.
  rewrite (get_absent groups H), (set_absent groups [] H).
  rewrite (get_last groups [] H). now rewrite (set_last groups [] ([] ++ [s]) H).
Qed.

Lemma groupAdd_last groups members (s : SentenceWithMetadata) :
  Forall (fun key => key < paragraph s) (map fst groups) ->
  groupAdd (groups ++ [(paragraph s, members)]) s
  = groups ++ [(paragraph s, members ++ [s])].
Proof.
  intro H. unfold groupAdd, ensureGroup.
  now rewrite (get_last groups members H), (get_last groups members H),
    (set_last groups members (members ++ [s]) H).
Qed.

Lemma groupAdd_grouped groups done (s : SentenceWithMetadata) :
  grouped groups done ->
  Forall (fun d => paragraph d <= paragraph s) done ->
  grouped (groupAdd groups s) (done ++ [s]).
Proof.
  intros (Hcat & Hkeys & Hgroups) Hdone.
  destruct (snoc_cases groups) as [->|(groups0 & g0 & ->)].
  - rewrite groupAdd_new by constructor. simpl in *. subst done.
    repeat split; [repeat constructor|].
    constructor; [|constructor]. simpl. split; [discriminate | now constructor].
  - destruct g0 as [k members].
    rewrite map_app in Hkeys. simpl in Hkeys.
    apply StronglySorted_app_inv in Hkeys. destruct Hkeys as (Hk1 & _ & Hk2).
    assert (Hlt : Forall (fun key => key < k) (map fst groups0))
      by (apply Forall_forall; intros key Hkey; apply Hk2; [exact Hkey | now left]).
    apply Forall_app in Hgroups. destruct Hgroups as [Hg1 Hg2].
    pose proof (Forall_inv Hg2) as [Hne Hmem]. simpl in Hne, Hmem.
    rewrite map_app, concat_app in Hcat. simpl in Hcat. rewrite app_nil_r in Hcat.
    assert (Hk : k <= paragraph s).
    { destruct members as [|m members]; [contradiction|].
      pose proof (Forall_inv Hmem) as Hm. simpl in Hm.
      rewrite Forall_forall in Hdone. rewrite <- Hm. apply Hdone.
      rewrite <- Hcat. apply in_app_iff. right. now left. }
    destruct (Nat.eq_dec k (paragraph s)) as [->|ne].
    + rewrite groupAdd_last by exact Hlt.
      repeat split.
      * rewrite map_app, concat_app. simpl. rewrite app_nil_r, app_assoc.
        now rewrite Hcat.
      * rewrite map_app. simpl. apply StronglySorted_app;
          [exact Hk1 | repeat constructor|].
        intros a b Ha [<-|[]]. rewrite Forall_forall in Hlt. now apply Hlt.
      * apply Forall_app. split; [exact Hg1|].
        constructor; [|constructor]. simpl. split.
        -- now destruct members.
        -- apply Forall_app. split; [exact Hmem | now constructor].
    + assert (Hall : Forall (fun key => key < paragraph s)
                            (map fst (groups0 ++ [(k, members)]))).
      { rewrite map_app. apply Forall_app. split.
        - eapply Forall_impl; [|exact Hlt]. simpl. intros. lia.
        - constructor; [simpl; lia | constructor]. }
      rewrite groupAdd_new by exact Hall.
      repeat split.
      * rewrite map_app, concat_app, map_app, concat_app. simpl.
        rewrite !app_nil_r. now rewrite <- Hcat.
      * rewrite map_app. simpl. apply StronglySorted_app;
          [|repeat constructor|].
        -- rewrite map_app. simpl. apply StronglySorted_app;
             [exact Hk1 | repeat constructor|].
           intros a b Ha [<-|[]]. rewrite Forall_forall in Hlt. now apply Hlt.
        -- intros a b Ha [<-|[]]. rewrite Forall_forall in Hall. now apply Hall.
      * apply Forall_app. split.
        -- apply Forall_app. split; [exact Hg1 | exact Hg2].
        -- constructor; [|constructor]. simpl. split; [discriminate | now constructor].
Qed.

Lemma fold_groupAdd_grouped rest groups done :
  grouped groups done ->
  StronglySorted inOrder (done ++ rest) ->
  grouped (fold_left groupAdd rest groups) (done ++ rest).
Proof.
  revert groups done. induction rest as [|s rest IH]; intros groups done Hg Hs; simpl.
  - now rewrite app_nil_r.
  - replace (done ++ s :: rest) with ((done ++ [s]) ++ rest) in *
      by (now rewrite <- app_assoc).
    apply IH; [|exact Hs].
    apply groupAdd_grouped; [exact Hg|].
    apply StronglySorted_app_inv in Hs. destruct Hs as (Hs & _ & _).
    apply StronglySorted_app_inv in Hs. destruct Hs as (_ & _ & Hs).
    apply Forall_forall. intros d Hd.
    destruct (Hs d s Hd (or_introl eq_refl)) as [_ H]. exact H.
Qed.

Lemma groupByParagraph_grouped selected :
  StronglySorted inOrder selected -> grouped (groupByParagraph selected) selected.
Proof.
  intro H. apply (fold_groupAdd_grouped selected (groups := []) (done := [])); [|exact H].
  repeat split; constructor.
Qed.

(** ** Assembly *)

Lemma filter_all (A : Type) (f : A -> bool) (l : list A) :
  Forall (fun x => f x = true) l -> filter f l = l.
Proof. induction 1 as [|x l Hx _ IH]; simpl; [reflexivity | now rewrite Hx, IH]. Qed.

Lemma join_nonEmpty (sep : string) (parts : list string) :
  parts <> [] -> Forall (fun t => nonEmpty t = true) parts ->
  nonEmpty (join sep parts) = true.
Proof.
  destruct parts as [|t parts]; [contradiction|]. intros _ H.
  inversion H as [|? ? Ht _]; subst.
  destruct t as [|c t]; [discriminate|].
  destruct parts; reflexivity.
Qed.

Lemma inOrder_ordered (l : list SentenceWithMetadata) :
  StronglySorted inOrder l -> StronglySorted (ordered byIndexAscending) l.
Proof.
  apply StronglySorted_impl. intros a b _ _ [H _].
  unfold ordered, byIndexAscending. apply Nat.leb_le. lia.
Qed.

Lemma assemble_render selected :
  StronglySorted inOrder selected ->
  Forall (fun s => nonEmpty (text s) = true) selected ->
  assemble selected = render (groupByParagraph selected).
Proof.
  intros Hs Hne. unfold assemble, render.
  destruct (groupByParagraph_grouped Hs) as (Hcat & _ & Hgroups).
  set (groups := groupByParagraph selected) in *.
  assert (Hsorted : Forall (StronglySorted inOrder) (map snd groups))
    by (apply StronglySorted_concat; now rewrite Hcat).
  assert (Htexts : Forall (Forall (fun s => nonEmpty (text s) = true)) (map snd groups)).
  { apply Forall_forall. intros members Hm. apply Forall_forall. intros s Hin.
    rewrite Forall_forall in Hne. apply Hne. rewrite <- Hcat.
    apply in_concat. exists members. split; assumption. }
  assert (Hsame : map (fun g => paragraphSummary (snd g)) groups
                  = map (fun g => join " " (map text (snd g))) groups).
  { apply map_ext_Forall. rewrite Forall_map in Hsorted.
    eapply Forall_impl; [|exact Hsorted]. intros g Hg.
    unfold paragraphSummary. now rewrite (sort_ordered (inOrder_ordered Hg)). }
  rewrite Hsame. f_equal. apply filter_all.
  rewrite Forall_map. rewrite Forall_map in Htexts.
  apply Forall_forall. intros g Hg.
  rewrite Forall_forall in Hgroups, Htexts.
  destruct (Hgroups g Hg) as [Hnonnil _]. specialize (Htexts g Hg).
  apply join_nonEmpty.
  - destruct (snd g); [contradiction | discriminate].
  - now rewrite Forall_map.
Qed.

(** ** The early returns of [summarize] *)

Lemma length_zero_empty (s : string) : (String.length s =? 0) = true -> s = EmptyString.
Proof. destruct s; [reflexivity | discriminate]. Qed.

Lemma summarize_assembled text summaryRatio maxSentences options :
  2 <= List.length (sentencesWithMetadata options text) ->
  summarize text summaryRatio maxSentences options
  = assemble (selectSentences options summaryRatio maxSentences
                (sentencesWithMetadata options text)).
Proof.
  intro H. unfold Summarizer.summarize.
  destruct (String.length text =? 0) eqn:Hempty.
  - apply length_zero_empty in Hempty. subst text. simpl in H. lia.
  - destruct (List.length (paragraphsOf text) =? 0) eqn:Hpar.
    + apply Nat.eqb_eq in Hpar. unfold Summarizer.sentencesWithMetadata in H.
      destruct (paragraphsOf text); [simpl in H; lia | discriminate].
    + destruct (List.length (sentencesWithMetadata options text) <=? 1) eqn:Hone;
        [apply Nat.leb_le in Hone; lia | reflexivity].
Qed.

(** A blank text has no paragraph. *)
Lemma trimStart_blank (s : string) : isBlank s = true -> trimStart s = EmptyString.
Proof.
  unfold isBlank. induction s as [|c s IH]; simpl; [reflexivity|].
  destruct (isWhiteSpace c); simpl; [exact IH | discriminate].
Qed.

Lemma trim_blank (s : string) : isBlank s = true -> trim s = EmptyString.
Proof. intro H. unfold trim. now rewrite (trimStart_blank s H). Qed.

Lemma isBlank_reverse (s : string) : isBlank (reverse s) = isBlank s.
Proof. unfold isBlank. now rewrite existsChar_reverse. Qed.

Lemma splitGo_blank (matchAt : option ascii -> string -> option nat)
      (s piece : string) (prev : option ascii) (skip : nat) :
  isBlank s = true -> isBlank piece = true ->
  Forall (fun part => isBlank part = true) (splitGo matchAt prev piece skip s).
Proof.
  revert piece prev skip.
  induction s as [|c s IH]; intros piece prev skip Hs Hp; simpl.
  - constructor; [now rewrite isBlank_reverse | constructor].
  - assert (Hc : isWhiteSpace c = true /\ isBlank s = true).
    { unfold isBlank in *. simpl in Hs.
      destruct (isWhiteSpace c); simpl in *; [split; [reflexivity | exact Hs] | discriminate]. }
    destruct Hc as [Hc Hs'].
    assert (Hcp : isBlank (String c piece) = true)
      by (unfold isBlank in *; simpl; now rewrite Hc).
    destruct skip as [|k]; [|now apply IH].
    destruct (matchAt prev (String c s)) as [[|k]|].
    + now apply IH.
    + constructor; [now rewrite isBlank_reverse | now apply IH].
    + now apply IH.
Qed.

Lemma paragraphsOf_blank (text : string) : isBlank text = true -> paragraphsOf text = [].
Proof.
  intro H. unfold paragraphsOf, split.
  pose proof (splitGo_blank (matchRun isNewline) text EmptyString None 0 H eq_refl) as Hparts.
  induction Hparts as [|part parts Hpart _ IH]; [reflexivity|].
  simpl. now rewrite (trim_blank part Hpart).
Qed.

Lemma ensureGroup_defined groups (s : SentenceWithMetadata) :
  get Nat.eqb (ensureGroup groups s) (paragraph s) <> None.
Proof.
  unfold ensureGroup.
  destruct (get Nat.eqb groups (paragraph s)) eqn:H.
  - rewrite H. discriminate.
  - rewrite get_set_same. discriminate.
Qed.

(** C2. [summarize] returns the empty string for the empty text and for a
    text without a paragraph that is not blank (so for every text of white
    space only); a text with a paragraph but at most one sentence is
    returned as it is.  The function is total, and the one lookup of its
    body that asserts a defined result always finds the group it has just
    ensured. *)
Theorem summarize_degenerate :
  (forall summaryRatio maxSentences options,
      summarize EmptyString summaryRatio maxSentences options = EmptyString)
  /\ (forall text summaryRatio maxSentences options,
         paragraphsOf text = [] ->
         summarize text summaryRatio maxSentences options = EmptyString)
  /\ (forall text summaryRatio maxSentences options,
         isBlank text = true ->
         summarize text summaryRatio maxSentences options = EmptyString)
  /\ (forall text summaryRatio maxSentences options,
         paragraphsOf text <> [] ->
         List.length (sentencesWithMetadata options text) <= 1 ->
         summarize text summaryRatio maxSentences options = text)
  /\ (forall groups sentence,
         get Nat.eqb (ensureGroup groups sentence) (paragraph sentence) <> None).
Proof.
  assert (Hnone : forall text summaryRatio maxSentences options,
             paragraphsOf text = [] ->
             summarize text summaryRatio maxSentences options = EmptyString).
  { intros text r m o H. unfold Summarizer.summarize. rewrite H. simpl.
    now destruct (String.length text =? 0). }
  split; [reflexivity|].
  split; [exact Hnone|].
  split; [intros text r m o H; apply Hnone; now apply paragraphsOf_blank|].
  split; [|exact ensureGroup_defined].
  intros text r m o Hpar Hone. unfold Summarizer.summarize.
  destruct (String.length text =? 0) eqn:Hempty.
  - apply length_zero_empty in Hempty. now subst text.
  - destruct (paragraphsOf text) eqn:Hp; [contradiction|]. simpl.
    apply Nat.leb_le in Hone. unfold Summarizer.sentencesWithMetadata in Hone.
    rewrite Hp in Hone. unfold Summarizer.sentencesWithMetadata. rewrite Hp.
    now rewrite Hone.
Qed.

(** ** The paragraphs of the output *)

(** C8. For a text of at least two sentences and any options, the output
    of [summarize] is the text of the groups of the selection, joined by
    blank lines in the order in which the keyed map holds them, and in that
    order the paragraph indices of the groups ascend strictly; every group
    holds at least one sentence, all of its own paragraph. *)
Theorem summarize_paragraphs_ascend text summaryRatio maxSentences options :
  2 <= List.length (sentencesWithMetadata options text) ->
  let groups :=
    groupByParagraph
      (selectSentences options summaryRatio maxSentences
         (sentencesWithMetadata options text)) in
  summarize text summaryRatio maxSentences options = render groups
  /\ StronglySorted lt (map fst groups)
  /\ Forall (groupOf (sentencesWithMetadata options text)) groups.
Proof.
  intros Hn groups.
  pose proof (sentences_sorted options text) as HS.
  pose proof (selectSentences_inOrder options summaryRatio maxSentences HS) as Hsel.
  destruct (selectSentences_chosen options summaryRatio maxSentences (sorted_NoDup HS))
    as [_ Hincl].
  destruct (groupByParagraph_grouped Hsel) as (Hcat & Hkeys & Hgroups).
  fold groups in Hcat, Hkeys, Hgroups.
  split; [|split; [exact Hkeys|]].
  - rewrite (summarize_assembled text summaryRatio maxSentences options Hn).
    apply assemble_render; [exact Hsel|].
    apply Forall_forall. intros s Hs.
    pose proof (sentences_nonEmpty options text) as Hne.
    rewrite Forall_forall in Hne. apply Hne, Hincl, Hs.
  - apply Forall_forall. intros g Hg.
    rewrite Forall_forall in Hgroups. destruct (Hgroups g Hg) as [Hne Hmem].
    split; [exact Hne|].
    apply Forall_forall. intros s Hs. rewrite Forall_forall in Hmem.
    split; [|now apply Hmem].
    apply Hincl. rewrite <- Hcat. apply in_concat.
    exists (snd g). split; [now apply in_map | exact Hs].
Qed.

End Facts.

End SummarizerFacts.

(* ================================================================== *)
(** * TextRank: shape of the ranking *)
(* ================================================================== *)

Module TextRankShape.

Import Number TextRank.
Local Open Scope nat_scope.

Section Shape.

Variable STOPWORDS : list string.
Variable Math_pow : number -> number -> number.

Local Abbreviation rankSentences := (rankSentences STOPWORDS Math_pow).
Local Abbreviation iterate := (iterate Math_pow).

Lemma updateScores_length n matrix scores :
  List.length (updateScores n matrix scores) = n.
Proof. unfold updateScores. now rewrite length_map, length_seq. Qed.

(** After at least one round the scores are those of a round: entry [i] is
    [newScore] at [i], computed from the scores of the round before. *)
Lemma iterate_last_round n matrix remaining scores :
  1 <= remaining -> List.length scores = n ->
  exists previous,
    List.length previous = n
    /\ iterate n matrix remaining scores = updateScores n matrix previous.
Proof.
  revert scores. induction remaining as [|remaining IH]; intros scores Hr Hlen; [lia|].
  simpl.
  destruct (ltb (distance Math_pow scores (updateScores n matrix scores))
                CONVERGENCE_THRESHOLD).
  - now exists scores.
  - destruct remaining as [|remaining'].
    + now exists scores.
    + apply IH; [lia | apply updateScores_length].
Qed.

Lemma rankSentences_rounds (sentences : list string) :
  2 <= List.length sentences ->
  exists previous,
    List.length previous = List.length sentences
    /\ rankSentences sentences
       = updateScores (List.length sentences)
           (map (normalizeRow (List.length sentences))
                (buildSimilarityMatrix STOPWORDS sentences))
           previous.
Proof.
  intro H. unfold TextRank.rankSentences.
  destruct (List.length sentences =? 0) eqn:H0; [apply Nat.eqb_eq in H0; lia|].
  destruct (List.length sentences =? 1) eqn:H1; [apply Nat.eqb_eq in H1; lia|].
  apply iterate_last_round; [unfold MAX_ITERATIONS; lia | apply repeat_length].
Qed.

End Shape.

End TextRankShape.

(* ================================================================== *)
(** * TextRank: the scores, sentence by sentence *)
(* ================================================================== *)

Module RankRounds.

Import Number TextRank RankSpec.
Local Unset Implicit Arguments.
Local Open Scope nat_scope.

Lemma fold_left_map (A B C : Type) (h : A -> B -> A) (m : C -> B) (l : list C) :
  forall a, fold_left h (map m l) a = fold_left (fun s x => h s (m x)) l a.
Proof. induction l as [|x l IH]; intro a; simpl; [reflexivity | apply IH]. Qed.

Lemma fold_left_ext_in (A B : Type) (f g : A -> B -> A) (l : list B) :
  (forall a x, In x l -> f a x = g a x) ->
  forall a, fold_left f l a = fold_left g l a.
Proof.
  induction l as [|x l IH]; intros H a; simpl; [reflexivity|].
  rewrite (H a x) by now left. apply IH. intros b y Hy. apply H. now right.
Qed.

Lemma nth_map_index (A : Type) (f : nat -> A) (n i : nat) (d : A) :
  i < n -> nth i (map f (seq 0 n)) d = f i.
Proof.
  intro Hi. rewrite (nth_indep _ d (f 0)) by (now rewrite length_map, length_seq).
  rewrite map_nth, seq_nth by exact Hi. reflexivity.
Qed.

Lemma repeat_map_seq (A : Type) (c : A) (n : nat) :
  forall a, repeat c n = map (fun _ => c) (seq a n).
Proof. induction n as [|n IH]; intro a; simpl; [reflexivity | now rewrite <- IH]. Qed.

Lemma combine_map_map (A B C : Type) (f : A -> B) (g : A -> C) (l : list A) :
  combine (map f l) (map g l) = map (fun x => (f x, g x)) l.
Proof. induction l as [|x l IH]; simpl; [reflexivity | now rewrite IH]. Qed.

Section Rounds.

Variable STOPWORDS : list string.
Variable Math_pow : number -> number -> number.
Variable sentences : list string.

Local Abbreviation n := (List.length sentences).
Local Abbreviation matrix :=
  (map (normalizeRow (List.length sentences)) (buildSimilarityMatrix STOPWORDS sentences)).
Local Abbreviation similarity := (similarity STOPWORDS sentences).
Local Abbreviation rowSum := (rowSum STOPWORDS sentences).
Local Abbreviation weight := (weight STOPWORDS sentences).
Local Abbreviation nextScore := (nextScore STOPWORDS sentences).
Local Abbreviation scoreAfter := (scoreAfter STOPWORDS sentences).
Local Abbreviation change := (change STOPWORDS Math_pow sentences).
Local Abbreviation settled := (settled STOPWORDS Math_pow sentences).

(** The matrix that the code builds holds the weights. *)
Lemma matrix_weight (j i : nat) : j < n -> i < n -> entry matrix j i = weight j i.
Proof.
  intros Hj Hi. unfold entry, buildSimilarityMatrix.
  rewrite map_map, (nth_map_index _ _ _ _ _ Hj).
  change (map (fun j0 : nat =>
                 if j =? j0 then zero
                 else calculateSimilarity STOPWORDS (nth j sentences EmptyString)
                                          (nth j0 sentences EmptyString)) (seq 0 n))
    with (map (similarity j) (seq 0 n)).
  unfold normalizeRow. rewrite fold_left_map.
  change (fold_left (fun s x => add s (similarity j x)) (seq 0 n) zero) with (rowSum j).
  unfold RankSpec.weight.
  destruct (eqb (rowSum j) zero).
  - rewrite map_map, nth_map_index by exact Hi. reflexivity.
  - rewrite map_map, nth_map_index by exact Hi. reflexivity.
Qed.

(** One round of the code on the scores of a round. *)
Lemma updateScores_round (score : nat -> number) :
  updateScores n matrix (map score (seq 0 n)) = map (nextScore score) (seq 0 n).
Proof.
  unfold updateScores. apply map_ext_in. intros i Hi. apply in_seq in Hi.
  unfold newScore, RankSpec.nextScore. f_equal.
  apply fold_left_ext_in. intros acc j Hj. apply in_seq in Hj.
  destruct (i =? j); [reflexivity|].
  rewrite matrix_weight by lia. rewrite nth_map_index by lia. reflexivity.
Qed.

Lemma distance_round (r : nat) :
  distance Math_pow (map (scoreAfter r) (seq 0 n)) (map (scoreAfter (S r)) (seq 0 n))
  = change r.
Proof.
  unfold distance, RankSpec.change. rewrite combine_map_map, fold_left_map. reflexivity.
Qed.

(** The loop runs rounds until one settles or none remains. *)
Lemma iterate_rounds (remaining : nat) : forall r,
  1 <= remaining ->
  exists rounds,
    r < rounds <= r + remaining
    /\ iterate Math_pow n matrix remaining (map (scoreAfter r) (seq 0 n))
       = map (scoreAfter rounds) (seq 0 n)
    /\ (forall k, r <= k -> S k < rounds -> settled k = false)
    /\ (rounds < r + remaining -> settled (rounds - 1) = true).
Proof.
  induction remaining as [|remaining IH]; intros r Hr; [lia|].
  cbn [iterate]. rewrite updateScores_round.
  change (map (nextScore (scoreAfter r)) (seq 0 n)) with (map (scoreAfter (S r)) (seq 0 n)).
  rewrite distance_round.
  change (ltb (change r) CONVERGENCE_THRESHOLD) with (settled r).
  destruct (settled r) eqn:Hs.
  - exists (S r). split; [lia|]. split; [reflexivity|]. split; [intros; lia|].
    intros _. now replace (S r - 1) with r by lia.
  - destruct remaining as [|remaining'].
    + exists (S r). split; [lia|]. split; [reflexivity|]. split; intros; lia.
    + destruct (IH (S r) ltac:(lia)) as (rounds & Hb & Hit & Hnot & Hlast).
      exists rounds. split; [lia|]. split; [exact Hit|]. split.
      * intros k Hk Hlt. destruct (Nat.eq_dec k r) as [->|Hne]; [exact Hs|].
        apply Hnot; lia.
      * intro Hlt. apply Hlast. lia.
Qed.

End Rounds.

Section Scores.

Variable STOPWORDS : list string.
Variable Math_pow : number -> number -> number.

Local Abbreviation rankSentences := (rankSentences STOPWORDS Math_pow).

(** C4. [rankSentences] gives no score for no sentence and the score 1 for
    a single sentence; for every list it gives one score per sentence; and
    from two sentences on the score at position [i] is the score of
    sentence [i]: the one that the rounds of the specification give it from
    the similarities of sentence [i] to the others, after the first round
    that moves the scores by less than the threshold, or after 50 rounds. *)
Theorem rankSentences_scores :
  rankSentences [] = []
  /\ (forall s, rankSentences [s] = [one])
  /\ (forall sentences, List.length (rankSentences sentences) = List.length sentences)
  /\ (forall sentences,
         2 <= List.length sentences ->
         exists rounds,
           1 <= rounds <= MAX_ITERATIONS
           /\ rankSentences sentences
              = map (scoreAfter STOPWORDS sentences rounds) (seq 0 (List.length sentences))
           /\ (forall i, i < List.length sentences ->
                 nth i (rankSentences sentences) S754_nan
                 = scoreAfter STOPWORDS sentences rounds i)
           /\ (forall r, S r < rounds -> settled STOPWORDS Math_pow sentences r = false)
           /\ (rounds < MAX_ITERATIONS ->
               settled STOPWORDS Math_pow sentences (rounds - 1) = true)).
Proof.
  assert (Hrounds : forall sentences,
             2 <= List.length sentences ->
             exists rounds,
               1 <= rounds <= MAX_ITERATIONS
               /\ rankSentences sentences
                  = map (scoreAfter STOPWORDS sentences rounds)
                        (seq 0 (List.length sentences))
               /\ (forall r, S r < rounds ->
                     settled STOPWORDS Math_pow sentences r = false)
               /\ (rounds < MAX_ITERATIONS ->
                   settled STOPWORDS Math_pow sentences (rounds - 1) = true)).
  { intros sentences Hn. unfold TextRank.rankSentences.
    destruct (List.length sentences =? 0) eqn:H0; [apply Nat.eqb_eq in H0; lia|].
    destruct (List.length sentences =? 1) eqn:H1; [apply Nat.eqb_eq in H1; lia|].
    rewrite (repeat_map_seq _ _ (List.length sentences) 0).
    destruct (iterate_rounds STOPWORDS Math_pow sentences MAX_ITERATIONS 0
                ltac:(unfold MAX_ITERATIONS; lia))
      as (rounds & Hb & Hit & Hnot & Hlast).
    exists rounds. split; [lia|]. split; [exact Hit|]. split.
    - intros r Hr. apply Hnot; lia.
    - exact Hlast. }
  split; [reflexivity|]. split; [reflexivity|]. split.
  - intro sentences.
    destruct sentences as [|s [|s' rest]]; [reflexivity | reflexivity|].
    destruct (Hrounds (s :: s' :: rest)) as (rounds & _ & -> & _); [simpl; lia|].
    now rewrite length_map, length_seq.
  - intros sentences Hn.
    destruct (Hrounds sentences Hn) as (rounds & Hb & Heq & Hnot & Hlast).
    exists rounds. split; [exact Hb|]. split; [exact Heq|]. split; [|split; assumption].
    intros i Hi. rewrite Heq. now apply nth_map_index.
Qed.

End Scores.

End RankRounds.

(* ================================================================== *)
(** * TextRank: similarity *)
(* ================================================================== *)

Module SimilarityFacts.

Import Number JsString TextRank TokenSets Rounding RoundingFacts.
Local Unset Implicit Arguments.

Lemma has_In (set : list string) (w : string) : has set w = true <-> In w set.
Proof.
  unfold has. rewrite existsb_exists. split.
  - intros (x & Hin & Heq). apply String.eqb_eq in Heq. now subst.
  - intro Hin. exists w. split; [exact Hin | apply String.eqb_refl].
Qed.

Lemma addAll_fresh (words set : list string) :
  NoDup (set ++ words) -> addAll set words = (set ++ words)%list.
Proof.
  revert set. induction words as [|w rest IH]; intros set Hnd; simpl.
  - now rewrite app_nil_r.
  - destruct (has set w) eqn:Hw.
    + exfalso. apply has_In in Hw. apply NoDup_remove_2 in Hnd.
      apply Hnd. apply in_or_app. now left.
    + rewrite IH; rewrite <- app_assoc; [reflexivity | exact Hnd].
Qed.

Lemma addAll_NoDup (words set : list string) : NoDup set -> NoDup (addAll set words).
Proof.
  revert set. induction words as [|w rest IH]; intros set Hnd; simpl; [exact Hnd|].
  destruct (has set w) eqn:Hw; [now apply IH|].
  apply IH. apply NoDup_app; [exact Hnd | repeat constructor; intros [] |].
  intros x Hx [<-|[]]. apply has_In in Hx. congruence.
Qed.

Lemma addAll_length (words set : list string) :
  List.length (addAll set words) <= List.length set + List.length words.
Proof.
  revert set. induction words as [|w rest IH]; intros set; simpl; [lia|].
  destruct (has set w).
  - specialize (IH set). lia.
  - specialize (IH (set ++ [w])%list). rewrite length_app in IH. simpl in IH. lia.
Qed.

Lemma newSet_length (words : list string) : List.length (newSet words) <= List.length words.
Proof. apply (addAll_length words []). Qed.

Lemma newSet_NoDup (words : list string) : NoDup (newSet words).
Proof. apply addAll_NoDup. constructor. Qed.

Lemma newSet_fresh (words : list string) : NoDup words -> newSet words = words.
Proof. intro H. unfold newSet. now rewrite addAll_fresh. Qed.

Lemma common_filter (words1 words2 : list string) :
  NoDup words1 -> common words1 words2 = filter (has words2) words1.
Proof. intro H. apply newSet_fresh. now apply NoDup_filter. Qed.

Lemma common_length (words1 words2 : list string) :
  NoDup words1 -> NoDup words2 ->
  List.length (common words1 words2) = List.length (common words2 words1).
Proof.
  intros H1 H2. rewrite !common_filter by assumption.
  apply Permutation_length. apply NoDup_Permutation; try now apply NoDup_filter.
  intro x. rewrite !filter_In, !has_In. tauto.
Qed.

Lemma common_self (words : list string) : NoDup words -> common words words = words.
Proof.
  intro H. rewrite common_filter by exact H.
  apply SummarizerFacts.filter_all. apply Forall_forall. intros x Hx. now apply has_In.
Qed.

Lemma common_le (words1 words2 : list string) :
  NoDup words1 -> List.length (common words1 words2) <= List.length words1.
Proof. intro H. rewrite common_filter by exact H. apply filter_length_le. Qed.

Local Open Scope Z_scope.
Local Abbreviation W := 2200 (only parsing).

Lemma good_units_inj x y :
  good x = true -> good y = true -> 0 < units x -> units x = units y -> x = y.
Proof.
  intros Hx Hy Hpos Heq.
  destruct (good_cases x Hx) as [[s ->]|(m1 & e1 & -> & Hc1 & He1)];
    [cbn [units] in Hpos; lia|].
  destruct (good_cases y Hy) as [[s ->]|(m2 & e2 & -> & Hc2 & He2)];
    [cbn [units] in Heq, Hpos; lia|].
  cbn [units] in Heq.
  pose proof (proj1 (canonical_order m1 e1 m2 e2 W Hc1 Hc2 ltac:(lia)) ltac:(lia)) as H12.
  pose proof (proj1 (canonical_order m2 e2 m1 e1 W Hc2 Hc1 ltac:(lia)) ltac:(lia)) as H21.
  assert (e1 = e2) by lia. subst e2.
  assert (m1 = m2) by lia. now subst m2.
Qed.

Lemma sqrt_count a :
  (1 <= a)%nat -> Z.of_nat a < 2 ^ 53 ->
  good (Math_sqrt (of_nat a)) = true
  /\ 2 ^ W <= units (Math_sqrt (of_nat a)) <= Z.of_nat a * 2 ^ W.
Proof.
  intros H1 Hb. destruct (of_nat_exact a Hb) as [Hg Hu].
  pose proof (pow2_pos W ltac:(lia)) as HW.
  destruct (sqrt_sandwich (of_nat a) one (of_nat a) Hg good_one Hg) as [Hgs Hus].
  - rewrite units_one, Hu. clear Hg Hu Hb.
    assert (Ha : 1 <= Z.of_nat a) by lia. clear H1.
    generalize dependent (Z.of_nat a). intros n Ha.
    generalize dependent (2 ^ W). intros P HW.
    assert (HP : 0 < P * P) by (apply Z.mul_pos_pos; exact HW).
    split; nia.
  - rewrite units_one, Hu in Hus. split; [exact Hgs | exact Hus].
Qed.

Lemma denominator_good a b :
  (1 <= a)%nat -> Z.of_nat a < 2 ^ 53 -> (1 <= b)%nat -> Z.of_nat b < 2 ^ 53 ->
  good (mul (Math_sqrt (of_nat a)) (Math_sqrt (of_nat b))) = true
  /\ 2 ^ W <= units (mul (Math_sqrt (of_nat a)) (Math_sqrt (of_nat b))).
Proof.
  intros Ha1 Ha Hb1 Hb.
  destruct (sqrt_count a Ha1 Ha) as [Hga Hua].
  destruct (sqrt_count b Hb1 Hb) as [Hgb Hub].
  pose proof (pow2_pos W ltac:(lia)) as HW.
  destruct (pow2_good 106 ltac:(lia)) as [Hgh Huh].
  destruct (mul_sandwich (Math_sqrt (of_nat a)) (Math_sqrt (of_nat b)) one (dyadic 1 106)
              Hga Hgb good_one Hgh) as [Hg Hu].
  - rewrite units_one, Huh. split.
    + apply Z.mul_le_mono_nonneg; lia.
    + rewrite (pow2_split 106 W) by lia. change (2 ^ 106) with (2 ^ 53 * 2 ^ 53).
      set (P := 2 ^ W) in *. set (Q := 2 ^ 53) in *.
      assert (units (Math_sqrt (of_nat a)) <= Q * P)
        by (etransitivity; [apply Hua | apply Z.mul_le_mono_nonneg_r; lia]).
      assert (units (Math_sqrt (of_nat b)) <= Q * P)
        by (etransitivity; [apply Hub | apply Z.mul_le_mono_nonneg_r; lia]).
      replace (Q * Q * P * P) with ((Q * P) * (Q * P)) by ring.
      apply Z.mul_le_mono_nonneg; lia.
  - rewrite units_one in Hu. split; [exact Hg | exact (proj1 Hu)].
Qed.

Lemma cosine_good i a b :
  Z.of_nat i < 2 ^ 53 ->
  (1 <= a)%nat -> Z.of_nat a < 2 ^ 53 -> (1 <= b)%nat -> Z.of_nat b < 2 ^ 53 ->
  good (cosine i a b) = true /\ units (cosine i a b) <= Z.of_nat i * 2 ^ W.
Proof.
  intros Hi Ha1 Ha Hb1 Hb.
  destruct (of_nat_exact i Hi) as [Hgi Hui].
  destruct (denominator_good a b Ha1 Ha Hb1 Hb) as [Hgd Hud].
  pose proof (pow2_pos W ltac:(lia)) as HW.
  destruct (div_sandwich (of_nat i) _ zero (of_nat i) Hgi Hgd ltac:(lia)
              (good_zero false) Hgi) as [Hg Hu].
  - cbn [units zero]. rewrite Hui. split; [nia|].
    apply Z.mul_le_mono_nonneg_l; [nia | exact Hud].
  - rewrite Hui in Hu. split; [exact Hg | apply Hu].
Qed.

Lemma cosine_comm i a b : cosine i a b = cosine i b a.
Proof. unfold cosine, mul. now rewrite mul_comm. Qed.

(** On a set whose size is a perfect square the square roots, their
    product and the quotient are all exact. *)
Lemma cosine_square k :
  (1 <= k)%nat -> Z.of_nat (k * k) < 2 ^ 53 -> cosine (k * k) (k * k) (k * k) = one.
Proof.
  intros Hk Hb.
  assert (Hkb : Z.of_nat k < 2 ^ 53) by nia.
  assert (Hkk : Z.of_nat (k * k) = Z.of_nat k * Z.of_nat k) by lia.
  assert (Hkpos : 0 < Z.of_nat (k * k)) by nia.
  destruct (of_nat_exact k Hkb) as [Hgk Huk].
  destruct (of_nat_exact (k * k) Hb) as [Hgn Hun].
  pose proof (pow2_pos W ltac:(discriminate)) as HW.
  destruct (sqrt_sandwich (of_nat (k * k)) (of_nat k) (of_nat k) Hgn Hgk Hgk) as [Hgs Hus].
  { rewrite Huk, Hun, Hkk. generalize (2 ^ W). intro P.
    split; apply Z.eq_le_incl; ring. }
  assert (Hs : units (Math_sqrt (of_nat (k * k))) = Z.of_nat k * 2 ^ W).
  { rewrite <- Huk. apply Z.le_antisymm; [exact (proj2 Hus) | exact (proj1 Hus)]. }
  destruct (mul_sandwich (Math_sqrt (of_nat (k * k))) (Math_sqrt (of_nat (k * k)))
              (of_nat (k * k)) (of_nat (k * k)) Hgs Hgs Hgn Hgn) as [Hgm Hum].
  { rewrite Hs, Hun, Hkk. generalize (2 ^ W). intro P.
    split; apply Z.eq_le_incl; ring. }
  assert (Hm : units (mul (Math_sqrt (of_nat (k * k))) (Math_sqrt (of_nat (k * k))))
               = Z.of_nat (k * k) * 2 ^ W).
  { rewrite <- Hun. apply Z.le_antisymm; [exact (proj2 Hum) | exact (proj1 Hum)]. }
  assert (Hpos : 0 < Z.of_nat (k * k) * 2 ^ W)
    by (apply Z.mul_pos_pos; [exact Hkpos | exact HW]).
  assert (Hden : 0 < units (mul (Math_sqrt (of_nat (k * k))) (Math_sqrt (of_nat (k * k)))))
    by (rewrite Hm; exact Hpos).
  destruct (div_sandwich (of_nat (k * k))
              (mul (Math_sqrt (of_nat (k * k))) (Math_sqrt (of_nat (k * k))))
              one one Hgn Hgm Hden good_one good_one) as [Hgd Hud].
  { rewrite Hm, Hun, units_one. generalize (2 ^ W). intro P.
    split; apply Z.eq_le_incl; ring. }
  apply good_units_inj.
  - exact Hgd.
  - exact good_one.
  - apply Z.lt_le_trans with (units one); [rewrite units_one; exact HW | exact (proj1 Hud)].
  - apply Z.le_antisymm; [exact (proj2 Hud) | exact (proj1 Hud)].
Qed.

Section Similarity.

Variable STOPWORDS : list string.

Local Abbreviation calculateSimilarity := (calculateSimilarity STOPWORDS).
Local Abbreviation tokenSet := (tokenSet STOPWORDS).

Lemma calculateSimilarity_cosine (a b : string) :
  calculateSimilarity a b
  = if ((List.length (tokenSet a) =? 0) || (List.length (tokenSet b) =? 0))%nat then zero
    else cosine (List.length (common (tokenSet a) (tokenSet b)))
                (List.length (tokenSet a)) (List.length (tokenSet b)).
Proof. reflexivity. Qed.

Lemma tokenSet_NoDup (a : string) : NoDup (tokenSet a).
Proof. apply newSet_NoDup. Qed.

(** The token set of a sentence is no larger than the array of its words. *)
Lemma tokenSet_size (a : string) :
  JsArray.isArray (Tokenizer.tokenizeWords STOPWORDS a true) ->
  Z.of_nat (List.length (tokenSet a)) < 2 ^ 53.
Proof.
  intro H. apply (ArrayFacts.isArray_below (b := 53)) in H; [|lia].
  pose proof (newSet_length (Tokenizer.tokenizeWords STOPWORDS a true)).
  unfold TokenSets.tokenSet. lia.
Qed.

Lemma calculateSimilarity_sym (a b : string) :
  calculateSimilarity a b = calculateSimilarity b a.
Proof.
  rewrite !calculateSimilarity_cosine. rewrite orb_comm.
  rewrite (common_length (tokenSet a) (tokenSet b)) by apply tokenSet_NoDup.
  now rewrite cosine_comm.
Qed.

Lemma calculateSimilarity_empty (a b : string) :
  tokenSet a = [] \/ tokenSet b = [] -> calculateSimilarity a b = zero.
Proof.
  intro H. rewrite calculateSimilarity_cosine.
  destruct H as [-> | ->]; [reflexivity | now rewrite orb_true_r].
Qed.

(** The similarity is a number that is zero or positive and finite, and at
    most the number of common words. *)
Lemma calculateSimilarity_good (a b : string) :
  Z.of_nat (List.length (tokenSet a)) < 2 ^ 53 ->
  Z.of_nat (List.length (tokenSet b)) < 2 ^ 53 ->
  good (calculateSimilarity a b) = true
  /\ units (calculateSimilarity a b)
     <= Z.of_nat (List.length (common (tokenSet a) (tokenSet b))) * 2 ^ W.
Proof.
  intros Ha Hb. rewrite calculateSimilarity_cosine.
  pose proof (pow2_pos W ltac:(lia)) as HW.
  destruct ((List.length (tokenSet a) =? 0) || (List.length (tokenSet b) =? 0))%nat eqn:E.
  - split; [reflexivity|]. cbn [units zero]. nia.
  - apply orb_false_iff in E. destruct E as [Ea Eb].
    apply Nat.eqb_neq in Ea, Eb.
    pose proof (common_le (tokenSet a) (tokenSet b) (tokenSet_NoDup a)).
    apply cosine_good; lia.
Qed.

Lemma calculateSimilarity_self (a : string) :
  tokenSet a <> [] ->
  calculateSimilarity a a
  = cosine (List.length (tokenSet a)) (List.length (tokenSet a)) (List.length (tokenSet a)).
Proof.
  intro H. rewrite calculateSimilarity_cosine.
  rewrite (common_self (tokenSet a)) by apply tokenSet_NoDup.
  destruct (tokenSet a); [congruence | reflexivity].
Qed.

(** What does hold: [calculateSimilarity] is symmetric, is 0 when either
    token set is empty, and is never negative; the similarity of a sentence
    with itself is the rounded quotient [n / (sqrt n * sqrt n)] for the size
    [n] of its token set, which is exactly 1 when [n] is a perfect square. *)
Lemma calculateSimilarity_properties (a b : string) :
  JsArray.isArray (Tokenizer.tokenizeWords STOPWORDS a true) ->
  JsArray.isArray (Tokenizer.tokenizeWords STOPWORDS b true) ->
  calculateSimilarity a b = calculateSimilarity b a
  /\ (tokenSet a = [] \/ tokenSet b = [] -> calculateSimilarity a b = zero)
  /\ leb zero (calculateSimilarity a b) = true
  /\ (tokenSet a <> [] ->
      calculateSimilarity a a
      = cosine (List.length (tokenSet a)) (List.length (tokenSet a))
               (List.length (tokenSet a)))
  /\ (forall k : nat, (1 <= k)%nat -> List.length (tokenSet a) = (k * k)%nat ->
      calculateSimilarity a a = one).
Proof.
  intros Ha Hb. apply tokenSet_size in Ha, Hb.
  split; [apply calculateSimilarity_sym|].
  split; [apply calculateSimilarity_empty|].
  split.
  - destruct (calculateSimilarity_good a b Ha Hb) as [Hg _].
    unfold leb. rewrite (leb_units zero _ (good_zero false) Hg).
    apply Z.leb_le. apply units_nonneg.
  - split; [apply calculateSimilarity_self|].
    intros k Hk Hlen. rewrite calculateSimilarity_self.
    + rewrite Hlen. apply cosine_square; [exact Hk | now rewrite <- Hlen].
    + intro E. rewrite E in Hlen. simpl in Hlen. nia.
Qed.

(** C7. The similarity of a sentence with itself is not always 1, and the
    result is not always between 0 and 1: for every sentence whose token
    set has three members the square roots are rounded, their product is
    below 3, and the quotient is 1.0000000000000002, the number after 1. *)
Theorem calculateSimilarity_self_above_one (a : string) :
  List.length (tokenSet a) = 3%nat ->
  calculateSimilarity a a = S754_finite false 4503599627370497 (-52)
  /\ leb (calculateSimilarity a a) one = false
  /\ eqb (calculateSimilarity a a) one = false.
Proof.
  intro Hlen.
  assert (Hself : calculateSimilarity a a = S754_finite false 4503599627370497 (-52)).
  { rewrite calculateSimilarity_self.
    - rewrite Hlen. vm_compute. reflexivity.
    - intro E. rewrite E in Hlen. discriminate Hlen. }
  rewrite Hself. split; [reflexivity|]. split; reflexivity.
Qed.

End Similarity.

End SimilarityFacts.

(* ================================================================== *)
(** * Summarizer: position scores *)
(* ================================================================== *)

Module PositionFacts.

Import Number JsString Summarizer Rounding RoundingFacts.
Local Unset Implicit Arguments.
Local Open Scope Z_scope.

Local Abbreviation W := 2200 (only parsing).

Lemma unit_interval_one : unit_interval one.
Proof. split; [reflexivity | rewrite units_one; lia]. Qed.

Lemma unit_interval_leb x :
  unit_interval x -> leb zero x = true /\ leb x one = true.
Proof.
  intros [Hg Hu]. unfold leb.
  rewrite (leb_units zero x (good_zero false) Hg), (leb_units x one Hg good_one).
  rewrite units_one. split; apply Z.leb_le; [apply units_nonneg | exact Hu].
Qed.

Lemma quotient_unit (l c : nat) :
  (l < c)%nat -> Z.of_nat c < 2 ^ 53 -> unit_interval (div (of_nat l) (of_nat c)).
Proof.
  intros Hl Hc.
  destruct (of_nat_exact l ltac:(lia)) as [Hgl Hul].
  destruct (of_nat_exact c Hc) as [Hgc Huc].
  pose proof (pow2_pos W ltac:(lia)) as HW.
  destruct (div_sandwich (of_nat l) (of_nat c) zero one Hgl Hgc) as [Hg Hu].
  - rewrite Huc. nia.
  - reflexivity.
  - reflexivity.
  - rewrite units_one, Hul, Huc. cbn [units zero]. split; [nia|].
    rewrite (Z.mul_comm (2 ^ W)). apply Z.mul_le_mono_nonneg_r; [lia|].
    apply Z.mul_le_mono_nonneg_r; lia.
  - rewrite units_one in Hu. split; [exact Hg | apply Hu].
Qed.

(** Scaling a number of the unit interval by a factor [f] stays below [f]. *)
Lemma scale_unit (f x : number) :
  good f = true -> unit_interval x ->
  good (mul f x) = true /\ units (mul f x) <= units f.
Proof.
  intros Hf [Hg Hu].
  pose proof (units_nonneg f). pose proof (units_nonneg x).
  destruct (mul_sandwich f x zero f Hf Hg (good_zero false) Hf) as [Hgm Hum].
  - cbn [units zero]. split; [nia|]. apply Z.mul_le_mono_nonneg_l; lia.
  - split; [exact Hgm | apply Hum].
Qed.

Lemma units_lit_0_4_0_5 : units lit_0_4 <= units lit_0_5.
Proof. vm_compute. discriminate. Qed.

Lemma units_lit_0_5 : units lit_0_5 <= 2 ^ W.
Proof. vm_compute. discriminate. Qed.

Lemma units_lit_0_8 : units lit_0_8 <= 2 ^ W.
Proof. vm_compute. discriminate. Qed.

Lemma basePositionScore_unit (localIdx paragraphSentCount : nat) :
  (localIdx < paragraphSentCount)%nat -> Z.of_nat paragraphSentCount < 2 ^ 53 ->
  unit_interval (basePositionScore localIdx paragraphSentCount).
Proof.
  intros Hl Hc. unfold basePositionScore.
  destruct (paragraphSentCount <=? 1)%nat; [apply unit_interval_one|].
  destruct (localIdx =? 0)%nat; [apply unit_interval_one|].
  destruct (localIdx =? paragraphSentCount - 1)%nat.
  - split; [reflexivity | apply units_lit_0_8].
  - pose proof (quotient_unit localIdx paragraphSentCount Hl Hc) as Hq.
    destruct (scale_unit lit_0_4 _ eq_refl Hq) as [Hgm Hum].
    pose proof units_lit_0_4_0_5. pose proof units_lit_0_5.
    destruct (sub_sandwich lit_0_5 _ zero lit_0_5 eq_refl Hgm (good_zero false) eq_refl)
      as [Hg Hu].
    + lia.
    + cbn [units zero]. pose proof (units_nonneg (mul lit_0_4
         (div (of_nat localIdx) (of_nat paragraphSentCount)))). lia.
    + split; [exact Hg|]. unfold sub. lia.
Qed.

(** Clamping a number that is zero or positive and finite. *)
Lemma clamp01_unit (x : number) : good x = true -> unit_interval (clamp01 x).
Proof.
  intro Hg. unfold clamp01.
  destruct (Math_min_good one x good_one Hg) as [Hgm Hum].
  destruct (Math_max_good zero _ (good_zero false) Hgm) as [Hgx Hux].
  split; [exact Hgx|]. rewrite Hux, Hum, units_one. cbn [units zero].
  pose proof (pow2_pos W ltac:(lia)). lia.
Qed.

Lemma positionScore_unit (paragraphIdx paragraphCount localIdx paragraphSentCount : nat) :
  (localIdx < paragraphSentCount)%nat -> Z.of_nat paragraphSentCount < 2 ^ 53 ->
  unit_interval (positionScore paragraphIdx paragraphCount localIdx paragraphSentCount).
Proof.
  intros Hl Hc. unfold positionScore. apply clamp01_unit.
  destruct (basePositionScore_unit localIdx paragraphSentCount Hl Hc) as [Hg Hu].
  unfold paragraphMultiplier.
  destruct (paragraphIdx =? 0)%nat.
  - unfold mul. rewrite mul_comm. apply (scale_unit lit_1_2 _ eq_refl). now split.
  - destruct (paragraphIdx =? paragraphCount - 1)%nat; [|exact Hg].
    unfold mul. rewrite mul_comm. apply (scale_unit lit_1_1 _ eq_refl). now split.
Qed.

Section Positions.

Variable STOPWORDS : list string.

Local Open Scope nat_scope.

(** Every sentence of a paragraph gets the position score of its place. *)
Lemma addSentences_position pc pIdx cnt localIdx g sentences :
  Forall (fun s =>
            paragraph s = pIdx
            /\ exists l, localIdx <= l < localIdx + List.length sentences
                         /\ position s = positionScore pIdx pc l cnt)
         (addSentences STOPWORDS true pc pIdx cnt localIdx g sentences).
Proof.
  revert localIdx g. induction sentences as [|t rest IH]; intros localIdx g; simpl.
  - constructor.
  - constructor.
    + split; [reflexivity|]. exists localIdx. simpl. split; [lia | reflexivity].
    + eapply Forall_impl; [|apply IH]. simpl.
      intros s [Hp (l & Hl & Hs)]. split; [exact Hp|]. exists l. split; [lia | exact Hs].
Qed.

Lemma addParagraphs_position pc pIdx g paragraphs :
  Forall (fun s =>
            pIdx <= paragraph s < pIdx + List.length paragraphs
            /\ exists l cnt,
                 l < cnt
                 /\ cnt <= List.length (addParagraphs STOPWORDS true pc pIdx g paragraphs)
                 /\ position s = positionScore (paragraph s) pc l cnt)
         (addParagraphs STOPWORDS true pc pIdx g paragraphs).
Proof.
  revert pIdx g. induction paragraphs as [|p rest IH]; intros pIdx g; simpl.
  - constructor.
  - apply Forall_app. split.
    + eapply Forall_impl; [|apply addSentences_position]. simpl.
      intros s [Hp (l & Hl & Hs)]. split; [lia|].
      exists l, (List.length (Tokenizer.splitSentences p)).
      rewrite length_app, SummarizerFacts.addSentences_length.
      split; [lia|]. split; [lia|]. now rewrite Hp.
    + eapply Forall_impl; [|apply IH]. simpl.
      intros s [Hp (l & cnt & Hl & Hc & Hs)]. split; [lia|].
      exists l, cnt. rewrite length_app. split; [lia|]. split; [lia | exact Hs].
Qed.

(** Every sentence of a paragraph gets the record of its place: the global
    index counts on, the text is the sentence, and the position score is
    the one of its local index. *)
Lemma addSentences_places pc pIdx cnt sentences : forall localIdx g,
  Forall (fun s =>
            exists l, l < List.length sentences
                      /\ index s = g + l
                      /\ Summarizer.text s = nth l sentences EmptyString
                      /\ paragraph s = pIdx
                      /\ position s = positionScore pIdx pc (localIdx + l) cnt)
         (addSentences STOPWORDS true pc pIdx cnt localIdx g sentences).
Proof.
  induction sentences as [|t rest IH]; intros localIdx g; simpl.
  - constructor.
  - constructor.
    + exists 0. rewrite !Nat.add_0_r. repeat split. lia.
    + eapply Forall_impl; [|apply IH]. simpl.
      intros s (l & Hl & Hi & Ht & Hp & Hs). exists (S l).
      split; [lia|]. split; [lia|]. split; [exact Ht|]. split; [exact Hp|].
      rewrite Hs. f_equal. lia.
Qed.

Lemma addParagraphs_places pc paragraphs : forall pIdx g,
  Forall (fun s =>
            exists q l,
              let sentences := Tokenizer.splitSentences (nth q paragraphs EmptyString) in
              q < List.length paragraphs
              /\ paragraph s = pIdx + q
              /\ l < List.length sentences
              /\ index s
                 = g + List.length
                         (List.concat (map Tokenizer.splitSentences (firstn q paragraphs)))
                   + l
              /\ Summarizer.text s = nth l sentences EmptyString
              /\ position s = positionScore (pIdx + q) pc l (List.length sentences))
         (addParagraphs STOPWORDS true pc pIdx g paragraphs).
Proof.
  induction paragraphs as [|p rest IH]; intros pIdx g; simpl.
  - constructor.
  - apply Forall_app. split.
    + eapply Forall_impl; [|apply addSentences_places]. simpl.
      intros s (l & Hl & Hi & Ht & Hp & Hs). exists 0, l. simpl.
      rewrite !Nat.add_0_r. repeat split; try assumption. lia.
    + eapply Forall_impl; [|apply IH]. simpl.
      intros s (q & l & Hq & Hp & Hl & Hi & Ht & Hs). exists (S q), l. simpl.
      rewrite length_app.
      replace (pIdx + S q) with (S pIdx + q) by lia.
      repeat split; try assumption; lia.
Qed.
(** C6. With position favouring, the score of the sentence with local
    index [l] in a paragraph of [c] sentences is its base score for [l] and
    [c], times 1.2 in the first paragraph, times 1.1 in the last paragraph
    when that is not the first, and as it is elsewhere, then clamped by
    [max(0, min(1, .))]; in a document of one paragraph the factor is 1.2;
    the score is between 0 and 1. *)
Theorem position_multipliers (options : Options) (text : string) (s : SentenceWithMetadata) :
  favorPositionScore options = true ->
  In s (sentencesWithMetadata STOPWORDS options text) ->
  JsArray.isArray (sentencesWithMetadata STOPWORDS options text) ->
  let paragraphs := paragraphsOf text in
  let paragraphCount := List.length paragraphs in
  let sentences := Tokenizer.splitSentences (nth (paragraph s) paragraphs EmptyString) in
  let before :=
    List.length
      (List.concat (map Tokenizer.splitSentences (firstn (paragraph s) paragraphs))) in
  let localIdx := index s - before in
  let base := basePositionScore localIdx (List.length sentences) in
  paragraph s < paragraphCount
  /\ before <= index s
  /\ localIdx < List.length sentences
  /\ Summarizer.text s = nth localIdx sentences EmptyString
  /\ (paragraph s = 0 ->
      position s = Math_max zero (Math_min one (mul base lit_1_2)))
  /\ (paragraph s <> 0 -> paragraph s = paragraphCount - 1 ->
      position s = Math_max zero (Math_min one (mul base lit_1_1)))
  /\ (paragraph s <> 0 -> paragraph s <> paragraphCount - 1 ->
      position s = Math_max zero (Math_min one base))
  /\ (paragraphCount = 1 ->
      position s = Math_max zero (Math_min one (mul base lit_1_2)))
  /\ leb zero (position s) = true
  /\ leb (position s) one = true.
Proof.
  intros Hfavor Hin Hlen paragraphs paragraphCount sentences before localIdx base.
  apply (ArrayFacts.isArray_below (b := 53)) in Hlen; [|lia].
  unfold sentencesWithMetadata in *. rewrite Hfavor in *.
  pose proof (addParagraphs_position (List.length (paragraphsOf text)) 0 0
                (paragraphsOf text)) as Hunit.
  rewrite Forall_forall in Hunit.
  destruct (Hunit s Hin) as (_ & l' & cnt' & Hl' & Hc' & Hs').
  pose proof (addParagraphs_places (List.length (paragraphsOf text)) (paragraphsOf text) 0 0)
    as H.
  rewrite Forall_forall in H.
  destruct (H s Hin) as (q & l & Hq & Hp & Hl & Hi & Ht & Hs).
  simpl in Hp, Hi, Hs. subst q. fold paragraphs in Hq, Hl, Hi, Ht, Hs.
  fold sentences in Hl, Ht, Hs. fold before in Hi.
  assert (Hlocal : localIdx = l) by (unfold localIdx; lia).
  fold paragraphCount in Hs.
  assert (Hscore : position s
                   = positionScore (paragraph s) paragraphCount localIdx
                                   (List.length sentences))
    by (rewrite Hlocal; exact Hs).
  assert (Hfirst : paragraph s = 0 ->
                   position s = Math_max zero (Math_min one (mul base lit_1_2))).
  { intro H0. rewrite Hscore. unfold positionScore, paragraphMultiplier, clamp01.
    now rewrite H0. }
  split; [exact Hq|]. split; [lia|].
  split; [rewrite Hlocal; exact Hl|]. split; [rewrite Hlocal; exact Ht|].
  split; [exact Hfirst|]. split; [|split; [|split; [|]]].
  - intros H0 H1. rewrite Hscore. unfold positionScore, paragraphMultiplier, clamp01.
    apply Nat.eqb_neq in H0. rewrite H0. apply Nat.eqb_eq in H1. now rewrite H1.
  - intros H0 H1. rewrite Hscore. unfold positionScore, paragraphMultiplier, clamp01.
    apply Nat.eqb_neq in H0, H1. now rewrite H0, H1.
  - intro H1. apply Hfirst. lia.
  - rewrite Hs'. apply unit_interval_leb. apply positionScore_unit; [exact Hl' | lia].
Qed.

End Positions.

End PositionFacts.

(* ================================================================== *)
(** * Summarizer: the number of selected sentences *)
(* ================================================================== *)

Module SelectionFacts.

Import Number JsString JsArray Summarizer DocumentOrder Rounding RoundingFacts ArrayFacts.
Local Unset Implicit Arguments.
Local Open Scope Z_scope.

Local Abbreviation W := 2200 (only parsing).

Lemma unit_interval_default : unit_interval lit_0_3.
Proof. split; [reflexivity | vm_compute; discriminate]. Qed.

Lemma units_two : units two = 2 * 2 ^ W.
Proof. vm_compute. reflexivity. Qed.

(** A positive number of whole units is the number of that integer. *)
Lemma of_nat_units (x : number) (c : nat) :
  good x = true -> (1 <= c)%nat -> Z.of_nat c < 2 ^ 53 ->
  units x = Z.of_nat c * 2 ^ W -> x = of_nat c.
Proof.
  intros Hg Hc1 Hc Hu. destruct (of_nat_exact c Hc) as [Hgc Huc].
  pose proof (pow2_pos W ltac:(lia)).
  apply SimilarityFacts.good_units_inj; [exact Hg | exact Hgc | nia | lia].
Qed.

Lemma count_by_maximum (n k : nat) (r : option number) :
  (1 <= k)%nat -> Z.of_nat k < 2 ^ 53 -> Z.of_nat n < 2 ^ 53 ->
  good (sentenceCount n r (Some (of_nat k))) = true
  /\ units (sentenceCount n r (Some (of_nat k))) = Z.of_nat (Nat.min k n) * 2 ^ W.
Proof.
  intros Hk1 Hk Hn.
  destruct (of_nat_exact k Hk) as [Hgk Huk]. destruct (of_nat_exact n Hn) as [Hgn Hun].
  pose proof (pow2_pos W ltac:(lia)) as HW.
  unfold sentenceCount. rewrite (truthy_units _ Hgk).
  replace (0 <? units (of_nat k)) with true by (symmetry; apply Z.ltb_lt; nia).
  destruct (Math_min_good _ _ Hgk Hgn) as [Hg Hu].
  split; [exact Hg|]. rewrite Hu, Huk, Hun, Nat2Z.inj_min.
  apply Z.mul_min_distr_nonneg_r. lia.
Qed.

Lemma count_by_ratio (n : nat) (r : option number) :
  (1 <= n)%nat -> Z.of_nat n < 2 ^ 53 -> unit_interval (ratioOrDefault r) ->
  exists c : nat,
    (1 <= c <= n)%nat
    /\ good (sentenceCount n r None) = true
    /\ units (sentenceCount n r None) = Z.of_nat c * 2 ^ W.
Proof.
  intros Hn1 Hn [Hgr Hur].
  destruct (of_nat_exact n Hn) as [Hgn Hun].
  pose proof (pow2_pos W ltac:(lia)) as HW.
  pose proof (units_nonneg (ratioOrDefault r)) as Hr0.
  destruct (mul_sandwich (of_nat n) (ratioOrDefault r) zero (of_nat n)
              Hgn Hgr (good_zero false) Hgn) as [Hgm Hum].
  { cbn [units zero]. split; [nia|]. apply Z.mul_le_mono_nonneg_l; [nia | exact Hur]. }
  destruct (Math_floor_good _ Hgm) as [Hgf Huf].
  destruct (Math_max_good one _ good_one Hgf) as [Hgx Hux].
  set (q := units (SFmul prec emax (of_nat n) (ratioOrDefault r)) / 2 ^ W) in *.
  assert (Hq : 0 <= q <= Z.of_nat n).
  { split; [apply units_floor_nonneg|].
    unfold q. apply Z.div_le_upper_bound; [lia|]. rewrite Z.mul_comm, <- Hun. apply Hum. }
  exists (Z.to_nat (Z.max 1 q)). split; [lia|].
  unfold sentenceCount. split; [exact Hgx|].
  unfold mul. rewrite Hux, Huf, units_one, Z2Nat.id by lia.
  replace (2 ^ W) with (1 * 2 ^ W) at 1 by lia.
  apply Z.mul_max_distr_nonneg_r. lia.
Qed.

(** The sign only labels the result of rounding. *)
Lemma round_aux_opp m e l :
  binary_round_aux prec emax true m e l = SFopp (binary_round_aux prec emax false m e l).
Proof.
  unfold binary_round_aux.
  destruct (shr_fexp prec emax m e l) as [mrs' e'].
  destruct (shr_fexp prec emax _ e' loc_Exact) as [mrs'' e''].
  destruct (shr_m mrs''); [reflexivity | | reflexivity].
  destruct (e'' <=? emax - prec); reflexivity.
Qed.

(** Rounding a value that is not negative gives zero, a positive number or
    plus infinity, and never less than a number below the value. *)
Lemma round_aux_outcome m0 e0 l :
  0 <= m0 -> - W <= e0 -> e0 <= fexp (Zdigits2 m0 + e0) ->
  forall lo, good lo = true -> units lo <= m0 * 2 ^ (e0 + W) ->
  binary_round_aux prec emax false m0 e0 l = S754_infinity false
  \/ (good (binary_round_aux prec emax false m0 e0 l) = true
      /\ units lo <= units (binary_round_aux prec emax false m0 e0 l)).
Proof.
  intros Hm0 He0 HE lo Hlo Hlow.
  destruct (binary_round_aux_spec false m0 e0 l Hm0 HE) as (m2 & Hm2 & Hr).
  pose proof (lower_floor m0 e0 Hm0 He0 HE lo Hlo Hlow) as Hfl.
  set (E := fexp (Zdigits2 m0 + e0)) in *.
  pose proof (pow2_pos (E + W) ltac:(lia)) as HA.
  assert (Hge : units lo <= m2 * 2 ^ (E + W)).
  { destruct Hm2 as [-> | [-> _]]; [exact Hfl | nia]. }
  inversion Hr as [Hz|m3 e3 Hc He3 Hm3 Hb|m3 e3 Hc He3 Hm3 Hb].
  - right. split; [reflexivity|]. cbn [units]. subst m2. lia.
  - right. split; [now apply good_finite|]. cbn [units].
    replace (e3 + W) with ((e3 - E) + (E + W)) by lia.
    rewrite (pow2_split (e3 - E) (E + W)) by lia. rewrite Z.mul_assoc, Hm3. exact Hge.
  - now left.
Qed.

Lemma mul_outcome a b lo :
  good a = true -> good b = true -> good lo = true ->
  units lo * 2 ^ W <= units a * units b ->
  SFmul prec emax a b = S754_infinity false
  \/ (good (SFmul prec emax a b) = true /\ units lo <= units (SFmul prec emax a b)).
Proof.
  intros Ha Hb Hlo Hbound.
  pose proof (units_nonneg lo) as Hlo0.
  assert (HW : 0 < 2 ^ W) by (apply pow2_pos; lia).
  destruct (good_cases a Ha) as [[sa ->]|(ma & ea & -> & Hca & Hea)];
    destruct (good_cases b Hb) as [[sb ->]|(mb & eb & -> & Hcb & Heb)];
    try (right; cbn [SFmul units] in *; split; [reflexivity | nia]).
  destruct (canonical_range ma ea Hca) as (Hea1 & Hda & Hna).
  destruct (canonical_range mb eb Hcb) as (Heb1 & Hdb & Hnb).
  rewrite SFmul_finite.
  pose proof (digits_mul_ge ma mb) as Hdig.
  pose proof (Zdigits2_pos (Zpos ma) ltac:(lia)) as Hpa. simpl Zdigits2 in Hpa.
  pose proof (Zdigits2_pos (Zpos mb) ltac:(lia)) as Hpb. simpl Zdigits2 in Hpb.
  assert (Hx : Zpos ma * Zpos mb * 2 ^ (ea + eb + W) * 2 ^ W
               = units (S754_finite false ma ea) * units (S754_finite false mb eb)).
  { cbn [units].
    transitivity (Zpos ma * Zpos mb * (2 ^ (ea + eb + W) * 2 ^ W)); [ring|].
    transitivity (Zpos ma * Zpos mb * (2 ^ (ea + W) * 2 ^ (eb + W))); [|ring].
    f_equal. rewrite <- !Z.pow_add_r by lia. f_equal. lia. }
  rewrite <- Hx in Hbound.
  apply Z.mul_le_mono_pos_r in Hbound; [|exact HW].
  assert (HE : ea + eb <= fexp (Zdigits2 (Zpos ma * Zpos mb) + (ea + eb)))
    by (rewrite fexp_eq; lia).
  apply (round_aux_outcome (Zpos ma * Zpos mb) (ea + eb) loc_Exact
           ltac:(lia) ltac:(lia) HE lo Hlo Hbound).
Qed.

Lemma mul_negative ma ea mb eb :
  SFmul prec emax (S754_finite false ma ea) (S754_finite true mb eb)
  = SFopp (SFmul prec emax (S754_finite false ma ea) (S754_finite false mb eb)).
Proof. cbn [SFmul xorb]. apply round_aux_opp. Qed.

Lemma of_Z_negative p : of_Z (Zneg p) = SFopp (of_Z (Zpos p)).
Proof.
  unfold of_Z, binary_normalize, binary_round.
  destruct (shl_align p 0 _) as [mz ez]. apply round_aux_opp.
Qed.

Lemma opp_nonpositive x : nonnegative x -> nonpositive (SFopp x) = true.
Proof.
  intros [Hg | ->]; [|reflexivity].
  destruct (good_cases x Hg) as [[s ->]|(m & e & -> & _)]; reflexivity.
Qed.

Lemma of_Z_nonpositive z : - 2 ^ 53 < z <= 0 -> nonpositive (of_Z z) = true.
Proof.
  intro Hz. destruct z as [|p|p]; [reflexivity | lia |].
  rewrite of_Z_negative. apply opp_nonpositive. left.
  apply (of_Z_exact (Zpos p)). lia.
Qed.

Lemma max_one_nonpositive y : nonpositive y = true -> Math_max one y = one.
Proof. destruct y as [[|]|[|]| |[|] m e]; intro H; try discriminate H; reflexivity. Qed.

Lemma floor_nonpositive y :
  valid_binary prec emax y = true -> nonpositive y = true ->
  nonpositive (Math_floor y) = true.
Proof.
  intros Hv Hy. destruct y as [s|s| |s m e]; try exact Hy.
  destruct s; [|discriminate Hy].
  assert (Hg : good (S754_finite false m e) = true)
    by (unfold good; cbn [valid_binary] in *; now rewrite Hv).
  destruct (good_finite_inv false m e Hg) as (_ & Hc & _).
  pose proof (canonical_lt_pow m e Hc) as Hm.
  cbn [Math_floor]. destruct (0 <=? e) eqn:He; [reflexivity|].
  apply Z.leb_gt in He.
  assert (Hq : 0 <= Z.shiftr (Zpos m) (- e) < 2 ^ 52).
  { rewrite Z.shiftr_div_pow2 by lia.
    assert (2 <= 2 ^ (- e)).
    { change 2 with (2 ^ 1) at 1. apply Z.pow_le_mono_r; lia. }
    split; [apply Z.div_pos; lia|].
    apply Z.div_lt_upper_bound; [lia|]. change (2 ^ 53) with (2 * 2 ^ 52) in Hm. nia. }
  change (2 ^ 52) with 4503599627370496 in Hq.
  destruct (Z.shiftl _ _ =? Zpos m); apply of_Z_nonpositive;
    change (2 ^ 53) with 9007199254740992; lia.
Qed.

(** ** The count computed from the ratio *)

Lemma number_cases r :
  valid_binary prec emax r = true -> is_nan r = false ->
  (nonpositive r = true /\ valid_binary prec emax r = true)
  \/ (good r = true /\ 0 < units r)
  \/ r = S754_infinity false.
Proof.
  intros Hv Hn. destruct r as [s|[|]| |[|] m e]; try discriminate Hn; auto.
  right. left.
  assert (Hg : good (S754_finite false m e) = true)
    by (unfold good; cbn [valid_binary] in *; now rewrite Hv).
  split; [exact Hg|].
  destruct (good_finite_inv false m e Hg) as (_ & Hc & _).
  destruct (canonical_range m e Hc) as (He & _).
  apply units_finite_pos. lia.
Qed.

Lemma of_nat_finite (n : nat) :
  (1 <= n)%nat -> Z.of_nat n < 2 ^ 53 ->
  exists m e, of_nat n = S754_finite false m e /\ good (S754_finite false m e) = true.
Proof.
  intros Hn1 Hn. destruct (of_nat_exact n Hn) as [Hg Hu].
  destruct (good_cases _ Hg) as [[s Hs]|(m & e & Hm & _)].
  - rewrite Hs in Hu. cbn [units] in Hu. pose proof (pow2_pos W ltac:(lia)). nia.
  - exists m, e. split; [exact Hm | now rewrite <- Hm].
Qed.

Lemma valid_opp x : nonnegative x -> valid_binary prec emax (SFopp x) = true.
Proof.
  intros [Hg | ->]; [|reflexivity].
  destruct (good_cases x Hg) as [[s ->]|(m & e & -> & _)]; [reflexivity|].
  unfold good in Hg. apply andb_true_iff in Hg. apply Hg.
Qed.

Lemma mul_nonnegative a b :
  good a = true -> good b = true -> nonnegative (SFmul prec emax a b).
Proof.
  intros Ha Hb.
  destruct (mul_outcome a b zero Ha Hb (good_zero false)) as [H|[H _]].
  - cbn [units zero]. pose proof (units_nonneg a). pose proof (units_nonneg b). nia.
  - now right.
  - now left.
Qed.

Lemma product_nonpositive (n : nat) (r : number) :
  (1 <= n)%nat -> Z.of_nat n < 2 ^ 53 ->
  valid_binary prec emax r = true -> nonpositive r = true ->
  nonpositive (mul (of_nat n) r) = true
  /\ valid_binary prec emax (mul (of_nat n) r) = true.
Proof.
  intros Hn1 Hn Hv Hr.
  destruct (of_nat_finite n Hn1 Hn) as (mn & en & -> & Hgn).
  destruct r as [s|[|]| |[|] m e]; try discriminate Hr; try (split; reflexivity).
  assert (Hg : good (S754_finite false m e) = true)
    by (unfold good; cbn [valid_binary] in *; now rewrite Hv).
  unfold mul. rewrite mul_negative.
  pose proof (mul_nonnegative _ _ Hgn Hg) as Hnn.
  split; [now apply opp_nonpositive | now apply valid_opp].
Qed.

Lemma count_nonpositive (n : nat) (r : number) :
  (1 <= n)%nat -> Z.of_nat n < 2 ^ 53 ->
  valid_binary prec emax r = true -> nonpositive r = true ->
  Math_max one (Math_floor (mul (of_nat n) r)) = one.
Proof.
  intros Hn1 Hn Hv Hr.
  destruct (product_nonpositive n r Hn1 Hn Hv Hr) as [Hp Hvp].
  apply max_one_nonpositive. now apply floor_nonpositive.
Qed.

(** A count: an integer that is at least 1, or plus infinity. *)
Lemma count_outcome (n : nat) (r : number) :
  (1 <= n)%nat -> Z.of_nat n < 2 ^ 53 ->
  valid_binary prec emax r = true -> is_nan r = false ->
  Math_max one (Math_floor (mul (of_nat n) r)) = S754_infinity false
  \/ (good (Math_max one (Math_floor (mul (of_nat n) r))) = true
      /\ exists c : nat,
           (1 <= c)%nat
           /\ units (Math_max one (Math_floor (mul (of_nat n) r))) = Z.of_nat c * 2 ^ W).
Proof.
  intros Hn1 Hn Hv Hnan.
  pose proof (pow2_pos W ltac:(lia)) as HW.
  destruct (number_cases r Hv Hnan) as [[Hr _]|[[Hg Hpos]| ->]].
  - right. rewrite (count_nonpositive n r Hn1 Hn Hv Hr).
    split; [reflexivity|]. exists 1%nat. split; [lia|]. rewrite units_one. lia.
  - destruct (of_nat_exact n Hn) as [Hgn Hun].
    destruct (mul_nonnegative _ _ Hgn Hg) as [Hgm | Hinf].
    + right. destruct (Math_floor_good _ Hgm) as [Hgf Huf].
      destruct (Math_max_good one _ good_one Hgf) as [Hgx Hux].
      split; [exact Hgx|].
      pose proof (units_floor_nonneg (SFmul prec emax (of_nat n) r)) as Hq.
      exists (Z.to_nat (Z.max 1 (units (SFmul prec emax (of_nat n) r) / 2 ^ W))).
      split; [lia|]. unfold mul. rewrite Hux, Huf, units_one, Z2Nat.id by lia.
      replace (2 ^ W) with (1 * 2 ^ W) at 1 by lia.
      apply Z.mul_max_distr_nonneg_r. lia.
    + left. unfold mul. rewrite Hinf. reflexivity.
  - left. destruct (of_nat_finite n Hn1 Hn) as (mn & en & -> & _). reflexivity.
Qed.

(** With a ratio of at most 1 the count is at most the number of sentences. *)
Lemma count_within (n : nat) (r : number) :
  (1 <= n)%nat -> Z.of_nat n < 2 ^ 53 ->
  valid_binary prec emax r = true -> leb r one = true ->
  good (Math_max one (Math_floor (mul (of_nat n) r))) = true
  /\ exists c : nat,
       (1 <= c <= n)%nat
       /\ units (Math_max one (Math_floor (mul (of_nat n) r))) = Z.of_nat c * 2 ^ W.
Proof.
  intros Hn1 Hn Hv Hle.
  pose proof (pow2_pos W ltac:(lia)) as HW.
  assert (Hnan : is_nan r = false) by (destruct r; try reflexivity; discriminate Hle).
  destruct (number_cases r Hv Hnan) as [[Hr _]|[[Hg Hpos]| ->]]; [| |discriminate Hle].
  - rewrite (count_nonpositive n r Hn1 Hn Hv Hr).
    split; [reflexivity|]. exists 1%nat. split; [lia|]. rewrite units_one. lia.
  - unfold leb in Hle. rewrite (leb_units r one Hg good_one), units_one in Hle.
    apply Z.leb_le in Hle.
    destruct (count_by_ratio n (Some r) Hn1 Hn (conj Hg Hle))
      as (c & Hc & Hgc & Huc).
    split; [exact Hgc|]. exists c. split; [exact Hc | exact Huc].
Qed.

Lemma sliceFinal_infinity (len : nat) : sliceFinal len (S754_infinity false) = len.
Proof. unfold sliceFinal. cbn [toIntegerOrInfinity]. lia. Qed.

Lemma min_infinity (n : nat) :
  Z.of_nat n < 2 ^ 53 -> Math_min (S754_infinity false) (of_nat n) = of_nat n.
Proof.
  intro Hn. destruct (of_nat_exact n Hn) as [Hg _].
  destruct (good_cases _ Hg) as [[s ->]|(m & e & -> & _)]; reflexivity.
Qed.

Section Selection.

Variable STOPWORDS : list string.
Variable Math_log : number -> number.
Variable Math_pow : number -> number -> number.

Local Abbreviation sentencesWithMetadata := (sentencesWithMetadata STOPWORDS).
Local Abbreviation selectSentences := (selectSentences STOPWORDS Math_log Math_pow).
Local Abbreviation summarize := (summarize STOPWORDS Math_log Math_pow).

Local Open Scope nat_scope.

Lemma selectSentences_plain_length options summaryRatio maxSentences sentences :
  deduplicateSimilar options = false ->
  List.length (selectSentences options summaryRatio maxSentences sentences)
  = sliceFinal (List.length sentences)
               (sentenceCount (List.length sentences) summaryRatio maxSentences).
Proof.
  intro H. unfold Summarizer.selectSentences. rewrite H.
  now rewrite sort_length, SummarizerFacts.topSentences_length.
Qed.

(** A zero maximum is no maximum. *)
Lemma selectSentences_zero options summaryRatio sentences :
  selectSentences options summaryRatio (Some zero) sentences
  = selectSentences options summaryRatio None sentences.
Proof. reflexivity. Qed.

Lemma summarize_zero text summaryRatio options :
  summarize text summaryRatio (Some zero) options = summarize text summaryRatio None options.
Proof. reflexivity. Qed.

(** With a count of at least one, some sentence is selected. *)
Lemma selectSentences_some options summaryRatio maxSentences sentences :
  NoDup sentences -> 1 <= List.length sentences ->
  (Z.of_nat (List.length sentences) < 2 ^ 53)%Z ->
  sentenceCount (List.length sentences) summaryRatio maxSentences = S754_infinity false
  \/ (good (sentenceCount (List.length sentences) summaryRatio maxSentences) = true
      /\ exists c : nat,
           1 <= c
           /\ units (sentenceCount (List.length sentences) summaryRatio maxSentences)
              = (Z.of_nat c * 2 ^ W)%Z) ->
  1 <= List.length (selectSentences options summaryRatio maxSentences sentences).
Proof.
  intros Hnd Hn1 Hn Hcount.
  pose proof (pow2_pos W ltac:(lia)) as HW.
  unfold Summarizer.selectSentences. rewrite sort_length.
  set (count := sentenceCount (List.length sentences) summaryRatio maxSentences) in *.
  assert (Hcut : forall len : nat, Nat.min 1 len <= sliceFinal len count).
  { intro len. destruct Hcount as [-> | (Hg & c & Hc & Hu)].
    - rewrite sliceFinal_infinity. lia.
    - rewrite (sliceFinal_count len count c Hg Hu). lia. }
  destruct (deduplicateSimilar options).
  - assert (Htwice : forall len : nat, Nat.min 1 len <= sliceFinal len (mul count two)).
    { intro len. destruct Hcount as [-> | (Hg & c & Hc & Hu)].
      - change (mul (S754_infinity false) two) with (S754_infinity false).
        rewrite sliceFinal_infinity. lia.
      - destruct (mul_outcome count two count Hg eq_refl Hg) as [Hinf | [Hg2 Hu2]].
        + rewrite units_two. pose proof (units_nonneg count). nia.
        + unfold mul. rewrite Hinf, sliceFinal_infinity. lia.
        + unfold mul. rewrite (sliceFinal_good _ _ Hg2).
          assert (Z.of_nat c <= units (SFmul prec emax count two) / 2 ^ W)%Z.
          { apply Z.div_le_lower_bound; [lia|]. rewrite Z.mul_comm, <- Hu. exact Hu2. }
          lia. }
    match goal with
    | |- context [topSentences ?scores ?e sentences] =>
        set (top := topSentences scores e sentences);
        pose proof (SummarizerFacts.topSentences_length scores e sentences) as Hlen;
        destruct (SummarizerFacts.topSentences_chosen scores e Hnd) as [Htop _]
    end.
    fold top in Hlen, Htop.
    specialize (Htwice (List.length sentences)).
    destruct top as [|t rest] eqn:Etop; [simpl in Hlen; lia|].
    pose proof (SummarizerFacts.deduplicate_first STOPWORDS Math_log Math_pow lit_0_6 Htop)
      as Hin.
    rewrite slice0_length.
    specialize (Hcut (List.length (deduplicateSentences STOPWORDS (t :: rest) lit_0_6))).
    destruct (deduplicateSentences STOPWORDS (t :: rest) lit_0_6); [destruct Hin|].
    simpl in Hcut |- *. lia.
  - rewrite SummarizerFacts.topSentences_length.
    specialize (Hcut (List.length sentences)). lia.
Qed.

(** The output shows the selection, which is in document order. *)
Lemma summarize_shows_selection text summaryRatio maxSentences options :
  2 <= List.length (sentencesWithMetadata options text) ->
  let selected :=
    selectSentences options summaryRatio maxSentences (sentencesWithMetadata options text) in
  StronglySorted inOrder selected
  /\ incl selected (sentencesWithMetadata options text)
  /\ List.concat (map snd (groupByParagraph selected)) = selected
  /\ summarize text summaryRatio maxSentences options = render (groupByParagraph selected).
Proof.
  intros Hn selected.
  pose proof (SummarizerFacts.sentences_sorted STOPWORDS options text) as HS.
  pose proof (SummarizerFacts.selectSentences_inOrder STOPWORDS Math_log Math_pow
                options summaryRatio maxSentences HS) as Hsel.
  destruct (SummarizerFacts.selectSentences_chosen STOPWORDS Math_log Math_pow
              options summaryRatio maxSentences (SummarizerFacts.sorted_NoDup HS))
    as [_ Hincl].
  destruct (SummarizerFacts.groupByParagraph_grouped Hsel) as (Hcat & _ & _).
  split; [exact Hsel|]. split; [exact Hincl|]. split; [exact Hcat|].
  rewrite (SummarizerFacts.summarize_assembled STOPWORDS Math_log Math_pow
             text summaryRatio maxSentences options Hn).
  apply SummarizerFacts.assemble_render; [exact Hsel|].
  apply Forall_forall. intros s Hs.
  pose proof (SummarizerFacts.sentences_nonEmpty STOPWORDS options text) as Hne.
  rewrite Forall_forall in Hne. apply Hne, Hincl, Hs.
Qed.

(** C3. For a document of at least two sentences, without deduplication:
    with a maximum that is a positive integer [k], [summarize] selects
    [min k total] sentences; with no maximum and a ratio that is not [NaN]
    it selects [min(total, max(1, floor(total * ratio)))] sentences, which
    is [max(1, floor(total * ratio))] for a ratio of at most 1; the selected
    sentences are sentences of the document in ascending document order,
    and the output is their text in that order, grouped by paragraph. *)
Theorem summarize_selects text summaryRatio maxSentences options :
  let sentences := sentencesWithMetadata options text in
  let selected := selectSentences options summaryRatio maxSentences sentences in
  let total := List.length sentences in
  let byRatio :=
    Math_max one (Math_floor (mul (of_nat total) (ratioOrDefault summaryRatio))) in
  2 <= total ->
  isArray sentences ->
  deduplicateSimilar options = false ->
  (forall k : nat,
      1 <= k -> (Z.of_nat k < 2 ^ 53)%Z -> maxSentences = Some (of_nat k) ->
      List.length selected = Nat.min k total)
  /\ (maxSentences = None ->
      isNumber (ratioOrDefault summaryRatio) -> is_nan (ratioOrDefault summaryRatio) = false ->
      1 <= List.length selected <= total
      /\ of_nat (List.length selected) = Math_min byRatio (of_nat total)
      /\ (leb (ratioOrDefault summaryRatio) one = true ->
          of_nat (List.length selected) = byRatio))
  /\ StronglySorted inOrder selected
  /\ incl selected sentences
  /\ List.concat (map snd (groupByParagraph selected)) = selected
  /\ summarize text summaryRatio maxSentences options = render (groupByParagraph selected).
Proof.
  intros sentences selected total byRatio Hn Hb Hplain.
  apply (isArray_below (b := 53)) in Hb; [|lia].
  split; [|split; [|apply summarize_shows_selection; exact Hn]].
  - intros k Hk1 Hk ->. unfold selected.
    rewrite (selectSentences_plain_length _ _ _ _ Hplain).
    destruct (count_by_maximum (List.length sentences) k summaryRatio Hk1 Hk Hb) as [Hg Hu].
    rewrite (sliceFinal_count _ _ _ Hg Hu). unfold total. lia.
  - intros Hmax Hv Hnan. unfold selected.
    rewrite (selectSentences_plain_length _ _ _ _ Hplain).
    replace (sentenceCount (List.length sentences) summaryRatio maxSentences) with byRatio
      by (rewrite Hmax; reflexivity).
    change (List.length sentences) with total.
    pose proof (pow2_pos W ltac:(lia)) as HW.
    destruct (of_nat_exact total Hb) as [Hgn Hun].
    assert (Hwithin : leb (ratioOrDefault summaryRatio) one = true ->
                      of_nat (sliceFinal total byRatio) = byRatio).
    { intro Hle.
      destruct (count_within total _ ltac:(unfold total; lia) Hb Hv Hle)
        as (Hg & c & Hc & Hu).
      change (good byRatio = true) in Hg.
      change (units byRatio = (Z.of_nat c * 2 ^ W)%Z) in Hu.
      rewrite (sliceFinal_count _ _ _ Hg Hu).
      replace (Nat.min c total) with c by lia. symmetry.
      apply (of_nat_units byRatio c Hg); [lia | lia | exact Hu]. }
    destruct (count_outcome total _ ltac:(unfold total; lia) Hb Hv Hnan)
      as [Hinf | (Hg & c & Hc & Hu)].
    + change (byRatio = S754_infinity false) in Hinf.
      split; [rewrite Hinf, sliceFinal_infinity; unfold total; lia|].
      split; [|exact Hwithin].
      rewrite Hinf, sliceFinal_infinity. symmetry. now apply min_infinity.
    + change (good byRatio = true) in Hg.
      change (units byRatio = (Z.of_nat c * 2 ^ W)%Z) in Hu.
      split; [rewrite (sliceFinal_count _ _ _ Hg Hu); unfold total; lia|].
      split; [|exact Hwithin].
      rewrite (sliceFinal_count _ _ _ Hg Hu).
      destruct (Math_min_good byRatio (of_nat total) Hg Hgn) as [Hgm Hum].
      symmetry. apply (of_nat_units _ (Nat.min c total) Hgm); [lia | lia|].
      rewrite Hum, Hu, Hun, Nat2Z.inj_min. apply Z.mul_min_distr_nonneg_r. lia.
Qed.

(** C9. A maximum of 0 is falsy, so the count is the one computed from the
    ratio, and the selection and the output are those of a call without a
    maximum; for a document of at least two sentences and a ratio that is
    not [NaN] the selection is not empty. *)
Theorem summarize_zero_maximum text summaryRatio options :
  let sentences := sentencesWithMetadata options text in
  2 <= List.length sentences ->
  isArray sentences ->
  isNumber (ratioOrDefault summaryRatio) -> is_nan (ratioOrDefault summaryRatio) = false ->
  truthy zero = false
  /\ sentenceCount (List.length sentences) summaryRatio (Some zero)
     = Math_max one (Math_floor (mul (of_nat (List.length sentences))
                                     (ratioOrDefault summaryRatio)))
  /\ selectSentences options summaryRatio (Some zero) sentences
     = selectSentences options summaryRatio None sentences
  /\ summarize text summaryRatio (Some zero) options
     = summarize text summaryRatio None options
  /\ selectSentences options summaryRatio (Some zero) sentences <> [].
Proof.
  intros sentences Hn Hb Hv Hnan.
  apply (isArray_below (b := 53)) in Hb; [|lia].
  split; [reflexivity|]. split; [reflexivity|]. split; [reflexivity|].
  split; [reflexivity|].
  pose proof (SummarizerFacts.sorted_NoDup
                (SummarizerFacts.sentences_sorted STOPWORDS options text)) as Hnd.
  pose proof (selectSentences_some options summaryRatio (Some zero) sentences
                Hnd ltac:(lia) Hb
                (count_outcome (List.length sentences) _ ltac:(lia) Hb Hv Hnan)) as Hlen.
  intro E. fold sentences in E. rewrite E in Hlen. simpl in Hlen. lia.
Qed.

End Selection.

End SelectionFacts.

(* ================================================================== *)
(** * TextRank: the scores stay above the teleport term *)
(* ================================================================== *)

Module RankFacts.

Import Number JsString TextRank TokenSets Rounding RoundingFacts.
Local Unset Implicit Arguments.
Local Open Scope Z_scope.

Local Abbreviation W := 2200 (only parsing).

Lemma add_bounds a b lo hi :
  good a = true -> good b = true -> good lo = true -> good hi = true ->
  units lo <= units a + units b <= units hi ->
  good (add a b) = true /\ units lo <= units (add a b) <= units hi.
Proof. exact (add_sandwich a b lo hi). Qed.

Lemma mul_bounds a b lo hi :
  good a = true -> good b = true -> good lo = true -> good hi = true ->
  units lo * 2 ^ W <= units a * units b <= units hi * 2 ^ W ->
  good (mul a b) = true /\ units lo <= units (mul a b) <= units hi.
Proof. exact (mul_sandwich a b lo hi). Qed.

Lemma div_bounds a b lo hi :
  good a = true -> good b = true -> 0 < units b ->
  good lo = true -> good hi = true ->
  units lo * units b <= units a * 2 ^ W <= units hi * units b ->
  good (div a b) = true /\ units lo <= units (div a b) <= units hi.
Proof. exact (div_sandwich a b lo hi). Qed.

Lemma bounded_unit x : within 0 x <-> unit_interval x.
Proof. unfold within, unit_interval. simpl (0 + W). tauto. Qed.

Lemma dyadic_units (b j e : Z) :
  0 <= b <= 53 -> 1 <= j < 2 ^ b -> -1074 <= e -> e + b <= 1023 ->
  good (dyadic (Z.to_pos j) e) = true /\ units (dyadic (Z.to_pos j) e) = j * 2 ^ (e + W).
Proof.
  intros Hb Hj He Heb.
  assert (Hid : Zpos (Z.to_pos j) = j) by (apply Z2Pos.id; lia).
  assert (Hjb : j < 2 ^ 53).
  { eapply Z.lt_le_trans; [apply Hj | apply Z.pow_le_mono_r; lia]. }
  rewrite <- Hid at 3. apply dyadic_good; rewrite ?Hid; try lia.
  pose proof (pow2_pos (e + W) ltac:(lia)) as HP.
  apply Z.lt_le_trans with (2 ^ b * 2 ^ (e + W)).
  - apply Z.mul_lt_mono_pos_r; lia.
  - rewrite <- (pow2_split b (e + W)) by lia. apply Z.pow_le_mono_r; lia.
Qed.

(** ** Sums *)

Section FoldAdd.

Variable A : Type.
Variable skip : A -> bool.
Variable term : A -> number.
Variables e b : Z.
Hypothesis He : -1074 <= e.
Hypothesis Hb : 0 <= b <= 53.
Hypothesis Heb : e + b <= 1023.

(** A sum of numbers of at most 2^e each: the partial sums are numbers,
    they only grow, and the sum of [k] terms is at most k * 2^e. *)
Lemma fold_add_bounded (l : list A) : forall (acc : number) (k : Z),
  0 <= k -> k + Z.of_nat (List.length l) < 2 ^ b ->
  good acc = true -> units acc <= k * 2 ^ (e + W) ->
  Forall (fun j => skip j = false -> within e (term j)) l ->
  good (fold_left (fun acc j => if skip j then acc else add acc (term j)) l acc) = true
  /\ units (fold_left (fun acc j => if skip j then acc else add acc (term j)) l acc)
     <= (k + Z.of_nat (List.length l)) * 2 ^ (e + W)
  /\ units acc
     <= units (fold_left (fun acc j => if skip j then acc else add acc (term j)) l acc)
  /\ Forall (fun j => skip j = false ->
                      units (term j)
                      <= units (fold_left (fun acc j => if skip j then acc
                                                        else add acc (term j)) l acc)) l.
Proof.
  pose proof (pow2_pos (e + W) ltac:(lia)) as HP.
  induction l as [|x l' IH]; intros acc k Hk Hlen Hg Hu Hterms.
  - simpl. split; [exact Hg|]. split; [simpl in *; lia|]. split; [lia | constructor].
  - cbn [fold_left]. cbn [List.length] in Hlen |- *. rewrite Nat2Z.inj_succ in Hlen |- *.
    inversion Hterms as [|x' l'' Hx Hrest]; subst.
    destruct (skip x) eqn:Hskip.
    + destruct (IH acc k Hk ltac:(lia) Hg Hu Hrest) as (H1 & H2 & H3 & H4).
      split; [exact H1|]. split; [nia|]. split; [exact H3|].
      constructor; [congruence | exact H4].
    + destruct (Hx eq_refl) as [Hgx Hux].
      destruct (dyadic_units b (k + 1) e Hb ltac:(lia) He Heb) as [Hgh Huh].
      pose proof (units_nonneg acc) as Ha0. pose proof (units_nonneg (term x)) as Hx0.
      assert (Hsum : units acc + units (term x) <= units (dyadic (Z.to_pos (k + 1)) e))
        by (rewrite Huh; lia).
      destruct (add_bounds acc (term x) acc _ Hg Hgx Hg Hgh ltac:(lia)) as [Hga [Hlo Hhi]].
      destruct (add_bounds acc (term x) (term x) _ Hg Hgx Hgx Hgh ltac:(lia)) as [_ [Hlo' _]].
      rewrite Huh in Hhi.
      destruct (IH (add acc (term x)) (k + 1) ltac:(lia) ltac:(lia) Hga Hhi Hrest)
        as (H1 & H2 & H3 & H4).
      split; [exact H1|]. split; [replace (k + Z.succ (Z.of_nat (List.length l')))
        with (k + 1 + Z.of_nat (List.length l')) by lia; exact H2|].
      split; [lia|]. constructor; [intros _; lia | exact H4].
Qed.

End FoldAdd.

(** ** The similarity matrix *)

Lemma unit_interval_weaken e x : 0 <= e -> unit_interval x -> within e x.
Proof.
  intros He [Hg Hu]. split; [exact Hg|].
  etransitivity; [exact Hu | apply Z.pow_le_mono_r; lia].
Qed.

Lemma bounded_zero e : - W <= e -> within e zero.
Proof.
  intro He. split; [reflexivity|]. cbn [units zero].
  pose proof (pow2_pos (e + W) ltac:(lia)). lia.
Qed.

(** [1 / n] *)
Lemma uniform_unit (n : nat) :
  (1 <= n)%nat -> Z.of_nat n < 2 ^ 53 -> unit_interval (div one (of_nat n)).
Proof.
  intros Hn1 Hn. destruct (of_nat_exact n Hn) as [Hg Hu].
  pose proof (pow2_pos W ltac:(lia)) as HW.
  destruct (div_bounds one (of_nat n) zero one good_one Hg ltac:(nia)
              (good_zero false) good_one) as [Hgd Hud].
  - rewrite units_one, Hu. cbn [units zero]. split; [nia|].
    apply Z.mul_le_mono_nonneg_l; [lia|]. nia.
  - rewrite units_one in Hud. split; [exact Hgd | apply Hud].
Qed.

Lemma normalizeRow_unit (n : nat) (row : list number) :
  (1 <= n)%nat -> Z.of_nat n < 2 ^ 20 ->
  List.length row = n -> Forall (within 53) row ->
  Forall unit_interval (normalizeRow n row).
Proof.
  intros Hn1 Hn Hlen Hrow.
  assert (Hn53 : Z.of_nat n < 2 ^ 53) by (change (2 ^ 53) with (2 ^ 20 * 2 ^ 33); lia).
  destruct (fold_add_bounded number (fun _ => false) (fun x => x) 53 20
              ltac:(lia) ltac:(lia) ltac:(lia) row zero 0 ltac:(lia) ltac:(lia)
              (good_zero false) ltac:(cbn [units zero]; lia))
    as (Hg & _ & _ & Hle).
  { eapply Forall_impl; [|exact Hrow]. intros x Hx _. exact Hx. }
  set (sum := fold_left add row zero).
  assert (Hgs : good sum = true) by exact Hg.
  assert (Hles : Forall (fun x => units x <= units sum) row).
  { eapply Forall_impl; [|exact Hle]. intros x Hx. exact (Hx eq_refl). }
  clear Hg Hle.
  unfold normalizeRow. fold sum. unfold eqb.
  rewrite (eqb_units sum zero Hgs (good_zero false)). cbn [units zero].
  destruct (Z.eqb_spec (units sum) 0) as [E|E].
  - apply Forall_forall. intros y Hy. apply in_map_iff in Hy.
    destruct Hy as (x & <- & _). now apply uniform_unit.
  - pose proof (units_nonneg sum) as H0.
    apply Forall_forall. intros y Hy. apply in_map_iff in Hy.
    destruct Hy as (x & <- & Hx).
    rewrite Forall_forall in Hrow, Hles.
    destruct (Hrow x Hx) as [Hgx _]. specialize (Hles x Hx).
    pose proof (pow2_pos W ltac:(lia)) as HW.
    destruct (div_bounds x sum zero one Hgx Hgs ltac:(lia)
                (good_zero false) good_one) as [Hgd Hud].
    + rewrite units_one. cbn [units zero]. pose proof (units_nonneg x). split; [nia|].
      rewrite Z.mul_comm. apply Z.mul_le_mono_nonneg_l; lia.
    + rewrite units_one in Hud. split; [exact Hgd | apply Hud].
Qed.

Section Matrix.

Variable STOPWORDS : list string.
Variable sentences : list string.

Hypothesis Htokens :
  Forall (fun s => Z.of_nat (List.length (tokenSet STOPWORDS s)) < 2 ^ 53) sentences.

Lemma tokens_nth (i : nat) :
  Z.of_nat (List.length (tokenSet STOPWORDS (nth i sentences EmptyString))) < 2 ^ 53.
Proof.
  destruct (Nat.lt_ge_cases i (List.length sentences)) as [Hi|Hi].
  - rewrite Forall_forall in Htokens. apply Htokens. now apply nth_In.
  - rewrite nth_overflow by exact Hi. vm_compute. reflexivity.
Qed.

Lemma similarity_bounded (i j : nat) :
  within 53 (calculateSimilarity STOPWORDS (nth i sentences EmptyString)
                                            (nth j sentences EmptyString)).
Proof.
  destruct (SimilarityFacts.calculateSimilarity_good STOPWORDS _ _
              (tokens_nth i) (tokens_nth j)) as [Hg Hu].
  split; [exact Hg|]. etransitivity; [exact Hu|].
  pose proof (SimilarityFacts.common_le
                (tokenSet STOPWORDS (nth i sentences EmptyString))
                (tokenSet STOPWORDS (nth j sentences EmptyString))
                (SimilarityFacts.tokenSet_NoDup STOPWORDS _)) as Hc.
  pose proof (tokens_nth i) as Hi.
  rewrite (pow2_split 53 W) by lia.
  apply Z.mul_le_mono_nonneg_r; [apply Z.pow_nonneg; lia | lia].
Qed.

Lemma buildSimilarityMatrix_rows :
  List.length (buildSimilarityMatrix STOPWORDS sentences) = List.length sentences
  /\ Forall (fun row => List.length row = List.length sentences /\ Forall (within 53) row)
            (buildSimilarityMatrix STOPWORDS sentences).
Proof.
  unfold buildSimilarityMatrix. split; [now rewrite length_map, length_seq|].
  apply Forall_forall. intros row Hrow. apply in_map_iff in Hrow.
  destruct Hrow as (i & <- & _). split; [now rewrite length_map, length_seq|].
  apply Forall_forall. intros x Hx. apply in_map_iff in Hx.
  destruct Hx as (j & <- & _).
  destruct (i =? j)%nat; [apply bounded_zero; lia | apply similarity_bounded].
Qed.

Lemma normalizedMatrix_entries (i j : nat) :
  (1 <= List.length sentences)%nat -> Z.of_nat (List.length sentences) < 2 ^ 20 ->
  (i < List.length sentences)%nat -> (j < List.length sentences)%nat ->
  unit_interval
    (entry (map (normalizeRow (List.length sentences))
                (buildSimilarityMatrix STOPWORDS sentences)) j i).
Proof.
  intros Hn1 Hn Hi Hj. destruct buildSimilarityMatrix_rows as [Hlen Hrows].
  unfold entry.
  assert (Hrow : In (nth j (map (normalizeRow (List.length sentences))
                                (buildSimilarityMatrix STOPWORDS sentences)) [])
                    (map (normalizeRow (List.length sentences))
                         (buildSimilarityMatrix STOPWORDS sentences))).
  { apply nth_In. now rewrite length_map, Hlen. }
  apply in_map_iff in Hrow. destruct Hrow as (row & Hr & Hin).
  rewrite <- Hr. rewrite Forall_forall in Hrows. destruct (Hrows row Hin) as [Hl Hb].
  pose proof (normalizeRow_unit (List.length sentences) row Hn1 Hn Hl Hb) as Hunit.
  rewrite Forall_forall in Hunit. apply Hunit. apply nth_In.
  unfold normalizeRow. destruct (eqb _ zero); rewrite length_map; lia.
Qed.

End Matrix.

(** ** The teleport term [(1 - DAMPING) / n] *)

Lemma teleport_numerator :
  good (sub one DAMPING) = true /\ 2 ^ 2144 <= units (sub one DAMPING) <= 2 ^ W.
Proof. vm_compute. split; [reflexivity | split; discriminate]. Qed.

Lemma units_DAMPING : units DAMPING <= 2 ^ W.
Proof. vm_compute. discriminate. Qed.

Lemma teleport_positive (n : nat) :
  (1 <= n)%nat -> Z.of_nat n < 2 ^ 53 ->
  unit_interval (div (sub one DAMPING) (of_nat n))
  /\ 0 < units (div (sub one DAMPING) (of_nat n)).
Proof.
  intros Hn1 Hn. destruct (of_nat_exact n Hn) as [Hg Hu].
  destruct teleport_numerator as (Hga & Hlo & Hhi).
  pose proof (pow2_pos W ltac:(lia)) as HW.
  assert (Hgt : good (S754_finite false 1 (-1074)) = true) by reflexivity.
  assert (Hut : units (S754_finite false 1 (-1074)) = 2 ^ 1126) by reflexivity.
  destruct (div_bounds (sub one DAMPING) (of_nat n) (S754_finite false 1 (-1074)) one
              Hga Hg ltac:(nia) Hgt good_one) as [Hgd Hud].
  - rewrite Hut, Hu, units_one. split.
    + apply Z.le_trans with (2 ^ 2144 * 2 ^ W);
        [|apply Z.mul_le_mono_nonneg_r; lia].
      rewrite Z.mul_assoc. apply Z.mul_le_mono_nonneg_r; [lia|].
      apply Z.le_trans with (2 ^ 1126 * 2 ^ 53).
      * apply Z.mul_le_mono_nonneg_l; [apply Z.pow_nonneg|]; lia.
      * rewrite <- (pow2_split 1126 53) by lia. apply Z.pow_le_mono_r; lia.
    + apply Z.le_trans with (2 ^ W * 2 ^ W).
      * apply Z.mul_le_mono_nonneg_r; lia.
      * apply Z.mul_le_mono_nonneg_l; [lia|]. nia.
  - rewrite Hut, units_one in Hud. split; [split; [exact Hgd | apply Hud]|].
    pose proof (pow2_pos 1126 ltac:(lia)). lia.
Qed.

(** ** One round of the loop *)

Section Round.

Variable n : nat.
Variable matrix : list (list number).

Hypothesis Hn1 : (1 <= n)%nat.
Hypothesis Hn : Z.of_nat n < 2 ^ 20.
Hypothesis Hmatrix :
  forall i j : nat, (i < n)%nat -> (j < n)%nat -> unit_interval (entry matrix j i).

Lemma count_below_53 : Z.of_nat n < 2 ^ 53.
Proof. change (2 ^ 53) with (2 ^ 20 * 2 ^ 33). lia. Qed.

Lemma contribution_bounded (e : Z) (scores : list number) (i j : nat) :
  0 <= e <= 980 -> (i < n)%nat -> (j < n)%nat ->
  List.length scores = n -> Forall (within e) scores ->
  within e (mul (mul DAMPING (entry matrix j i)) (nth j scores S754_nan)).
Proof.
  intros He Hi Hj Hlen Hscores.
  destruct (PositionFacts.scale_unit DAMPING _ eq_refl (Hmatrix i j Hi Hj)) as [Hgu Huu].
  pose proof units_DAMPING as HD.
  rewrite Forall_forall in Hscores.
  destruct (Hscores (nth j scores S754_nan) ltac:(apply nth_In; lia)) as [Hgs Hus].
  destruct (dyadic_units 1 1 e ltac:(lia) ltac:(lia) ltac:(lia) ltac:(lia)) as [Hgh Huh].
  change (Z.to_pos 1) with 1%positive in Hgh, Huh.
  pose proof (units_nonneg (mul DAMPING (entry matrix j i))) as H0.
  pose proof (units_nonneg (nth j scores S754_nan)) as H1.
  destruct (mul_bounds _ (nth j scores S754_nan) zero (dyadic 1 e) Hgu Hgs
              (good_zero false) Hgh) as [Hg Hu].
  - cbn [units zero]. rewrite Huh, Z.mul_1_l. split; [nia|].
    rewrite (Z.mul_comm (2 ^ (e + W))). apply Z.mul_le_mono_nonneg; lia.
  - rewrite Huh, Z.mul_1_l in Hu. split; [exact Hg | apply Hu].
Qed.

Lemma newScore_bounded (e : Z) (scores : list number) (i : nat) :
  0 <= e <= 980 -> (i < n)%nat ->
  List.length scores = n -> Forall (within e) scores ->
  within (e + 20) (newScore n matrix scores i)
  /\ units (div (sub one DAMPING) (of_nat n)) <= units (newScore n matrix scores i).
Proof.
  intros He Hi Hlen Hscores.
  destruct (fold_add_bounded nat (fun j => (i =? j)%nat)
              (fun j => mul (mul DAMPING (entry matrix j i)) (nth j scores S754_nan))
              e 20 ltac:(lia) ltac:(lia) ltac:(lia) (seq 0 n) zero 0
              ltac:(lia) ltac:(rewrite length_seq; lia)
              (good_zero false) ltac:(cbn [units zero]; lia))
    as (Hg & Hu & _ & _).
  { apply Forall_forall. intros j Hj _. apply in_seq in Hj.
    apply contribution_bounded; try assumption; lia. }
  rewrite length_seq in Hu.
  destruct (teleport_positive n Hn1 count_below_53) as [[Hgc Huc] Hpos].
  unfold newScore.
  set (acc := fold_left _ (seq 0 n) zero) in *.
  set (c := div (sub one DAMPING) (of_nat n)) in *.
  destruct (dyadic_units 1 1 (e + 20) ltac:(lia) ltac:(lia) ltac:(lia) ltac:(lia))
    as [Hgh Huh].
  change (Z.to_pos 1) with 1%positive in Hgh, Huh.
  rewrite Z.mul_1_l in Huh.
  pose proof (units_nonneg acc) as H0.
  assert (Hsum : units acc + units c <= 2 ^ (e + 20 + W)).
  { replace (e + 20 + W) with (20 + (e + W)) by lia.
    rewrite (pow2_split 20 (e + W)) by lia.
    assert (2 ^ W <= 2 ^ (e + W)) by (apply Z.pow_le_mono_r; lia).
    pose proof (pow2_pos (e + W) ltac:(lia)).
    apply Z.le_trans with ((Z.of_nat n + 1) * 2 ^ (e + W)); [lia|].
    apply Z.mul_le_mono_nonneg_r; lia. }
  destruct (add_bounds acc c c (dyadic 1 (e + 20)) Hg Hgc Hgc Hgh) as [Hga Hua].
  - rewrite Huh. lia.
  - rewrite Huh in Hua. split; [split; [exact Hga | apply Hua] | apply Hua].
Qed.

Lemma updateScores_bounded (e : Z) (scores : list number) :
  0 <= e <= 980 -> List.length scores = n -> Forall (within e) scores ->
  Forall (fun s => within (e + 20) s
                   /\ units (div (sub one DAMPING) (of_nat n)) <= units s)
         (updateScores n matrix scores).
Proof.
  intros He Hlen Hscores. unfold updateScores.
  apply Forall_forall. intros s Hs. apply in_map_iff in Hs.
  destruct Hs as (i & <- & Hi). apply in_seq in Hi.
  apply newScore_bounded; try assumption; lia.
Qed.

Variable Math_pow : number -> number -> number.

Lemma iterate_bounded (remaining : nat) : forall (t : nat) (scores : list number),
  (1 <= remaining)%nat -> (t + remaining <= 50)%nat ->
  List.length scores = n -> Forall (within (20 * Z.of_nat t)) scores ->
  Forall (fun s => good s = true
                   /\ units (div (sub one DAMPING) (of_nat n)) <= units s)
         (iterate Math_pow n matrix remaining scores).
Proof.
  induction remaining as [|remaining IH]; intros t scores Hr Ht Hlen Hscores; [lia|].
  pose proof (updateScores_bounded (20 * Z.of_nat t) scores ltac:(lia) Hlen Hscores) as Hnew.
  cbn [iterate].
  assert (Hdone : Forall (fun s => good s = true
                     /\ units (div (sub one DAMPING) (of_nat n)) <= units s)
                    (updateScores n matrix scores)).
  { eapply Forall_impl; [|exact Hnew]. intros s [[Hg _] Hu]. split; assumption. }
  destruct (ltb _ CONVERGENCE_THRESHOLD); [exact Hdone|].
  destruct remaining as [|remaining']; [exact Hdone|].
  apply (IH (S t)); [lia | lia | apply TextRankShape.updateScores_length|].
  eapply Forall_impl; [|exact Hnew]. intros s [Hb _].
  replace (20 * Z.of_nat (S t)) with (20 * Z.of_nat t + 20) by lia. exact Hb.
Qed.

End Round.

Section Ranking.

Variable STOPWORDS : list string.
Variable Math_pow : number -> number -> number.

(** C10. For a list of [n >= 2] sentences every score that
    [rankSentences] returns is a number that is at least the teleport term
    [(1 - DAMPING) / n] as the loop computes it, and that term and the
    score are above zero: the term is added last in every round, to a sum
    that is never negative.  The list has fewer than 2^20 sentences, so
    that no score can overflow within the 50 rounds, and a sentence has
    fewer than 2^53 distinct words. *)
Theorem rankSentences_lower_bound (sentences : list string) :
  (2 <= List.length sentences)%nat ->
  Z.of_nat (List.length sentences) < 2 ^ 20 ->
  Forall (fun s => JsArray.isArray (Tokenizer.tokenizeWords STOPWORDS s true)) sentences ->
  ltb zero (div (sub one DAMPING) (of_nat (List.length sentences))) = true
  /\ Forall (fun score =>
               leb (div (sub one DAMPING) (of_nat (List.length sentences))) score = true
               /\ ltb zero score = true)
            (rankSentences STOPWORDS Math_pow sentences).
Proof.
  intros Hn2 Hn Hwords.
  assert (Htokens : Forall (fun s => Z.of_nat (List.length (tokenSet STOPWORDS s)) < 2 ^ 53)
                           sentences).
  { eapply Forall_impl; [|exact Hwords]. intros s. apply SimilarityFacts.tokenSet_size. }
  assert (Hn53 : Z.of_nat (List.length sentences) < 2 ^ 53)
    by (change (2 ^ 53) with (2 ^ 20 * 2 ^ 33); lia).
  destruct (teleport_positive (List.length sentences) ltac:(lia) Hn53) as [[Hgc Huc] Hpos].
  split.
  { unfold ltb. rewrite (ltb_units zero _ (good_zero false) Hgc).
    apply Z.ltb_lt. exact Hpos. }
  unfold rankSentences.
  destruct (List.length sentences =? 0)%nat eqn:E0; [apply Nat.eqb_eq in E0; lia|].
  destruct (List.length sentences =? 1)%nat eqn:E1; [apply Nat.eqb_eq in E1; lia|].
  eapply Forall_impl;
    [|apply (iterate_bounded (List.length sentences)
               (map (normalizeRow (List.length sentences))
                    (buildSimilarityMatrix STOPWORDS sentences))
               ltac:(lia) Hn
               (fun i j Hi Hj => normalizedMatrix_entries STOPWORDS sentences Htokens i j
                                   ltac:(lia) Hn Hi Hj)
               Math_pow MAX_ITERATIONS 0%nat)].
  - intros s [Hgs Hus]. unfold leb, ltb.
    rewrite (leb_units _ s Hgc Hgs), (ltb_units zero s (good_zero false) Hgs).
    split; [apply Z.leb_le; exact Hus | apply Z.ltb_lt; cbn [units zero]; lia].
  - unfold MAX_ITERATIONS. lia.
  - unfold MAX_ITERATIONS. lia.
  - apply repeat_length.
  - apply Forall_forall. intros s Hs. apply repeat_spec in Hs. subst s.
    apply bounded_unit. apply uniform_unit; [lia | exact Hn53].
Qed.

End Ranking.

End RankFacts.

(* ================================================================== *)
(** * Scanning: what [split], [replace] and [trim] keep *)
(* ================================================================== *)

Module ScanFacts.

Import JsString Alphabet StringFacts.
Local Open Scope string_scope.
Local Open Scope nat_scope.
Local Unset Implicit Arguments.

Lemma allChars_nil (p : ascii -> bool) : allChars p EmptyString = true.
Proof. reflexivity. Qed.

Lemma allChars_cons (p : ascii -> bool) (c : ascii) (s : string) :
  allChars p (String c s) = p c && allChars p s.
Proof. unfold allChars. simpl. now rewrite negb_orb, negb_involutive. Qed.

Lemma allChars_append (p : ascii -> bool) (a b : string) :
  allChars p (a ++ b) = allChars p a && allChars p b.
Proof. unfold allChars. now rewrite existsChar_append, negb_orb. Qed.

Lemma allChars_reverse (p : ascii -> bool) (s : string) :
  allChars p (reverse s) = allChars p s.
Proof. unfold allChars. now rewrite existsChar_reverse. Qed.

Lemma allChars_substring (p : ascii -> bool) (s : string) : forall n m,
  allChars p s = true -> allChars p (substring n m s) = true.
Proof.
  induction s as [|c s IH]; intros n m H.
  - destruct n, m; reflexivity.
  - rewrite allChars_cons in H. apply andb_true_iff in H. destruct H as [Hc Hs].
    destruct n as [|n]; [destruct m as [|m]|]; simpl.
    + reflexivity.
    + rewrite allChars_cons, Hc. now apply IH.
    + now apply IH.
Qed.

Lemma allChars_mapChars (p : ascii -> bool) (f : ascii -> ascii) (s : string) :
  (forall c, p (f c) = true) -> allChars p (mapChars f s) = true.
Proof.
  intro H. induction s as [|c s IH]; [reflexivity|].
  simpl. now rewrite allChars_cons, H, IH.
Qed.

Lemma allChars_trimStart (p : ascii -> bool) (s : string) :
  allChars p s = true -> allChars p (trimStart s) = true.
Proof.
  induction s as [|c s IH]; intro H; [reflexivity|].
  simpl. destruct (isWhiteSpace c); [|exact H].
  rewrite allChars_cons in H. apply andb_true_iff in H. now apply IH.
Qed.

Lemma allChars_trim (p : ascii -> bool) (s : string) :
  allChars p s = true -> allChars p (trim s) = true.
Proof.
  intro H. unfold trim, trimEnd.
  rewrite allChars_reverse. apply allChars_trimStart.
  rewrite allChars_reverse. now apply allChars_trimStart.
Qed.

Section Scanning.

Variable matchAt : option ascii -> string -> option nat.
Variable p : ascii -> bool.

(** The pieces of a split are made of characters of the subject. *)
Lemma splitGo_allChars (s : string) : forall prev piece skip,
  allChars p s = true -> allChars p piece = true ->
  Forall (fun part => allChars p part = true) (splitGo matchAt prev piece skip s).
Proof.
  induction s as [|c s IH]; intros prev piece skip Hs Hpiece; simpl.
  - constructor; [now rewrite allChars_reverse | constructor].
  - rewrite allChars_cons in Hs. apply andb_true_iff in Hs. destruct Hs as [Hc Hs].
    destruct skip as [|k]; [|now apply IH].
    destruct (matchAt prev (String c s)) as [[|k]|].
    + apply IH; [exact Hs | now rewrite allChars_cons, Hc].
    + constructor; [now rewrite allChars_reverse | now apply IH].
    + apply IH; [exact Hs | now rewrite allChars_cons, Hc].
Qed.

Lemma split_allChars (s : string) :
  allChars p s = true ->
  Forall (fun part => allChars p part = true) (split matchAt s).
Proof. intro H. now apply splitGo_allChars. Qed.

Variable replacement : string -> string.
Hypothesis replacement_allChars :
  forall m, allChars p m = true -> allChars p (replacement m) = true.

Lemma replaceGo_allChars (s : string) : forall prev skip,
  allChars p s = true -> allChars p (replaceGo matchAt replacement prev skip s) = true.
Proof.
  induction s as [|c s IH]; intros prev skip Hs; [reflexivity|].
  pose proof Hs as Hcs.
  rewrite allChars_cons in Hs. apply andb_true_iff in Hs. destruct Hs as [Hc Hs].
  cbn [replaceGo].
  destruct skip as [|k]; [|now apply IH].
  destruct (matchAt prev (String c s)) as [[|k]|].
  - rewrite allChars_cons, Hc. now apply IH.
  - rewrite allChars_append, IH by exact Hs. rewrite andb_true_r.
    apply replacement_allChars. now apply allChars_substring.
  - rewrite allChars_cons, Hc. now apply IH.
Qed.

Lemma replaceAll_allChars (s : string) :
  allChars p s = true -> allChars p (replaceAll matchAt replacement s) = true.
Proof. apply replaceGo_allChars. Qed.

End Scanning.

(** The pieces of a split at runs of a class hold no character of it. *)
Lemma matchRun_head (q : ascii -> bool) (prev : option ascii) (c : ascii) (s : string) :
  match matchRun q prev (String c s) with
  | Some (S _) => q c = true
  | Some O => False
  | None => q c = false
  end.
Proof.
  unfold matchRun. simpl. destruct (q c) eqn:Hq.
  - destruct (span q s) as [a b]. simpl. reflexivity.
  - simpl. reflexivity.
Qed.

Lemma splitGo_run_free (q : ascii -> bool) (s : string) : forall prev piece skip,
  existsChar q piece = false ->
  Forall (fun part => existsChar q part = false)
         (splitGo (matchRun q) prev piece skip s).
Proof.
  induction s as [|c s IH]; intros prev piece skip Hpiece; simpl.
  - constructor; [now rewrite existsChar_reverse | constructor].
  - destruct skip as [|k]; [|now apply IH].
    pose proof (matchRun_head q prev c s) as Hm.
    destruct (matchRun q prev (String c s)) as [[|k]|].
    + destruct Hm.
    + constructor; [now rewrite existsChar_reverse | now apply IH].
    + apply IH. simpl. now rewrite Hm, Hpiece.
Qed.

Lemma split_run_free (q : ascii -> bool) (s : string) :
  Forall (fun part => existsChar q part = false) (split (matchRun q) s).
Proof. now apply splitGo_run_free. Qed.

(** Splitting at a character and joining with it gives the text back. *)
Lemma splitGo_nonempty (matchAt : option ascii -> string -> option nat) (s : string) :
  forall prev piece skip, splitGo matchAt prev piece skip s <> [].
Proof.
  induction s as [|c s IH]; intros prev piece skip; simpl; [discriminate|].
  destruct skip; [|apply IH].
  destruct (matchAt prev (String c s)) as [[|k]|]; try apply IH. discriminate.
Qed.

Lemma join_cons (sep p : string) (rest : list string) :
  rest <> [] -> join sep (p :: rest) = p ++ sep ++ join sep rest.
Proof. destruct rest; [congruence | reflexivity]. Qed.

Lemma matchLiteral_char (c x : ascii) (prev : option ascii) (s : string) :
  matchLiteral (String c EmptyString) prev (String x s)
  = if Ascii.eqb c x then Some 1 else None.
Proof.
  unfold matchLiteral. simpl.
  destruct (ascii_dec c x) as [->|ne].
  - rewrite Ascii.eqb_refl. now destruct s.
  - destruct (Ascii.eqb_spec c x); [contradiction | reflexivity].
Qed.

Lemma join_splitGo (c : ascii) (s : string) : forall prev piece,
  join (String c EmptyString) (splitGo (matchLiteral (String c EmptyString)) prev piece 0 s)
  = reverse piece ++ s.
Proof.
  induction s as [|x s IH]; intros prev piece.
  - simpl. now rewrite append_nil_r.
  - cbn [splitGo]. rewrite matchLiteral_char.
    destruct (Ascii.eqb_spec c x) as [->|ne].
    + rewrite join_cons by apply splitGo_nonempty.
      rewrite IH. reflexivity.
    + rewrite IH, reverse_cons, append_assoc. reflexivity.
Qed.

Lemma join_split (c : ascii) (s : string) :
  join (String c EmptyString) (split (matchLiteral (String c EmptyString)) s) = s.
Proof. unfold split. now rewrite join_splitGo. Qed.

End ScanFacts.

(* ================================================================== *)
(** * Tokenizer: stems and tokens *)
(* ================================================================== *)

Module StemFacts.

Import JsString Alphabet StringFacts ScanFacts Tokenizer TokenizerFacts.
Local Open Scope string_scope.
Local Open Scope nat_scope.
Local Unset Implicit Arguments.

Lemma length_substring0 (s : string) : forall n,
  String.length (substring 0 n s) = Nat.min n (String.length s).
Proof.
  induction s as [|c s IH]; intros [|n]; simpl; try reflexivity.
  now rewrite IH.
Qed.

Lemma length_dropLast (k : nat) (s : string) :
  String.length (dropLast k s) = String.length s - k.
Proof. unfold dropLast. rewrite length_substring0. lia. Qed.

Lemma allChars_dropLast (p : ascii -> bool) (k : nat) (s : string) :
  allChars p s = true -> allChars p (dropLast k s) = true.
Proof. apply allChars_substring. Qed.

(** What the suffix rules return: the word, the word without its last one,
    two or three characters, or the word with [y] for its last three. *)
Lemma stemSuffix_cases (word : string) :
  stemSuffix word = word
  \/ (exists k, 1 <= k <= 3 /\ k < String.length word /\ stemSuffix word = dropLast k word)
  \/ (4 < String.length word /\ stemSuffix word = dropLast 3 word ++ "y").
Proof.
  unfold stemSuffix.
  destruct (String.length word <=? 2); [now left|].
  destruct (endsWith word "ing" && (5 <? String.length word)) eqn:Hing.
  - apply andb_true_iff in Hing. destruct Hing as [_ Hlen]. apply Nat.ltb_lt in Hlen.
    destruct (existsChar isVowel (dropLast 3 word)).
    + right. left. exists 3. repeat split; lia.
    + clear Hlen.
      destruct (endsWith word "ed" && (4 <? String.length word)) eqn:Hed.
      * apply andb_true_iff in Hed. destruct Hed as [_ Hlen]. apply Nat.ltb_lt in Hlen.
        destruct (existsChar isVowel (dropLast 2 word)).
        -- right. left. exists 2. repeat split; lia.
        -- destruct (endsWith word "ly" && (4 <? String.length word)) eqn:Hly;
             [right; left; exists 2; repeat split; lia|].
           destruct (endsWith word "ies" && (4 <? String.length word)) eqn:Hies;
             [right; right; split; [lia | reflexivity]|].
           destruct (endsWith word "es" && (3 <? String.length word)) eqn:Hes;
             [right; left; exists 2; repeat split; lia|].
           destruct (endsWith word "s" && negb (endsWith word "ss")
                     && (3 <? String.length word)) eqn:Hs;
             [right; left; exists 1; repeat split; lia | now left].
      * destruct (endsWith word "ly" && (4 <? String.length word)) eqn:Hly.
        { apply andb_true_iff in Hly. destruct Hly as [_ Hlen]. apply Nat.ltb_lt in Hlen.
          right. left. exists 2. repeat split; lia. }
        destruct (endsWith word "ies" && (4 <? String.length word)) eqn:Hies.
        { apply andb_true_iff in Hies. destruct Hies as [_ Hlen]. apply Nat.ltb_lt in Hlen.
          right. right. split; [lia | reflexivity]. }
        destruct (endsWith word "es" && (3 <? String.length word)) eqn:Hes.
        { apply andb_true_iff in Hes. destruct Hes as [_ Hlen]. apply Nat.ltb_lt in Hlen.
          right. left. exists 2. repeat split; lia. }
        destruct (endsWith word "s" && negb (endsWith word "ss")
                  && (3 <? String.length word)) eqn:Hs; [|now left].
        apply andb_true_iff in Hs. destruct Hs as [_ Hlen]. apply Nat.ltb_lt in Hlen.
        right. left. exists 1. repeat split; lia.
  - destruct (endsWith word "ed" && (4 <? String.length word)) eqn:Hed.
    + apply andb_true_iff in Hed. destruct Hed as [_ Hlen]. apply Nat.ltb_lt in Hlen.
      destruct (existsChar isVowel (dropLast 2 word)).
      * right. left. exists 2. repeat split; lia.
      * destruct (endsWith word "ly" && (4 <? String.length word)) eqn:Hly;
          [right; left; exists 2; repeat split; lia|].
        destruct (endsWith word "ies" && (4 <? String.length word)) eqn:Hies;
          [right; right; split; [lia | reflexivity]|].
        destruct (endsWith word "es" && (3 <? String.length word)) eqn:Hes;
          [right; left; exists 2; repeat split; lia|].
        destruct (endsWith word "s" && negb (endsWith word "ss")
                  && (3 <? String.length word)) eqn:Hs;
          [right; left; exists 1; repeat split; lia | now left].
    + destruct (endsWith word "ly" && (4 <? String.length word)) eqn:Hly.
      { apply andb_true_iff in Hly. destruct Hly as [_ Hlen]. apply Nat.ltb_lt in Hlen.
        right. left. exists 2. repeat split; lia. }
      destruct (endsWith word "ies" && (4 <? String.length word)) eqn:Hies.
      { apply andb_true_iff in Hies. destruct Hies as [_ Hlen]. apply Nat.ltb_lt in Hlen.
        right. right. split; [lia | reflexivity]. }
      destruct (endsWith word "es" && (3 <? String.length word)) eqn:Hes.
      { apply andb_true_iff in Hes. destruct Hes as [_ Hlen]. apply Nat.ltb_lt in Hlen.
        right. left. exists 2. repeat split; lia. }
      destruct (endsWith word "s" && negb (endsWith word "ss")
                && (3 <? String.length word)) eqn:Hs; [|now left].
      apply andb_true_iff in Hs. destruct Hs as [_ Hlen]. apply Nat.ltb_lt in Hlen.
      right. left. exists 1. repeat split; lia.
Qed.

Lemma stemSuffix_length (word : string) :
  String.length (stemSuffix word) <= String.length word
  /\ (1 <= String.length word -> 1 <= String.length (stemSuffix word)).
Proof.
  destruct (stemSuffix_cases word) as [-> | [(k & Hk & Hlt & ->) | (Hlen & ->)]].
  - lia.
  - rewrite length_dropLast. lia.
  - rewrite length_append, length_dropLast. simpl. lia.
Qed.

Lemma stemSuffix_allChars (p : ascii -> bool) (word : string) :
  p "y"%char = true -> allChars p word = true -> allChars p (stemSuffix word) = true.
Proof.
  intros Hy Hw.
  destruct (stemSuffix_cases word) as [-> | [(k & Hk & Hlt & ->) | (Hlen & ->)]].
  - exact Hw.
  - now apply allChars_dropLast.
  - rewrite allChars_append, allChars_dropLast by exact Hw.
    rewrite allChars_cons, Hy. reflexivity.
Qed.

Lemma length_join_le (sep : string) (f : string -> string) (parts : list string) :
  (forall part, String.length (f part) <= String.length part) ->
  String.length (join sep (map f parts)) <= String.length (join sep parts).
Proof.
  intro Hf. induction parts as [|part rest IH]; [simpl; lia|].
  destruct rest as [|part' rest].
  - simpl. apply Hf.
  - cbn [map] in IH |- *.
    rewrite (join_cons sep (f part)), (join_cons sep part) by discriminate.
    rewrite !length_append. specialize (Hf part). lia.
Qed.

Lemma allChars_join (p : ascii -> bool) (sep : string) (parts : list string) :
  allChars p sep = true -> Forall (fun part => allChars p part = true) parts ->
  allChars p (join sep parts) = true.
Proof.
  intros Hsep. induction 1 as [|part rest Hpart Hrest IH]; [reflexivity|].
  destruct rest as [|part' rest]; [exact Hpart|].
  rewrite join_cons by discriminate. now rewrite !allChars_append, Hpart, Hsep, IH.
Qed.

(** A word with a hyphen splits into at least two parts. *)
Lemma split_hyphen_parts (word : string) :
  includes word "-" = true ->
  2 <= List.length (split (matchLiteral "-") word).
Proof.
  intro H.
  pose proof (join_split "-" word) as Hjoin.
  pose proof (split_literal_free "-" word) as Hfree.
  pose proof (splitGo_nonempty (matchLiteral "-") word None EmptyString 0) as Hne.
  fold (split (matchLiteral "-") word) in Hne.
  destruct (split (matchLiteral "-") word) as [|part [|part' rest]]; [congruence | | simpl; lia].
  simpl in Hjoin. subst part. inversion Hfree as [|? ? Hp _]. congruence.
Qed.

Lemma length_join_parts (sep : string) (parts : list string) :
  (List.length parts - 1) * String.length sep <= String.length (join sep parts).
Proof.
  induction parts as [|part rest IH]; [simpl; lia|].
  destruct rest as [|part' rest]; [simpl; lia|].
  rewrite join_cons by discriminate. rewrite !length_append.
  cbn [List.length] in *. lia.
Qed.

Lemma stemWord_length (word : string) :
  String.length (stemWord word) <= String.length word
  /\ (1 <= String.length word -> 1 <= String.length (stemWord word)).
Proof.
  destruct (includes word "-") eqn:H.
  - rewrite (stemWord_hyphen word H).
    pose proof (split_hyphen_parts word H) as Hparts.
    split.
    + rewrite <- (join_split "-" word) at 2.
      rewrite (map_ext_Forall stemWord stemSuffix).
      * apply length_join_le. intro part. apply stemSuffix_length.
      * eapply Forall_impl; [|apply (split_literal_free "-" word)].
        intros part Hpart. now apply stemWord_plain.
    + intros _.
      pose proof (length_join_parts "-" (map stemWord (split (matchLiteral "-") word))) as Hl.
      rewrite length_map in Hl. simpl String.length in Hl. lia.
  - rewrite (stemWord_plain word H). apply stemSuffix_length.
Qed.

Lemma stemWord_allChars (p : ascii -> bool) (word : string) :
  p "y"%char = true -> p "-"%char = true ->
  allChars p word = true -> allChars p (stemWord word) = true.
Proof.
  intros Hy Hh Hw. destruct (includes word "-") eqn:H.
  - rewrite (stemWord_hyphen word H). apply allChars_join.
    + now rewrite allChars_cons, Hh.
    + apply Forall_map.
      pose proof (split_allChars (matchLiteral "-") p word Hw) as Hparts.
      pose proof (split_literal_free "-" word) as Hfree.
      rewrite Forall_forall in *. intros part Hin.
      rewrite (stemWord_plain part (Hfree part Hin)).
      apply stemSuffix_allChars; [exact Hy | now apply Hparts].
  - rewrite (stemWord_plain word H). now apply stemSuffix_allChars.
Qed.

End StemFacts.

Module StemWordFacts.

Import JsString Alphabet StringFacts ScanFacts Tokenizer TokenizerFacts StemFacts.
Local Open Scope string_scope.
Local Open Scope nat_scope.
Local Unset Implicit Arguments.

(** X1. [stemWord] never makes a word longer and never makes a word that is
    not empty empty; on a word without a hyphen it returns the word, the
    word without its last one, two or three characters, or the word with
    [y] in place of its last three characters. *)
Theorem stemWord_shortens (word : string) :
  String.length (stemWord word) <= String.length word
  /\ (word <> EmptyString -> stemWord word <> EmptyString)
  /\ (includes word "-" = false ->
      stemWord word = word
      \/ (exists k, 1 <= k <= 3 /\ k < String.length word
                    /\ stemWord word = dropLast k word)
      \/ (4 < String.length word /\ stemWord word = dropLast 3 word ++ "y")).
Proof.
  destruct (stemWord_length word) as [Hle Hne].
  split; [exact Hle|]. split.
  - intros Hw E. rewrite E in Hne. simpl in Hne.
    assert (1 <= String.length word) by (destruct word; [congruence | simpl; lia]).
    specialize (Hne H). lia.
  - intro H. rewrite (stemWord_plain word H). apply stemSuffix_cases.
Qed.

Lemma prefix_short (o : string) : forall x r,
  String.length o <= String.length x -> prefix o x = false -> prefix o (x ++ r) = false.
Proof.
  induction o as [|c o IH]; intros x r Hl Hp; [destruct x; discriminate Hp|].
  destruct x as [|d x]; [simpl in Hl; lia|].
  simpl in *. destruct (ascii_dec c d); [|reflexivity].
  apply IH; [lia | exact Hp].
Qed.

Lemma prefix_cut (o : string) : forall y n,
  prefix o y = true -> prefix (substring 0 n o) y = true.
Proof.
  induction o as [|c o IH]; intros y n Hp.
  - destruct n; exact Hp.
  - destruct y as [|d y]; [discriminate Hp|].
    destruct n as [|n]; [reflexivity|].
    simpl in *. destruct (ascii_dec c d); [now apply IH | discriminate Hp].
Qed.

(** A word does not end in [other] when one of the last [n] characters of
    its ending [suffix] differs from that of [other]. *)
Lemma endsWith_other (stem suffix other : string) (n : nat) :
  prefix (substring 0 n (reverse other)) (reverse suffix) = false ->
  n <= String.length suffix ->
  endsWith (stem ++ suffix) other = false.
Proof.
  intros Hp Hn. unfold endsWith. rewrite reverse_append.
  destruct (prefix (reverse other) (reverse suffix ++ reverse stem)) eqn:E; [|reflexivity].
  apply (prefix_cut _ _ n) in E. rewrite prefix_short in E; [discriminate E | | exact Hp].
  rewrite length_substring0, !length_reverse. lia.
Qed.

(** X2. The suffix rules behind the first: a word without a hyphen that
    ends in [ed], has more than four characters and a vowel before the
    [ed], loses the [ed]; one of more than four characters that ends in
    [ly] loses the [ly]; one of more than four characters that ends in
    [ies] gets [y] for the [ies]; and a word that ends in [ss] is returned
    as it is. *)
Theorem stemWord_suffix_rules (stem : string) :
  includes stem "-" = false ->
  (2 < String.length stem -> existsChar isVowel stem = true ->
   stemWord (stem ++ "ed") = stem)
  /\ (2 < String.length stem -> stemWord (stem ++ "ly") = stem)
  /\ (1 < String.length stem -> stemWord (stem ++ "ies") = stem ++ "y")
  /\ stemWord (stem ++ "ss") = stem ++ "ss".
Proof.
  intro Hfree.
  assert (Hplain : forall suffix, includes suffix "-" = false ->
                     stemWord (stem ++ suffix) = stemSuffix (stem ++ suffix)).
  { intros suffix Hs. apply stemWord_plain. unfold includes in *.
    now rewrite existsChar_append, Hfree, Hs. }
  split; [|split; [|split]].
  - intros Hlen Hvowel. rewrite Hplain by reflexivity. unfold stemSuffix.
    rewrite length_append. cbn [String.length].
    replace (String.length stem + 2 <=? 2) with false by (symmetry; apply Nat.leb_gt; lia).
    rewrite (endsWith_other stem "ed" "ing" 2) by (try reflexivity; simpl; lia).
    cbn [andb]. rewrite endsWith_append.
    replace (4 <? String.length stem + 2) with true by (symmetry; apply Nat.ltb_lt; lia).
    cbn [andb]. rewrite (dropLast_append stem "ed" : dropLast 2 (stem ++ "ed") = stem).
    now rewrite Hvowel.
  - intros Hlen. rewrite Hplain by reflexivity. unfold stemSuffix.
    rewrite length_append. cbn [String.length].
    replace (String.length stem + 2 <=? 2) with false by (symmetry; apply Nat.leb_gt; lia).
    rewrite (endsWith_other stem "ly" "ing" 2) by (try reflexivity; simpl; lia).
    rewrite (endsWith_other stem "ly" "ed" 2) by (try reflexivity; simpl; lia).
    cbn [andb]. rewrite endsWith_append.
    replace (4 <? String.length stem + 2) with true by (symmetry; apply Nat.ltb_lt; lia).
    cbn [andb]. apply (dropLast_append stem "ly").
  - intros Hlen. rewrite Hplain by reflexivity. unfold stemSuffix.
    rewrite length_append. cbn [String.length].
    replace (String.length stem + 3 <=? 2) with false by (symmetry; apply Nat.leb_gt; lia).
    rewrite (endsWith_other stem "ies" "ing" 2) by (try reflexivity; simpl; lia).
    rewrite (endsWith_other stem "ies" "ed" 2) by (try reflexivity; simpl; lia).
    rewrite (endsWith_other stem "ies" "ly" 2) by (try reflexivity; simpl; lia).
    cbn [andb]. rewrite endsWith_append.
    replace (4 <? String.length stem + 3) with true by (symmetry; apply Nat.ltb_lt; lia).
    cbn [andb]. now rewrite (dropLast_append stem "ies" : dropLast 3 (stem ++ "ies") = stem).
  - rewrite Hplain by reflexivity. unfold stemSuffix.
    rewrite (endsWith_other stem "ss" "ing" 2) by (try reflexivity; simpl; lia).
    rewrite (endsWith_other stem "ss" "ed" 2) by (try reflexivity; simpl; lia).
    rewrite (endsWith_other stem "ss" "ly" 2) by (try reflexivity; simpl; lia).
    rewrite (endsWith_other stem "ss" "ies" 2) by (try reflexivity; simpl; lia).
    rewrite (endsWith_other stem "ss" "es" 2) by (try reflexivity; simpl; lia).
    rewrite (endsWith_append stem "ss").
    cbn [andb negb]. rewrite andb_false_r. cbn [andb].
    now destruct (String.length (stem ++ "ss") <=? 2).
Qed.

End StemWordFacts.

Module TokenFacts.

Import JsString Alphabet StringFacts ScanFacts Tokenizer TokenizerFacts StemFacts.
Local Open Scope string_scope.
Local Open Scope nat_scope.
Local Unset Implicit Arguments.

Lemma mapChars_mapChars (f g : ascii -> ascii) (s : string) :
  mapChars f (mapChars g s) = mapChars (fun c => f (g c)) s.
Proof. induction s as [|c s IH]; simpl; [reflexivity | now rewrite IH]. Qed.

(** After lower-casing and the removal of punctuation a character is a
    token character or white space. *)
Lemma stripped_char (c : ascii) :
  isTokenChar (stripPunctuation (toLowerChar c))
  || isWhiteSpace (stripPunctuation (toLowerChar c)) = true.
Proof. destruct c as [[] [] [] [] [] [] [] []]; vm_compute; reflexivity. Qed.

Lemma allChars_without (p q : ascii -> bool) (s : string) :
  allChars (fun c => p c || q c) s = true -> existsChar q s = false ->
  allChars p s = true.
Proof.
  induction s as [|c s IH]; intros Hpq Hq; [reflexivity|].
  rewrite allChars_cons in *. simpl in Hq. apply orb_false_iff in Hq.
  destruct Hq as [Hqc Hqs]. apply andb_true_iff in Hpq. destruct Hpq as [Hc Hs].
  rewrite Hqc, orb_false_r in Hc. now rewrite Hc, IH.
Qed.

Lemma nonEmpty_length (s : string) : nonEmpty s = true <-> 1 <= String.length s.
Proof.
  unfold nonEmpty. rewrite negb_true_iff, Nat.eqb_neq. lia.
Qed.

Section Tokens.

Variable STOPWORDS : list string.

(** The words of a sentence before stemming. *)
Lemma words_alphabet (sentence : string) :
  Forall (fun w => 1 <= String.length w /\ allChars isTokenChar w = true)
         (filter nonEmpty
            (map trim
               (split (matchRun isWhiteSpace)
                  (mapChars stripPunctuation (toLowerCase (expandContractions sentence)))))).
Proof.
  apply Forall_forall. intros w Hw. apply filter_In in Hw. destruct Hw as [Hin Hne].
  split; [now apply nonEmpty_length|].
  apply in_map_iff in Hin. destruct Hin as (piece & <- & Hpiece).
  apply allChars_trim.
  unfold toLowerCase in Hpiece. rewrite mapChars_mapChars in Hpiece.
  set (text := mapChars _ _) in Hpiece.
  assert (Htext : allChars (fun c => isTokenChar c || isWhiteSpace c) text = true).
  { apply allChars_mapChars. intro c. apply stripped_char. }
  pose proof (split_allChars (matchRun isWhiteSpace) _ text Htext) as Hall.
  pose proof (split_run_free isWhiteSpace text) as Hfree.
  rewrite Forall_forall in Hall, Hfree.
  apply (allChars_without isTokenChar isWhiteSpace); [now apply Hall | now apply Hfree].
Qed.

(** X3. Every token that [tokenizeWords] returns is not empty and is made
    of the characters [a-z], [0-9], [_] and [-] alone; with stop word
    removal the tokens are those of the call without it that are not stop
    words, in the same order. *)
Theorem tokenizeWords_tokens (sentence : string) (removeStopwords : bool) :
  Forall (fun token => token <> EmptyString /\ allChars isTokenChar token = true)
         (tokenizeWords STOPWORDS sentence removeStopwords)
  /\ tokenizeWords STOPWORDS sentence true
     = filter (fun token => negb (STOPWORDS_has STOPWORDS token))
              (tokenizeWords STOPWORDS sentence false)
  /\ Forall (fun token => STOPWORDS_has STOPWORDS token = false)
            (tokenizeWords STOPWORDS sentence true).
Proof.
  assert (Hstems : Forall (fun token => token <> EmptyString
                                        /\ allChars isTokenChar token = true)
                          (tokenizeWords STOPWORDS sentence false)).
  { unfold tokenizeWords. apply Forall_map.
    eapply Forall_impl; [|apply words_alphabet].
    intros w [Hlen Hall]. split.
    - intro E. destruct (stemWord_length w) as [_ Hne]. specialize (Hne Hlen).
      rewrite E in Hne. simpl in Hne. lia.
    - now apply stemWord_allChars. }
  split; [|split].
  - destruct removeStopwords; [|exact Hstems].
    apply Forall_forall. intros token Hin.
    rewrite Forall_forall in Hstems. apply Hstems.
    unfold tokenizeWords in *. now apply filter_In in Hin.
  - reflexivity.
  - apply Forall_forall. intros token Hin. unfold tokenizeWords in Hin.
    apply filter_In in Hin. now apply negb_true_iff.
Qed.

End Tokens.

(** ** Sentences *)

Lemma reverse_involutive (s : string) : reverse (reverse s) = s.
Proof.
  induction s as [|c s IH]; [reflexivity|].
  rewrite reverse_cons, reverse_append, IH. reflexivity.
Qed.

Lemma trimStart_head (s : string) :
  match firstChar (trimStart s) with
  | Some c => isWhiteSpace c = false
  | None => trimStart s = EmptyString
  end.
Proof.
  induction s as [|c s IH]; [reflexivity|].
  simpl. destruct (isWhiteSpace c) eqn:Hc; [exact IH | simpl; exact Hc].
Qed.

(** [trimStart] removes a prefix. *)
Lemma trimStart_suffix (s : string) : exists w, s = w ++ trimStart s.
Proof.
  induction s as [|c s [w IH]]; [now exists EmptyString|].
  simpl. destruct (isWhiteSpace c).
  - exists (String c w). simpl. now rewrite <- IH.
  - now exists EmptyString.
Qed.

Lemma firstChar_append (a b : string) :
  a <> EmptyString -> firstChar (a ++ b) = firstChar a.
Proof. destruct a; [congruence | reflexivity]. Qed.

Lemma trim_isTrimmed (s : string) : isTrimmed (trim s) = true.
Proof.
  unfold trim, trimEnd, isTrimmed, lastChar.
  set (t := trimStart s).
  set (u := trimStart (reverse t)).
  rewrite reverse_involutive.
  pose proof (trimStart_head (reverse t)) as Hu. fold u in Hu.
  destruct (firstChar u) as [b|] eqn:Eb.
  - assert (Hne : reverse u <> EmptyString).
    { intro E. apply (f_equal reverse) in E. rewrite reverse_involutive in E.
      rewrite E in Eb. discriminate Eb. }
    destruct (trimStart_suffix (reverse t)) as [w Hw]. fold u in Hw.
    apply (f_equal reverse) in Hw. rewrite reverse_involutive, reverse_append in Hw.
    pose proof (trimStart_head s) as Ht. fold t in Ht.
    rewrite Hw, (firstChar_append _ _ Hne) in Ht.
    destruct (firstChar (reverse u)) as [a|]; [|reflexivity].
    now rewrite Ht, Hu.
  - rewrite Hu. reflexivity.
Qed.

(** X4. Every sentence that [splitSentences] returns is not empty and has
    no white space at its beginning or its end. *)
Theorem splitSentences_trimmed (text : string) :
  Forall (fun sentence => sentence <> EmptyString /\ isTrimmed sentence = true)
         (splitSentences text).
Proof.
  unfold splitSentences. apply Forall_forall. intros sentence Hin.
  apply filter_In in Hin. destruct Hin as [Hin Hne]. split.
  - intro E. rewrite E in Hne. discriminate Hne.
  - apply in_map_iff in Hin. destruct Hin as (piece & <- & _). apply trim_isTrimmed.
Qed.

End TokenFacts.

(* ================================================================== *)
(** * Tokenizer: a text without a sentence end *)
(* ================================================================== *)

Module UnterminatedFacts.

Import JsString Alphabet Tokenizer StringFacts.
Local Unset Implicit Arguments.
Local Open Scope string_scope.
Local Open Scope nat_scope.

Lemma replaceGo_unmatched (matchAt : option ascii -> string -> option nat)
      (replacement : string -> string) (p : ascii -> bool) :
  (forall prev s, existsChar p s = false -> matchAt prev s = None) ->
  forall s prev, existsChar p s = false -> replaceGo matchAt replacement prev 0 s = s.
Proof.
  intros Hnone. induction s as [|c s IH]; intros prev Hs; [reflexivity|].
  cbn [replaceGo]. rewrite (Hnone prev _ Hs).
  simpl in Hs. apply orb_false_iff in Hs. now rewrite (IH _ (proj2 Hs)).
Qed.

Lemma splitGo_unmatched (matchAt : option ascii -> string -> option nat)
      (p : ascii -> bool) :
  (forall prev s, behind p prev -> matchAt prev s = None) ->
  forall s prev piece,
    behind p prev -> existsChar p s = false ->
    splitGo matchAt prev piece 0 s = [revAppend piece s].
Proof.
  intros Hnone. induction s as [|c s IH]; intros prev piece Hprev Hs; [reflexivity|].
  cbn [splitGo]. rewrite (Hnone prev _ Hprev).
  simpl in Hs. apply orb_false_iff in Hs.
  rewrite (IH (Some c) (String c piece) (proj1 Hs) (proj2 Hs)). reflexivity.
Qed.

Lemma existsChar_span (p q : ascii -> bool) (s : string) :
  existsChar p s = false -> existsChar p (snd (span q s)) = false.
Proof.
  induction s as [|c s IH]; intro H; [reflexivity|].
  simpl. destruct (q c); [|exact H].
  simpl in H. apply orb_false_iff in H.
  specialize (IH (proj2 H)). now destruct (span q s).
Qed.

Lemma matchAbbreviation_period (prev : option ascii) (s : string) :
  existsChar isTerminator s = false -> matchAbbreviation prev s = None.
Proof.
  destruct s as [|c s1]; [reflexivity|]. intro H.
  simpl in H. apply orb_false_iff in H. destruct H as [_ H].
  apply (existsChar_span _ isLowerAZ) in H.
  unfold matchAbbreviation. destruct (isUpperAZ c); [|reflexivity].
  destruct (span isLowerAZ s1) as [lows rest]. cbn [snd] in H.
  destruct lows; [reflexivity|].
  destruct rest as [|r rest]; [reflexivity|].
  simpl in H. apply orb_false_iff in H. destruct H as [Hr _].
  destruct r as [[] [] [] [] [] [] [] []]; try reflexivity; discriminate.
Qed.

Lemma matchBoundary_behind (prev : option ascii) (s : string) :
  behind isTerminator prev -> matchBoundary prev s = None.
Proof.
  destruct prev as [c|]; [|reflexivity]. simpl. intro H. now rewrite H.
Qed.

Lemma matchLiteral_first (c : ascii) (lit : string) (prev : option ascii) (s : string) :
  existsChar (Ascii.eqb c) s = false -> matchLiteral (String c lit) prev s = None.
Proof.
  destruct s as [|d s]; [reflexivity|]. simpl. intro H.
  apply orb_false_iff in H. destruct H as [H _].
  unfold matchLiteral. simpl.
  destruct (ascii_dec c d) as [->|ne]; [now rewrite Ascii.eqb_refl in H | reflexivity].
Qed.

(** X5. A text without [.], [!] and [?] is not split: the only sentence is
    the text with the marker of a protected period turned into a period
    and the white space at its ends removed, and there is no sentence when
    that is empty.  Without an underscore the sentence is the trimmed text
    itself. *)
Theorem splitSentences_unterminated (text : string) :
  existsChar isTerminator text = false ->
  splitSentences text
  = filter nonEmpty [trim (replaceAll (matchLiteral "_PERIOD_") (fun _ => ".") text)]
  /\ (includes text "_" = false -> splitSentences text = filter nonEmpty [trim text]).
Proof.
  intro H.
  assert (Hsplit : splitSentences text
                   = filter nonEmpty
                       [trim (replaceAll (matchLiteral "_PERIOD_") (fun _ => ".") text)]).
  { unfold splitSentences.
    change (replaceAll matchAbbreviation protectPeriod text)
      with (replaceGo matchAbbreviation protectPeriod None 0 text).
    rewrite (replaceGo_unmatched _ _ isTerminator matchAbbreviation_period text None H).
    unfold split.
    rewrite (splitGo_unmatched _ isTerminator matchBoundary_behind text None EmptyString I H).
    reflexivity. }
  split; [exact Hsplit|]. intro Hu. rewrite Hsplit. unfold replaceAll.
  rewrite (replaceGo_unmatched _ _ (Ascii.eqb "_")
             (fun prev s => matchLiteral_first "_" "PERIOD_" prev s) text None Hu).
  reflexivity.
Qed.

End UnterminatedFacts.


(* ================================================================== *)
(** * TextRank: the similarity graph *)
(* ================================================================== *)

Module GraphFacts.

Import Number JsString TextRank TokenSets Rounding RoundingFacts SimilarityFacts.
Local Unset Implicit Arguments.

Lemma nth_map_seq (A : Type) (f : nat -> A) (n i : nat) (d : A) :
  i < n -> nth i (map f (seq 0 n)) d = f i.
Proof.
  intro Hi. rewrite (nth_indep _ d (f 0)) by (now rewrite length_map, length_seq).
  rewrite map_nth, seq_nth by exact Hi. reflexivity.
Qed.

Lemma addAll_In (words set : list string) (w : string) :
  In w (addAll set words) <-> In w set \/ In w words.
Proof.
  revert set. induction words as [|x rest IH]; intros set; simpl; [tauto|].
  destruct (has set x) eqn:Hx; rewrite IH.
  - apply has_In in Hx. split; [tauto|]. intros [H|[<-|H]]; tauto.
  - rewrite in_app_iff. simpl. tauto.
Qed.

Lemma newSet_In (words : list string) (w : string) : In w (newSet words) <-> In w words.
Proof. unfold newSet. rewrite addAll_In. simpl. tauto. Qed.

Lemma common_In (words1 words2 : list string) (w : string) :
  In w (common words1 words2) <-> In w words1 /\ In w words2.
Proof. unfold common. now rewrite newSet_In, filter_In, has_In. Qed.

Local Open Scope Z_scope.
Local Abbreviation W := 2200 (only parsing).

Local Ltac big :=
  let P := fresh "P" in let Q := fresh "Q" in let R := fresh "R" in
  set (P := 2 ^ 2200) in *; set (Q := 2 ^ (106 + 2200)) in *;
  set (R := 2 ^ (-106 + 2200)) in *.

Lemma denominator_upper a b :
  (1 <= a)%nat -> Z.of_nat a < 2 ^ 53 -> (1 <= b)%nat -> Z.of_nat b < 2 ^ 53 ->
  units (mul (Math_sqrt (of_nat a)) (Math_sqrt (of_nat b))) <= 2 ^ (106 + W).
Proof.
  intros Ha1 Ha Hb1 Hb.
  destruct (sqrt_count a Ha1 Ha) as [Hga Hua].
  destruct (sqrt_count b Hb1 Hb) as [Hgb Hub].
  pose proof (pow2_pos W ltac:(lia)) as HW.
  destruct (pow2_good 106 ltac:(lia)) as [Hgh Huh].
  destruct (mul_sandwich (Math_sqrt (of_nat a)) (Math_sqrt (of_nat b)) one (dyadic 1 106)
              Hga Hgb good_one Hgh) as [Hg Hu].
  - rewrite units_one, Huh. split.
    + apply Z.mul_le_mono_nonneg; (big; lia).
    + rewrite (pow2_split 106 W) by (big; lia). change (2 ^ 106) with (2 ^ 53 * 2 ^ 53).
      set (P := 2 ^ W) in *. set (Q := 2 ^ 53) in *.
      assert (units (Math_sqrt (of_nat a)) <= Q * P)
        by (etransitivity; [apply Hua | apply Z.mul_le_mono_nonneg_r; (big; lia)]).
      assert (units (Math_sqrt (of_nat b)) <= Q * P)
        by (etransitivity; [apply Hub | apply Z.mul_le_mono_nonneg_r; (big; lia)]).
      replace (Q * Q * P * P) with ((Q * P) * (Q * P)) by ring.
      apply Z.mul_le_mono_nonneg; (big; lia).
  - rewrite Huh in Hu. exact (proj2 Hu).
Qed.

(** With no common word the quotient is 0, with one it is above 0. *)
Lemma cosine_sign i a b :
  Z.of_nat i < 2 ^ 53 ->
  (1 <= a)%nat -> Z.of_nat a < 2 ^ 53 -> (1 <= b)%nat -> Z.of_nat b < 2 ^ 53 ->
  (i = 0%nat -> cosine i a b = zero)
  /\ ((1 <= i)%nat -> 0 < units (cosine i a b)).
Proof.
  intros Hi Ha1 Ha Hb1 Hb.
  destruct (denominator_good a b Ha1 Ha Hb1 Hb) as [Hgd Hud].
  pose proof (denominator_upper a b Ha1 Ha Hb1 Hb) as Hupper.
  pose proof (pow2_pos W ltac:(lia)) as HW.
  split.
  - intros ->. unfold cosine.
    destruct (good_cases _ Hgd) as [[s Hs]|(m & e & Hm & _)].
    + rewrite Hs in Hud. cbn [units] in Hud. (big; lia).
    + rewrite Hm. reflexivity.
  - intro Hi1. destruct (of_nat_exact i Hi) as [Hgi Hui].
    destruct (pow2_good (-106) ltac:(lia)) as [Hgl Hul].
    destruct (div_sandwich (of_nat i) _ (dyadic 1 (-106)) (of_nat i) Hgi Hgd ltac:(lia)
                Hgl Hgi) as [Hg Hu].
    + rewrite Hul, Hui. split.
      * apply Z.le_trans with (2 ^ (-106 + W) * 2 ^ (106 + W)).
        -- apply Z.mul_le_mono_nonneg_l; [apply Z.pow_nonneg; (big; lia) | exact Hupper].
        -- rewrite <- (pow2_split (-106 + W) (106 + W)) by (big; lia).
           replace (-106 + W + (106 + W)) with (W + W) by (big; lia).
           rewrite (pow2_split W W) by (big; lia).
           apply Z.mul_le_mono_nonneg_r; [(big; lia)|]. (big; nia).
      * apply Z.mul_le_mono_nonneg_l; [(big; nia) | exact Hud].
    + rewrite Hul in Hu. unfold cosine, div.
      pose proof (pow2_pos (-106 + W) ltac:(lia)). (big; lia).
Qed.

Section Graph.

Variable STOPWORDS : list string.

Local Abbreviation calculateSimilarity := (calculateSimilarity STOPWORDS).
Local Abbreviation tokenizeWords := (Tokenizer.tokenizeWords STOPWORDS).

(** X6. Two sentences have a similarity above 0 exactly when they share a
    token, and a similarity of 0 otherwise. *)
Theorem calculateSimilarity_shared_token (a b : string) :
  JsArray.isArray (tokenizeWords a true) ->
  JsArray.isArray (tokenizeWords b true) ->
  ((exists w, In w (tokenizeWords a true) /\ In w (tokenizeWords b true))
   <-> ltb zero (calculateSimilarity a b) = true)
  /\ ((forall w, In w (tokenizeWords a true) -> ~ In w (tokenizeWords b true))
      -> calculateSimilarity a b = zero).
Proof.
  intros Ha Hb. apply (tokenSet_size STOPWORDS) in Ha, Hb.
  pose proof (common_le (tokenSet STOPWORDS a) (tokenSet STOPWORDS b)
                (tokenSet_NoDup STOPWORDS a)) as Hle.
  assert (Hshare : (exists w, In w (tokenizeWords a true) /\ In w (tokenizeWords b true))
                   <-> (1 <= List.length (common (tokenSet STOPWORDS a)
                                                 (tokenSet STOPWORDS b)))%nat).
  { split.
    - intros (w & Hwa & Hwb).
      assert (Hin : In w (common (tokenSet STOPWORDS a) (tokenSet STOPWORDS b)))
        by (apply common_In; unfold tokenSet; now rewrite !newSet_In).
      destruct (common _ _); [destruct Hin | simpl; lia].
    - intro Hlen.
      destruct (common (tokenSet STOPWORDS a) (tokenSet STOPWORDS b)) as [|w rest] eqn:E;
        [simpl in Hlen; lia|].
      exists w.
      assert (Hin : In w (common (tokenSet STOPWORDS a) (tokenSet STOPWORDS b)))
        by (rewrite E; now left).
      apply common_In in Hin. unfold tokenSet in Hin. now rewrite !newSet_In in Hin. }
  assert (Hval : ((1 <= List.length (common (tokenSet STOPWORDS a) (tokenSet STOPWORDS b)))%nat
                  -> 0 < units (calculateSimilarity a b))
                 /\ (List.length (common (tokenSet STOPWORDS a) (tokenSet STOPWORDS b)) = 0%nat
                     -> calculateSimilarity a b = zero)).
  { rewrite calculateSimilarity_cosine.
    pose proof (common_le (tokenSet STOPWORDS b) (tokenSet STOPWORDS a)
                  (tokenSet_NoDup STOPWORDS b)) as Hle'.
    rewrite <- (common_length (tokenSet STOPWORDS a) (tokenSet STOPWORDS b)) in Hle'
      by apply tokenSet_NoDup.
    destruct ((List.length (tokenSet STOPWORDS a) =? 0)%nat
              || (List.length (tokenSet STOPWORDS b) =? 0)%nat) eqn:E.
    - split; [|reflexivity]. intro H1. apply orb_true_iff in E.
      destruct E as [E|E]; apply Nat.eqb_eq in E; lia.
    - apply orb_false_iff in E. destruct E as [Ea Eb]. apply Nat.eqb_neq in Ea, Eb.
      destruct (cosine_sign
                  (List.length (common (tokenSet STOPWORDS a) (tokenSet STOPWORDS b)))
                  (List.length (tokenSet STOPWORDS a)) (List.length (tokenSet STOPWORDS b))
                  ltac:(lia) ltac:(lia) Ha ltac:(lia) Hb) as [H0 H1].
      split; [exact H1 | exact H0]. }
  destruct Hval as [Hpos Hzero].
  destruct (calculateSimilarity_good STOPWORDS a b Ha Hb) as [Hg _].
  split.
  - rewrite Hshare. unfold ltb. rewrite (ltb_units zero _ (good_zero false) Hg).
    cbn [units zero]. rewrite Z.ltb_lt. split; [exact Hpos|].
    intro H.
    destruct (List.length (common (tokenSet STOPWORDS a) (tokenSet STOPWORDS b))) eqn:E;
      [|lia].
    rewrite (Hzero eq_refl) in H. cbn [units zero] in H. lia.
  - intro Hnone. apply Hzero.
    destruct (common (tokenSet STOPWORDS a) (tokenSet STOPWORDS b)) as [|w rest] eqn:E;
      [reflexivity|].
    exfalso.
    assert (Hin : In w (common (tokenSet STOPWORDS a) (tokenSet STOPWORDS b)))
      by (rewrite E; now left).
    apply common_In in Hin. unfold tokenSet in Hin. rewrite !newSet_In in Hin.
    exact (Hnone w (proj1 Hin) (proj2 Hin)).
Qed.

Local Open Scope nat_scope.

(** X7. The similarity matrix is square, with one row and one column per
    sentence; its diagonal is 0, off the diagonal the entry of row [i] and
    column [j] is the similarity of the sentences [i] and [j], and the
    matrix is symmetric. *)
Theorem buildSimilarityMatrix_symmetric (sentences : list string) :
  List.length (buildSimilarityMatrix STOPWORDS sentences) = List.length sentences
  /\ Forall (fun row => List.length row = List.length sentences)
            (buildSimilarityMatrix STOPWORDS sentences)
  /\ (forall i j, i < List.length sentences -> j < List.length sentences ->
        entry (buildSimilarityMatrix STOPWORDS sentences) i j
        = if i =? j then zero
          else calculateSimilarity (nth i sentences EmptyString)
                                   (nth j sentences EmptyString))
  /\ (forall i j, i < List.length sentences -> j < List.length sentences ->
        entry (buildSimilarityMatrix STOPWORDS sentences) i j
        = entry (buildSimilarityMatrix STOPWORDS sentences) j i).
Proof.
  assert (Hentry : forall i j, i < List.length sentences -> j < List.length sentences ->
            entry (buildSimilarityMatrix STOPWORDS sentences) i j
            = if i =? j then zero
              else calculateSimilarity (nth i sentences EmptyString)
                                       (nth j sentences EmptyString)).
  { intros i j Hi Hj. unfold entry, buildSimilarityMatrix.
    rewrite (nth_map_seq _ _ _ _ _ Hi), (nth_map_seq _ _ _ _ _ Hj). reflexivity. }
  split; [unfold buildSimilarityMatrix; now rewrite length_map, length_seq|].
  split.
  - unfold buildSimilarityMatrix. apply Forall_forall. intros row Hrow.
    apply in_map_iff in Hrow. destruct Hrow as (i & <- & _).
    now rewrite length_map, length_seq.
  - split; [exact Hentry|].
    intros i j Hi Hj. rewrite (Hentry i j Hi Hj), (Hentry j i Hj Hi).
    rewrite (Nat.eqb_sym j i). destruct (i =? j); [reflexivity|].
    apply calculateSimilarity_sym.
Qed.

End Graph.

End GraphFacts.

Module TieFacts.

Import Number JsString TextRank TokenSets Rounding RoundingFacts SimilarityFacts.
Local Unset Implicit Arguments.

Lemma add_zero_twice (t : number) : add (add zero t) zero = add zero t.
Proof. destruct t as [[|]|[|]| |[|] m e]; reflexivity. Qed.

Section Tie.

Variable STOPWORDS : list string.
Variable Math_pow : number -> number -> number.

(** The two rows of the normalised matrix of two sentences mirror each
    other. *)
Lemma normalized_pair (s : number) :
  entry (map (normalizeRow 2) [[zero; s]; [s; zero]]) 1 0
  = entry (map (normalizeRow 2) [[zero; s]; [s; zero]]) 0 1.
Proof.
  unfold entry, normalizeRow. cbn [map nth fold_left].
  rewrite add_zero_twice.
  change (add zero zero) with zero.
  destruct (eqb (add zero s) zero); reflexivity.
Qed.

Lemma updateScores_pair (matrix : list (list number)) (x : number) :
  entry matrix 1 0 = entry matrix 0 1 ->
  exists y, updateScores 2 matrix [x; x] = [y; y].
Proof.
  intro Hm. unfold updateScores, newScore. cbn [seq map fold_left Nat.eqb nth].
  rewrite Hm. eexists. reflexivity.
Qed.

Lemma iterate_pair (matrix : list (list number)) (remaining : nat) :
  entry matrix 1 0 = entry matrix 0 1 ->
  forall x, exists y, iterate Math_pow 2 matrix remaining [x; x] = [y; y].
Proof.
  intro Hm. induction remaining as [|remaining IH]; intro x; [now exists x|].
  cbn [iterate]. destruct (updateScores_pair matrix x Hm) as [y ->].
  destruct (ltb _ CONVERGENCE_THRESHOLD); [now exists y | apply IH].
Qed.

(** X8. Two sentences always get the same score: the ranking of a list of
    two sentences is a tie, whatever the sentences are. *)
Theorem rankSentences_pair_tie (a b : string) :
  exists score, rankSentences STOPWORDS Math_pow [a; b] = [score; score].
Proof.
  unfold rankSentences. cbn [List.length Nat.eqb repeat].
  unfold buildSimilarityMatrix. cbn [List.length seq map Nat.eqb nth].
  rewrite (calculateSimilarity_sym STOPWORDS b a).
  apply iterate_pair. apply normalized_pair.
Qed.

End Tie.

End TieFacts.

(* ================================================================== *)
(** * Keyed maps *)
(* ================================================================== *)

Module MapFacts.

Import JsArray.
Local Unset Implicit Arguments.

Section Keyed.

Variables K V : Type.
Variable keyEqb : K -> K -> bool.
Hypothesis keyEqb_spec : forall a b, reflect (a = b) (keyEqb a b).

Implicit Types (m : list (K * V)) (k : K) (v : V).

Lemma get_In m k : (exists v, get keyEqb m k = Some v) <-> In k (map fst m).
Proof.
  induction m as [|[k' v'] m IH]; simpl.
  - split; [intros [v H]; discriminate H | intros []].
  - destruct (keyEqb_spec k k') as [->|ne].
    + split; [now left | intros _; now exists v'].
    + rewrite IH. split; [now right | intros [E|H]; [congruence | exact H]].
Qed.

Lemma get_None m k : get keyEqb m k = None <-> ~ In k (map fst m).
Proof.
  rewrite <- get_In. destruct (get keyEqb m k) as [v|].
  - split; [discriminate | intro H; elim H; now exists v].
  - split; [intros _ [v H]; discriminate H | reflexivity].
Qed.

Lemma get_set m k v k' :
  get keyEqb (set keyEqb m k v) k' = if keyEqb k' k then Some v else get keyEqb m k'.
Proof.
  induction m as [|[k0 v0] m IH]; simpl; [reflexivity|].
  destruct (keyEqb_spec k k0) as [->|ne]; simpl.
  - destruct (keyEqb_spec k' k0); reflexivity.
  - destruct (keyEqb_spec k' k0) as [->|ne'].
    + destruct (keyEqb_spec k0 k); [congruence | reflexivity].
    + exact IH.
Qed.

(** [set] keeps the place of a key that is there and puts a new key last. *)
Lemma keys_set m k v :
  map fst (set keyEqb m k v)
  = if existsb (keyEqb k) (map fst m) then map fst m else (map fst m ++ [k])%list.
Proof.
  induction m as [|[k0 v0] m IH]; simpl; [reflexivity|].
  destruct (keyEqb_spec k k0) as [->|ne]; simpl; [reflexivity|].
  rewrite IH. now destruct (existsb (keyEqb k) (map fst m)).
Qed.

Lemma set_new m k v :
  ~ In k (map fst m) -> set keyEqb m k v = (m ++ [(k, v)])%list.
Proof.
  induction m as [|[k0 v0] m IH]; simpl; [reflexivity|].
  intro H. destruct (keyEqb_spec k k0) as [->|ne]; [elim H; now left|].
  rewrite IH; [reflexivity | tauto].
Qed.

End Keyed.

End MapFacts.

(* ================================================================== *)
(** * Summarizer: records, scores and duplicates *)
(* ================================================================== *)

Module ScoreFacts.

Import Number JsString JsArray Summarizer DocumentOrder Sequences.
Import StringFacts ArrayFacts MapFacts.
Local Unset Implicit Arguments.
Local Open Scope nat_scope.

Lemma nat_eqb_spec (a b : nat) : reflect (a = b) (a =? b).
Proof. apply Nat.eqb_spec. Qed.

Section Scores.

Variable STOPWORDS : list string.
Variable Math_log : number -> number.
Variable Math_pow : number -> number -> number.

Local Abbreviation sentencesWithMetadata := (sentencesWithMetadata STOPWORDS).
Local Abbreviation scoreSentences := (scoreSentences STOPWORDS Math_pow).
Local Abbreviation finalScore := (finalScore STOPWORDS).
Local Abbreviation deduplicateSentences := (deduplicateSentences STOPWORDS).

(** ** The records of the sentences *)

Lemma addSentences_records favor pc pIdx cnt localIdx g sentences :
  map index (addSentences STOPWORDS favor pc pIdx cnt localIdx g sentences)
  = seq g (List.length sentences)
  /\ Forall (fun s => paragraph s = pIdx
                      /\ wordCount s
                         = List.length (Tokenizer.tokenizeWords STOPWORDS (text s) false))
            (addSentences STOPWORDS favor pc pIdx cnt localIdx g sentences).
Proof.
  revert localIdx g. induction sentences as [|t rest IH]; intros localIdx g; simpl.
  - split; [reflexivity | constructor].
  - destruct (IH (S localIdx) (S g)) as [H1 H2]. split; [now rewrite H1|].
    constructor; [split; reflexivity | exact H2].
Qed.

Lemma addParagraphs_records favor pc pIdx g paragraphs :
  map index (addParagraphs STOPWORDS favor pc pIdx g paragraphs)
  = seq g (List.length (addParagraphs STOPWORDS favor pc pIdx g paragraphs))
  /\ map text (addParagraphs STOPWORDS favor pc pIdx g paragraphs)
     = List.concat (map Tokenizer.splitSentences paragraphs)
  /\ Forall (fun s => pIdx <= paragraph s < pIdx + List.length paragraphs
                      /\ wordCount s
                         = List.length (Tokenizer.tokenizeWords STOPWORDS (text s) false))
            (addParagraphs STOPWORDS favor pc pIdx g paragraphs).
Proof.
  revert pIdx g. induction paragraphs as [|p rest IH]; intros pIdx g; simpl.
  - repeat split; constructor.
  - destruct (IH (S pIdx) (g + List.length (Tokenizer.splitSentences p))) as (H1 & H2 & H3).
    destruct (addSentences_records favor pc pIdx
                (List.length (Tokenizer.splitSentences p)) 0 g
                (Tokenizer.splitSentences p)) as [S1 S2].
    split; [|split].
    + rewrite map_app, length_app, seq_app, S1, H1.
      now rewrite SummarizerFacts.addSentences_length.
    + now rewrite map_app, SummarizerFacts.addSentences_texts, H2.
    + apply Forall_app. split.
      * eapply Forall_impl; [|exact S2]. simpl. intros s [Hp Hw]. split; [lia | exact Hw].
      * eapply Forall_impl; [|exact H3]. simpl. intros s [Hp Hw]. split; [lia | exact Hw].
Qed.

(** X9. The records that [summarize] builds number the sentences 0, 1, 2,
    ... through the paragraphs; their texts are the sentences of the
    paragraphs in order, the paragraph number of a record is below the
    number of paragraphs, and its word count is the number of tokens of the
    sentence with the stop words kept. *)
Theorem sentencesWithMetadata_records (options : Options) (text : string) :
  map index (sentencesWithMetadata options text)
  = seq 0 (List.length (sentencesWithMetadata options text))
  /\ map Summarizer.text (sentencesWithMetadata options text)
     = List.concat (map Tokenizer.splitSentences (paragraphsOf text))
  /\ Forall (fun s => paragraph s < List.length (paragraphsOf text)
                      /\ wordCount s
                         = List.length (Tokenizer.tokenizeWords STOPWORDS
                                          (Summarizer.text s) false))
            (sentencesWithMetadata options text).
Proof.
  unfold Summarizer.sentencesWithMetadata.
  destruct (addParagraphs_records (favorPositionScore options)
              (List.length (paragraphsOf text)) 0 0 (paragraphsOf text)) as (H1 & H2 & H3).
  split; [exact H1|]. split; [exact H2|].
  eapply Forall_impl; [|exact H3]. simpl. intros s [Hp Hw]. split; [lia | exact Hw].
Qed.

(** ** scoreSentences *)

Lemma scoreFrom_spec tfIdfScores ranks (sentences : list SentenceWithMetadata) :
  forall idx scores,
    NoDup (map fst scores ++ map index sentences) ->
    map fst (scoreFrom STOPWORDS tfIdfScores ranks idx sentences scores)
    = (map fst scores ++ map index sentences)%list
    /\ (forall k v, get Nat.eqb scores k = Some v ->
          get Nat.eqb (scoreFrom STOPWORDS tfIdfScores ranks idx sentences scores) k = Some v)
    /\ (forall i, i < List.length sentences ->
          forall d,
          get Nat.eqb (scoreFrom STOPWORDS tfIdfScores ranks idx sentences scores)
              (index (nth i sentences d))
          = Some (finalScore tfIdfScores ranks (idx + i) (nth i sentences d))).
Proof.
  induction sentences as [|s rest IH]; intros idx scores Hnd; cbn [scoreFrom].
  - simpl. rewrite app_nil_r. split; [reflexivity|]. split; [auto | intros i Hi; simpl in Hi; lia].
  - cbn [map] in Hnd.
    assert (Hfresh : ~ In (index s) (map fst scores)).
    { intro Hin. apply NoDup_remove_2 in Hnd. apply Hnd.
      apply in_or_app. now left. }
    set (scores' := set Nat.eqb scores (index s) (finalScore tfIdfScores ranks idx s)).
    assert (Hkeys : map fst scores' = (map fst scores ++ [index s])%list).
    { unfold scores'. now rewrite (set_new _ _ Nat.eqb nat_eqb_spec scores _ _ Hfresh), map_app. }
    assert (Hnd' : NoDup (map fst scores' ++ map index rest)).
    { rewrite Hkeys, <- app_assoc. exact Hnd. }
    destruct (IH (S idx) scores' Hnd') as (H1 & H2 & H3).
    split; [|split].
    + rewrite H1, Hkeys, <- app_assoc. reflexivity.
    + intros k v Hk. apply H2. unfold scores'.
      rewrite (get_set _ _ Nat.eqb nat_eqb_spec).
      destruct (Nat.eqb_spec k (index s)) as [->|ne]; [|exact Hk].
      elim Hfresh. apply (get_In _ _ Nat.eqb nat_eqb_spec). now exists v.
    + intros [|i] Hi d.
      * cbn [nth]. rewrite Nat.add_0_r. apply H2. unfold scores'.
        rewrite (get_set _ _ Nat.eqb nat_eqb_spec). now rewrite Nat.eqb_refl.
      * cbn [nth]. replace (idx + S i) with (S idx + i) by lia.
        apply H3. simpl in Hi. lia.
Qed.

(** X10. When the sentences have distinct indices, [scoreSentences] gives
    a map with one entry per sentence, under the index of the sentence and
    in the order of the sentences, and the entry of the sentence at position
    [i] is the weighted sum computed for it from the TextRank score at
    position [i]. *)
Theorem scoreSentences_lookup (sentences : list SentenceWithMetadata)
        (tfIdfScores : list (string * number)) :
  NoDup (map index sentences) ->
  map fst (scoreSentences sentences tfIdfScores) = map index sentences
  /\ (forall i d, i < List.length sentences ->
        get Nat.eqb (scoreSentences sentences tfIdfScores) (index (nth i sentences d))
        = Some (finalScore tfIdfScores
                  (TextRank.rankSentences STOPWORDS Math_pow (map text sentences))
                  i (nth i sentences d))).
Proof.
  intro Hnd. unfold Summarizer.scoreSentences.
  destruct (scoreFrom_spec tfIdfScores
              (TextRank.rankSentences STOPWORDS Math_pow (map text sentences))
              sentences 0 [] Hnd) as (H1 & _ & H3).
  split; [exact H1|]. intros i d Hi. now apply H3.
Qed.

End Scores.

End ScoreFacts.

Module DuplicateFacts.

Import Number JsString JsArray Summarizer DocumentOrder Sequences.
Import StringFacts ArrayFacts.
Local Unset Implicit Arguments.
Local Open Scope nat_scope.

Lemma subsequence_refl (A : Type) (l : list A) : subsequence l l.
Proof. induction l; constructor; assumption. Qed.

Lemma subsequence_incl (A : Type) (l1 l2 : list A) : subsequence l1 l2 -> incl l1 l2.
Proof.
  induction 1 as [|x l1 l2 _ IH|x l1 l2 _ IH]; intros y Hy.
  - exact Hy.
  - right. now apply IH.
  - destruct Hy as [<-|Hy]; [now left | right; now apply IH].
Qed.

Lemma subsequence_length (A : Type) (l1 l2 : list A) :
  subsequence l1 l2 -> List.length l1 <= List.length l2.
Proof. induction 1; simpl; lia. Qed.

Lemma ForallOrdPairs_snoc (A : Type) (R : A -> A -> Prop) (l : list A) (x : A) :
  ForallOrdPairs R l -> Forall (fun a => R a x) l -> ForallOrdPairs R (l ++ [x]).
Proof.
  induction 1 as [|a l Ha Hl IH]; intro Hx; simpl.
  - constructor; constructor.
  - inversion Hx as [|? ? Hax Hlx]; subst. constructor.
    + apply Forall_app. split; [exact Ha | now constructor].
    + now apply IH.
Qed.

Section Duplicates.

Variable STOPWORDS : list string.
Variable threshold : number.

(** [candidate] is too similar to the sentence [selected]. *)
Local Abbreviation similar candidate selected :=
  (ltb threshold (TextRank.calculateSimilarity STOPWORDS (text candidate) (text selected))).

Local Abbreviation step :=
  (fun (result : list SentenceWithMetadata) (candidate : SentenceWithMetadata) =>
     if existsb (fun selected => similar candidate selected) result
     then result else (result ++ [candidate])%list).

Lemma similar_sym (a b : SentenceWithMetadata) : similar a b = similar b a.
Proof. now rewrite SimilarityFacts.calculateSimilarity_sym. Qed.

Lemma deduplicate_spec (candidates : list SentenceWithMetadata) :
  forall result,
  exists extra,
    fold_left step candidates result = (result ++ extra)%list
    /\ subsequence extra candidates
    /\ (ForallOrdPairs (fun a b => similar b a = false) result ->
        ForallOrdPairs (fun a b => similar b a = false) (result ++ extra))
    /\ (forall c, In c candidates ->
          In c extra
          \/ exists k, In k (result ++ extra) /\ similar c k = true).
Proof.
  induction candidates as [|c rest IH]; intro result.
  - exists []. rewrite app_nil_r. simpl. repeat split; [constructor | auto | intros c []].
  - cbn [fold_left].
    destruct (existsb (fun selected => similar c selected) result) eqn:Hdup.
    + destruct (IH result) as (extra & Hfold & Hsub & Hpairs & Hdrop).
      exists extra. split; [exact Hfold|]. split; [now constructor|].
      split; [exact Hpairs|].
      intros x [<-|Hx]; [|now apply Hdrop].
      right. apply existsb_exists in Hdup. destruct Hdup as (k & Hk & Hsim).
      exists k. split; [apply in_or_app; now left | exact Hsim].
    + destruct (IH (result ++ [c])%list) as (extra & Hfold & Hsub & Hpairs & Hdrop).
      exists (c :: extra).
      assert (Happ : ((result ++ [c]) ++ extra = result ++ c :: extra)%list)
        by (now rewrite <- app_assoc).
      rewrite Happ in *.
      split; [exact Hfold|]. split; [now constructor|]. split.
      * intro Hres. apply Hpairs. apply ForallOrdPairs_snoc; [exact Hres|].
        apply Forall_forall. intros a Ha.
        destruct (similar c a) eqn:E; [|reflexivity].
        assert (existsb (fun selected => similar c selected) result = true)
          by (apply existsb_exists; now exists a).
        congruence.
      * intros x [<-|Hx]; [left; now left|].
        destruct (Hdrop x Hx) as [Hin|Hk]; [left; now right | right; exact Hk].
Qed.

(** A list without a pair that is too similar is kept whole. *)
Lemma deduplicate_keeps (candidates : list SentenceWithMetadata) :
  forall result,
    ForallOrdPairs (fun a b => similar b a = false) (result ++ candidates) ->
    fold_left step candidates result = (result ++ candidates)%list.
Proof.
  induction candidates as [|c rest IH]; intros result Hpairs; simpl.
  - now rewrite app_nil_r.
  - replace (existsb (fun selected => similar c selected) result) with false.
    + rewrite IH; rewrite <- app_assoc; [reflexivity | exact Hpairs].
    + symmetry. apply not_true_is_false. intro H.
      apply existsb_exists in H. destruct H as (k & Hk & Hsim).
      clear IH. induction result as [|r result IHr]; [destruct Hk|].
      simpl in Hpairs. inversion Hpairs as [|? ? Hr Hrest]; subst.
      destruct Hk as [<-|Hk]; [|now apply IHr].
      rewrite Forall_forall in Hr.
      specialize (Hr c ltac:(apply in_or_app; right; now left)). congruence.
Qed.

(** X11. [deduplicateSentences] keeps a part of the candidates, in their
    order; no sentence that it keeps is too similar to one kept before it;
    every candidate that it leaves out is too similar to a sentence that it
    keeps; and on its own result it changes nothing. *)
Theorem deduplicateSentences_spec (candidates : list SentenceWithMetadata) :
  subsequence (deduplicateSentences STOPWORDS candidates threshold) candidates
  /\ ForallOrdPairs (fun kept later => similar later kept = false)
                    (deduplicateSentences STOPWORDS candidates threshold)
  /\ (forall c, In c candidates ->
        In c (deduplicateSentences STOPWORDS candidates threshold)
        \/ exists kept, In kept (deduplicateSentences STOPWORDS candidates threshold)
                        /\ similar c kept = true)
  /\ deduplicateSentences STOPWORDS
       (deduplicateSentences STOPWORDS candidates threshold) threshold
     = deduplicateSentences STOPWORDS candidates threshold.
Proof.
  unfold deduplicateSentences.
  destruct (deduplicate_spec candidates []) as (extra & Hfold & Hsub & Hpairs & Hdrop).
  simpl in Hfold, Hpairs, Hdrop.
  change (fold_left step candidates [] = extra) in Hfold.
  assert (Hfold' : fold_left
                     (fun result candidate =>
                        if existsb (fun selected => similar candidate selected) result
                        then result else (result ++ [candidate])%list) candidates []
                   = extra) by exact Hfold.
  rewrite Hfold'.
  split; [exact Hsub|]. split; [apply Hpairs; constructor|]. split; [exact Hdrop|].
  apply (deduplicate_keeps extra []). simpl. apply Hpairs. constructor.
Qed.

End Duplicates.

End DuplicateFacts.

(* ================================================================== *)
(** * Summarizer: TF-IDF *)
(* ================================================================== *)

Module TfIdfFacts.

Import Number JsString JsArray TextRank Summarizer TfIdfSpec Rounding RoundingFacts.
Import MapFacts SimilarityFacts GraphFacts.
Local Unset Implicit Arguments.
Local Open Scope nat_scope.

Lemma string_eqb_spec (a b : string) : reflect (a = b) (String.eqb a b).
Proof. apply String.eqb_spec. Qed.

(** Counting up by one is exact below 2^53. *)
Local Ltac big :=
  let P := fresh "P" in let Q := fresh "Q" in let R := fresh "R" in
  set (P := (2 ^ 2200)%Z) in *; set (Q := (2 ^ (106 + 2200))%Z) in *;
  set (R := (2 ^ (-106 + 2200))%Z) in *.

Lemma add_one_exact (k : nat) :
  (Z.of_nat (S k) < 2 ^ 53)%Z -> add (of_nat k) one = of_nat (S k).
Proof.
  intro Hk.
  destruct (of_nat_exact k ltac:(lia)) as [Hg Hu].
  destruct (of_nat_exact (S k) Hk) as [Hg' Hu'].
  pose proof (pow2_pos 2200 ltac:(lia)) as HW.
  destruct (add_sandwich (of_nat k) one (of_nat (S k)) (of_nat (S k)) Hg good_one Hg' Hg')
    as [Hga Hua].
  - rewrite Hu, Hu', units_one. (big; lia).
  - apply good_units_inj; [exact Hga | exact Hg' | | unfold add; (big; lia)].
    unfold add. rewrite Hu' in Hua. (big; nia).
Qed.

Lemma or_zero_count (k : nat) :
  (Z.of_nat k < 2 ^ 53)%Z ->
  or_zero (if k =? 0 then None else Some (of_nat k)) = of_nat k.
Proof.
  intro Hk. destruct k as [|k]; [reflexivity|]. cbn [Nat.eqb or_zero].
  destruct (of_nat_exact (S k) Hk) as [Hg Hu].
  rewrite (truthy_units _ Hg).
  pose proof (pow2_pos 2200 ltac:(lia)) as HW.
  replace (0 <? units (of_nat (S k)))%Z with true; [reflexivity|].
  symmetry. apply Z.ltb_lt. (big; nia).
Qed.

Lemma occurrences_cons (w x : string) (words : list string) :
  occurrences w (x :: words) = (if String.eqb w x then 1 else 0) + occurrences w words.
Proof. unfold occurrences. simpl. now destruct (String.eqb w x). Qed.

Lemma occurrences_app (w : string) (a b : list string) :
  occurrences w (a ++ b) = occurrences w a + occurrences w b.
Proof. unfold occurrences. now rewrite filter_app, length_app. Qed.

Lemma occurrences_le (w : string) (words : list string) :
  occurrences w words <= List.length words.
Proof. apply filter_length_le. Qed.

Lemma occurrences_In (w : string) (words : list string) :
  1 <= occurrences w words <-> In w words.
Proof.
  induction words as [|x words IH]; [unfold occurrences; simpl; split; [lia | intros []]|].
  rewrite occurrences_cons. simpl. destruct (String.eqb_spec w x) as [->|ne].
  - split; [now left | lia].
  - rewrite <- IH. split; [intro H; right; lia | intros [E|H]; [congruence | lia]].
Qed.

Lemma occurrences_NoDup (w : string) (words : list string) :
  NoDup words -> occurrences w words = if has words w then 1 else 0.
Proof.
  induction 1 as [|x words Hx Hnd IH]; [reflexivity|].
  rewrite occurrences_cons, IH. unfold has in *. simpl.
  destruct (String.eqb_spec w x) as [->|ne]; [|reflexivity].
  simpl. replace (existsb (String.eqb x) words) with false; [reflexivity|].
  symmetry. apply not_true_is_false. intro H. apply Hx. now apply (has_In words x).
Qed.

Lemma has_newSet (words : list string) (w : string) : has (newSet words) w = has words w.
Proof.
  destruct (has words w) eqn:E.
  - apply (proj2 (has_In _ w)). apply (proj2 (newSet_In words w)).
    now apply (proj1 (has_In words w)).
  - apply not_true_is_false. intro H. apply (proj1 (has_In _ w)) in H.
    apply (proj1 (newSet_In words w)) in H.
    apply (proj2 (has_In words w)) in H. congruence.
Qed.

(** ** Counting words *)

Lemma increment_counted (m : list (string * number)) (c : string -> nat) (w : string) :
  counted m c -> (Z.of_nat (S (c w)) < 2 ^ 53)%Z ->
  counted (increment m w) (fun x => (if String.eqb x w then 1 else 0) + c x).
Proof.
  intros Hm Hb x. unfold increment.
  rewrite (get_set _ _ String.eqb string_eqb_spec).
  destruct (String.eqb_spec x w) as [->|ne]; [|simpl; apply Hm].
  rewrite (Hm w), or_zero_count by lia. cbn [Nat.add Nat.eqb].
  now rewrite add_one_exact.
Qed.

Lemma increment_keys (m : list (string * number)) (w : string) :
  map fst (increment m w) = addAll (map fst m) [w].
Proof.
  unfold increment. rewrite (keys_set _ _ String.eqb string_eqb_spec). reflexivity.
Qed.

Lemma addAll_app (a b set : list string) :
  addAll set (a ++ b) = addAll (addAll set a) b.
Proof.
  revert set. induction a as [|x a IH]; intro set; simpl; [reflexivity|].
  destruct (has set x); apply IH.
Qed.

Lemma fold_increment (words : list string) :
  forall (m : list (string * number)) (c : string -> nat),
    counted m c ->
    (forall w, Z.of_nat (c w + occurrences w words) < 2 ^ 53)%Z ->
    counted (fold_left increment words m) (fun w => c w + occurrences w words)
    /\ map fst (fold_left increment words m) = addAll (map fst m) words.
Proof.
  induction words as [|x words IH]; intros m c Hm Hb.
  - simpl. split; [|reflexivity]. intro w. unfold occurrences. simpl.
    rewrite Nat.add_0_r. apply Hm.
  - cbn [fold_left].
    assert (Hx : (Z.of_nat (S (c x)) < 2 ^ 53)%Z).
    { specialize (Hb x). rewrite occurrences_cons, String.eqb_refl in Hb. lia. }
    destruct (IH (increment m x) _ (increment_counted m c x Hm Hx)) as [H1 H2].
    + intro w. specialize (Hb w). rewrite occurrences_cons in Hb.
      destruct (String.eqb w x); lia.
    + split.
      * intro w. rewrite (H1 w), occurrences_cons.
        replace ((if String.eqb w x then 1 else 0) + c w + occurrences w words)
          with (c w + ((if String.eqb w x then 1 else 0) + occurrences w words)) by lia.
        reflexivity.
      * rewrite H2, increment_keys. change (x :: words) with ([x] ++ words)%list.
        now rewrite addAll_app.
Qed.

Lemma documentsWith_cons (w : string) (d : list string) (docs : list (list string)) :
  documentsWith w (d :: docs) = (if has d w then 1 else 0) + documentsWith w docs.
Proof. unfold documentsWith. simpl. now destruct (has d w). Qed.

Lemma documentsWith_le (w : string) (docs : list (list string)) :
  documentsWith w docs <= occurrences w (List.concat docs)
  /\ documentsWith w docs <= List.length docs.
Proof.
  induction docs as [|d docs [IH1 IH2]]; [split; reflexivity|].
  rewrite documentsWith_cons. cbn [List.concat List.length]. rewrite occurrences_app.
  destruct (has d w) eqn:E; [|lia].
  apply (proj1 (has_In d w)), occurrences_In in E. lia.
Qed.

Lemma documentsWith_In (w : string) (docs : list (list string)) :
  In w (List.concat docs) -> 1 <= documentsWith w docs.
Proof.
  induction docs as [|d docs IH]; [intros []|].
  cbn [List.concat]. rewrite in_app_iff, documentsWith_cons. intros [H|H].
  - apply (proj2 (has_In d w)) in H. rewrite H. lia.
  - specialize (IH H). lia.
Qed.

Section TfIdf.

Variable STOPWORDS : list string.
Variable Math_log : number -> number.

Local Abbreviation tokens := (fun sentence => Tokenizer.tokenizeWords STOPWORDS sentence true).
Local Abbreviation countSentence := (countSentence STOPWORDS).
Local Abbreviation calculateTfIdf := (calculateTfIdf STOPWORDS Math_log).

Lemma fold_countSentence (sentences : list string) :
  forall (wf df : list (string * number)) (cw cd : string -> nat),
    counted wf cw -> counted df cd ->
    (forall w, Z.of_nat (cw w + occurrences w (List.concat (map tokens sentences)))
               < 2 ^ 53)%Z ->
    (forall w, Z.of_nat (cd w + documentsWith w (map tokens sentences)) < 2 ^ 53)%Z ->
    counted (fst (fold_left countSentence sentences (wf, df)))
            (fun w => cw w + occurrences w (List.concat (map tokens sentences)))
    /\ map fst (fst (fold_left countSentence sentences (wf, df)))
       = addAll (map fst wf) (List.concat (map tokens sentences))
    /\ counted (snd (fold_left countSentence sentences (wf, df)))
               (fun w => cd w + documentsWith w (map tokens sentences)).
Proof.
  induction sentences as [|s rest IH]; intros wf df cw cd Hwf Hdf Hbw Hbd.
  - simpl. split; [|split; [reflexivity|]]; intro w.
    + unfold occurrences. simpl. rewrite Nat.add_0_r. apply Hwf.
    + unfold documentsWith. simpl. rewrite Nat.add_0_r. apply Hdf.
  - cbn [fold_left map List.concat].
    change (countSentence (wf, df) s)
      with (fold_left increment (tokens s) wf,
            fold_left increment (newSet (tokens s)) df).
    assert (Hocc : forall w, occurrences w (newSet (tokens s))
                             = if has (tokens s) w then 1 else 0).
    { intro w. rewrite occurrences_NoDup by apply newSet_NoDup. now rewrite has_newSet. }
    destruct (fold_increment (tokens s) wf cw Hwf) as [Hw1 Hw2].
    { intro w. specialize (Hbw w). cbn [map List.concat] in Hbw.
      rewrite occurrences_app in Hbw. lia. }
    destruct (fold_increment (newSet (tokens s)) df cd Hdf) as [Hd1 _].
    { intro w. specialize (Hbd w). cbn [map] in Hbd.
      rewrite documentsWith_cons in Hbd. rewrite Hocc. lia. }
    destruct (IH _ _ _ _ Hw1 Hd1) as (H1 & H2 & H3).
    + intro w. specialize (Hbw w). cbn [map List.concat] in Hbw.
      rewrite occurrences_app in Hbw. lia.
    + intro w. specialize (Hbd w). cbn [map] in Hbd.
      rewrite documentsWith_cons in Hbd. rewrite Hocc. lia.
    + split; [|split].
      * intro w. rewrite (H1 w), occurrences_app, Nat.add_assoc. reflexivity.
      * rewrite H2, Hw2, addAll_app. reflexivity.
      * intro w. rewrite (H3 w), documentsWith_cons, Hocc, Nat.add_assoc. reflexivity.
Qed.

Lemma fold_set_fresh (g : string -> number -> number) (entries : list (string * number)) :
  forall acc,
    NoDup (map fst acc ++ map fst entries) ->
    fold_left (fun scores (entry : string * number) =>
                 let (word, freq) := entry in set String.eqb scores word (g word freq))
              entries acc
    = (acc ++ map (fun entry => (fst entry, g (fst entry) (snd entry))) entries)%list.
Proof.
  induction entries as [|[w f] entries IH]; intros acc Hnd; simpl.
  - now rewrite app_nil_r.
  - simpl in Hnd.
    assert (Hfresh : ~ In w (map fst acc)).
    { intro Hin. apply NoDup_remove_2 in Hnd. apply Hnd. apply in_or_app. now left. }
    rewrite (set_new _ _ String.eqb string_eqb_spec acc w _ Hfresh).
    rewrite IH; [now rewrite <- app_assoc|].
    rewrite map_app, <- app_assoc. exact Hnd.
Qed.

Lemma get_map_values (h : string -> number -> number) (m : list (string * number))
      (w : string) :
  get String.eqb (map (fun entry => (fst entry, h (fst entry) (snd entry))) m) w
  = option_map (h w) (get String.eqb m w).
Proof.
  induction m as [|[k v] m IH]; simpl; [reflexivity|].
  destruct (String.eqb_spec w k) as [->|ne]; [reflexivity | exact IH].
Qed.

(** X12. [calculateTfIdf] gives one entry per distinct token of the
    sentences, in the order of first occurrence; the entry of a token is
    its number of occurrences in all sentences times the logarithm of the
    number of sentences divided by the number of sentences that hold the
    token, which is at least 1; the counts are exact when there are fewer
    than 2^53 tokens in all. *)
Theorem calculateTfIdf_spec (sentences : list string) :
  let documents := map tokens sentences in
  let words := List.concat documents in
  (Z.of_nat (List.length words) < 2 ^ 53)%Z ->
  map fst (calculateTfIdf sentences) = newSet words
  /\ (forall w, In w words ->
        1 <= documentsWith w documents <= List.length sentences
        /\ get String.eqb (calculateTfIdf sentences) w
           = Some (mul (of_nat (occurrences w words))
                       (Math_log (div (of_nat (List.length sentences))
                                      (of_nat (documentsWith w documents))))))
  /\ (forall w, ~ In w words -> get String.eqb (calculateTfIdf sentences) w = None).
Proof.
  intros documents words Hbound.
  assert (Hcw : forall w, (Z.of_nat (0 + occurrences w words) < 2 ^ 53)%Z).
  { intro w. pose proof (occurrences_le w words). lia. }
  assert (Hcd : forall w, (Z.of_nat (0 + documentsWith w documents) < 2 ^ 53)%Z).
  { intro w. pose proof (proj1 (documentsWith_le w documents)) as Hle.
    pose proof (occurrences_le w words) as Hlen.
    change (List.concat documents) with words in Hle. lia. }
  assert (Hempty : counted [] (fun _ => 0)) by (intro w; reflexivity).
  destruct (fold_countSentence sentences [] [] _ _ Hempty Hempty Hcw Hcd)
    as (Hwf & Hkeys & Hdf).
  unfold Summarizer.calculateTfIdf.
  destruct (fold_left countSentence sentences ([], [])) as [wf df].
  cbn [fst snd] in Hwf, Hkeys, Hdf. cbn [map] in Hkeys. fold (newSet words) in Hkeys.
  set (g := fun (word : string) (freq : number) =>
              mul freq
                (Math_log
                   (div (of_nat (List.length sentences))
                        match get String.eqb df word with
                        | Some v => if truthy v then v else one
                        | None => one
                        end))).
  assert (Hfold : fold_left
                    (fun scores (entry : string * number) =>
                       let (word, freq) := entry in
                       set String.eqb scores word (g word freq)) wf []
                  = map (fun entry => (fst entry, g (fst entry) (snd entry))) wf).
  { apply (fold_set_fresh g wf []). simpl. rewrite Hkeys. apply newSet_NoDup. }
  change (fold_left _ wf []) with
    (fold_left (fun scores (entry : string * number) =>
                  let (word, freq) := entry in
                  set String.eqb scores word (g word freq)) wf []).
  rewrite Hfold.
  split; [now rewrite map_map|]. split.
  - intros w Hw.
    pose proof (documentsWith_In w documents Hw) as Hd1.
    pose proof (proj2 (documentsWith_le w documents)) as Hd2.
    unfold documents in Hd2 at 2. rewrite length_map in Hd2.
    split; [lia|].
    rewrite get_map_values, (Hwf w). unfold g. rewrite (Hdf w). cbn [Nat.add].
    change (map tokens sentences) with documents.
    change (List.concat documents) with words.
    apply occurrences_In in Hw.
    destruct (occurrences w words) as [|k] eqn:Ek; [lia|].
    cbn [Nat.eqb option_map].
    destruct (documentsWith w documents) as [|d] eqn:Ed; [lia|].
    cbn [Nat.eqb].
    assert (Ht : truthy (of_nat (S d)) = true).
    { specialize (Hcd w). rewrite Ed in Hcd.
      destruct (of_nat_exact (S d) ltac:(lia)) as [Hg Hu].
      rewrite (truthy_units _ Hg). apply Z.ltb_lt.
      pose proof (pow2_pos 2200 ltac:(lia)). big. nia. }
    now rewrite Ht.
  - intros w Hw. rewrite get_map_values, (Hwf w). cbn [Nat.add].
    change (List.concat (map tokens sentences)) with words.
    destruct (occurrences w words) as [|k] eqn:Ek; [reflexivity|].
    elim Hw. apply occurrences_In. lia.
Qed.

End TfIdf.

End TfIdfFacts.

(* ================================================================== *)
(** * Summarizer: the selection in the document *)
(* ================================================================== *)

Module ChoiceFacts.

Import Number JsString JsArray Summarizer DocumentOrder Sequences.
Import StringFacts ArrayFacts SummarizerFacts DuplicateFacts.
Local Unset Implicit Arguments.
Local Open Scope nat_scope.

Lemma sorted_incl_subsequence (sentences : list SentenceWithMetadata) :
  StronglySorted inOrder sentences ->
  forall chosen, StronglySorted inOrder chosen -> incl chosen sentences ->
                 subsequence chosen sentences.
Proof.
  induction 1 as [|y rest Hrest IH Hy]; intros chosen Hc Hincl.
  - destruct chosen as [|x chosen]; [constructor|].
    destruct (Hincl x (or_introl eq_refl)).
  - rewrite Forall_forall in Hy.
    destruct chosen as [|x chosen]; [constructor; apply IH; [constructor | intros z []]|].
    apply StronglySorted_inv in Hc. destruct Hc as [Hc Hx].
    rewrite Forall_forall in Hx.
    destruct (Hincl x (or_introl eq_refl)) as [<-|Hin].
    + apply subsequence_keep. apply IH; [exact Hc|].
      intros z Hz. destruct (Hincl z (or_intror Hz)) as [<-|Hz']; [|exact Hz'].
      specialize (Hx y Hz). unfold inOrder in Hx. lia.
    + apply subsequence_skip. apply IH; [now constructor; [|apply Forall_forall]|].
      intros z Hz. destruct (Hincl z Hz) as [<-|Hz']; [|exact Hz'].
      pose proof (Hy x Hin) as Hyx. destruct Hz as [->|Hz].
      * unfold inOrder in Hyx. lia.
      * specialize (Hx y Hz). unfold inOrder in Hx, Hyx. lia.
Qed.

Lemma ForallOrdPairs_firstn (A : Type) (R : A -> A -> Prop) (l : list A) :
  ForallOrdPairs R l -> forall n, ForallOrdPairs R (firstn n l).
Proof.
  induction 1 as [|a l Ha Hl IH]; intro n; destruct n; simpl; try constructor.
  - rewrite Forall_forall in *. intros x Hx. apply Ha. now apply firstn_incl in Hx.
  - apply IH.
Qed.

Lemma pairs_apart (A : Type) (R : A -> A -> Prop) (l : list A) :
  (forall a b, R a b -> R b a) ->
  NoDup l ->
  (forall a b, In a l -> In b l -> a <> b -> R a b) ->
  ForallOrdPairs R l.
Proof.
  intros Hsym. induction 1 as [|x l Hx Hnd IH]; intro H; constructor.
  - apply Forall_forall. intros y Hy. apply H; [now left | now right|].
    intros ->. contradiction.
  - apply IH. intros a b Ha Hb. apply H; now right.
Qed.

Section Choice.

Variable STOPWORDS : list string.
Variable Math_log : number -> number.
Variable Math_pow : number -> number -> number.

Local Abbreviation sentencesWithMetadata := (sentencesWithMetadata STOPWORDS).
Local Abbreviation selectSentences := (selectSentences STOPWORDS Math_log Math_pow).

(** X13. The sentences selected for the summary are sentences of the
    document, each at most once and in the order of the document; when
    similar sentences are removed, no two of the selected sentences have a
    similarity above 0.6. *)
Theorem selectSentences_subsequence options summaryRatio maxSentences text :
  let sentences := sentencesWithMetadata options text in
  let selected := selectSentences options summaryRatio maxSentences sentences in
  subsequence selected sentences
  /\ (deduplicateSimilar options = true ->
      ForallOrdPairs
        (fun a b => ltb lit_0_6 (TextRank.calculateSimilarity STOPWORDS
                                   (Summarizer.text a) (Summarizer.text b)) = false)
        selected).
Proof.
  intros sentences selected.
  pose proof (sentences_sorted STOPWORDS options text) as HS.
  fold sentences in HS.
  pose proof (selectSentences_inOrder STOPWORDS Math_log Math_pow
                options summaryRatio maxSentences HS) as Hsel.
  destruct (selectSentences_chosen STOPWORDS Math_log Math_pow
              options summaryRatio maxSentences (sorted_NoDup HS)) as [Hnd Hincl].
  fold selected in Hsel, Hnd, Hincl.
  split; [exact (sorted_incl_subsequence sentences HS selected Hsel Hincl)|].
  intro Hdedup.
  apply pairs_apart; [|exact Hnd|].
  { intros a b Hab. now rewrite SimilarityFacts.calculateSimilarity_sym. }
  intros a b Ha Hb Hne.
  unfold selected, Summarizer.selectSentences in Ha, Hb. rewrite Hdedup in Ha, Hb.
  apply sort_In in Ha. apply sort_In in Hb.
  match type of Ha with
  | In a (slice0 (deduplicateSentences _ ?top _) ?count) =>
      destruct (deduplicate_spec STOPWORDS lit_0_6 top [])
        as (kept & Hfold & _ & Hpairs & _);
      set (n := count) in *
  end.
  simpl in Hfold, Hpairs. specialize (Hpairs (FOP_nil _)).
  unfold deduplicateSentences in Ha, Hb.
  rewrite Hfold in Ha, Hb.
  unfold slice0 in Ha, Hb.
  pose proof (ForallOrdPairs_firstn _ _ _ Hpairs (sliceFinal (List.length kept) n)) as Hcut.
  destruct (ForallOrdPairs_In Hcut a b Ha Hb) as [E|[E|E]].
  - contradiction.
  - now rewrite SimilarityFacts.calculateSimilarity_sym.
  - exact E.
Qed.

End Choice.

End ChoiceFacts.

(* ================================================================== *)
(** * Summarizer: the ranking by score *)
(* ================================================================== *)

Module OrderFacts.

Import Number JsArray Summarizer Rounding Ranking RoundingFacts ArrayFacts.
Local Unset Implicit Arguments.
Local Open Scope Z_scope.

Local Abbreviation W := 2200 (only parsing).

Lemma valid_finite s m e :
  valid_binary prec emax (S754_finite s m e) = true -> canonical m e /\ e <= emax - prec.
Proof.
  intro H.
  assert (Hg : good (S754_finite false m e) = true)
    by (unfold good; change (valid_binary prec emax (S754_finite false m e))
          with (valid_binary prec emax (S754_finite s m e)); now rewrite H).
  destruct (good_finite_inv false m e Hg) as (_ & Hc & He). now split.
Qed.

Lemma beyond_pos : 0 < beyond.
Proof. apply pow2_pos. lia. Qed.

Lemma finite_place m e :
  canonical m e -> e <= emax - prec -> 0 < Zpos m * 2 ^ (e + W) < beyond.
Proof.
  intros Hc He. destruct (canonical_range m e Hc) as (He1 & Hd & _).
  pose proof (canonical_lt_pow m e Hc) as Hm.
  pose proof (pow2_pos (e + W) ltac:(lia)) as Hp.
  split; [lia|].
  apply Z.lt_le_trans with (2 ^ 53 * 2 ^ (e + W)); [apply Z.mul_lt_mono_pos_r; lia|].
  rewrite <- pow2_split by lia. apply Z.pow_le_mono_r; unfold emax, prec in *; lia.
Qed.

Lemma compare_negative m1 e1 m2 e2 :
  SFcompare (S754_finite true m1 e1) (S754_finite true m2 e2)
  = option_map CompOpp (SFcompare (S754_finite false m1 e1) (S754_finite false m2 e2)).
Proof. simpl. now destruct (e1 ?= e2). Qed.

(** The comparison of numbers is the comparison of their places. *)
Lemma compare_place x y :
  comparable x -> comparable y -> SFcompare x y = Some (place x ?= place y).
Proof.
  intros [Hx Hnx] [Hy Hny]. unfold isNumber in *.
  pose proof beyond_pos as HP.
  assert (Hfin : forall s m e, valid_binary prec emax (S754_finite s m e) = true ->
                   0 < Zpos m * 2 ^ (e + W) < beyond
                   /\ good (S754_finite false m e) = true).
  { intros s m e H. destruct (valid_finite s m e H) as [Hc He].
    split; [now apply finite_place | now apply good_finite]. }
  destruct x as [sx|sx| |sx mx ex]; try discriminate Hnx;
    destruct y as [sy|sy| |sy my ey]; try discriminate Hny;
    try (destruct (Hfin _ _ _ Hx) as [Hbx Hgx]);
    try (destruct (Hfin _ _ _ Hy) as [Hby Hgy]).
  all: try (cbn [SFcompare place]; try destruct sx; try destruct sy;
            cbn [cond_Zopp]; f_equal; symmetry;
            first [ apply Z.compare_eq_iff; lia
                  | apply Z.compare_lt_iff; lia
                  | apply Z.compare_gt_iff; lia ]).
  - pose proof (compare_units _ _ Hgx Hgy) as Hcmp. cbn [units] in Hcmp.
    destruct sx, sy.
    + rewrite compare_negative, Hcmp. cbn [option_map place cond_Zopp]. f_equal.
      rewrite Z.compare_opp. symmetry. apply Z.compare_antisym.
    + cbn [place cond_Zopp]. simpl SFcompare. f_equal. symmetry.
      apply Z.compare_lt_iff. lia.
    + cbn [place cond_Zopp]. simpl SFcompare. f_equal. symmetry.
      apply Z.compare_gt_iff. lia.
    + exact Hcmp.
Qed.

Lemma ltb_place x y : comparable x -> comparable y -> ltb x y = (place x <? place y).
Proof.
  intros Hx Hy. unfold ltb, SFltb. rewrite (compare_place x y Hx Hy).
  unfold Z.ltb. now destruct (place x ?= place y).
Qed.

(** Rounding a positive value at an exponent of the format gives a
    positive number or plus infinity. *)
Lemma binary_round_positive m e :
  -1074 <= e ->
  binary_round prec emax false m e = S754_infinity false
  \/ (good (binary_round prec emax false m e) = true
      /\ 0 < units (binary_round prec emax false m e)).
Proof.
  intro He. unfold binary_round.
  pose proof (shl_align_spec m e (SpecFloat.fexp prec emax (Zpos (digits2_pos m) + e))) as Ha.
  destruct (shl_align m e _) as [mz ez].
  destruct Ha as (H1 & H2 & H3 & H4 & H5).
  change (SpecFloat.fexp prec emax) with fexp in *.
  assert (Hfe : -1074 <= fexp (Zpos (digits2_pos m) + e)) by (rewrite fexp_eq; lia).
  assert (Hez : -1074 <= ez) by lia.
  assert (Hdig : Zdigits2 (Zpos mz) + ez = Zpos (digits2_pos m) + e).
  { rewrite H5. destruct (digits_shift m (e - ez)) as [H|H]; [|lia].
    rewrite H. simpl Zdigits2. lia. }
  assert (HE : ez <= fexp (Zdigits2 (Zpos mz) + ez)) by (rewrite Hdig; lia).
  set (lo := S754_finite false 1 (-1074)).
  assert (Hlo : good lo = true) by reflexivity.
  assert (Hlow : units lo <= Zpos mz * 2 ^ (ez + W)).
  { cbn [units lo]. change (1 * 2 ^ (-1074 + W)) with (1 * 2 ^ 1126).
    assert (2 ^ 1126 <= 2 ^ (ez + W)) by (apply Z.pow_le_mono_r; lia). nia. }
  destruct (SelectionFacts.round_aux_outcome (Zpos mz) ez loc_Exact ltac:(lia) ltac:(lia) HE lo Hlo Hlow)
    as [Hinf|[Hg Hu]]; [now left | right].
  split; [exact Hg|].
  assert (0 < units lo) by (cbn [units lo]; apply Z.mul_pos_pos; [lia | apply pow2_pos; lia]).
  lia.
Qed.

Lemma binary_round_opp m e :
  binary_round prec emax true m e = SFopp (binary_round prec emax false m e).
Proof.
  unfold binary_round. destruct (shl_align m e _) as [mz ez].
  apply SelectionFacts.round_aux_opp.
Qed.

(** The sign of a rounded difference is the sign of the difference. *)
Lemma normalize_sign d e :
  -1074 <= e ->
  SFltb (S754_zero false) (binary_normalize prec emax d e false) = (0 <? d).
Proof.
  intro He. destruct d as [|p|p]; cbn [binary_normalize].
  - reflexivity.
  - destruct (binary_round_positive p e He) as [->|[Hg Hu]]; [reflexivity|].
    rewrite (ltb_units _ _ (good_zero false) Hg).
    transitivity true; [apply Z.ltb_lt; exact Hu | reflexivity].
  - rewrite binary_round_opp.
    destruct (binary_round_positive p e He) as [->|[Hg _]]; [reflexivity|].
    destruct (good_cases _ Hg) as [[s ->]|(m' & e' & -> & _)]; now try destruct s.
Qed.

Local Ltac decide_sign :=
  cbn [place cond_Zopp];
  first [ transitivity true; [reflexivity | symmetry; apply Z.ltb_lt; lia]
        | transitivity false; [reflexivity | symmetry; apply Z.ltb_ge; lia] ].

(** The comparator [b.score - a.score] is positive exactly when [b] has the
    higher score. *)
Lemma difference_sign x y :
  comparable x -> comparable y -> ltb zero (sub y x) = (place x <? place y).
Proof.
  intros [Hx Hnx] [Hy Hny]. unfold isNumber in *.
  pose proof beyond_pos as HP.
  destruct x as [sx|sx| |sx mx ex]; try discriminate Hnx;
    destruct y as [sy|sy| |sy my ey]; try discriminate Hny.
  - now destruct sx, sy.
  - destruct sx, sy; decide_sign.
  - destruct (valid_finite _ _ _ Hy) as [Hc He].
    pose proof (finite_place my ey Hc He).
    destruct sx, sy; decide_sign.
  - destruct sx, sy; decide_sign.
  - destruct sx, sy; decide_sign.
  - destruct (valid_finite _ _ _ Hy) as [Hc He].
    pose proof (finite_place my ey Hc He).
    destruct sx, sy; decide_sign.
  - destruct (valid_finite _ _ _ Hx) as [Hc He].
    pose proof (finite_place mx ex Hc He).
    destruct sx, sy; decide_sign.
  - destruct (valid_finite _ _ _ Hx) as [Hc He].
    pose proof (finite_place mx ex Hc He).
    destruct sx, sy; decide_sign.
  - destruct (valid_finite _ _ _ Hx) as [Hcx Hex].
    destruct (valid_finite _ _ _ Hy) as [Hcy Hey].
    destruct (canonical_range mx ex Hcx) as (Hex1 & _).
    destruct (canonical_range my ey Hcy) as (Hey1 & _).
    unfold ltb, sub, zero. cbn [SFsub].
    set (ez := Z.min ey ex).
    pose proof (shl_align_spec mx ex ez) as Hsx.
    pose proof (shl_align_spec my ey ez) as Hsy.
    destruct (shl_align mx ex ez) as [mzx ezx].
    destruct (shl_align my ey ez) as [mzy ezy].
    destruct Hsx as (_ & _ & Hx3 & _ & Hx5).
    destruct Hsy as (_ & _ & Hy3 & _ & Hy5).
    rewrite (Hx3 ltac:(lia)) in Hx5. rewrite (Hy3 ltac:(lia)) in Hy5.
    cbn [fst]. rewrite normalize_sign by lia.
    cbn [place].
    assert (Hvx : Zpos mx * 2 ^ (ex + W) = Zpos mzx * 2 ^ (ez + W)).
    { rewrite Hx5. replace (ex + W) with ((ex - ez) + (ez + W)) by lia.
      rewrite pow2_split by lia. ring. }
    assert (Hvy : Zpos my * 2 ^ (ey + W) = Zpos mzy * 2 ^ (ez + W)).
    { rewrite Hy5. replace (ey + W) with ((ey - ez) + (ez + W)) by lia.
      rewrite pow2_split by lia. ring. }
    rewrite Hvx, Hvy.
    pose proof (pow2_pos (ez + W) ltac:(lia)) as HA.
    set (A := 2 ^ (ez + W)) in *.
    destruct sx, sy; cbn [cond_Zopp];
      match goal with
      | |- (0 <? ?d) = _ =>
          destruct (Z.ltb_spec 0 d); symmetry; [apply Z.ltb_lt | apply Z.ltb_ge]; nia
      end.
Qed.

Section SortOn.

Variable A : Type.
Variable before : A -> A -> bool.
Variable P : A -> Prop.

Hypothesis before_total :
  forall a b, P a -> P b -> before a b = true \/ before b a = true.
Hypothesis before_trans :
  forall a b c, P a -> P b -> P c ->
                before a b = true -> before b c = true -> before a c = true.

Lemma insert_sorted_on (x : A) (l : list A) :
  P x -> Forall P l ->
  StronglySorted (ordered before) l -> StronglySorted (ordered before) (insert before x l).
Proof.
  intros Hx HP. induction 1 as [|y l Hl IH Hy]; simpl.
  - repeat constructor.
  - inversion HP as [|? ? HPy HPl]; subst.
    destruct (before x y) eqn:Hxy.
    + constructor; [now constructor|].
      constructor; [exact Hxy|].
      rewrite Forall_forall in *. intros z Hz.
      apply before_trans with y; [exact Hx | exact HPy | now apply HPl | exact Hxy|].
      now apply Hy.
    + constructor; [now apply IH|].
      assert (Hyx : before y x = true)
        by (destruct (before_total x y Hx HPy) as [H|H]; [congruence | exact H]).
      eapply Permutation_Forall; [symmetry; apply insert_perm|].
      now constructor.
Qed.

Lemma sort_sorted_on (l : list A) :
  Forall P l -> StronglySorted (ordered before) (sort before l).
Proof.
  induction 1 as [|x l Hx Hl IH]; simpl; [constructor|].
  apply insert_sorted_on; [exact Hx | | exact IH].
  eapply Permutation_Forall; [symmetry; apply sort_perm | exact Hl].
Qed.

End SortOn.

Lemma StronglySorted_map (A B : Type) (f : A -> B) (R : B -> B -> Prop) (l : list A) :
  StronglySorted (fun a b => R (f a) (f b)) l -> StronglySorted R (map f l).
Proof.
  induction 1 as [|x l Hl IH Hx]; simpl; constructor; [exact IH|].
  now rewrite Forall_map.
Qed.

Lemma get_value (m : list (nat * number)) (k : nat) (v : number) :
  get Nat.eqb m k = Some v -> In v (map snd m).
Proof.
  induction m as [|[k' v'] m IH]; simpl; [discriminate|].
  destruct (k =? k')%nat; [intros [= ->]; now left | intro H; right; now apply IH].
Qed.

Lemma scoreOf_comparable (scores : list (nat * number)) (s : SentenceWithMetadata) :
  Forall (fun entry => isNumber (snd entry)) scores -> comparable (scoreOf scores s).
Proof.
  intro H. unfold scoreOf, or_zero.
  destruct (get Nat.eqb scores (index s)) as [v|] eqn:E; [|now split].
  destruct (truthy v) eqn:Ht; [|now split].
  split.
  - apply get_value in E. apply in_map_iff in E. destruct E as (entry & <- & Hin).
    rewrite Forall_forall in H. now apply H.
  - unfold truthy in Ht. apply negb_true_iff, orb_false_iff in Ht. apply Ht.
Qed.

Lemma byScoreDescending_place (a b : SentenceWithMetadata * number) :
  comparable (snd a) -> comparable (snd b) ->
  byScoreDescending a b = (place (snd b) <=? place (snd a)).
Proof.
  intros Ha Hb. unfold byScoreDescending.
  rewrite (difference_sign _ _ Ha Hb), Z.ltb_antisym. apply negb_involutive.
Qed.

(** X14. When the scores are numbers, [topSentences] returns the sentences
    in the order of falling scores, and no sentence that it leaves out has
    a higher score than one that it returns; it returns as many sentences
    as [slice] keeps. *)
Theorem topSentences_highest (scores : list (nat * number)) (end_ : number)
        (sentences : list SentenceWithMetadata) :
  Forall (fun entry => isNumber (snd entry)) scores ->
  let top := topSentences scores end_ sentences in
  StronglySorted (fun a b => ltb (scoreOf scores a) (scoreOf scores b) = false) top
  /\ (forall a b, In a top -> In b sentences -> ~ In b top ->
                  ltb (scoreOf scores a) (scoreOf scores b) = false)
  /\ List.length top = sliceFinal (List.length sentences) end_.
Proof.
  intros Hscores top.
  set (scored := map (fun s => (s, scoreOf scores s)) sentences).
  set (ranking := sort byScoreDescending scored).
  set (P := fun p : SentenceWithMetadata * number =>
              comparable (snd p) /\ snd p = scoreOf scores (fst p)).
  assert (Hscored : Forall P scored).
  { apply Forall_forall. intros p Hp. apply in_map_iff in Hp.
    destruct Hp as (s & <- & _). split; [now apply scoreOf_comparable | reflexivity]. }
  assert (Hranking : Forall P ranking).
  { eapply Permutation_Forall; [symmetry; apply sort_perm | exact Hscored]. }
  assert (Hsorted : StronglySorted (ordered byScoreDescending) ranking).
  { apply (sort_sorted_on _ byScoreDescending P); [| |exact Hscored].
    - intros a b [Ha _] [Hb _]. rewrite !byScoreDescending_place by assumption.
      rewrite !Z.leb_le. lia.
    - intros a b c [Ha _] [Hb _] [Hc _]. rewrite !byScoreDescending_place by assumption.
      rewrite !Z.leb_le. lia. }
  assert (Hrel : forall p q, P p -> P q -> ordered byScoreDescending p q ->
                   ltb (scoreOf scores (fst p)) (scoreOf scores (fst q)) = false).
  { intros p q [Hp Hp'] [Hq Hq'] Hpq. unfold ordered in Hpq.
    rewrite byScoreDescending_place in Hpq by assumption.
    rewrite <- Hp', <- Hq', (ltb_place _ _ Hp Hq). apply Z.ltb_ge. now apply Z.leb_le. }
  assert (Htop : top = map fst (slice0 ranking end_)) by reflexivity.
  unfold slice0 in Htop.
  set (k := sliceFinal (List.length ranking) end_) in *.
  rewrite <- (firstn_skipn k ranking) in Hsorted.
  apply SummarizerFacts.StronglySorted_app_inv in Hsorted.
  destruct Hsorted as (Hfirst & _ & Hcross).
  rewrite Forall_forall in Hranking.
  split; [|split].
  - rewrite Htop. apply StronglySorted_map.
    eapply StronglySorted_impl; [|exact Hfirst].
    intros p q Hp Hq. apply Hrel; apply Hranking; eapply firstn_incl; eassumption.
  - intros a b Ha Hb Hout. rewrite Htop in Ha, Hout.
    apply in_map_iff in Ha. destruct Ha as (p & <- & Hp).
    assert (Hq : In (b, scoreOf scores b) ranking).
    { apply sort_In. apply in_map_iff. now exists b. }
    rewrite <- (firstn_skipn k ranking) in Hq. apply in_app_or in Hq.
    destruct Hq as [Hq|Hq].
    + elim Hout. apply in_map_iff. now exists (b, scoreOf scores b).
    + apply (Hrel p (b, scoreOf scores b)).
      * apply Hranking. eapply firstn_incl; eassumption.
      * split; [now apply scoreOf_comparable | reflexivity].
      * now apply Hcross.
  - apply SummarizerFacts.topSentences_length.
Qed.

End OrderFacts.

(* ================================================================== *)
(** * Summarizer: the paragraphs of the summary, read again *)
(* ================================================================== *)

Module RereadFacts.

Import Number JsString JsArray Summarizer DocumentOrder Alphabet.
Import StringFacts ArrayFacts ScanFacts StemFacts TokenFacts SummarizerFacts ScoreFacts.
Local Unset Implicit Arguments.
Local Open Scope string_scope.
Local Open Scope nat_scope.

(** A character that is not a line feed. *)
Local Abbreviation inLine := (fun c : ascii => negb (isNewline c)).

Lemma allChars_not (q : ascii -> bool) (s : string) :
  allChars (fun c => negb (q c)) s = negb (existsChar q s).
Proof.
  unfold allChars. f_equal.
  induction s as [|c s IH]; simpl; [reflexivity | now rewrite negb_involutive, IH].
Qed.

(** ** Texts that [trim] leaves alone *)

Lemma trimStart_fixed (s : string) :
  match firstChar s with
  | Some c => isWhiteSpace c = false
  | None => True
  end -> trimStart s = s.
Proof. destruct s as [|c s]; simpl; [reflexivity | now intros ->]. Qed.

Lemma reverse_empty (s : string) : reverse s = EmptyString -> s = EmptyString.
Proof.
  intro H. apply (f_equal String.length) in H. rewrite length_reverse in H.
  destruct s; [reflexivity | discriminate H].
Qed.

Lemma trim_fixed (s : string) : isTrimmed s = true -> trim s = s.
Proof.
  unfold isTrimmed, lastChar, trim, trimEnd. intro H.
  destruct s as [|a s]; [reflexivity|].
  cbn [firstChar] in H.
  destruct (firstChar (reverse (String a s))) as [b|] eqn:Eb.
  - apply andb_true_iff in H. destruct H as [Ha Hb].
    apply negb_true_iff in Ha, Hb.
    rewrite (trimStart_fixed (String a s)) by exact Ha.
    rewrite (trimStart_fixed (reverse (String a s))) by (now rewrite Eb).
    apply reverse_involutive.
  - destruct (reverse (String a s)) eqn:Er; [|discriminate Eb].
    apply reverse_empty in Er. discriminate Er.
Qed.

(** A text that is not empty and has no white space at its ends. *)
Local Abbreviation edged s :=
  ((exists a, firstChar s = Some a /\ isWhiteSpace a = false)
   /\ (exists b, lastChar s = Some b /\ isWhiteSpace b = false)).

Lemma edged_trimmed (s : string) :
  nonEmpty s = true -> isTrimmed s = true -> edged s.
Proof.
  unfold isTrimmed, lastChar. intros Hne H.
  destruct s as [|a s]; [discriminate Hne|]. cbn [firstChar] in *.
  destruct (firstChar (reverse (String a s))) as [b|] eqn:Eb.
  - apply andb_true_iff in H. destruct H as [Ha Hb].
    apply negb_true_iff in Ha, Hb. split; [now exists a | now exists b].
  - destruct (reverse (String a s)) eqn:Er; [|discriminate Eb].
    apply reverse_empty in Er. discriminate Er.
Qed.

Lemma trimmed_edged (s : string) : edged s -> nonEmpty s = true /\ isTrimmed s = true.
Proof.
  intros [(a & Ha & Hwa) (b & Hb & Hwb)]. unfold isTrimmed. rewrite Ha, Hb, Hwa, Hwb.
  split; [|reflexivity]. destruct s; [discriminate Ha | reflexivity].
Qed.

Lemma edged_append (t sep u : string) : edged t -> edged u -> edged (t ++ sep ++ u).
Proof.
  intros [(a & Ha & Hwa) _] [_ (b & Hb & Hwb)]. split.
  - exists a. split; [|exact Hwa]. destruct t; [discriminate Ha | exact Ha].
  - exists b. split; [|exact Hwb]. unfold lastChar in *.
    rewrite !reverse_append, append_assoc.
    destruct (reverse u); [discriminate Hb | exact Hb].
Qed.

Lemma edged_join (sep : string) (parts : list string) :
  parts <> [] -> Forall (fun t => edged t) parts -> edged (join sep parts).
Proof.
  intros Hne H. induction H as [|t rest Ht Hrest IH]; [congruence|].
  destruct rest as [|u rest]; [exact Ht|].
  rewrite join_cons by discriminate. apply edged_append; [exact Ht|].
  apply IH. discriminate.
Qed.

(** ** The sentences hold no line feed *)

Lemma paragraphsOf_inLine (text p : string) :
  In p (paragraphsOf text) ->
  nonEmpty p = true /\ isTrimmed p = true /\ allChars inLine p = true.
Proof.
  unfold paragraphsOf. intro H. apply filter_In in H. destruct H as [H Hne].
  apply in_map_iff in H. destruct H as (piece & <- & Hpiece).
  split; [exact Hne|]. split; [apply trim_isTrimmed|].
  apply allChars_trim. rewrite allChars_not.
  pose proof (split_run_free isNewline text) as Hfree.
  rewrite Forall_forall in Hfree. now rewrite (Hfree piece Hpiece).
Qed.

Lemma protectPeriod_allChars (p : ascii -> bool) (m : string) :
  allChars p "_PERIOD_" = true -> allChars p m = true ->
  allChars p (Tokenizer.protectPeriod m) = true.
Proof.
  intros Hmark Hm. unfold Tokenizer.protectPeriod.
  rewrite !allChars_append, Hmark, !allChars_substring by exact Hm. reflexivity.
Qed.

Lemma splitSentences_allChars (p : ascii -> bool) (text : string) :
  allChars p "_PERIOD_" = true -> allChars p "." = true ->
  allChars p text = true ->
  Forall (fun sentence => allChars p sentence = true) (Tokenizer.splitSentences text).
Proof.
  intros Hmark Hdot Htext. unfold Tokenizer.splitSentences.
  apply Forall_forall. intros sentence H.
  apply filter_In in H. destruct H as [H _].
  apply in_map_iff in H. destruct H as (piece & <- & Hpiece).
  apply allChars_trim. apply replaceAll_allChars; [intros; exact Hdot|].
  pose proof (split_allChars Tokenizer.matchBoundary p
                (replaceAll Tokenizer.matchAbbreviation Tokenizer.protectPeriod text)) as Hs.
  rewrite Forall_forall in Hs. apply Hs; [|exact Hpiece].
  apply replaceAll_allChars; [|exact Htext].
  intros m Hm. now apply protectPeriod_allChars.
Qed.

(** ** Splitting a text that was joined by blank lines *)

Lemma splitGo_prev (q : ascii -> bool) (s : string) (prev prev' : option ascii)
      (piece : string) (skip : nat) :
  splitGo (matchRun q) prev piece skip s = splitGo (matchRun q) prev' piece skip s.
Proof. destruct s; reflexivity. Qed.

Lemma splitGo_free (q : ascii -> bool) (t : string) :
  existsChar q t = false ->
  forall prev piece rest,
    splitGo (matchRun q) prev piece 0 (t ++ rest)
    = splitGo (matchRun q) None (revAppend t piece) 0 rest.
Proof.
  induction t as [|c t IH]; intros Hq prev piece rest.
  - apply splitGo_prev.
  - simpl in Hq. apply orb_false_iff in Hq. destruct Hq as [Hc Ht].
    change (String c t ++ rest) with (String c (t ++ rest)). cbn [splitGo].
    pose proof (matchRun_head q prev c (t ++ rest)) as Hm.
    destruct (matchRun q prev (String c (t ++ rest))) as [[|k]|];
      [destruct Hm | congruence |].
    rewrite (IH Ht). reflexivity.
Qed.

Lemma splitGo_blankLine (c : ascii) (r piece : string) (prev : option ascii) :
  isNewline c = false ->
  splitGo (matchRun isNewline) prev piece 0 (blankLine ++ String c r)
  = reverse piece :: splitGo (matchRun isNewline) None EmptyString 0 (String c r).
Proof.
  intro Hc. unfold blankLine.
  change (String newline (String newline EmptyString) ++ String c r)
    with (String newline (String newline (String c r))).
  cbn [splitGo]. unfold matchRun at 1. cbn [span].
  change (isNewline newline) with true. cbv iota. rewrite Hc.
  cbn [fst String.length]. reflexivity.
Qed.

Lemma split_join_blankLine (parts : list string) :
  Forall (fun t => nonEmpty t = true /\ existsChar isNewline t = false) parts ->
  forall t rest piece,
    parts = t :: rest ->
    splitGo (matchRun isNewline) None piece 0 (join blankLine parts)
    = (reverse piece ++ t) :: rest.
Proof.
  induction 1 as [|t0 rest0 [Hne Hfree] Hrest IH]; intros t rest piece [= <- <-].
  assert (Hlast : forall s, reverse (revAppend t0 s) = reverse s ++ t0).
  { intro s. rewrite revAppend_spec, reverse_append, reverse_involutive. reflexivity. }
  destruct rest0 as [|u rest'].
  - cbn [join]. rewrite <- (append_nil_r t0) at 1.
    rewrite (splitGo_free isNewline t0 Hfree). cbn [splitGo]. now rewrite Hlast.
  - rewrite join_cons by discriminate.
    rewrite (splitGo_free isNewline t0 Hfree).
    inversion Hrest as [|? ? [Hu Hufree] _]; subst.
    destruct u as [|c u]; [discriminate Hu|].
    assert (Hjoin : exists r, join blankLine (String c u :: rest') = String c r)
      by (destruct rest'; simpl; eauto).
    destruct Hjoin as [r Hr]. rewrite Hr.
    simpl in Hufree. apply orb_false_iff in Hufree.
    rewrite (splitGo_blankLine c r _ None (proj1 Hufree)), Hlast, <- Hr.
    f_equal. apply (IH (String c u) rest' EmptyString eq_refl).
Qed.

Lemma paragraphsOf_join (parts : list string) :
  Forall (fun t => nonEmpty t = true /\ isTrimmed t = true
                   /\ allChars inLine t = true) parts ->
  paragraphsOf (join blankLine parts) = parts.
Proof.
  intro H. unfold paragraphsOf.
  destruct parts as [|t rest]; [reflexivity|].
  assert (Hfree : Forall (fun s => nonEmpty s = true /\ existsChar isNewline s = false)
                         (t :: rest)).
  { eapply Forall_impl; [|exact H]. simpl. intros s (Hne & _ & Hs).
    rewrite allChars_not in Hs. apply negb_true_iff in Hs. now split. }
  unfold split.
  rewrite (split_join_blankLine (t :: rest) Hfree t rest EmptyString eq_refl).
  change (reverse EmptyString ++ t) with t.
  assert (Htrim : map trim (t :: rest) = t :: rest).
  { rewrite <- (map_id (t :: rest)) at 2. apply map_ext_Forall.
    eapply Forall_impl; [|exact H]. simpl. intros s (_ & Hs & _). now apply trim_fixed. }
  rewrite Htrim. apply filter_all.
  eapply Forall_impl; [|exact H]. simpl. now intros s (Hs & _).
Qed.

Section Reread.

Variable STOPWORDS : list string.
Variable Math_log : number -> number.
Variable Math_pow : number -> number -> number.

Local Abbreviation sentencesWithMetadata := (sentencesWithMetadata STOPWORDS).
Local Abbreviation selectSentences := (selectSentences STOPWORDS Math_log Math_pow).
Local Abbreviation summarize := (summarize STOPWORDS Math_log Math_pow).

Lemma sentences_inLine options text :
  Forall (fun s => nonEmpty (Summarizer.text s) = true
                   /\ isTrimmed (Summarizer.text s) = true
                   /\ allChars inLine (Summarizer.text s) = true)
         (sentencesWithMetadata options text).
Proof.
  rewrite <- Forall_map
    with (f := Summarizer.text)
         (P := fun t => nonEmpty t = true /\ isTrimmed t = true
                        /\ allChars inLine t = true).
  unfold Summarizer.sentencesWithMetadata.
  rewrite (proj1 (proj2 (addParagraphs_records STOPWORDS _ _ 0 0 (paragraphsOf text)))).
  apply Forall_forall. intros t Ht. apply in_concat in Ht.
  destruct Ht as (ts & Hts & Ht). apply in_map_iff in Hts.
  destruct Hts as (p & <- & Hp).
  destruct (paragraphsOf_inLine text p Hp) as (_ & _ & Hline).
  pose proof (splitSentences_allChars inLine p eq_refl eq_refl Hline) as Hall.
  rewrite Forall_forall in Hall. specialize (Hall t Ht).
  unfold Tokenizer.splitSentences in Ht. apply filter_In in Ht. destruct Ht as [Ht Hne].
  apply in_map_iff in Ht. destruct Ht as (piece & <- & _).
  split; [exact Hne|]. split; [apply trim_isTrimmed | exact Hall].
Qed.

(** X15. The paragraphs of the summary of a text of at least two sentences,
    read as [summarize] reads the paragraphs of a text, are the texts of
    the groups of the selection: one paragraph for each group, made of the
    sentences of the group with a space between them. *)
Theorem summarize_paragraphs_reread text summaryRatio maxSentences options :
  2 <= List.length (sentencesWithMetadata options text) ->
  paragraphsOf (summarize text summaryRatio maxSentences options)
  = map (fun g => join " " (map Summarizer.text (snd g)))
        (groupByParagraph
           (selectSentences options summaryRatio maxSentences
              (sentencesWithMetadata options text))).
Proof.
  intro Hn.
  pose proof (sentences_sorted STOPWORDS options text) as HS.
  pose proof (selectSentences_inOrder STOPWORDS Math_log Math_pow
                options summaryRatio maxSentences HS) as Hsel.
  destruct (selectSentences_chosen STOPWORDS Math_log Math_pow
              options summaryRatio maxSentences (sorted_NoDup HS)) as [_ Hincl].
  pose proof (sentences_inLine options text) as Htidy.
  rewrite Forall_forall in Htidy.
  set (selected := selectSentences options summaryRatio maxSentences
                     (sentencesWithMetadata options text)) in *.
  assert (Hne : Forall (fun s => nonEmpty (Summarizer.text s) = true) selected).
  { apply Forall_forall. intros s Hs. now apply Htidy, Hincl. }
  rewrite (@summarize_assembled STOPWORDS Math_log Math_pow text summaryRatio maxSentences
             options Hn).
  fold selected. rewrite (@assemble_render selected Hsel Hne). unfold render.
  destruct (@groupByParagraph_grouped selected Hsel) as (Hcat & _ & Hgroups).
  apply paragraphsOf_join. rewrite Forall_map.
  apply Forall_forall. intros g Hg.
  rewrite Forall_forall in Hgroups. destruct (Hgroups g Hg) as [Hnonnil _].
  assert (Hmembers : forall s, In s (snd g) ->
            nonEmpty (Summarizer.text s) = true
            /\ isTrimmed (Summarizer.text s) = true
            /\ allChars inLine (Summarizer.text s) = true).
  { intros s Hs. apply Htidy, Hincl. rewrite <- Hcat.
    apply in_concat. exists (snd g). split; [now apply in_map | exact Hs]. }
  assert (Hnil : map Summarizer.text (snd g) <> [])
    by (destruct (snd g); [contradiction | discriminate]).
  assert (Hedged : edged (join " " (map Summarizer.text (snd g)))).
  { apply edged_join; [exact Hnil|]. rewrite Forall_map. apply Forall_forall.
    intros s Hs. destruct (Hmembers s Hs) as (H1 & H2 & _). now apply edged_trimmed. }
  destruct (trimmed_edged _ Hedged) as [H1 H2].
  split; [exact H1|]. split; [exact H2|].
  apply allChars_join; [reflexivity|]. rewrite Forall_map. apply Forall_forall.
  intros s Hs. apply (Hmembers s Hs).
Qed.

End Reread.

End RereadFacts.

(* ================================================================== *)
(** * Worked examples *)
(* ================================================================== *)

Module Examples.

Import Number JsString Summarizer DocumentOrder Samples Rounding.
Local Open Scope string_scope.

Lemma summarize_degenerate_witness :
  summarize someStopwords someLog somePow "Fish swim in water." None None plain
  = "Fish swim in water.".
Proof.
  apply (proj1 (proj2 (proj2 (proj2
           (SummarizerFacts.summarize_degenerate someStopwords someLog somePow))))).
  - vm_compute. discriminate.
  - vm_compute. lia.
Defined.

Lemma summarize_paragraphs_ascend_witness :
  StronglySorted lt
    (map fst
       (groupByParagraph
          (selectSentences someStopwords someLog somePow plain None (Some two)
             (sentencesWithMetadata someStopwords plain twoParagraphs)))).
Proof.
  refine (proj1 (proj2
            (@SummarizerFacts.summarize_paragraphs_ascend someStopwords someLog somePow
               twoParagraphs None (Some two) plain _))).
  vm_compute. lia.
Defined.

Lemma rankSentences_scores_witness :
  exists rounds,
    1 <= rounds <= TextRank.MAX_ITERATIONS
    /\ TextRank.rankSentences someStopwords somePow ["Cats purr."; "Dogs bark."]
       = map (RankSpec.scoreAfter someStopwords ["Cats purr."; "Dogs bark."] rounds) [0; 1].
Proof.
  destruct (proj2 (proj2 (proj2 (RankRounds.rankSentences_scores someStopwords somePow)))
              ["Cats purr."; "Dogs bark."]) as (rounds & Hb & Heq & _).
  - simpl. lia.
  - exists rounds. split; [exact Hb | exact Heq].
Defined.

Lemma calculateSimilarity_self_not_one :
  TokenSets.tokenSet someStopwords "Cats purr." = ["cat"; "purr"]
  /\ TextRank.calculateSimilarity someStopwords "Cats purr." "Cats purr."
     = S754_finite false 9007199254740990 (-53)
  /\ Number.eqb (TextRank.calculateSimilarity someStopwords "Cats purr." "Cats purr.") one = false
  /\ TokenSets.tokenSet someStopwords "Cats chase dogs." = ["cat"; "chase"; "dog"]
  /\ TextRank.calculateSimilarity someStopwords "Cats chase dogs." "Cats chase dogs."
     = S754_finite false 4503599627370497 (-52)
  /\ Number.leb (TextRank.calculateSimilarity someStopwords "Cats chase dogs." "Cats chase dogs.") one
     = false.
Proof. vm_compute. repeat split. Qed.

Lemma calculateSimilarity_self_above_one_witness :
  TextRank.calculateSimilarity someStopwords "Cats chase dogs." "Cats chase dogs."
  = S754_finite false 4503599627370497 (-52)
  /\ Number.leb (TextRank.calculateSimilarity someStopwords "Cats chase dogs."
                   "Cats chase dogs.") one = false
  /\ Number.eqb (TextRank.calculateSimilarity someStopwords "Cats chase dogs."
                   "Cats chase dogs.") one = false.
Proof.
  apply (SimilarityFacts.calculateSimilarity_self_above_one someStopwords "Cats chase dogs.").
  vm_compute. reflexivity.
Defined.

Lemma position_multipliers_witness :
  let text := "Cats purr loudly. Dogs bark at cats. Birds sing songs." in
  let s := nth 2 (sentencesWithMetadata someStopwords favoring text)
               (Build_SentenceWithMetadata 0 EmptyString 0 0 zero) in
  List.length (paragraphsOf text) = 1
  /\ position s = Math_max zero (Math_min one (mul lit_0_8 lit_1_2))
  /\ Number.eqb (position s) (Math_max zero (Math_min one (mul lit_0_8 lit_1_1))) = false.
Proof.
  intros text s.
  assert (Hone : List.length (paragraphsOf text) = 1) by reflexivity.
  split; [exact Hone|]. split; [|vm_compute; reflexivity].
  refine (proj1 (proj2 (proj2 (proj2 (proj2 (proj2 (proj2 (proj2
            (@PositionFacts.position_multipliers someStopwords favoring text s
               _ _ _)))))))) Hone).
  - reflexivity.
  - vm_compute. tauto.
  - apply Z.leb_le. vm_compute. reflexivity.
Defined.

Lemma summarize_selects_witness :
  List.length
    (selectSentences someStopwords someLog somePow plain None (Some two)
       (sentencesWithMetadata someStopwords plain twoParagraphs))
  = 2.
Proof.
  refine (proj1 (@SelectionFacts.summarize_selects someStopwords someLog somePow
                   twoParagraphs None (Some two) plain _ _ _) 2 _ _ _).
  - vm_compute. lia.
  - apply Z.leb_le. vm_compute. reflexivity.
  - reflexivity.
  - lia.
  - vm_compute. reflexivity.
  - reflexivity.
Defined.

Lemma summarize_zero_maximum_witness :
  summarize someStopwords someLog somePow twoParagraphs None (Some zero) plain
  = summarize someStopwords someLog somePow twoParagraphs None None plain.
Proof.
  refine (proj1 (proj2 (proj2 (proj2
            (@SelectionFacts.summarize_zero_maximum someStopwords someLog somePow
               twoParagraphs None plain _ _ _ _))))).
  - vm_compute. lia.
  - apply Z.leb_le. vm_compute. reflexivity.
  - reflexivity.
  - reflexivity.
Defined.

Lemma selection_with_ratio_above_one :
  List.length (sentencesWithMetadata someStopwords plain twoParagraphs) = 5
  /\ List.length
       (selectSentences someStopwords someLog somePow plain (Some two) None
          (sentencesWithMetadata someStopwords plain twoParagraphs)) = 5
  /\ Math_max one (Math_floor (mul (of_nat 5) two)) = of_nat 10.
Proof.
  split; [reflexivity|]. split; [|reflexivity].
  rewrite SelectionFacts.selectSentences_plain_length by reflexivity. reflexivity.
Qed.

Lemma rankSentences_lower_bound_witness :
  Forall (fun score =>
            Number.leb (div (sub one TextRank.DAMPING) (of_nat 2)) score = true
            /\ Number.ltb zero score = true)
         (TextRank.rankSentences someStopwords somePow ["Cats purr."; "Dogs bark."]).
Proof.
  refine (proj2 (@RankFacts.rankSentences_lower_bound someStopwords somePow
                   ["Cats purr."; "Dogs bark."] _ _ _)).
  - simpl. lia.
  - vm_compute. reflexivity.
  - repeat constructor; apply Z.leb_le; vm_compute; reflexivity.
Defined.

Lemma selection_with_NaN_ratio :
  selectSentences someStopwords someLog somePow plain (Some S754_nan) (Some zero)
    (sentencesWithMetadata someStopwords plain twoParagraphs) = []
  /\ summarize someStopwords someLog somePow twoParagraphs (Some S754_nan) (Some zero) plain
     = EmptyString.
Proof. vm_compute. split; reflexivity. Qed.

End Examples.

(* ================================================================== *)
(** * Further worked examples *)
(* ================================================================== *)

Module Cases.

Import Number JsString JsArray Summarizer DocumentOrder Samples Rounding.
Import Alphabet Sequences TfIdfSpec Ranking.
Local Open Scope string_scope.

Lemma stemWord_shortens_witness :
  String.length (Tokenizer.stemWord "running") <= String.length "running"
  /\ Tokenizer.stemWord "running" <> EmptyString
  /\ (Tokenizer.stemWord "running" = "running"
      \/ (exists k, 1 <= k <= 3 /\ k < String.length "running"
                    /\ Tokenizer.stemWord "running" = dropLast k "running")
      \/ (4 < String.length "running"
          /\ Tokenizer.stemWord "running" = dropLast 3 "running" ++ "y")).
Proof.
  destruct (StemWordFacts.stemWord_shortens "running") as (H1 & H2 & H3).
  split; [exact H1|]. split; [apply H2; discriminate | apply H3; reflexivity].
Defined.

Lemma stemWord_suffix_rules_witness :
  includes "jump" "-" = false
  /\ Tokenizer.stemWord ("jump" ++ "ed") = "jump"
  /\ Tokenizer.stemWord ("jump" ++ "ly") = "jump"
  /\ Tokenizer.stemWord ("jump" ++ "ies") = "jump" ++ "y".
Proof.
  destruct (StemWordFacts.stemWord_suffix_rules "jump" eq_refl) as (H1 & H2 & H3 & _).
  split; [reflexivity|]. split; [apply H1; [simpl; lia | reflexivity]|].
  split; [apply H2; simpl; lia | apply H3; simpl; lia].
Defined.

Lemma splitSentences_unterminated_witness :
  existsChar Tokenizer.isTerminator "  no end here " = false
  /\ Tokenizer.splitSentences "  no end here " = filter nonEmpty [trim "  no end here "].
Proof.
  split; [reflexivity|].
  apply (proj2 (UnterminatedFacts.splitSentences_unterminated "  no end here " eq_refl)).
  reflexivity.
Defined.

Lemma calculateSimilarity_shared_token_witness :
  (exists w, In w (Tokenizer.tokenizeWords someStopwords "Cats purr." true)
             /\ In w (Tokenizer.tokenizeWords someStopwords "Cats bark." true))
  <-> ltb zero (TextRank.calculateSimilarity someStopwords "Cats purr." "Cats bark.") = true.
Proof.
  refine (proj1 (@GraphFacts.calculateSimilarity_shared_token someStopwords
                   "Cats purr." "Cats bark." _ _)); apply Z.leb_le; vm_compute; reflexivity.
Defined.

Lemma buildSimilarityMatrix_symmetric_witness :
  TextRank.entry (TextRank.buildSimilarityMatrix someStopwords
                    ["Cats purr."; "Cats bark."; "Dogs bark."]) 0 2
  = TextRank.entry (TextRank.buildSimilarityMatrix someStopwords
                      ["Cats purr."; "Cats bark."; "Dogs bark."]) 2 0.
Proof.
  apply (proj2 (proj2 (proj2
           (GraphFacts.buildSimilarityMatrix_symmetric someStopwords
              ["Cats purr."; "Cats bark."; "Dogs bark."]))) 0 2); simpl; lia.
Defined.

Lemma scoreSentences_lookup_witness :
  let sentences := sentencesWithMetadata someStopwords plain twoParagraphs in
  NoDup (map index sentences)
  /\ map fst (scoreSentences someStopwords somePow sentences []) = map index sentences.
Proof.
  assert (H : NoDup (map index (sentencesWithMetadata someStopwords plain twoParagraphs))).
  { vm_compute. repeat constructor; simpl; lia. }
  split; [exact H|].
  exact (proj1 (ScoreFacts.scoreSentences_lookup someStopwords somePow _ [] H)).
Defined.

Lemma deduplicateSentences_spec_witness :
  let first := Build_SentenceWithMetadata 0 "Cats purr." 0 2 lit_0_5 in
  let second := Build_SentenceWithMetadata 1 "Cats purr." 0 2 lit_0_5 in
  In second (deduplicateSentences someStopwords [first; second] lit_0_6)
  \/ exists kept,
       In kept (deduplicateSentences someStopwords [first; second] lit_0_6)
       /\ ltb lit_0_6 (TextRank.calculateSimilarity someStopwords (text second) (text kept))
          = true.
Proof.
  intros first second.
  apply (proj1 (proj2 (proj2
           (DuplicateFacts.deduplicateSentences_spec someStopwords lit_0_6
              [first; second])))).
  simpl. auto.
Defined.

Lemma calculateTfIdf_spec_witness :
  let sentences := ["Cats purr loudly."; "Dogs bark at cats."] in
  let documents := map (fun s => Tokenizer.tokenizeWords someStopwords s true) sentences in
  (Z.of_nat (List.length (List.concat documents)) < 2 ^ 53)%Z
  /\ In "cat" (List.concat documents)
  /\ get String.eqb (calculateTfIdf someStopwords someLog sentences) "cat"
     = Some (mul (of_nat (occurrences "cat" (List.concat documents)))
                 (someLog (div (of_nat (List.length sentences))
                               (of_nat (documentsWith "cat" documents))))).
Proof.
  intros sentences documents.
  assert (H : (Z.of_nat (List.length (List.concat documents)) < 2 ^ 53)%Z)
    by (vm_compute; reflexivity).
  assert (Hin : In "cat" (List.concat documents)) by (vm_compute; auto).
  split; [exact H|]. split; [exact Hin|].
  exact (proj2 (proj1 (proj2 (TfIdfFacts.calculateTfIdf_spec someStopwords someLog
                                sentences H)) "cat" Hin)).
Defined.

Lemma selectSentences_subsequence_witness :
  let removing := {| deduplicateSimilar := true; favorPositionScore := false |} in
  ForallOrdPairs
    (fun a b => ltb lit_0_6 (TextRank.calculateSimilarity someStopwords (text a) (text b))
                = false)
    (selectSentences someStopwords someLog somePow removing None (Some two)
       (sentencesWithMetadata someStopwords removing twoParagraphs)).
Proof.
  intro removing.
  apply (proj2 (ChoiceFacts.selectSentences_subsequence someStopwords someLog somePow
                  removing None (Some two) twoParagraphs)).
  reflexivity.
Defined.

Lemma topSentences_highest_witness :
  let sentences := sentencesWithMetadata someStopwords plain twoParagraphs in
  let scores := [(0%nat, one); (1%nat, two); (3%nat, ten)] in
  Forall (fun entry : nat * number => isNumber (snd entry)) scores
  /\ StronglySorted (fun a b => ltb (scoreOf scores a) (scoreOf scores b) = false)
                    (topSentences scores two sentences).
Proof.
  intros sentences scores.
  assert (H : Forall (fun entry : nat * number => isNumber (snd entry)) scores)
    by (repeat constructor).
  split; [exact H|].
  exact (proj1 (OrderFacts.topSentences_highest scores two sentences H)).
Defined.

Lemma summarize_paragraphs_reread_witness :
  paragraphsOf (summarize someStopwords someLog somePow twoParagraphs None (Some two) plain)
  = map (fun g => join " " (map text (snd g)))
        (groupByParagraph
           (selectSentences someStopwords someLog somePow plain None (Some two)
              (sentencesWithMetadata someStopwords plain twoParagraphs))).
Proof.
  apply (RereadFacts.summarize_paragraphs_reread someStopwords someLog somePow
           twoParagraphs None (Some two) plain).
  vm_compute. lia.
Defined.

End Cases.
